(** * drizzle-turso: schema model, diff engine and statement generator

    A shallow embedding of [definitions.ts], [differences.ts],
    [sql-utils.ts] and of [transformDefault] from [drizzle.ts].

    Conventions of the embedding.
    - A JavaScript string is a [string]: the sequence of the bytes of its
      text in the generalised UTF-8 encoding, in which a surrogate code
      unit that has no partner is encoded like a code point, by the three
      bytes ED A0..BF 80..BF.  [encodeURIComponent] is then a byte-wise
      percent encoding, which throws on such a lone surrogate.
    - A thrown exception is the result [Throw msg]; a normal return is
      [Ok v].
    - A [Map<string, V>] is an association list in insertion order; a
      [Set<T>] is a list in insertion order without repetition, where
      membership is decided by object identity (or by string equality for
      [Set<string>]).
    - Objects carry an identity tag ([col_id], [idx_id], [tbl_id]).  A
      pointer to a [Table] is a [TableRef]: the identity of the table and
      the value of its [name] field while the snapshot is read.
    - The random identifier generator of [recreateTableSql] is a
      parameter: the strings that its calls return during a run. *)

From Stdlib Require Import List String Ascii Bool Arith ZArith Lia.
From Stdlib Require Import Sorting.Permutation Sorting.Sorted.
From Stdlib Require Import DecimalString.
Import ListNotations.
Open Scope string_scope.
Open Scope list_scope.

Set Implicit Arguments.

(** ** Exceptions *)

Inductive Result (A : Type) : Type :=
| Ok (a : A)
| Throw (msg : string).
Arguments Ok {A} a.
Arguments Throw {A} msg.

Definition bind {A B} (c : Result A) (k : A -> Result B) : Result B :=
  match c with
  | Ok a => k a
  | Throw m => Throw m
  end.

Notation "x <- c ;; k" := (bind c (fun x => k))
  (at level 61, c at next level, right associativity).
Notation "c ;;; k" := (bind c (fun _ => k))
  (at level 61, right associativity).

(** [for (const x of xs) body(x)] where the body may throw. *)
Fixpoint forEach {A} (body : A -> Result unit) (xs : list A) : Result unit :=
  match xs with
  | [] => Ok tt
  | x :: r => body x ;;; forEach body r
  end.

(** [xs.map(f)] where [f] may throw. *)
Fixpoint mapM {A B} (f : A -> Result B) (xs : list A) : Result (list B) :=
  match xs with
  | [] => Ok []
  | x :: r => y <- f x ;; ys <- mapM f r ;; Ok (y :: ys)
  end.

(** A loop that pushes zero or more elements per iteration. *)
Fixpoint flatMapM {A B} (f : A -> Result (list B)) (xs : list A)
  : Result (list B) :=
  match xs with
  | [] => Ok []
  | x :: r => y <- f x ;; ys <- flatMapM f r ;; Ok (y ++ ys)
  end.

(** A loop over [xs] that threads a local state. *)
Fixpoint foldM {A S} (f : S -> A -> Result S) (xs : list A) (s : S)
  : Result S :=
  match xs with
  | [] => Ok s
  | x :: r => s' <- f s x ;; foldM f r s'
  end.

Definition when (b : bool) (c : Result unit) : Result unit :=
  if b then c else Ok tt.

(** ** Strings *)

Definition nl : string := Eval cbv in String (ascii_of_nat 10) EmptyString.
Definition dquote : string := Eval cbv in String (ascii_of_nat 34) EmptyString.

(** A template literal: the concatenation of its pieces. *)
Definition tpl (pieces : list string) : string := String.concat "" pieces.

(** [xs.join(sep)] *)
Definition join (sep : string) (xs : list string) : string :=
  String.concat sep xs.

(** Truthiness of a [string | null] value. *)
Definition truthy (v : option string) : bool :=
  match v with
  | None => false
  | Some s => negb (s =? "")
  end.

(** How a [string | null] value is rendered inside a template literal. *)
Definition render_nullable (v : option string) : string :=
  match v with
  | None => "null"
  | Some s => s
  end.

Definition nullable_eqb (a b : option string) : bool :=
  match a, b with
  | None, None => true
  | Some x, Some y => x =? y
  | _, _ => false
  end.

Definition hexDigit (n : nat) : ascii :=
  nth n ["0"; "1"; "2"; "3"; "4"; "5"; "6"; "7"; "8"; "9";
         "A"; "B"; "C"; "D"; "E"; "F"]%char "0"%char.

Definition isUnreserved (c : ascii) : bool :=
  let n := nat_of_ascii c in
  ((65 <=? n)%nat && (n <=? 90)%nat) || ((97 <=? n)%nat && (n <=? 122)%nat)
  || ((48 <=? n)%nat && (n <=? 57)%nat)
  || existsb (Ascii.eqb c) ["-"; "_"; "."; "!"; "~"; "*"; "'"; "("; ")"]%char.

(** [s.isWellFormed()]: no surrogate without its partner, that is, no
    byte ED followed by a byte from A0 on. *)
Fixpoint isWellFormed (s : string) : bool :=
  match s with
  | EmptyString => true
  | String c r =>
      match r with
      | String c' _ =>
          if (nat_of_ascii c =? 237)%nat && (160 <=? nat_of_ascii c')%nat
          then false
          else isWellFormed r
      | EmptyString => true
      end
  end.

(** The escape of each byte that is not unreserved. *)
Fixpoint percentEncode (s : string) : string :=
  match s with
  | EmptyString => EmptyString
  | String c r =>
      if isUnreserved c then String c (percentEncode r)
      else
        let n := nat_of_ascii c in
        String "%" (String (hexDigit (n / 16)) (String (hexDigit (n mod 16))
          (percentEncode r)))
  end.

(** [encodeURIComponent(s)] throws a [URIError] when [s] holds a lone
    surrogate. *)
Definition encodeURIComponent (s : string) : Result string :=
  if isWellFormed s then Ok (percentEncode s)
  else Throw "URIError: URI malformed".

(** [xs.sort()] on strings: ascending code-unit order. *)
Fixpoint sort_insert (x : string) (l : list string) : list string :=
  match l with
  | [] => [x]
  | y :: r => if String.leb x y then x :: l else y :: sort_insert x r
  end.

Definition sort (l : list string) : list string :=
  fold_right sort_insert [] l.

(** ** Maps and sets *)

Definition JsMap (V : Type) : Type := list (string * V).

Fixpoint map_get {V} (k : string) (m : JsMap V) : option V :=
  match m with
  | [] => None
  | (k', v) :: r => if k =? k' then Some v else map_get k r
  end.

Definition map_has {V} (k : string) (m : JsMap V) : bool :=
  match map_get k m with
  | Some _ => true
  | None => false
  end.

Fixpoint map_set {V} (k : string) (v : V) (m : JsMap V) : JsMap V :=
  match m with
  | [] => [(k, v)]
  | (k', v') :: r =>
      if k =? k' then (k', v) :: r else (k', v') :: map_set k v r
  end.

Definition map_values {V} (m : JsMap V) : list V := List.map snd m.
Definition map_keys {V} (m : JsMap V) : list string := List.map fst m.
Definition map_size {V} (m : JsMap V) : nat := List.length m.

(** [new Map(entries)] *)
Definition Map_from {V} (entries : list (string * V)) : JsMap V :=
  fold_left (fun m e => map_set (fst e) (snd e) m) entries [].

Section JsSet.
Variable T : Type.
Variable same : T -> T -> bool.

Definition set_has (x : T) (s : list T) : bool := existsb (same x) s.

Definition set_add (x : T) (s : list T) : list T :=
  if set_has x s then s else s ++ [x].

Definition set_delete (x : T) (s : list T) : list T :=
  filter (fun y => negb (same x y)) s.

(** Adding every element of an iterable to a set, in order. *)
Definition set_add_all (xs : list T) (s : list T) : list T :=
  fold_left (fun acc x => set_add x acc) xs s.

Definition set_delete_all (xs : list T) (s : list T) : list T :=
  fold_left (fun acc x => set_delete x acc) xs s.

(** [new Set(xs)] *)
Definition Set_from (xs : list T) : list T := set_add_all xs [].
End JsSet.

(** ** The schema model ([definitions.ts]) *)

Inductive ColumnType := INTEGER | TEXT | REAL | BLOB | NULL | UNRECOGNIZED.

Definition ColumnType_text (t : ColumnType) : string :=
  match t with
  | INTEGER => "INTEGER"
  | TEXT => "TEXT"
  | REAL => "REAL"
  | BLOB => "BLOB"
  | NULL => "NULL"
  | UNRECOGNIZED => ""
  end.

Definition ColumnType_eqb (a b : ColumnType) : bool :=
  match a, b with
  | INTEGER, INTEGER | TEXT, TEXT | REAL, REAL | BLOB, BLOB
  | NULL, NULL | UNRECOGNIZED, UNRECOGNIZED => true
  | _, _ => false
  end.

Inductive ForeignKeyAction :=
  NO_ACTION | RESTRICT | SET_NULL | SET_DEFAULT | CASCADE.

Definition ForeignKeyAction_text (a : ForeignKeyAction) : string :=
  match a with
  | NO_ACTION => "NO ACTION"
  | RESTRICT => "RESTRICT"
  | SET_NULL => "SET NULL"
  | SET_DEFAULT => "SET DEFAULT"
  | CASCADE => "CASCADE"
  end.

(** A pointer to a [Table] object. *)
Record TableRef := mkRef { ref_id : nat; ref_name : string }.

(** [TableElement]: the [table] field is [null] until [mount] is called. *)
Definition ownerTable (table : option TableRef) : Result TableRef :=
  match table with
  | None => Throw "TableElement is not mounted"
  | Some t => Ok t
  end.

Record Column := mkColumn {
  col_id : nat;
  col_name : string;
  col_type : ColumnType;
  col_notNull : bool;
  col_defaultValue : option string;
  col_autoIncrement : bool;
  col_table : option TableRef
}.

(** [new Column(name, type, notNull, defaultValue, autoIncrement)]; the new
    object gets the identity [id] and is not mounted. *)
Definition Column_new (id : nat) (name : string) (type : ColumnType)
    (notNull : bool) (defaultValue : option string) (autoIncrement : bool)
  : Column :=
  {| col_id := id; col_name := name; col_type := type; col_notNull := notNull;
     col_defaultValue :=
       match defaultValue with
       | Some s => if s =? "NULL" then None else Some s
       | None => None
       end;
     col_autoIncrement := autoIncrement; col_table := None |}.

Record Index := mkIndex {
  idx_id : nat;
  idx_name : string;
  idx_unique : bool;
  idx_columns : list Column;
  idx_table : option TableRef
}.

Record Unique := mkUnique {
  uq_columns : list Column;
  uq_table : option TableRef
}.

Record ForeignKey := mkForeignKey {
  fk_foreignTable : TableRef;
  fk_foreignColumns : list Column;
  fk_localColumns : list Column;
  fk_onUpdate : ForeignKeyAction;
  fk_onDelete : ForeignKeyAction;
  fk_table : option TableRef
}.

(** [primaryKey] is an array that may have holes: [None] is a hole.  An
    array index is an integer from 0 to 2^32 - 2; a write to
    [primaryKey[k]] for any other integer [k] leaves the elements and the
    length of the array as they are and defines a property of the array
    object under the key [k].  [tbl_primaryKeyProperties] holds these
    properties. *)
Record Table := mkTable {
  tbl_id : nat;
  tbl_name : string;
  tbl_columns : JsMap Column;
  tbl_primaryKey : list (option Column);
  tbl_foreignKeys : list ForeignKey;
  tbl_uniques : list Unique;
  tbl_indexes : JsMap Index;
  tbl_primaryKeyProperties : list (Z * Column)
}.

Record Definitions := mkDefinitions { tables : JsMap Table }.

(** Object identity ([===] on objects). *)
Definition Column_same (a b : Column) : bool := (col_id a =? col_id b)%nat.
Definition Index_same (a b : Index) : bool := (idx_id a =? idx_id b)%nat.
Definition Table_same (a b : Table) : bool := (tbl_id a =? tbl_id b)%nat.
Definition TableRef_same (a b : TableRef) : bool := (ref_id a =? ref_id b)%nat.
Definition is_this (t : Table) (r : TableRef) : bool := (ref_id r =? tbl_id t)%nat.

(** The first element seen twice when the elements are added to a
    [Set<Column>] one by one. *)
Fixpoint has_duplicate (seen : list Column) (cols : list Column) : bool :=
  match cols with
  | [] => false
  | c :: r =>
      if set_has Column_same c seen then true
      else has_duplicate (set_add Column_same c seen) r
  end.

Definition Unique_verify (u : Unique) : Result unit :=
  forEach (fun column =>
      co <- ownerTable (col_table column) ;;
      uo <- ownerTable (uq_table u) ;;
      when (negb (TableRef_same co uo))
        (Throw "Unique column must belong to the table"))
    (uq_columns u) ;;;
  when (has_duplicate [] (uq_columns u))
    (Throw "Unique columns must be unique").

(** The loop [for (let i = 0; i < foreignColumns.length; i++)] of
    [ForeignKey.verify]; it runs when both lists have the same length. *)
Fixpoint ForeignKey_verify_pairs (foreignTable owner : TableRef)
    (foreignColumns localColumns : list Column) : Result unit :=
  match foreignColumns, localColumns with
  | f :: fr, l :: lr =>
      fo <- ownerTable (col_table f) ;;
      when (negb (TableRef_same fo foreignTable))
        (Throw "Foreign key column must belong to the foreign table") ;;;
      lo <- ownerTable (col_table l) ;;
      when (negb (TableRef_same lo owner))
        (Throw "Local column must belong to the local table") ;;;
      ForeignKey_verify_pairs foreignTable owner fr lr
  | _, _ => Ok tt
  end.

Definition ForeignKey_verify (fk : ForeignKey) : Result unit :=
  owner <- ownerTable (fk_table fk) ;;
  when (TableRef_same (fk_foreignTable fk) owner)
    (Throw "Foreign table must not be the same as the local table") ;;;
  when (List.length (fk_foreignColumns fk) =? 0)%nat
    (Throw "Foreign columns must not be empty") ;;;
  when (List.length (fk_localColumns fk) =? 0)%nat
    (Throw "Local columns must not be empty") ;;;
  when (negb (List.length (fk_foreignColumns fk)
              =? List.length (fk_localColumns fk))%nat)
    (Throw "Foreign key columns and local columns must have the same length") ;;;
  ForeignKey_verify_pairs (fk_foreignTable fk) owner
    (fk_foreignColumns fk) (fk_localColumns fk) ;;;
  when (has_duplicate [] (fk_localColumns fk))
    (Throw "Local columns must be unique") ;;;
  when (has_duplicate [] (fk_foreignColumns fk))
    (Throw "Foreign columns must be unique").

(** [Table.setColumnAsPrimaryKey]: writing [primaryKey[index]] beyond the
    end of the array extends it and leaves holes below [index]. *)
Fixpoint array_set {A} (l : list (option A)) (i : nat) (x : A)
  : list (option A) :=
  match i, l with
  | O, [] => [Some x]
  | O, _ :: r => Some x :: r
  | S i', [] => None :: array_set [] i' x
  | S i', y :: r => y :: array_set r i' x
  end.

Definition array_get {A} (l : list (option A)) (i : nat) : option A :=
  nth i l None.

Definition with_primaryKey (t : Table) (pk : list (option Column)) : Table :=
  {| tbl_id := tbl_id t; tbl_name := tbl_name t; tbl_columns := tbl_columns t;
     tbl_primaryKey := pk; tbl_foreignKeys := tbl_foreignKeys t;
     tbl_uniques := tbl_uniques t; tbl_indexes := tbl_indexes t;
     tbl_primaryKeyProperties := tbl_primaryKeyProperties t |}.

(** The largest array index, 2^32 - 2. *)
Definition maxArrayIndex : Z := 4294967294.

(** [array[k]] for an integer [k] that is no array index: the property of
    the array object under the key [k], if it has one. *)
Fixpoint property_get {A} (k : Z) (properties : list (Z * A)) : option A :=
  match properties with
  | [] => None
  | (k', v) :: r => if (k =? k')%Z then Some v else property_get k r
  end.

Definition with_primaryKeyProperties (t : Table)
    (properties : list (Z * Column)) : Table :=
  {| tbl_id := tbl_id t; tbl_name := tbl_name t; tbl_columns := tbl_columns t;
     tbl_primaryKey := tbl_primaryKey t;
     tbl_foreignKeys := tbl_foreignKeys t;
     tbl_uniques := tbl_uniques t; tbl_indexes := tbl_indexes t;
     tbl_primaryKeyProperties := properties |}.

(** [Table.setColumnAsPrimaryKey(column, i)] for an integer [i] that a
    number holds exactly together with [i - 1] (at most 2^53 in
    magnitude).  Up to [maxArrayIndex] the slot [i - 1] is an element of
    the array; beyond, it is a property of the array object, which the
    test reads and the assignment writes, while the array stays as it
    is. *)
Definition setColumnAsPrimaryKey (t : Table) (column : Column) (i : Z)
  : Result Table :=
  let index := (i - 1)%Z in
  if (index <? 0)%Z then
    Throw "Index must be greater than 0 (pk_index = 0, means no primary key)"
  else if (index <=? maxArrayIndex)%Z then
    match array_get (tbl_primaryKey t) (Z.to_nat index) with
    | Some _ => Throw "Primary key already set"
    | None =>
        Ok (with_primaryKey t
              (array_set (tbl_primaryKey t) (Z.to_nat index) column))
    end
  else
    match property_get index (tbl_primaryKeyProperties t) with
    | Some _ => Throw "Primary key already set"
    | None =>
        Ok (with_primaryKeyProperties t
              ((index, column) :: tbl_primaryKeyProperties t))
    end.

Definition verifyPrimaryKey (t : Table) : Result unit :=
  forEach (fun slot =>
      match slot with
      | None => Throw "Primary key column is undefined"
      | Some column =>
          when (negb (map_has (col_name column) (tbl_columns t)))
            (Throw "Primary key column must belong to the table")
      end)
    (tbl_primaryKey t).

Definition Table_verify (t : Table) : Result unit :=
  verifyPrimaryKey t ;;;
  forEach (fun column =>
      o <- ownerTable (col_table column) ;;
      when (negb (is_this t o)) (Throw "Column must belong to the table"))
    (map_values (tbl_columns t)) ;;;
  forEach (fun index =>
      o <- ownerTable (idx_table index) ;;
      when (negb (is_this t o)) (Throw "Index must belong to the table"))
    (map_values (tbl_indexes t)) ;;;
  forEach ForeignKey_verify (tbl_foreignKeys t) ;;;
  forEach Unique_verify (tbl_uniques t).

Definition getTable (d : Definitions) (name : string) : Result Table :=
  match map_get name (tables d) with
  | None => Throw (tpl ["Table not found: "; name])
  | Some table => Ok table
  end.

Definition allIndexes (d : Definitions) : list Index :=
  flat_map (fun table => map_values (tbl_indexes table))
    (map_values (tables d)).

Definition allSingleColumnForeignKeys (d : Definitions) : list ForeignKey :=
  flat_map (fun table =>
      filter (fun fk => (List.length (fk_localColumns fk) =? 1)%nat)
        (tbl_foreignKeys table))
    (map_values (tables d)).

(** ** Statement generation ([sql-utils.ts]) *)

Definition quoted (name : string) : string := tpl ["`"; name; "`"].

Definition typeError (property : string) : string :=
  tpl ["TypeError: Cannot read properties of undefined (reading '";
       property; "')"].

(** [columns.map((c) => `\`${c.name}\``).join(',')] *)
Definition quotedNames (columns : list Column) : string :=
  join "," (List.map (fun c => quoted (col_name c)) columns).

(** [table.foreignKeys.find((fk) => fk.localColumns.length === 1 &&
    fk.localColumns[0]!.name === col.name)] *)
Definition singleColumnForeignKeyOf (table : Table) (col : Column)
  : option ForeignKey :=
  find (fun fk =>
      match fk_localColumns fk with
      | [c] => col_name c =? col_name col
      | _ => false
      end)
    (tbl_foreignKeys table).

Definition referencesClause (fk : ForeignKey) : Result string :=
  match fk_foreignColumns fk with
  | [] => Throw (typeError "name")
  | c :: _ =>
      Ok (tpl ["REFERENCES "; quoted (ref_name (fk_foreignTable fk)); "(";
               quoted (col_name c); ") ON DELETE ";
               ForeignKeyAction_text (fk_onDelete fk); " ON UPDATE ";
               ForeignKeyAction_text (fk_onUpdate fk)])
  end.

(** [colSql] before the reference clause is appended. *)
Definition columnSql (col : Column) : string :=
  tpl ["    "; quoted (col_name col); " "; ColumnType_text (col_type col);
       if col_notNull col then " NOT NULL" else "";
       if col_autoIncrement col then " AUTO_INCREMENT" else "";
       if truthy (col_defaultValue col)
       then tpl [" DEFAULT "; render_nullable (col_defaultValue col)]
       else ""].

Definition columnRow (table : Table) (references : bool) (col : Column)
  : Result string :=
  let colSql := columnSql col in
  match singleColumnForeignKeyOf table col with
  | Some fk =>
      if references then
        ref <- referencesClause fk ;; Ok (tpl [colSql; " "; ref])
      else Ok colSql
  | None => Ok colSql
  end.

(** A hole of [primaryKey] is skipped by [map] and rendered by [join] as
    the empty string. *)
Definition primaryKeyRow (table : Table) : list string :=
  if (0 <? List.length (tbl_primaryKey table))%nat then
    [tpl ["    PRIMARY KEY (";
          join "," (List.map (fun slot =>
                        match slot with
                        | Some c => quoted (col_name c)
                        | None => ""
                        end) (tbl_primaryKey table));
          ")"]]
  else [].

Definition foreignKeyRows (table : Table) : list string :=
  List.map (fun fk =>
      tpl ["FOREIGN KEY ("; quotedNames (fk_localColumns fk); ") REFERENCES ";
           quoted (ref_name (fk_foreignTable fk)); "(";
           quotedNames (fk_foreignColumns fk); ") ON DELETE ";
           ForeignKeyAction_text (fk_onDelete fk); " ON UPDATE ";
           ForeignKeyAction_text (fk_onUpdate fk)])
    (filter (fun fk => negb (List.length (fk_localColumns fk) =? 1)%nat)
       (tbl_foreignKeys table)).

Definition uniqueRows (table : Table) : list string :=
  List.map (fun unique =>
      tpl ["    UNIQUE ("; quotedNames (uq_columns unique); ")"])
    (tbl_uniques table).

Definition createTableSQL (table : Table) (references : bool)
    (name : option string) : Result (list string) :=
  columnRows <- mapM (columnRow table references)
                  (map_values (tbl_columns table)) ;;
  let sqlRows :=
    columnRows ++ primaryKeyRow table ++ foreignKeyRows table
    ++ uniqueRows table in
  Ok [tpl ["CREATE TABLE ";
           quoted (match name with Some n => n | None => tbl_name table end);
           " ("; nl; join (tpl [","; nl]) sqlRows; nl; ")"]].

Definition removeTableSQL (tableName : string) : list string :=
  [tpl ["DROP TABLE "; quoted tableName]].

Definition copyDataSQL (from to : string) (columns : list string)
  : list string :=
  [tpl ["INSERT INTO "; quoted to; " SELECT ";
        join "," (List.map quoted columns); " FROM "; quoted from]].

Definition defineColumnSql (column : Column) (forceDefault : bool) : string :=
  let defaultValue :=
    if negb (truthy (col_defaultValue column)) && forceDefault then
      match col_type column with
      | INTEGER | REAL => Some "0"
      | _ => Some (tpl [dquote; dquote])
      end
    else col_defaultValue column in
  let defaultValue :=
    match defaultValue with
    | Some "" => Some (tpl [dquote; dquote])
    | d => d
    end in
  tpl [quoted (col_name column); " "; ColumnType_text (col_type column);
       if col_notNull column then " NOT NULL" else "";
       if col_autoIncrement column then " AUTO_INCREMENT" else "";
       if truthy defaultValue
       then tpl [" DEFAULT "; render_nullable defaultValue] else ""].

Definition addColumnToTableSQL (tableName : string) (column : Column)
  : list string :=
  if col_notNull column
     && match col_defaultValue column with
        | None => true
        | Some s => s =? "NULL"
        end
  then
    [tpl ["ALTER TABLE "; quoted tableName; " ADD COLUMN ";
          defineColumnSql column true];
     tpl ["ALTER TABLE "; quoted tableName; " ALTER COLUMN ";
          quoted (col_name column); " TO "; defineColumnSql column true]]
  else
    [tpl ["ALTER TABLE "; quoted tableName; " ADD COLUMN ";
          defineColumnSql column false]].

Definition addColumnSQL (column : Column) : Result (list string) :=
  owner <- ownerTable (col_table column) ;;
  Ok (addColumnToTableSQL (ref_name owner) column).

Definition removeColumnSQL (column : Column) : Result (list string) :=
  owner <- ownerTable (col_table column) ;;
  Ok [tpl ["ALTER TABLE "; quoted (ref_name owner); " DROP COLUMN ";
           quoted (col_name column)]].

Definition addIndexToTableSQL (tableName indexName : string)
    (columns : list string) : list string :=
  [tpl ["CREATE INDEX IF NOT EXISTS "; quoted indexName; " ON ";
        quoted tableName; " ("; join "," (List.map quoted columns); ")"]].

Definition removeForeignKeyFromColumnSQL (tableName : string)
    (column : Column) : list string :=
  [tpl ["ALTER TABLE "; quoted tableName; " ALTER COLUMN ";
        quoted (col_name column); " TO "; defineColumnSql column false]].

Definition addForeignKeyToColumnSQL (tableName : string) (column : Column)
    (fk : ForeignKey) : Result (list string) :=
  ref <- referencesClause fk ;;
  Ok [tpl ["ALTER TABLE "; quoted tableName; " ALTER COLUMN ";
           quoted (col_name column); " TO "; defineColumnSql column false;
           " "; ref]].

(** [to.primaryKey.find((c) => c.name === column.name)]: [find] visits the
    holes of the array, and reading [name] of a hole throws. *)
Fixpoint primaryKeyHas (name : string) (pk : list (option Column))
  : Result bool :=
  match pk with
  | [] => Ok false
  | None :: _ => Throw (typeError "name")
  | Some c :: r => if col_name c =? name then Ok true else primaryKeyHas name r
  end.

(** [to.uniques.find((u) => u.columns.find((c) => c.name === column.name)
    && u.columns.length === 1)] *)
Definition hasSingleColumnUnique (name : string) (uniques : list Unique)
  : bool :=
  existsb (fun u =>
      existsb (fun c => col_name c =? name) (uq_columns u)
      && (List.length (uq_columns u) =? 1)%nat)
    uniques.

(** The statements of one iteration of the first loop of
    [recreateTableSql], for a column of [to] that [from] lacks. *)
Definition addMissingColumnSql (from to : Table) (column : Column)
  : Result (list string) :=
  let tmpDefaultValueForOldTable :=
    match col_type column with
    | INTEGER | REAL => "0"
    | _ => ""
    end in
  isPk <- primaryKeyHas (col_name column) (tbl_primaryKey to) ;;
  let isUnique :=
    isPk || hasSingleColumnUnique (col_name column) (tbl_uniques to) in
  let tmpDefaultValueForOldTable :=
    match col_defaultValue column with
    | Some d =>
        if negb (d =? "NULL") && negb isUnique then d
        else tmpDefaultValueForOldTable
    | None => tmpDefaultValueForOldTable
    end in
  Ok (addColumnToTableSQL (tbl_name from)
        (Column_new 0 (col_name column) (col_type column)
           (col_notNull column) (Some tmpDefaultValueForOldTable)
           (col_autoIncrement column))
      ++ (if isUnique then
            [tpl ["UPDATE "; quoted (tbl_name from); " SET ";
                  quoted (col_name column);
                  " = (abs(random()) % 10000000)"]]
          else [])).

(** [newId] is the string returned by this call's
    [customAlphabet('1234567890abcdef', 16)()]. *)
Definition recreateTableSql (newId : string) (from to : Table)
  : Result (list string) :=
  let newSuffix := tpl ["__new__"; newId] in
  let newTmpName := tpl [tbl_name to; newSuffix] in
  added <- flatMapM (fun column =>
               if map_has (col_name column) (tbl_columns from) then Ok []
               else addMissingColumnSql from to column)
             (map_values (tbl_columns to)) ;;
  let columns := List.map col_name (map_values (tbl_columns to)) in
  created <- createTableSQL to false (Some newTmpName) ;;
  Ok (added ++ created
      ++ copyDataSQL (tbl_name from) newTmpName columns
      ++ removeTableSQL (tbl_name from)
      ++ [tpl ["ALTER TABLE "; quoted newTmpName; " RENAME TO ";
               quoted (tbl_name from)]]).

(** ** The diff engine ([differences.ts]) *)

Record Operation := mkOperation { title : string; sql : list string }.

Record DifferencesOptions := mkOptions { creationMode : bool }.

Record PushSummary := mkSummary {
  addedColumns : list string;
  removedColumns : list string;
  addedTables : list string;
  removedTables : list string;
  recreatedTables : list string;
  recreateReasons : JsMap string
}.

Definition getTablesToDelete (from to : Definitions) : list Table :=
  filter (fun table => negb (map_has (tbl_name table) (tables to)))
    (map_values (tables from)).

Definition getTablesToAdd (from to : Definitions) : list Table :=
  Set_from Table_same
    (filter (fun table => negb (map_has (tbl_name table) (tables from)))
       (map_values (tables to))).

Definition getColumnsToAddFromTables (from to : Table) : list Column :=
  Set_from Column_same
    (filter (fun column => negb (map_has (col_name column) (tbl_columns from)))
       (map_values (tbl_columns to))).

Definition getColumnsToAdd (from to : Definitions) : list Column :=
  Set_from Column_same
    (flat_map (fun tableTo =>
         match map_get (tbl_name tableTo) (tables from) with
         | None => []
         | Some tableFrom => getColumnsToAddFromTables tableFrom tableTo
         end)
       (map_values (tables to))).

Definition getColumnsToDeleteFromTables (from to : Table) : list Column :=
  Set_from Column_same
    (filter (fun column => negb (map_has (col_name column) (tbl_columns to)))
       (map_values (tbl_columns from))).

Definition getColumnsToDelete (from to : Definitions) : list Column :=
  Set_from Column_same
    (flat_map (fun tableTo =>
         match map_get (tbl_name tableTo) (tables from) with
         | None => []
         | Some tableFrom => getColumnsToDeleteFromTables tableFrom tableTo
         end)
       (map_values (tables to))).

(** [&&] evaluates the comparison of the columns only when the flags and
    the names are equal. *)
Definition indexesEqual (from to : Index) : Result bool :=
  if Bool.eqb (idx_unique from) (idx_unique to)
     && (idx_name from =? idx_name to)
  then
    columnsFrom <- mapM (fun c => encodeURIComponent (col_name c))
                     (idx_columns from) ;;
    columnsTo <- mapM (fun c => encodeURIComponent (col_name c))
                   (idx_columns to) ;;
    Ok (join "," columnsFrom =? join "," columnsTo)
  else Ok false.

(** [new Map(defs.allIndexes().map((i) => [i.name, i]))] *)
Definition indexesByName (defs : Definitions) : JsMap Index :=
  Map_from (List.map (fun i => (idx_name i, i)) (allIndexes defs)).

(** A loop that adds to a [Set<Index>] the entries of a [Map] for which
    the test [wanted] holds; the test may throw. *)
Definition collectIndexes (wanted : string * Index -> Result bool)
    (entries : JsMap Index) : Result (list Index) :=
  foldM (fun collected entry =>
      add <- wanted entry ;;
      Ok (if add then set_add Index_same (snd entry) collected
          else collected))
    entries [].

Definition getIndexesToAdd (from to : Definitions) : Result (list Index) :=
  let indexesFrom := indexesByName from in
  let indexesTo := indexesByName to in
  collectIndexes (fun entry =>
      match map_get (fst entry) indexesFrom with
      | None => Ok true
      | Some indexFrom =>
          equal <- indexesEqual indexFrom (snd entry) ;; Ok (negb equal)
      end)
    indexesTo.

Definition getIndexesToRemove (from to : Definitions)
  : Result (list Index) :=
  let indexesFrom := indexesByName from in
  let indexesTo := indexesByName to in
  collectIndexes (fun entry =>
      match map_get (fst entry) indexesTo with
      | None => Ok true
      | Some indexTo =>
          equal <- indexesEqual (snd entry) indexTo ;; Ok (negb equal)
      end)
    indexesFrom.

(** The elements of an array that [map] and [find] visit: the slots that
    are no holes. *)
Definition elements {A} (array : list (option A)) : list A :=
  flat_map (fun slot => match slot with
                        | Some x => [x]
                        | None => []
                        end) array.

(** The holes of an array as [join] renders them. *)
Definition holes {A} (array : list (option A)) : list string :=
  flat_map (fun slot => match slot with
                        | Some _ => []
                        | None => [""]
                        end) array.

(** [columns.map((col) => encodeURIComponent(col.name)).sort().join(',')]:
    [map] keeps the holes of the array without calling the function on
    them, [sort] moves them to its end and [join] renders each of them as
    the empty string. *)
Definition stringifyColumnsList (columns : list (option Column))
  : Result string :=
  names <- mapM (fun col => encodeURIComponent (col_name col))
             (elements columns) ;;
  Ok (join "," (sort names ++ holes columns)).

Definition primaryKeysEqual (from to : Table) : Result bool :=
  pkFrom <- stringifyColumnsList (tbl_primaryKey from) ;;
  pkTo <- stringifyColumnsList (tbl_primaryKey to) ;;
  Ok (pkFrom =? pkTo).

Definition stringifyUnique (unique : Unique) : Result string :=
  stringifyColumnsList (List.map Some (uq_columns unique)).

Definition stringifyUniques (uniques : list Unique) : Result string :=
  texts <- mapM stringifyUnique uniques ;;
  Ok (join "," (sort (Set_from String.eqb texts))).

Definition uniquesEqual (from to : Table) : Result bool :=
  uniquesFrom <- stringifyUniques (tbl_uniques from) ;;
  uniquesTo <- stringifyUniques (tbl_uniques to) ;;
  Ok (uniquesFrom =? uniquesTo).

Definition stringifyForeignKey (fk : ForeignKey) : Result string :=
  colsFrom <- stringifyColumnsList (List.map Some (fk_localColumns fk)) ;;
  colsTo <- stringifyColumnsList (List.map Some (fk_foreignColumns fk)) ;;
  Ok (tpl [colsFrom; " -> "; colsTo; " on "; ref_name (fk_foreignTable fk);
           " | "; ForeignKeyAction_text (fk_onDelete fk);
           " | "; ForeignKeyAction_text (fk_onUpdate fk)]).

Definition stringifyForeignKeys (fks : list ForeignKey) : Result string :=
  texts <- mapM stringifyForeignKey fks ;;
  Ok (join "," (sort (Set_from String.eqb texts))).

Definition foreignKeysEqual (from to : Table) : Result bool :=
  fksFrom <- stringifyForeignKeys (tbl_foreignKeys from) ;;
  fksTo <- stringifyForeignKeys (tbl_foreignKeys to) ;;
  Ok (fksFrom =? fksTo).

(** The body of the inner loop of [tablesReferences], for a foreign key
    of the table named [name]. *)
Definition addReference (name : string) (graph : JsMap (list string))
    (fk : ForeignKey) : JsMap (list string) :=
  let target := ref_name (fk_foreignTable fk) in
  let ref := match map_get target graph with
             | Some s => s
             | None => []
             end in
  map_set target (set_add String.eqb name ref) graph.

(** For each table name, the names of the tables holding a foreign key
    that targets it. *)
Definition tablesReferences (defs : Definitions) : JsMap (list string) :=
  fold_left (fun dependencyGraph table =>
      fold_left (addReference (tbl_name table)) (tbl_foreignKeys table)
        dependencyGraph)
    (map_values (tables defs)) [].

Record RecreatePlan := mkPlan {
  tablesToRecreate : list string;
  tablesToDropReferences : list string;
  planReasons : JsMap string
}.

(** The reasons pushed by the loop over the columns of [fromTable]. *)
Definition columnReasons (fromTable toTable : Table) : list string :=
  flat_map (fun column =>
      match map_get (col_name column) (tbl_columns toTable) with
      | None => []
      | Some toColumn =>
          (if negb (ColumnType_eqb (col_type column) (col_type toColumn))
           then [tpl ["type of column "; col_name column; " of table ";
                      tbl_name fromTable]]
           else [])
          ++ (if negb (Bool.eqb (col_notNull column) (col_notNull toColumn))
              then [tpl ["notNull of column "; col_name column; " of table ";
                         tbl_name fromTable]]
              else [])
          ++ (if negb (nullable_eqb (col_defaultValue column)
                         (col_defaultValue toColumn))
              then [tpl ["default of column "; col_name column; " of table ";
                         tbl_name fromTable; " (from ";
                         render_nullable (col_defaultValue column); " to ";
                         render_nullable (col_defaultValue toColumn); ")"]]
              else [])
      end)
    (map_values (tbl_columns fromTable)).

Definition hasUniqueIndexes (t : Table) : bool :=
  existsb idx_unique (map_values (tbl_indexes t)).

(** [pkChanged], [uniquesChanged] and [fksChanged] of one iteration. *)
Record Changes := mkChanges {
  pkChanged : bool;
  uniquesChanged : bool;
  fksChanged : bool
}.

Definition compareTables (fromTable toTable : Table) : Result Changes :=
  pkSame <- primaryKeysEqual fromTable toTable ;;
  uniquesSame <- uniquesEqual fromTable toTable ;;
  fksSame <- foreignKeysEqual fromTable toTable ;;
  Ok {| pkChanged := negb pkSame; uniquesChanged := negb uniquesSame;
        fksChanged := negb fksSame |}.

(** The condition of the [if] that guards the structural reasons. *)
Definition structuralChange (added : list string) (fromTable : Table)
    (changed : Changes) : bool :=
  pkChanged changed
  || uniquesChanged changed
  || fksChanged changed
  || hasUniqueIndexes fromTable
  || set_has String.eqb (tbl_name fromTable) added.

Definition structuralReasons (added : list string) (fromTable : Table)
    (changed : Changes) : list string :=
  (if set_has String.eqb (tbl_name fromTable) added
   then ["added columns"] else [])
  ++ (if pkChanged changed then ["pk"] else [])
  ++ (if uniquesChanged changed then ["uniques"] else [])
  ++ (if fksChanged changed then ["fks"] else [])
  ++ (if hasUniqueIndexes fromTable
      then ["unique indexes (migrate to UNIQUE on definition)"] else []).

(** One iteration of [for (const fromTable of from.tables.values())] once
    the comparisons have returned, for a table that [to] has. *)
Definition planStep (to : Definitions) (references : JsMap (list string))
    (added : list string) (plan : RecreatePlan) (fromTable toTable : Table)
    (changed : Changes) : RecreatePlan :=
  let structural := structuralChange added fromTable changed in
  let reason :=
    columnReasons fromTable toTable
    ++ (if structural then structuralReasons added fromTable changed
        else []) in
  let dropReferences :=
    if structural then
      set_add_all String.eqb
        (filter (fun table => map_has table (tables to))
           (match map_get (tbl_name fromTable) references with
            | Some s => s
            | None => []
            end))
        (tablesToDropReferences plan)
    else tablesToDropReferences plan in
  if (0 <? List.length reason)%nat then
    {| tablesToRecreate :=
         set_add String.eqb (tbl_name fromTable) (tablesToRecreate plan);
       tablesToDropReferences :=
         set_add String.eqb (tbl_name fromTable) dropReferences;
       planReasons :=
         map_set (tbl_name fromTable) (join ", " reason)
           (planReasons plan) |}
  else
    {| tablesToRecreate := tablesToRecreate plan;
       tablesToDropReferences := dropReferences;
       planReasons := planReasons plan |}.

(** One iteration of [for (const fromTable of from.tables.values())]. *)
Definition recreateStep (to : Definitions) (references : JsMap (list string))
    (added : list string) (plan : RecreatePlan) (fromTable : Table)
  : Result RecreatePlan :=
  match map_get (tbl_name fromTable) (tables to) with
  | None => Ok plan
  | Some toTable =>
      changed <- compareTables fromTable toTable ;;
      Ok (planStep to references added plan fromTable toTable changed)
  end.

Definition ownerName (table : option TableRef) : Result string :=
  o <- ownerTable table ;; Ok (ref_name o).

Definition getTablesToRecreate (from to : Definitions) : Result RecreatePlan :=
  let references := tablesReferences from in
  owners <- mapM (fun c => ownerName (col_table c))
              (getColumnsToAdd from to) ;;
  let tablesToRecreateFromColumnsToAdd := Set_from String.eqb owners in
  foldM (recreateStep to references tablesToRecreateFromColumnsToAdd)
    (map_values (tables from))
    {| tablesToRecreate := []; tablesToDropReferences := [];
       planReasons := [] |}.

(** The four sets that the loop over [tablesToRecreate] updates. *)
Record WorkingSets := mkSets {
  columnsToDelete : list Column;
  columnsToAdd : list Column;
  indexesToRemove : list Index;
  indexesToAdd : list Index
}.

(** One iteration of the first [for (const name of tablesToRecreate)]. *)
Definition foldIntoRecreate (from to : Definitions) (w : WorkingSets)
    (name : string) : Result WorkingSets :=
  match map_get name (tables from) with
  | None => Throw (typeError "columns")
  | Some tableFrom =>
      match map_get name (tables to) with
      | None => Throw (typeError "columns")
      | Some tableTo =>
          Ok {| columnsToDelete :=
                  set_delete_all Column_same
                    (map_values (tbl_columns tableFrom)) (columnsToDelete w);
                columnsToAdd :=
                  set_delete_all Column_same
                    (map_values (tbl_columns tableTo)) (columnsToAdd w);
                indexesToRemove :=
                  set_add_all Index_same
                    (map_values (tbl_indexes tableFrom)) (indexesToRemove w);
                indexesToAdd :=
                  set_add_all Index_same
                    (map_values (tbl_indexes tableTo)) (indexesToAdd w) |}
      end
  end.

Definition removeIndexOp (index : Index) : Operation :=
  {| title := tpl ["Remove index "; idx_name index];
     sql := [tpl ["DROP INDEX "; quoted (idx_name index)]] |}.

(** [fk.localColumns[0]!] *)
Definition firstLocalColumn (fk : ForeignKey) : Result Column :=
  match fk_localColumns fk with
  | [] => Throw (typeError "name")
  | c :: _ => Ok c
  end.

Definition removeForeignKeyOp (tableName : string) (column : Column)
  : Operation :=
  {| title := tpl ["Remove foreign key "; col_name column; " from table ";
                   tableName];
     sql := removeForeignKeyFromColumnSQL tableName column |}.

(** The body of [for (const fk of foreignKeys)]. *)
Definition removeForeignKeyStep (dropReferences : list string)
    (fk : ForeignKey) : Result (list Operation) :=
  owner <- ownerName (fk_table fk) ;;
  if set_has String.eqb owner dropReferences then
    column <- firstLocalColumn fk ;;
    Ok [removeForeignKeyOp owner column]
  else Ok [].

Definition createTableOp (t : Table) : Result Operation :=
  s <- createTableSQL t false None ;;
  Ok {| title := tpl ["Create table "; tbl_name t]; sql := s |}.

Definition removeTableOp (t : Table) : Operation :=
  {| title := tpl ["Remove table "; tbl_name t];
     sql := removeTableSQL (tbl_name t) |}.

Definition addColumnOp (c : Column) : Result Operation :=
  owner <- ownerName (col_table c) ;;
  s <- addColumnSQL c ;;
  Ok {| title := tpl ["Add column "; col_name c; " to table "; owner];
        sql := s |}.

Definition removeColumnOp (c : Column) : Result Operation :=
  owner <- ownerName (col_table c) ;;
  s <- removeColumnSQL c ;;
  Ok {| title := tpl ["Remove column "; col_name c; " from table "; owner];
        sql := s |}.

Definition recreateTableOp (newId : string) (from to : Definitions)
    (name : string) : Result Operation :=
  oldTable <- getTable from name ;;
  newTable <- getTable to name ;;
  s <- recreateTableSql newId oldTable newTable ;;
  Ok {| title := tpl ["Recreate table "; name]; sql := s |}.

(** The second [for (const name of tablesToRecreate)]: the [k]-th call of
    the identifier generator returns [newId k]. *)
Fixpoint recreateTableOps (newId : nat -> string) (k : nat)
    (from to : Definitions) (names : list string)
  : Result (list Operation) :=
  match names with
  | [] => Ok []
  | name :: r =>
      op <- recreateTableOp (newId k) from to name ;;
      ops <- recreateTableOps newId (S k) from to r ;;
      Ok (op :: ops)
  end.

(** The body of [for (const fk of toForeignKeys)] outside creation mode. *)
Definition addForeignKeyStep (to : Definitions)
    (dropReferences : list string) (tablesToAdd : list Table)
    (fk : ForeignKey) : Result (list Operation) :=
  tableName <- ownerName (fk_table fk) ;;
  wanted <-
    (if set_has String.eqb tableName dropReferences then Ok true
     else t <- getTable to tableName ;;
          Ok (set_has Table_same t tablesToAdd)) ;;
  if negb wanted then Ok []
  else
    column <- firstLocalColumn fk ;;
    owner <- ownerName (fk_table fk) ;;
    s <- addForeignKeyToColumnSQL tableName column fk ;;
    Ok [{| title := tpl ["Add foreign key "; col_name column; " to table ";
                         owner];
           sql := s |}].

Definition addIndexOp (index : Index) : Result Operation :=
  owner <- ownerName (idx_table index) ;;
  Ok {| title := tpl ["Add index "; idx_name index];
        sql := addIndexToTableSQL owner (idx_name index)
                 (List.map col_name (idx_columns index)) |}.

(** [`${c.ownerTable.name}.${c.name}`] *)
Definition qualifiedName (c : Column) : Result string :=
  owner <- ownerName (col_table c) ;;
  Ok (tpl [owner; "."; col_name c]).

Definition inCreationMode (options : option DifferencesOptions) : bool :=
  match options with
  | Some o => creationMode o
  | None => false
  end.

(** [differences(from, to, options)].  [newId k] is what the [k]-th call of
    the random identifier generator returns during this run. *)
Definition differences (newId : nat -> string) (from to : Definitions)
    (options : option DifferencesOptions)
  : Result (PushSummary * list Operation) :=
  if inCreationMode options && (0 <? map_size (tables from))%nat then
    Throw "Creation mode is not supported for existing tables"
  else
    forEach Table_verify (map_values (tables from)) ;;;
    forEach Table_verify (map_values (tables to)) ;;;
    let tablesToDelete := getTablesToDelete from to in
    let tablesToAdd := getTablesToAdd from to in
    plan <- getTablesToRecreate from to ;;
    toAdd <- getIndexesToAdd from to ;;
    toRemove <- getIndexesToRemove from to ;;
    w <- foldM (foldIntoRecreate from to) (tablesToRecreate plan)
           {| columnsToDelete := getColumnsToDelete from to;
              columnsToAdd := [];
              indexesToRemove := toRemove;
              indexesToAdd := toAdd |} ;;
    let removeIndexOps := List.map removeIndexOp (indexesToRemove w) in
    removeForeignKeyOps <-
      flatMapM (removeForeignKeyStep (tablesToDropReferences plan))
        (allSingleColumnForeignKeys from) ;;
    createTableOps <- mapM createTableOp tablesToAdd ;;
    let removeTableOps := List.map removeTableOp tablesToDelete in
    addColumnOps <- mapM addColumnOp (columnsToAdd w) ;;
    removeColumnOps <- mapM removeColumnOp (columnsToDelete w) ;;
    recreateOps <- recreateTableOps newId 0 from to (tablesToRecreate plan) ;;
    addForeignKeyOps <-
      (if inCreationMode options then Ok []
       else flatMapM
              (addForeignKeyStep to (tablesToDropReferences plan) tablesToAdd)
              (allSingleColumnForeignKeys to)) ;;
    addIndexOps <- mapM addIndexOp (indexesToAdd w) ;;
    added <- mapM qualifiedName (columnsToAdd w) ;;
    removed <- mapM qualifiedName (columnsToDelete w) ;;
    Ok ({| addedColumns := added;
           removedColumns := removed;
           addedTables := List.map tbl_name tablesToAdd;
           removedTables := List.map tbl_name tablesToDelete;
           recreatedTables := tablesToRecreate plan;
           recreateReasons := planReasons plan |},
        removeIndexOps ++ removeForeignKeyOps ++ createTableOps
        ++ removeTableOps ++ addColumnOps ++ removeColumnOps ++ recreateOps
        ++ addForeignKeyOps ++ addIndexOps).


(** ** The default-literal encoder ([drizzle.ts]) *)

(** [`'${value.replace(/'/g, "''")}'`] *)
Fixpoint doubleQuotes (value : string) : string :=
  match value with
  | EmptyString => EmptyString
  | String c r =>
      if Ascii.eqb c "'" then String "'" (String "'" (doubleQuotes r))
      else String c (doubleQuotes r)
  end.

Definition escapeString (value : string) : string :=
  tpl ["'"; doubleQuotes value; "'"].

(** *** Numbers

    A number is NaN, an infinity, a zero, or [+-0.d1...dk * 10^n], given
    by the digits [d1 ... dk] of its shortest decimal form ([d1] and [dk]
    are not 0) and by [n]: the integers [s], [k] and [n] of
    [Number::toString], with [digits] the decimal numeral of [s]. *)
Inductive JsNumber :=
| NaN
| Infinity (negative : bool)
| Zero (negative : bool)
| Finite (negative : bool) (digits : string) (n : Z).

Fixpoint zeros (count : nat) : string :=
  match count with
  | O => EmptyString
  | S c => String "0" (zeros c)
  end.

(** The decimal numeral of an integer. *)
Definition numeral (z : Z) : string := NilZero.string_of_int (Z.to_int z).

(** [Number::toString(x, 10)]: between 10^-7 and 10^21 the digits with
    zeros and a point as needed, otherwise the exponent notation. *)
Definition Number_toString (x : JsNumber) : string :=
  match x with
  | NaN => "NaN"
  | Infinity negative => if negative then "-Infinity" else "Infinity"
  | Zero _ => "0"
  | Finite negative digits n =>
      let k := Z.of_nat (String.length digits) in
      let text :=
        if ((-5 <=? n) && (n <=? 21))%Z then
          if (k <=? n)%Z then (digits ++ zeros (Z.to_nat (n - k)))%string
          else if (0 <? n)%Z then
            (substring 0 (Z.to_nat n) digits ++ "."
             ++ substring (Z.to_nat n) (Z.to_nat (k - n)) digits)%string
          else ("0." ++ zeros (Z.to_nat (- n)) ++ digits)%string
        else
          let e := (n - 1)%Z in
          let exponent :=
            ((if (e <? 0)%Z then "-" else "+") ++ numeral (Z.abs e))%string
          in
          match digits with
          | EmptyString => EmptyString
          | String d EmptyString => String d ("e" ++ exponent)%string
          | String d rest =>
              String d ("." ++ rest ++ "e" ++ exponent)%string
          end in
      ((if negative then "-" else "") ++ text)%string
  end.

Definition isFinite (x : JsNumber) : bool :=
  match x with
  | NaN | Infinity _ => false
  | Zero _ | Finite _ _ _ => true
  end.

(** *** JSON *)

(** What [JSON.stringify(value)] does: it returns a text, returns
    [undefined], or throws. *)
Inductive JsonOutcome :=
| JsonText (text : string)
| JsonUndefined
| JsonThrows (msg : string).

(** Plain data: primitive values, arrays, and objects whose own
    enumerable properties are given in the order of [Object.keys] and
    which have no [toJSON] method.  Being a tree, the data has no
    cycle. *)
Unset Elimination Schemes.
Inductive JsData :=
| DUndefined
| DNull
| DString (s : string)
| DNumber (x : JsNumber)
| DBoolean (b : bool)
| DBigInt (z : Z)
| DSymbol
| DFunction
| DArray (items : list JsData)
| DObject (properties : list (string * JsData)).
Set Elimination Schemes.

Definition hexLower (n : nat) : ascii :=
  nth n ["0"; "1"; "2"; "3"; "4"; "5"; "6"; "7"; "8"; "9";
         "a"; "b"; "c"; "d"; "e"; "f"]%char "0"%char.

(** [UnicodeEscape]: the code unit as four hexadecimal digits. *)
Definition unicodeEscape (unit : nat) : string :=
  String "\" (String "u"
    (String (hexLower (unit / 4096))
      (String (hexLower ((unit / 256) mod 16))
        (String (hexLower ((unit / 16) mod 16))
          (String (hexLower (unit mod 16)) EmptyString))))).

(** The two-character escapes of [QuoteJSONString]. *)
Definition shortEscape (c : ascii) : option string :=
  let n := nat_of_ascii c in
  if (n =? 8)%nat then Some "\b"
  else if (n =? 9)%nat then Some "\t"
  else if (n =? 10)%nat then Some "\n"
  else if (n =? 12)%nat then Some "\f"
  else if (n =? 13)%nat then Some "\r"
  else if (n =? 34)%nat then Some (String "\" dquote)
  else if (n =? 92)%nat then Some "\\"
  else None.

(** The characters of [QuoteJSONString(s)] between its quotes: a short
    escape, a [\u] escape for another control character or for a lone
    surrogate, the character itself otherwise. *)
Fixpoint quoteJSONBody (s : string) : string :=
  match s with
  | EmptyString => EmptyString
  | String c r =>
      match shortEscape c with
      | Some escape => (escape ++ quoteJSONBody r)%string
      | None =>
          if (nat_of_ascii c <? 32)%nat then
            (unicodeEscape (nat_of_ascii c) ++ quoteJSONBody r)%string
          else
            match r with
            | String c2 (String c3 r') =>
                if (nat_of_ascii c =? 237)%nat
                   && (160 <=? nat_of_ascii c2)%nat
                then
                  (unicodeEscape (13 * 4096 + (nat_of_ascii c2 - 128) * 64
                                  + (nat_of_ascii c3 - 128))
                   ++ quoteJSONBody r')%string
                else String c (quoteJSONBody r)
            | _ => String c (quoteJSONBody r)
            end
      end
  end.

Definition QuoteJSONString (s : string) : string :=
  (dquote ++ quoteJSONBody s ++ dquote)%string.

(** [SerializeJSONProperty] without replacer and indentation.  In an
    array a value without JSON text is rendered as [null]; in an object
    its property is left out. *)
Fixpoint SerializeJSONProperty (value : JsData) : JsonOutcome :=
  match value with
  | DNull => JsonText "null"
  | DBoolean b => JsonText (if b then "true" else "false")
  | DString s => JsonText (QuoteJSONString s)
  | DNumber x => JsonText (if isFinite x then Number_toString x else "null")
  | DBigInt _ => JsonThrows "TypeError: Do not know how to serialize a BigInt"
  | DUndefined | DSymbol | DFunction => JsonUndefined
  | DArray items =>
      match
        (fix elementTexts (l : list JsData) : Result (list string) :=
           match l with
           | [] => Ok []
           | item :: r =>
               match SerializeJSONProperty item with
               | JsonThrows msg => Throw msg
               | JsonUndefined =>
                   texts <- elementTexts r ;; Ok ("null" :: texts)
               | JsonText text =>
                   texts <- elementTexts r ;; Ok (text :: texts)
               end
           end) items
      with
      | Throw msg => JsonThrows msg
      | Ok texts => JsonText ("[" ++ join "," texts ++ "]")%string
      end
  | DObject properties =>
      match
        (fix memberTexts (l : list (string * JsData))
           : Result (list string) :=
           match l with
           | [] => Ok []
           | (key, item) :: r =>
               match SerializeJSONProperty item with
               | JsonThrows msg => Throw msg
               | JsonUndefined => memberTexts r
               | JsonText text =>
                   texts <- memberTexts r ;;
                   Ok ((QuoteJSONString key ++ ":" ++ text)%string :: texts)
               end
           end) properties
      with
      | Throw msg => JsonThrows msg
      | Ok texts => JsonText ("{" ++ join "," texts ++ "}")%string
      end
  end.

(** The values that reach the last line of [transformDefault]: they are
    neither absent, nor a string, a number or a boolean, nor an instance of
    [SQL]. *)
Inductive OtherValue :=
| BigInt (z : Z)
| Symbol
| Function
| Array (items : list JsData)
| Object (properties : list (string * JsData)).

Definition asData (value : OtherValue) : JsData :=
  match value with
  | BigInt z => DBigInt z
  | Symbol => DSymbol
  | Function => DFunction
  | Array items => DArray items
  | Object properties => DObject properties
  end.

(** The values [transformDefault] tells apart.  A drizzle [SQL] expression
    is given by its method [toQuery(config).sql] as a function of
    [config.escapeString]. *)
Inductive JsValue :=
| VUndefined
| VNull
| VString (s : string)
| VNumber (x : JsNumber)
| VBoolean (b : bool)
| VSQL (toQuery : (string -> string) -> Result string)
| VOther (o : OtherValue).

Definition JSON_stringify (value : OtherValue) : JsonOutcome :=
  SerializeJSONProperty (asData value).

Definition transformDefault (value : JsValue) : Result string :=
  match value with
  | VUndefined | VNull => Ok "NULL"
  | VString s => Ok (escapeString s)
  | VNumber x => Ok (Number_toString x)
  | VBoolean b => Ok (if b then "1" else "0")
  | VSQL toQuery => toQuery escapeString
  | VOther o =>
      match JSON_stringify o with
      | JsonText text => Ok (escapeString text)
      | JsonUndefined => Throw (typeError "replace")
      | JsonThrows msg => Throw msg
      end
  end.

(** ** More of the pipeline *)

(** The place of each kind of operation in the order in which
    [differences] pushes them. *)
Definition emissionRank (title : string) : option nat :=
  if prefix "Remove index " title then Some 1
  else if prefix "Remove foreign key " title then Some 2
  else if prefix "Create table " title then Some 3
  else if prefix "Remove table " title then Some 4
  else if prefix "Add column " title then Some 5
  else if prefix "Remove column " title then Some 6
  else if prefix "Recreate table " title then Some 7
  else if prefix "Add foreign key " title then Some 8
  else if prefix "Add index " title then Some 9
  else None.

(** ** Defaults of drizzle columns ([drizzle.ts]) *)

(** What [getDefaultValue] reads of a drizzle column. *)
Record DrizzleDefault := mkDrizzleDefault {
  dz_hasDefault : bool;
  dz_default : JsValue
}.

(** [transformDefault] returns a string, so [?? null] never applies. *)
Definition getDefaultValue (column : DrizzleDefault)
  : Result (option string) :=
  if dz_hasDefault column then
    text <- transformDefault (dz_default column) ;; Ok (Some text)
  else Ok None.

(** ** Example snapshots *)

Module Examples.

(** Two runs of the identifier generator. *)
Definition idsA (k : nat) : string := "0123456789abcdef".
Definition idsB (k : nat) : string := "fedcba9876543210".
(** A run whose first identifier is the one of [idsA]. *)
Definition idsC (k : nat) : string :=
  match k with
  | O => "0123456789abcdef"
  | S _ => "fedcba9876543210"
  end.

Definition empty : Definitions := {| tables := [] |}.

Definition creation : option DifferencesOptions :=
  Some {| creationMode := true |}.

(** A blog: [users(id, name)] with an index on [name], and
    [posts(user_id)] with a foreign key to [users(id)]. *)
Definition usersRef : TableRef := {| ref_id := 1; ref_name := "users" |}.
Definition postsRef : TableRef := {| ref_id := 2; ref_name := "posts" |}.

Definition users_id : Column :=
  mkColumn 10 "id" INTEGER true None false (Some usersRef).
Definition users_name : Column :=
  mkColumn 11 "name" TEXT false None false (Some usersRef).
Definition posts_user_id : Column :=
  mkColumn 20 "user_id" INTEGER false None false (Some postsRef).

Definition users_name_idx : Index :=
  mkIndex 30 "name_idx" false [users_name] (Some usersRef).

Definition posts_user_fk : ForeignKey :=
  mkForeignKey usersRef [users_id] [posts_user_id] NO_ACTION CASCADE
    (Some postsRef).

Definition users : Table :=
  mkTable 1 "users" [("id", users_id); ("name", users_name)]
    [Some users_id] [] [] [("name_idx", users_name_idx)] [].

Definition posts : Table :=
  mkTable 2 "posts" [("user_id", posts_user_id)] [] [posts_user_fk] [] [] [].

Definition blog : Definitions :=
  {| tables := [("users", users); ("posts", posts)] |}.


(** The blog after [users] gained a unique [email] column; the tables of
    the new snapshot are new objects. *)
Definition usersRef2 : TableRef := {| ref_id := 3; ref_name := "users" |}.
Definition postsRef2 : TableRef := {| ref_id := 4; ref_name := "posts" |}.

Definition users2_id : Column :=
  mkColumn 40 "id" INTEGER true None false (Some usersRef2).
Definition users2_name : Column :=
  mkColumn 41 "name" TEXT false None false (Some usersRef2).
Definition users2_email : Column :=
  mkColumn 42 "email" TEXT false (Some "'none'") false (Some usersRef2).
Definition posts2_user_id : Column :=
  mkColumn 50 "user_id" INTEGER false None false (Some postsRef2).

Definition users2_name_idx : Index :=
  mkIndex 60 "name_idx" false [users2_name] (Some usersRef2).

Definition posts2_user_fk : ForeignKey :=
  mkForeignKey usersRef2 [users2_id] [posts2_user_id] NO_ACTION CASCADE
    (Some postsRef2).

Definition users2 : Table :=
  mkTable 3 "users"
    [("id", users2_id); ("name", users2_name); ("email", users2_email)]
    [Some users2_id] [] [mkUnique [users2_email] (Some usersRef2)]
    [("name_idx", users2_name_idx)] [].

Definition posts2 : Table :=
  mkTable 4 "posts" [("user_id", posts2_user_id)] [] [posts2_user_fk] [] [] [].

Definition blog2 : Definitions :=
  {| tables := [("users", users2); ("posts", posts2)] |}.

(** Snapshots with one of the two tables of the blog. *)
Definition users_only : Definitions := {| tables := [("users", users)] |}.
Definition posts_only : Definitions := {| tables := [("posts", posts)] |}.








(** A catalog whose only table has a unique index. *)
Definition itemsRef : TableRef := {| ref_id := 7; ref_name := "items" |}.

Definition items_sku : Column :=
  mkColumn 100 "sku" TEXT true None false (Some itemsRef).

Definition items_sku_idx : Index :=
  mkIndex 110 "sku_idx" true [items_sku] (Some itemsRef).

Definition items : Table :=
  mkTable 7 "items" [("sku", items_sku)] [] [] []
    [("sku_idx", items_sku_idx)] [].

Definition catalog : Definitions := {| tables := [("items", items)] |}.

(** A second reading of the same blog: new objects, same shape. *)
Definition usersRef4 : TableRef := {| ref_id := 8; ref_name := "users" |}.
Definition postsRef4 : TableRef := {| ref_id := 9; ref_name := "posts" |}.

Definition users4_id : Column :=
  mkColumn 120 "id" INTEGER true None false (Some usersRef4).
Definition users4_name : Column :=
  mkColumn 121 "name" TEXT false None false (Some usersRef4).
Definition posts4_user_id : Column :=
  mkColumn 130 "user_id" INTEGER false None false (Some postsRef4).

Definition users4 : Table :=
  mkTable 8 "users" [("id", users4_id); ("name", users4_name)]
    [Some users4_id] [] []
    [("name_idx", mkIndex 140 "name_idx" false [users4_name] (Some usersRef4))] [].

Definition posts4 : Table :=
  mkTable 9 "posts" [("user_id", posts4_user_id)] []
    [mkForeignKey usersRef4 [users4_id] [posts4_user_id] NO_ACTION CASCADE
       (Some postsRef4)]
    [] [] [].

Definition blog4 : Definitions :=
  {| tables := [("users", users4); ("posts", posts4)] |}.

End Examples.

(** ** Snapshots as the model's operations build them *)

Definition ref_of (t : Table) : TableRef :=
  {| ref_id := tbl_id t; ref_name := tbl_name t |}.

(** [addColumn], [addIndex] and [addForeignKey] store an element under its
    name and mount it on the table; the keys of a [Map] are distinct. *)
Record Table_linked (t : Table) : Prop := {
  columns_keyed :
    Forall (fun e => fst e = col_name (snd e)) (tbl_columns t);
  columns_keys_distinct : NoDup (map_keys (tbl_columns t));
  indexes_keyed :
    Forall (fun e => fst e = idx_name (snd e)) (tbl_indexes t);
  indexes_keys_distinct : NoDup (map_keys (tbl_indexes t));
  columns_mounted :
    Forall (fun c => col_table c = Some (ref_of t))
      (map_values (tbl_columns t));
  indexes_mounted :
    Forall (fun i => idx_table i = Some (ref_of t))
      (map_values (tbl_indexes t));
  foreignKeys_mounted :
    Forall (fun fk => fk_table fk = Some (ref_of t)) (tbl_foreignKeys t)
}.

Definition allColumns (d : Definitions) : list Column :=
  flat_map (fun table => map_values (tbl_columns table))
    (map_values (tables d)).

(** [addTable] stores a table under its name; the keys of a [Map] are
    distinct; distinct objects have distinct identities. *)
Record Definitions_linked (d : Definitions) : Prop := {
  tables_keyed : Forall (fun e => fst e = tbl_name (snd e)) (tables d);
  tables_distinct : NoDup (map_keys (tables d));
  tables_linked : Forall Table_linked (map_values (tables d));
  columns_distinct : NoDup (List.map col_id (allColumns d));
  indexes_distinct : NoDup (List.map idx_id (allIndexes d))
}.

(** ** Snapshots that are equal on every compared attribute *)

Definition Column_alike (a b : Column) : Prop :=
  col_name a = col_name b
  /\ col_type a = col_type b
  /\ col_notNull a = col_notNull b
  /\ col_defaultValue a = col_defaultValue b.

Definition Unique_alike (a b : Unique) : Prop :=
  List.map col_name (uq_columns a) = List.map col_name (uq_columns b).

Definition ForeignKey_alike (a b : ForeignKey) : Prop :=
  List.map col_name (fk_localColumns a)
  = List.map col_name (fk_localColumns b)
  /\ List.map col_name (fk_foreignColumns a)
     = List.map col_name (fk_foreignColumns b)
  /\ ref_name (fk_foreignTable a) = ref_name (fk_foreignTable b)
  /\ fk_onDelete a = fk_onDelete b
  /\ fk_onUpdate a = fk_onUpdate b.

Definition Index_alike (a b : Index) : Prop :=
  idx_name a = idx_name b
  /\ idx_unique a = idx_unique b
  /\ List.map col_name (idx_columns a) = List.map col_name (idx_columns b).

(** The same column names with the same type, nullability and default;
    the same primary key, uniques and foreign keys. *)
Definition Table_alike (a b : Table) : Prop :=
  (forall k, map_has k (tbl_columns a) = map_has k (tbl_columns b))
  /\ (forall k ca cb,
        map_get k (tbl_columns a) = Some ca ->
        map_get k (tbl_columns b) = Some cb -> Column_alike ca cb)
  /\ List.map (option_map col_name) (tbl_primaryKey a)
     = List.map (option_map col_name) (tbl_primaryKey b)
  /\ Forall2 Unique_alike (tbl_uniques a) (tbl_uniques b)
  /\ Forall2 ForeignKey_alike (tbl_foreignKeys a) (tbl_foreignKeys b).

(** The same table names with like tables, and the same index names with
    like indexes. *)
Definition Definitions_alike (from to : Definitions) : Prop :=
  (forall k, map_has k (tables from) = map_has k (tables to))
  /\ (forall k a b,
        map_get k (tables from) = Some a ->
        map_get k (tables to) = Some b -> Table_alike a b)
  /\ (forall k,
        match map_get k (indexesByName from),
              map_get k (indexesByName to) with
        | Some a, Some b => Index_alike a b
        | None, None => True
        | _, _ => False
        end).

(** The summary of a run that found nothing to do. *)
Definition noChange : PushSummary :=
  {| addedColumns := []; removedColumns := []; addedTables := [];
     removedTables := []; recreatedTables := []; recreateReasons := [] |}.
(** ** Building a snapshot ([definitions.ts]) *)

(** The methods of [Table] and [Definitions] that build a snapshot update
    the object they are called on; here they return the updated value.
    [mount] updates the element it is called on, and every reference to
    that object sees the update; here it returns the mounted element, and
    the element that is stored is that value.  The two agree when the
    element that is mounted and stored is a new object, or one that nothing
    in the snapshot refers to yet, as in every [create...] method: none of
    the methods below updates an element once it is stored
    ([renameColumn] is not among them).  An element that was added to one
    table and is then added to another belongs, in the source, to the
    second table in both; the statements about built snapshots are about
    elements that are added once.  The identity of a new object is an
    argument. *)

(** [element.mount(table)] *)
Definition Column_mount (table : Table) (c : Column) : Column :=
  {| col_id := col_id c; col_name := col_name c; col_type := col_type c;
     col_notNull := col_notNull c; col_defaultValue := col_defaultValue c;
     col_autoIncrement := col_autoIncrement c;
     col_table := Some (ref_of table) |}.

Definition Index_mount (table : Table) (i : Index) : Index :=
  {| idx_id := idx_id i; idx_name := idx_name i; idx_unique := idx_unique i;
     idx_columns := idx_columns i; idx_table := Some (ref_of table) |}.

Definition Unique_mount (table : Table) (u : Unique) : Unique :=
  {| uq_columns := uq_columns u; uq_table := Some (ref_of table) |}.

Definition ForeignKey_mount (table : Table) (fk : ForeignKey) : ForeignKey :=
  {| fk_foreignTable := fk_foreignTable fk;
     fk_foreignColumns := fk_foreignColumns fk;
     fk_localColumns := fk_localColumns fk;
     fk_onUpdate := fk_onUpdate fk; fk_onDelete := fk_onDelete fk;
     fk_table := Some (ref_of table) |}.

Definition with_columns (t : Table) (columns : JsMap Column) : Table :=
  {| tbl_id := tbl_id t; tbl_name := tbl_name t; tbl_columns := columns;
     tbl_primaryKey := tbl_primaryKey t; tbl_foreignKeys := tbl_foreignKeys t;
     tbl_uniques := tbl_uniques t; tbl_indexes := tbl_indexes t;
     tbl_primaryKeyProperties := tbl_primaryKeyProperties t |}.

Definition with_indexes (t : Table) (indexes : JsMap Index) : Table :=
  {| tbl_id := tbl_id t; tbl_name := tbl_name t; tbl_columns := tbl_columns t;
     tbl_primaryKey := tbl_primaryKey t; tbl_foreignKeys := tbl_foreignKeys t;
     tbl_uniques := tbl_uniques t; tbl_indexes := indexes;
     tbl_primaryKeyProperties := tbl_primaryKeyProperties t |}.

Definition with_uniques (t : Table) (uniques : list Unique) : Table :=
  {| tbl_id := tbl_id t; tbl_name := tbl_name t; tbl_columns := tbl_columns t;
     tbl_primaryKey := tbl_primaryKey t; tbl_foreignKeys := tbl_foreignKeys t;
     tbl_uniques := uniques; tbl_indexes := tbl_indexes t;
     tbl_primaryKeyProperties := tbl_primaryKeyProperties t |}.

Definition with_foreignKeys (t : Table) (foreignKeys : list ForeignKey)
  : Table :=
  {| tbl_id := tbl_id t; tbl_name := tbl_name t; tbl_columns := tbl_columns t;
     tbl_primaryKey := tbl_primaryKey t; tbl_foreignKeys := foreignKeys;
     tbl_uniques := tbl_uniques t; tbl_indexes := tbl_indexes t;
     tbl_primaryKeyProperties := tbl_primaryKeyProperties t |}.

(** [Table.getColumn] *)
Definition getColumn (t : Table) (name : string) : Result Column :=
  match map_get name (tbl_columns t) with
  | None => Throw (tpl ["Column not found: "; name])
  | Some column => Ok column
  end.

(** [Table.addColumn] *)
Definition addColumn (t : Table) (column : Column) : Result Table :=
  if map_has (col_name column) (tbl_columns t) then
    Throw (tpl ["Duplicate column: "; col_name column; " on table ";
                tbl_name t])
  else
    Ok (with_columns t
          (map_set (col_name column) (Column_mount t column)
             (tbl_columns t))).

(** [Unique.equals]: the same columns, as objects, in the same order. *)
Fixpoint Columns_same (a b : list Column) : bool :=
  match a, b with
  | [], [] => true
  | x :: a', y :: b' => Column_same x y && Columns_same a' b'
  | _, _ => false
  end.

Definition Unique_equals (this other : Unique) : bool :=
  Columns_same (uq_columns this) (uq_columns other).

(** [Table.addUnique] *)
Definition addUnique (t : Table) (unique : Unique) : Result Table :=
  let mounted := Unique_mount t unique in
  Unique_verify mounted ;;;
  Ok (with_uniques t (tbl_uniques t ++ [mounted])).

(** [Table.createUnique]; it returns the table and the new unique. *)
Definition createUnique (t : Table) (columns : list string)
  : Result (Table * Unique) :=
  cols <- mapM (getColumn t) columns ;;
  let unique := {| uq_columns := cols; uq_table := None |} in
  when (existsb (Unique_equals unique) (tbl_uniques t))
    (Throw "Duplicate unique") ;;;
  t' <- addUnique t unique ;;
  Ok (t', Unique_mount t unique).

(** The argument of [Table.createColumn]; an omitted [defaultValue] is
    [null] and an omitted [autoIncrement] is [false]. *)
Record ColumnOptions := mkColumnOptions {
  co_name : string;
  co_type : ColumnType;
  co_notNull : bool;
  co_unique : bool;
  co_defaultValue : option string;
  co_autoIncrement : bool
}.

(** [Table.createColumn]; [id] is the identity of the new column. *)
Definition createColumn (id : nat) (t : Table) (opts : ColumnOptions)
  : Result (Table * Column) :=
  let column :=
    Column_new id (co_name opts) (co_type opts) (co_notNull opts)
      (co_defaultValue opts) (co_autoIncrement opts) in
  t1 <- addColumn t column ;;
  t2 <- (if co_unique opts
         then r <- createUnique t1 [co_name opts] ;; Ok (fst r)
         else Ok t1) ;;
  Ok (t2, Column_mount t column).

(** [Table.addIndex]: an index of the same name is replaced. *)
Definition addIndex (t : Table) (index : Index) : Table :=
  with_indexes t
    (map_set (idx_name index) (Index_mount t index) (tbl_indexes t)).

(** [Table.createIndex]; [id] is the identity of the new index and an
    omitted [unique] is [false]. *)
Definition createIndex (id : nat) (t : Table) (name : string)
    (columns : list string) (unique : bool) : Result (Table * Index) :=
  cols <- mapM (getColumn t) columns ;;
  let index := {| idx_id := id; idx_name := name; idx_unique := unique;
                  idx_columns := cols; idx_table := None |} in
  Ok (addIndex t index, Index_mount t index).

(** [Table.addForeignKey] *)
Definition addForeignKey (t : Table) (foreignKey : ForeignKey)
  : Result Table :=
  let mounted := ForeignKey_mount t foreignKey in
  ForeignKey_verify mounted ;;;
  Ok (with_foreignKeys t (tbl_foreignKeys t ++ [mounted])).

(** [Table.createForeignKey]; an omitted action is ['NO ACTION']. *)
Definition createForeignKey (t : Table) (foreignTable : Table)
    (foreignColumns localColumns : list string)
    (onUpdate onDelete : option ForeignKeyAction)
  : Result (Table * ForeignKey) :=
  fcs <- mapM (getColumn foreignTable) foreignColumns ;;
  lcs <- mapM (getColumn t) localColumns ;;
  let foreignKey :=
    {| fk_foreignTable := ref_of foreignTable; fk_foreignColumns := fcs;
       fk_localColumns := lcs;
       fk_onUpdate := match onUpdate with Some a => a | None => NO_ACTION end;
       fk_onDelete := match onDelete with Some a => a | None => NO_ACTION end;
       fk_table := None |} in
  t' <- addForeignKey t foreignKey ;;
  Ok (t', ForeignKey_mount t foreignKey).

(** [Table.setColumnNameAsPrimaryKey] *)
Definition setColumnNameAsPrimaryKey (t : Table) (name : string) (index : Z)
  : Result Table :=
  column <- getColumn t name ;;
  setColumnAsPrimaryKey t column index.

(** [array.indexOf(column)]: the holes of the array are skipped. *)
Fixpoint indexOf (column : Column) (l : list (option Column)) (k : Z) : Z :=
  match l with
  | [] => (-1)%Z
  | Some x :: r => if Column_same x column then k else indexOf column r (k + 1)
  | None :: r => indexOf column r (k + 1)
  end.

(** [Column.primaryKeyIndex]; [owner] is the table that the [table] field
    of the column points to. *)
Definition primaryKeyIndex (owner : Table) (column : Column) : Result Z :=
  ownerTable (col_table column) ;;;
  Ok (indexOf column (tbl_primaryKey owner) 0 + 1)%Z.

(** [Column.equals] *)
Definition Column_equals (this other : Column) : bool :=
  (col_name this =? col_name other)
  && ColumnType_eqb (col_type this) (col_type other)
  && Bool.eqb (col_notNull this) (col_notNull other)
  && nullable_eqb (col_defaultValue this) (col_defaultValue other).

(** [new Table(name)], with the identity [id]. *)
Definition Table_new (id : nat) (name : string) : Table :=
  {| tbl_id := id; tbl_name := name; tbl_columns := []; tbl_primaryKey := [];
     tbl_foreignKeys := []; tbl_uniques := []; tbl_indexes := [];
     tbl_primaryKeyProperties := [] |}.

(** [Definitions.addTable] *)
Definition addTable (d : Definitions) (table : Table) : Result Definitions :=
  if map_has (tbl_name table) (tables d) then
    Throw (tpl ["Duplicate table: "; tbl_name table])
  else Ok {| tables := map_set (tbl_name table) table (tables d) |}.

(** [Definitions.createTable]; [id] is the identity of the new table. *)
Definition createTable (id : nat) (d : Definitions) (name : string)
  : Result (Definitions * Table) :=
  d' <- addTable d (Table_new id name) ;;
  Ok (d', Table_new id name).

(** ** Snapshots of drizzle schemas ([drizzle.ts]) *)

(** The drizzle objects are given by what the code reads of them: the
    result of [getTableName] and of [getTableConfig] for a table, the
    fields of a column and the outcome of its [instanceof] tests, the
    configuration of an index, the names in [reference()] of a foreign
    key.  Columns of indexes, uniques and keys are given by their names. *)

(** The classes that [getColumnType] tests a column against. *)
Inductive DrizzleClass :=
| SQLiteText | SQLiteInteger | SQLiteBoolean | SQLiteTextJson | SQLiteReal
| SQLiteNumeric | SQLiteBigInt | SQLiteBlobBuffer | SQLiteBlobJson.

Record DrizzleColumn := mkDrizzleColumn {
  dc_name : string;
  dc_notNull : bool;
  dc_isUnique : bool;
  dc_primary : bool;
  dc_defaults : DrizzleDefault;
  dc_instanceof : DrizzleClass -> bool;
  dc_columnType : string
}.

Definition getColumnType (column : DrizzleColumn) : Result ColumnType :=
  if dc_instanceof column SQLiteText then Ok TEXT
  else if dc_instanceof column SQLiteInteger then Ok INTEGER
  else if dc_instanceof column SQLiteBoolean then Ok INTEGER
  else if dc_instanceof column SQLiteTextJson then Ok TEXT
  else if dc_instanceof column SQLiteReal then Ok REAL
  else if dc_instanceof column SQLiteNumeric then Ok REAL
  else if dc_instanceof column SQLiteBigInt then Ok INTEGER
  else if dc_instanceof column SQLiteBlobBuffer then Ok BLOB
  else if dc_instanceof column SQLiteBlobJson then Ok BLOB
  else Throw (tpl ["Unsupported column type: "; dc_columnType column]).

(** [idx.config] *)
Record DrizzleIndex := mkDrizzleIndex {
  di_name : string;
  di_unique : bool;
  di_columns : list string
}.

(** The actions of drizzle, in lower case. *)
Inductive DrizzleAction :=
| cascade | restrict | no_action | set_null | set_default.

(** [action.toUpperCase() as ForeignKeyAction] *)
Definition toUpperCase (a : DrizzleAction) : ForeignKeyAction :=
  match a with
  | cascade => CASCADE
  | restrict => RESTRICT
  | no_action => NO_ACTION
  | set_null => SET_NULL
  | set_default => SET_DEFAULT
  end.

(** A foreign key: the name of [reference().foreignTable], the names of
    [reference().columns] and [reference().foreignColumns], and the
    actions, which may be undefined. *)
Record DrizzleForeignKey := mkDrizzleForeignKey {
  dfk_foreignTable : string;
  dfk_columns : list string;
  dfk_foreignColumns : list string;
  dfk_onDelete : option DrizzleAction;
  dfk_onUpdate : option DrizzleAction
}.

Record DrizzleTable := mkDrizzleTable {
  dt_name : string;
  dt_columns : list DrizzleColumn;
  dt_primaryKeys : list (list string);
  dt_indexes : list DrizzleIndex;
  dt_uniqueConstraints : list (list string);
  dt_foreignKeys : list DrizzleForeignKey
}.

(** The values of a schema that are instances of [SQLiteTable], in the
    order of [Object.keys]; any other value is [None] and is skipped. *)
Definition schemaTables (schema : list (option DrizzleTable))
  : list DrizzleTable :=
  flat_map (fun value => match value with
                         | Some table => [table]
                         | None => []
                         end) schema.

(** The state of the loops: the snapshot, or the table at hand, and the
    identity of the next new object. *)

(** The body of the first loop. *)
Definition declareTable (st : Definitions * nat) (table : DrizzleTable)
  : Result (Definitions * nat) :=
  r <- createTable (snd st) (fst st) (dt_name table) ;;
  Ok (fst r, S (snd st)).

(** The body of [for (const column of config.columns)]. *)
Definition declareColumn (st : Table * nat) (column : DrizzleColumn)
  : Result (Table * nat) :=
  defaultValue <- getDefaultValue (dc_defaults column) ;;
  type <- getColumnType column ;;
  r <- createColumn (snd st) (fst st)
         {| co_name := dc_name column; co_type := type;
            co_notNull := dc_notNull column; co_unique := dc_isUnique column;
            co_defaultValue := defaultValue; co_autoIncrement := false |} ;;
  t <- (if dc_primary column then
          c <- getColumn (fst r) (dc_name column) ;;
          Ok (with_primaryKey (fst r) (tbl_primaryKey (fst r) ++ [Some c]))
        else Ok (fst r)) ;;
  Ok (t, S (snd st)).

(** The body of [for (const pk of config.primaryKeys)]; the assignment
    gives the table a new array. *)
Definition declarePrimaryKey (t : Table) (pk : list string) : Result Table :=
  if negb (List.length (tbl_primaryKey t) =? 0)%nat then Ok t
  else
    cols <- mapM (getColumn t) pk ;;
    Ok (with_primaryKeyProperties (with_primaryKey t (List.map Some cols))
          []).

(** The body of [for (const idx of config.indexes)]. *)
Definition declareIndex (st : Table * nat) (idx : DrizzleIndex)
  : Result (Table * nat) :=
  if di_unique idx then
    r <- createUnique (fst st) (di_columns idx) ;; Ok (fst r, snd st)
  else
    r <- createIndex (snd st) (fst st) (di_name idx) (di_columns idx) false ;;
    Ok (fst r, S (snd st)).

(** The body of [for (const unique of config.uniqueConstraints)]. *)
Definition declareUnique (t : Table) (unique : list string) : Result Table :=
  r <- createUnique t unique ;; Ok (fst r).

(** The table updates of the second loop write through to the snapshot. *)
Definition storeTable (d : Definitions) (t : Table) : Definitions :=
  {| tables := map_set (tbl_name t) t (tables d) |}.

(** The body of the second loop. *)
Definition declareElements (st : Definitions * nat) (table : DrizzleTable)
  : Result (Definitions * nat) :=
  t <- getTable (fst st) (dt_name table) ;;
  s1 <- foldM declareColumn (dt_columns table) (t, snd st) ;;
  t2 <- foldM declarePrimaryKey (dt_primaryKeys table) (fst s1) ;;
  s3 <- foldM declareIndex (dt_indexes table) (t2, snd s1) ;;
  t4 <- foldM declareUnique (dt_uniqueConstraints table) (fst s3) ;;
  Ok (storeTable (fst st) t4, snd s3).

(** The body of [for (const fk of config.foreignKeys)]. *)
Definition declareForeignKey (d : Definitions) (t : Table)
    (fk : DrizzleForeignKey) : Result Table :=
  foreignTable <- getTable d (dfk_foreignTable fk) ;;
  r <- createForeignKey t foreignTable (dfk_foreignColumns fk)
         (dfk_columns fk) (option_map toUpperCase (dfk_onUpdate fk))
         (option_map toUpperCase (dfk_onDelete fk)) ;;
  Ok (fst r).

(** The body of the third loop. *)
Definition declareForeignKeys (d : Definitions) (table : DrizzleTable)
  : Result Definitions :=
  t <- getTable d (dt_name table) ;;
  t' <- foldM (declareForeignKey d) (dt_foreignKeys table) t ;;
  Ok (storeTable d t').

(** [definitionsFromDrizzleSchema(schema)]; [next] is the identity of the
    first object that the call creates. *)
Definition definitionsFromDrizzleSchema (next : nat)
    (schema : list (option DrizzleTable)) : Result Definitions :=
  let tables := schemaTables schema in
  s1 <- foldM declareTable tables ({| tables := [] |}, next) ;;
  s2 <- foldM declareElements tables s1 ;;
  foldM declareForeignKeys tables (fst s2).

(** ** Notions used in the statements *)

(** The intermediate values of a run that returns normally. *)
Record DiffTrace := mkTrace {
  tr_plan : RecreatePlan;
  tr_sets : WorkingSets;
  tr_removeForeignKeyOps : list Operation;
  tr_createTableOps : list Operation;
  tr_addColumnOps : list Operation;
  tr_removeColumnOps : list Operation;
  tr_recreateOps : list Operation;
  tr_addForeignKeyOps : list Operation;
  tr_addIndexOps : list Operation;
  tr_added : list string;
  tr_removed : list string;
  tr_toAdd : list Index;
  tr_toRemove : list Index
}.

(** The steps of a run of [differences] that returns normally, in the
    order of the code. *)
Record runs (newId : nat -> string) (from to : Definitions)
    (options : option DifferencesOptions) (t : DiffTrace) : Prop := {
  run_mode :
    inCreationMode options && (0 <? map_size (tables from))%nat = false;
  run_verify_from : forEach Table_verify (map_values (tables from)) = Ok tt;
  run_verify_to : forEach Table_verify (map_values (tables to)) = Ok tt;
  run_plan : getTablesToRecreate from to = Ok (tr_plan t);
  run_toAdd : getIndexesToAdd from to = Ok (tr_toAdd t);
  run_toRemove : getIndexesToRemove from to = Ok (tr_toRemove t);
  run_sets :
    foldM (foldIntoRecreate from to) (tablesToRecreate (tr_plan t))
      {| columnsToDelete := getColumnsToDelete from to;
         columnsToAdd := [];
         indexesToRemove := tr_toRemove t;
         indexesToAdd := tr_toAdd t |} = Ok (tr_sets t);
  run_removeForeignKeyOps :
    flatMapM (removeForeignKeyStep (tablesToDropReferences (tr_plan t)))
      (allSingleColumnForeignKeys from) = Ok (tr_removeForeignKeyOps t);
  run_createTableOps :
    mapM createTableOp (getTablesToAdd from to) = Ok (tr_createTableOps t);
  run_addColumnOps :
    mapM addColumnOp (columnsToAdd (tr_sets t)) = Ok (tr_addColumnOps t);
  run_removeColumnOps :
    mapM removeColumnOp (columnsToDelete (tr_sets t))
    = Ok (tr_removeColumnOps t);
  run_recreateOps :
    recreateTableOps newId 0 from to (tablesToRecreate (tr_plan t))
    = Ok (tr_recreateOps t);
  run_addForeignKeyOps :
    (if inCreationMode options then Ok []
     else flatMapM
            (addForeignKeyStep to (tablesToDropReferences (tr_plan t))
               (getTablesToAdd from to))
            (allSingleColumnForeignKeys to)) = Ok (tr_addForeignKeyOps t);
  run_addIndexOps :
    mapM addIndexOp (indexesToAdd (tr_sets t)) = Ok (tr_addIndexOps t);
  run_added : mapM qualifiedName (columnsToAdd (tr_sets t)) = Ok (tr_added t);
  run_removed :
    mapM qualifiedName (columnsToDelete (tr_sets t)) = Ok (tr_removed t)
}.

(** What [differences] returns at the end of such a run. *)
Definition outcome (from to : Definitions) (t : DiffTrace)
  : PushSummary * list Operation :=
  ({| addedColumns := tr_added t;
      removedColumns := tr_removed t;
      addedTables := List.map tbl_name (getTablesToAdd from to);
      removedTables := List.map tbl_name (getTablesToDelete from to);
      recreatedTables := tablesToRecreate (tr_plan t);
      recreateReasons := planReasons (tr_plan t) |},
   List.map removeIndexOp (indexesToRemove (tr_sets t))
   ++ tr_removeForeignKeyOps t ++ tr_createTableOps t
   ++ List.map removeTableOp (getTablesToDelete from to)
   ++ tr_addColumnOps t ++ tr_removeColumnOps t ++ tr_recreateOps t
   ++ tr_addForeignKeyOps t ++ tr_addIndexOps t).

(** [differences] pushes nine kinds of operations; the title of an
    operation starts with the words of its kind. *)
Inductive OperationKind :=
| RemoveIndex | RemoveForeignKey | CreateTable | RemoveTable | AddColumn
| RemoveColumn | RecreateTable | AddForeignKey | AddIndex.

Definition kind_words (k : OperationKind) : string :=
  match k with
  | RemoveIndex => "Remove index "
  | RemoveForeignKey => "Remove foreign key "
  | CreateTable => "Create table "
  | RemoveTable => "Remove table "
  | AddColumn => "Add column "
  | RemoveColumn => "Remove column "
  | RecreateTable => "Recreate table "
  | AddForeignKey => "Add foreign key "
  | AddIndex => "Add index "
  end.

Definition has_kind (k : OperationKind) (op : Operation) : bool :=
  prefix (kind_words k) (title op).

Definition OperationKind_eqb (a b : OperationKind) : bool :=
  match a, b with
  | RemoveIndex, RemoveIndex | RemoveForeignKey, RemoveForeignKey
  | CreateTable, CreateTable | RemoveTable, RemoveTable
  | AddColumn, AddColumn | RemoveColumn, RemoveColumn
  | RecreateTable, RecreateTable | AddForeignKey, AddForeignKey
  | AddIndex, AddIndex => true
  | _, _ => false
  end.

(** The foreign keys of [t] with more or fewer than one local column. *)
Definition multiColumnForeignKeys (t : Table) : list ForeignKey :=
  filter (fun fk => negb (List.length (fk_localColumns fk) =? 1)%nat)
    (tbl_foreignKeys t).

(** [t] once its single-column foreign keys are taken away. *)
Definition withoutSingleColumnForeignKeys (t : Table) : Table :=
  {| tbl_id := tbl_id t; tbl_name := tbl_name t; tbl_columns := tbl_columns t;
     tbl_primaryKey := tbl_primaryKey t;
     tbl_foreignKeys := multiColumnForeignKeys t;
     tbl_uniques := tbl_uniques t; tbl_indexes := tbl_indexes t;
     tbl_primaryKeyProperties := tbl_primaryKeyProperties t |}.


(** Two results of the same step in two runs: the same exception, or two
    normal returns related by [R]. *)
Definition agree {A} (R : A -> A -> Prop) (a b : Result A) : Prop :=
  match a, b with
  | Ok x, Ok y => R x y
  | Throw m1, Throw m2 => m1 = m2
  | _, _ => False
  end.

(** Two operations of two runs: the same title, and the same statements
    unless they recreate a table. *)
Definition same_but_identifier (a b : Operation) : Prop :=
  title a = title b /\ (has_kind RecreateTable a = false -> a = b).

(** The claim as the specification words it: the result of a run is a
    function of the snapshots and the options alone. *)
Definition is_deterministic : Prop :=
  forall newId1 newId2 from to options,
    differences newId1 from to options = differences newId2 from to options.

(** In the graph of [tablesReferences], the table named [referencing]
    holds a foreign key to the table named [target]. *)
Definition edge (graph : JsMap (list string)) (target referencing : string)
  : Prop :=
  exists s, map_get target graph = Some s /\ In referencing s.



(** The claim as the specification words it, for the indexes of the
    removed table. *)
Definition removed_table_has_no_index_operation : Prop :=
  forall newId from to options s ops table index,
    Definitions_linked from -> Definitions_linked to ->
    differences newId from to options = Ok (s, ops) ->
    In table (map_values (tables from)) ->
    map_has (tbl_name table) (tables to) = false ->
    In index (map_values (tbl_indexes table)) ->
    ~ In (removeIndexOp index) ops.

(** The claim as the specification words it, for the indexes of the
    [from] side of a recreated table. *)
Definition recreated_table_has_no_index_operation : Prop :=
  forall newId from to options s ops name tableFrom index,
    Definitions_linked from -> Definitions_linked to ->
    differences newId from to options = Ok (s, ops) ->
    In name (recreatedTables s) ->
    map_get name (tables from) = Some tableFrom ->
    In index (map_values (tbl_indexes tableFrom)) ->
    ~ In (removeIndexOp index) ops.

(** The claim as the specification words it: the difference between a
    valid snapshot and itself is empty. *)
Definition self_difference_is_empty : Prop :=
  forall newId to,
    Definitions_linked to ->
    forEach Table_verify (map_values (tables to)) = Ok tt ->
    differences newId to to None = Ok (noChange, []).


(** The statements of the recreate protocol as the claim words them: the
    shadow table has one row for each column of the table, without any
    reference clause; one row for the primary key, unless the table has
    none; one row for each foreign key over several columns; one row for
    each unique. *)
Definition backquoted (name : string) : string := tpl ["`"; name; "`"].

Definition nameList (names : list string) : string :=
  join "," (List.map backquoted names).

Definition columnClause (c : Column) : string :=
  tpl ["    "; backquoted (col_name c); " "; ColumnType_text (col_type c);
       if col_notNull c then " NOT NULL" else "";
       if col_autoIncrement c then " AUTO_INCREMENT" else "";
       match col_defaultValue c with
       | None => ""
       | Some d => if d =? "" then "" else tpl [" DEFAULT "; d]
       end].

(** A hole of the primary key leaves its place between the commas empty. *)
Definition primaryKeyClauses (t : Table) : list string :=
  match tbl_primaryKey t with
  | [] => []
  | slots =>
      [tpl ["    PRIMARY KEY (";
            join "," (List.map (fun slot =>
                          match slot with
                          | Some c => backquoted (col_name c)
                          | None => ""
                          end) slots);
            ")"]]
  end.

Definition foreignKeyClause (fk : ForeignKey) : string :=
  tpl ["FOREIGN KEY ("; nameList (List.map col_name (fk_localColumns fk));
       ") REFERENCES "; backquoted (ref_name (fk_foreignTable fk)); "(";
       nameList (List.map col_name (fk_foreignColumns fk));
       ") ON DELETE "; ForeignKeyAction_text (fk_onDelete fk);
       " ON UPDATE "; ForeignKeyAction_text (fk_onUpdate fk)].

Definition uniqueClause (u : Unique) : string :=
  tpl ["    UNIQUE ("; nameList (List.map col_name (uq_columns u)); ")"].

Definition shadowTableStatement (shadow : string) (t : Table) : string :=
  tpl ["CREATE TABLE "; backquoted shadow; " ("; nl;
       join (tpl [","; nl])
         (List.map columnClause (map_values (tbl_columns t))
          ++ primaryKeyClauses t
          ++ List.map foreignKeyClause (multiColumnForeignKeys t)
          ++ List.map uniqueClause (tbl_uniques t));
       nl; ")"].





(** ** Notions used in further statements *)

(** A removed column as an operation and as an entry of the summary. *)
Definition removal_of (owner name : string) (op : Operation) (q : string)
  : Prop :=
  op = {| title := tpl ["Remove column "; name; " from table "; owner];
          sql := [tpl ["ALTER TABLE "; quoted owner; " DROP COLUMN ";
                       quoted name]] |}
  /\ q = tpl [owner; "."; name].


(** What the loop of [getTablesToRecreate] keeps true of its plan. *)
Definition plan_recorded (plan : RecreatePlan) : Prop :=
  map_keys (planReasons plan) = tablesToRecreate plan
  /\ NoDup (tablesToRecreate plan)
  /\ Forall (fun r => r <> "") (map_values (planReasons plan))
  /\ incl (tablesToRecreate plan) (tablesToDropReferences plan).

(** ** What the comparisons return when they return

    [encodeURIComponent] either throws or returns the percent encoding of
    its argument, so that a comparison that returns has the value below. *)

Definition columnsListText (columns : list (option Column)) : string :=
  join ","
    (sort (List.map (fun c => percentEncode (col_name c)) (elements columns))
     ++ holes columns).

Definition primaryKeysSame (from to : Table) : bool :=
  columnsListText (tbl_primaryKey from)
  =? columnsListText (tbl_primaryKey to).

Definition uniqueText (unique : Unique) : string :=
  columnsListText (List.map Some (uq_columns unique)).

Definition uniquesText (uniques : list Unique) : string :=
  join "," (sort (Set_from String.eqb (List.map uniqueText uniques))).

Definition uniquesSame (from to : Table) : bool :=
  uniquesText (tbl_uniques from) =? uniquesText (tbl_uniques to).

Definition foreignKeyText (fk : ForeignKey) : string :=
  tpl [columnsListText (List.map Some (fk_localColumns fk)); " -> ";
       columnsListText (List.map Some (fk_foreignColumns fk)); " on ";
       ref_name (fk_foreignTable fk);
       " | "; ForeignKeyAction_text (fk_onDelete fk);
       " | "; ForeignKeyAction_text (fk_onUpdate fk)].

Definition foreignKeysText (fks : list ForeignKey) : string :=
  join "," (sort (Set_from String.eqb (List.map foreignKeyText fks))).

Definition foreignKeysSame (from to : Table) : bool :=
  foreignKeysText (tbl_foreignKeys from)
  =? foreignKeysText (tbl_foreignKeys to).

Definition changesOf (fromTable toTable : Table) : Changes :=
  {| pkChanged := negb (primaryKeysSame fromTable toTable);
     uniquesChanged := negb (uniquesSame fromTable toTable);
     fksChanged := negb (foreignKeysSame fromTable toTable) |}.

(** One iteration of the loop of [getTablesToRecreate] whose comparisons
    return. *)
Definition planStepOf (to : Definitions) (references : JsMap (list string))
    (added : list string) (plan : RecreatePlan) (fromTable : Table)
  : RecreatePlan :=
  match map_get (tbl_name fromTable) (tables to) with
  | None => plan
  | Some toTable =>
      planStep to references added plan fromTable toTable
        (changesOf fromTable toTable)
  end.

Definition indexesSame (from to : Index) : bool :=
  Bool.eqb (idx_unique from) (idx_unique to)
  && (idx_name from =? idx_name to)
  && (join "," (List.map (fun c => percentEncode (col_name c))
                  (idx_columns from))
      =? join "," (List.map (fun c => percentEncode (col_name c))
                     (idx_columns to))).

(** The indexes that [getIndexesToAdd] and [getIndexesToRemove] collect
    when they return. *)
Definition indexesToAddOf (from to : Definitions) : list Index :=
  Set_from Index_same
    (List.map snd
       (filter (fun entry =>
            match map_get (fst entry) (indexesByName from) with
            | None => true
            | Some indexFrom => negb (indexesSame indexFrom (snd entry))
            end)
          (indexesByName to))).

Definition indexesToRemoveOf (from to : Definitions) : list Index :=
  Set_from Index_same
    (List.map snd
       (filter (fun entry =>
            match map_get (fst entry) (indexesByName to) with
            | None => true
            | Some indexTo => negb (indexesSame (snd entry) indexTo)
            end)
          (indexesByName from))).

(** Column names without a lone surrogate: [encodeURIComponent] returns on
    them. *)
Definition Columns_encodable (columns : list Column) : Prop :=
  Forall (fun c => isWellFormed (col_name c) = true) columns.

(** The names of the columns of the primary key, of the uniques, of the
    foreign keys and of the indexes of [t] have no lone surrogate. *)
Definition Table_encodable (t : Table) : Prop :=
  Columns_encodable (elements (tbl_primaryKey t))
  /\ Forall (fun u => Columns_encodable (uq_columns u)) (tbl_uniques t)
  /\ Forall (fun fk => Columns_encodable (fk_localColumns fk)
                       /\ Columns_encodable (fk_foreignColumns fk))
       (tbl_foreignKeys t)
  /\ Forall (fun i => Columns_encodable (idx_columns i))
       (map_values (tbl_indexes t)).

Definition Definitions_encodable (d : Definitions) : Prop :=
  Forall Table_encodable (map_values (tables d)).

(** Distinct tables of a snapshot are distinct objects. *)
Definition Tables_distinct (d : Definitions) : Prop :=
  NoDup (List.map tbl_id (map_values (tables d))).

(** [c] is a column of the table [tableFrom] of [from]; [to] has a table of
    that name, which is not among the [recreated] ones and has no column
    named like [c]. *)
Definition column_dropped (from to : Definitions) (recreated : list string)
    (tableFrom : Table) (c : Column) : Prop :=
  In tableFrom (map_values (tables from))
  /\ In c (map_values (tbl_columns tableFrom))
  /\ ~ In (tbl_name tableFrom) recreated
  /\ exists tableTo,
       map_get (tbl_name tableFrom) (tables to) = Some tableTo
       /\ map_has (col_name c) (tbl_columns tableTo) = false.

(** Distinct indexes of a snapshot have distinct names, as in a database. *)
Definition Index_names_distinct (d : Definitions) : Prop :=
  NoDup (List.map idx_name (allIndexes d)).

(** No index of [to] has the name of [i] and equals it. *)
Definition index_absent_or_changed (to : Definitions) (i : Index) : Prop :=
  forall j, In j (allIndexes to) -> idx_name j = idx_name i ->
            indexesEqual i j = Ok false.

(** No index of [from] has the name of [j] and equals it. *)
Definition index_new_or_changed (from : Definitions) (j : Index) : Prop :=
  forall i, In i (allIndexes from) -> idx_name i = idx_name j ->
            indexesEqual i j = Ok false.

(** The index [i] belongs to a table of [d] that is among [recreated]. *)
Definition index_of_recreated (d : Definitions) (recreated : list string)
    (i : Index) : Prop :=
  exists table,
    In table (map_values (tables d))
    /\ In i (map_values (tbl_indexes table))
    /\ In (tbl_name table) recreated.

(** The statement that adds [column] to the table named [tableName] with
    the default [d]. *)
Definition addColumnWithDefault (tableName : string) (column : Column)
    (d : string) : string :=
  tpl ["ALTER TABLE "; quoted tableName; " ADD COLUMN ";
       quoted (col_name column); " "; ColumnType_text (col_type column);
       if col_notNull column then " NOT NULL" else "";
       if col_autoIncrement column then " AUTO_INCREMENT" else "";
       " DEFAULT "; d].

(** The statement that fills [column] of the table named [tableName] with
    random numbers. *)
Definition randomiseColumn (tableName : string) (column : Column) : string :=
  tpl ["UPDATE "; quoted tableName; " SET "; quoted (col_name column);
       " = (abs(random()) % 10000000)"].

(** [column] is a column of [to] that [from] has no column named like. *)
Definition missing_column (from to : Table) (column : Column) : Prop :=
  In column (map_values (tbl_columns to))
  /\ map_has (col_name column) (tbl_columns from) = false.

(** The text that the body of a single-quoted SQL literal denotes, read up
    to its closing quote: a doubled quote stands for one quote.  [None]
    when the closing quote is missing or is followed by more text. *)
Fixpoint sqlLiteralBody (s : string) : option string :=
  match s with
  | EmptyString => None
  | String c r =>
      if Ascii.eqb c "'" then
        match r with
        | EmptyString => Some EmptyString
        | String c' r' =>
            if Ascii.eqb c' "'"
            then option_map (String "'") (sqlLiteralBody r')
            else None
        end
      else option_map (String c) (sqlLiteralBody r)
  end.

(** The text that a single-quoted SQL literal denotes. *)
Definition sqlLiteralValue (literal : string) : option string :=
  match literal with
  | String c r => if Ascii.eqb c "'" then sqlLiteralBody r else None
  | EmptyString => None
  end.

(** The element whose [table] field is [table] is mounted on the table of
    identity [id]. *)
Definition mounted_on (id : nat) (table : option TableRef) : Prop :=
  exists o, table = Some o /\ ref_id o = id.

(** A foreign key that is mounted on a table other than its foreign
    table, pairs at least one foreign column with as many local columns,
    takes its foreign columns from the foreign table and its local columns
    from its own table, and repeats no column. *)
Definition ForeignKey_valid (fk : ForeignKey) : Prop :=
  exists owner,
    fk_table fk = Some owner
    /\ ref_id (fk_foreignTable fk) <> ref_id owner
    /\ fk_foreignColumns fk <> []
    /\ List.length (fk_foreignColumns fk) = List.length (fk_localColumns fk)
    /\ Forall (fun c => mounted_on (ref_id (fk_foreignTable fk)) (col_table c))
         (fk_foreignColumns fk)
    /\ Forall (fun c => mounted_on (ref_id owner) (col_table c))
         (fk_localColumns fk)
    /\ NoDup (List.map col_id (fk_localColumns fk))
    /\ NoDup (List.map col_id (fk_foreignColumns fk)).

(** A unique that repeats no column and, unless it has no column at all,
    is mounted on the table of its columns. *)
Definition Unique_valid (u : Unique) : Prop :=
  (uq_columns u = []
   \/ exists owner,
        uq_table u = Some owner
        /\ Forall (fun c => mounted_on (ref_id owner) (col_table c))
             (uq_columns u))
  /\ NoDup (List.map col_id (uq_columns u)).

(** A table whose primary key has no hole and names columns of the table,
    whose columns and indexes are mounted on it, and whose foreign keys
    and uniques are valid. *)
Definition Table_valid (t : Table) : Prop :=
  Forall (fun slot =>
      exists c, slot = Some c /\ map_has (col_name c) (tbl_columns t) = true)
    (tbl_primaryKey t)
  /\ Forall (fun c => mounted_on (tbl_id t) (col_table c))
       (map_values (tbl_columns t))
  /\ Forall (fun i => mounted_on (tbl_id t) (idx_table i))
       (map_values (tbl_indexes t))
  /\ Forall ForeignKey_valid (tbl_foreignKeys t)
  /\ Forall Unique_valid (tbl_uniques t).

(** The column [c], as an object, fills a slot of the primary key. *)
Definition in_primaryKey (c : Column) (pk : list (option Column)) : Prop :=
  exists x, In (Some x) pk /\ Column_same x c = true.

(** Every table, column and index of the snapshot is an object created
    before the object of identity [next]. *)
Definition ids_below (next : nat) (d : Definitions) : Prop :=
  Forall (fun t => tbl_id t < next) (map_values (tables d))
  /\ Forall (fun c => col_id c < next) (allColumns d)
  /\ Forall (fun i => idx_id i < next) (allIndexes d).

(** A snapshot as the diff assumes it: linked, with distinct tables that
    are all valid. *)
Definition Snapshot_sound (d : Definitions) : Prop :=
  Definitions_linked d /\ Tables_distinct d
  /\ Forall Table_valid (map_values (tables d)).

(** The table [t] is the table [t0] after create operations that gave the
    new columns and indexes the identities from [n0] up to [next]. *)
Definition Table_grown (n0 next : nat) (t0 t : Table) : Prop :=
  tbl_id t = tbl_id t0 /\ tbl_name t = tbl_name t0
  /\ Table_linked t /\ Table_valid t
  /\ NoDup (List.map col_id (map_values (tbl_columns t)))
  /\ NoDup (List.map idx_id (map_values (tbl_indexes t)))
  /\ Forall (fun c => In c (map_values (tbl_columns t0))
                      \/ n0 <= col_id c < next)
       (map_values (tbl_columns t))
  /\ Forall (fun i => In i (map_values (tbl_indexes t0))
                      \/ n0 <= idx_id i < next)
       (map_values (tbl_indexes t)).

(** ** Reading the text of a list of foreign keys back

    The text that [stringifyForeignKeys] builds names the foreign table of
    each key.  When no name holds the character [|], the names can be read
    back from the text: the columns of a key are percent-encoded and hold
    no space, and the actions hold neither [|] nor a comma. *)

(** Whether the character [d] occurs in [s]. *)
Fixpoint occurs (d : ascii) (s : string) : bool :=
  match s with
  | EmptyString => false
  | String c r => Ascii.eqb c d || occurs d r
  end.

(** The text after the first [d] of [s], and the text before it. *)
Fixpoint skipTo (d : ascii) (s : string) : string :=
  match s with
  | EmptyString => EmptyString
  | String c r => if Ascii.eqb c d then r else skipTo d r
  end.







(** ** More example snapshots *)

Module MoreExamples.

(** The blog after [posts] gained a [title] column with an index. *)
Definition usersRef5 : TableRef := {| ref_id := 11; ref_name := "users" |}.
Definition postsRef5 : TableRef := {| ref_id := 12; ref_name := "posts" |}.

Definition users5_id : Column :=
  mkColumn 150 "id" INTEGER true None false (Some usersRef5).
Definition users5_name : Column :=
  mkColumn 151 "name" TEXT false None false (Some usersRef5).
Definition posts5_user_id : Column :=
  mkColumn 160 "user_id" INTEGER false None false (Some postsRef5).
Definition posts5_title : Column :=
  mkColumn 161 "title" TEXT true None false (Some postsRef5).

Definition users5_name_idx : Index :=
  mkIndex 170 "name_idx" false [users5_name] (Some usersRef5).
Definition posts5_title_idx : Index :=
  mkIndex 171 "title_idx" false [posts5_title] (Some postsRef5).

Definition posts5_user_fk : ForeignKey :=
  mkForeignKey usersRef5 [users5_id] [posts5_user_id] NO_ACTION CASCADE
    (Some postsRef5).

Definition users5 : Table :=
  mkTable 11 "users" [("id", users5_id); ("name", users5_name)]
    [Some users5_id] [] [] [("name_idx", users5_name_idx)] [].

Definition posts5 : Table :=
  mkTable 12 "posts" [("user_id", posts5_user_id); ("title", posts5_title)]
    [] [posts5_user_fk] [] [("title_idx", posts5_title_idx)] [].

Definition blog5 : Definitions :=
  {| tables := [("users", users5); ("posts", posts5)] |}.

(** The blog after the index on [name] came to cover [id] as well. *)
Definition usersRef6 : TableRef := {| ref_id := 13; ref_name := "users" |}.

Definition users6_id : Column :=
  mkColumn 180 "id" INTEGER true None false (Some usersRef6).
Definition users6_name : Column :=
  mkColumn 181 "name" TEXT false None false (Some usersRef6).

Definition users6_name_idx : Index :=
  mkIndex 190 "name_idx" false [users6_name; users6_id] (Some usersRef6).

Definition users6 : Table :=
  mkTable 13 "users" [("id", users6_id); ("name", users6_name)]
    [Some users6_id] [] [] [("name_idx", users6_name_idx)] [].

Definition users_reindexed : Definitions :=
  {| tables := [("users", users6)] |}.

(** A drizzle schema of the blog: [users] with a unique [email], [posts]
    with an index on [title] and a key to [users]; the third value of the
    schema is no table. *)
Definition noDefault : DrizzleDefault :=
  {| dz_hasDefault := false; dz_default := VUndefined |}.

Definition integerColumn (name : string) (notNull primary : bool)
  : DrizzleColumn :=
  {| dc_name := name; dc_notNull := notNull; dc_isUnique := false;
     dc_primary := primary; dc_defaults := noDefault;
     dc_instanceof := fun c => match c with SQLiteInteger => true
                                          | _ => false end;
     dc_columnType := "SQLiteInteger" |}.

Definition textColumn (name : string) (notNull unique : bool)
  : DrizzleColumn :=
  {| dc_name := name; dc_notNull := notNull; dc_isUnique := unique;
     dc_primary := false; dc_defaults := noDefault;
     dc_instanceof := fun c => match c with SQLiteText => true
                                          | _ => false end;
     dc_columnType := "SQLiteText" |}.

Definition usersSchema : DrizzleTable :=
  {| dt_name := "users";
     dt_columns := [integerColumn "id" true true;
                    textColumn "email" true true];
     dt_primaryKeys := []; dt_indexes := []; dt_uniqueConstraints := [];
     dt_foreignKeys := [] |}.

Definition postsSchema : DrizzleTable :=
  {| dt_name := "posts";
     dt_columns := [integerColumn "author" true false;
                    textColumn "title" false false];
     dt_primaryKeys := [["author"; "title"]];
     dt_indexes := [{| di_name := "title_idx"; di_unique := false;
                       di_columns := ["title"] |}];
     dt_uniqueConstraints := [["title"]];
     dt_foreignKeys := [{| dfk_foreignTable := "users";
                           dfk_columns := ["author"];
                           dfk_foreignColumns := ["id"];
                           dfk_onDelete := Some cascade;
                           dfk_onUpdate := None |}] |}.

Definition blogSchema : list (option DrizzleTable) :=
  [Some postsSchema; None; Some usersSchema].

(** Memberships: a primary key and a foreign key over two columns, a
    unique, and a foreign key over one column; in the later snapshot the
    table has the column [role] in addition. *)
Definition groupsRef : TableRef := {| ref_id := 21; ref_name := "grants" |}.
Definition teamsRef : TableRef := {| ref_id := 22; ref_name := "teams" |}.
Definition membersRef : TableRef :=
  {| ref_id := 23; ref_name := "members" |}.
Definition membersRef2 : TableRef :=
  {| ref_id := 24; ref_name := "members" |}.

Definition grants_user : Column :=
  mkColumn 200 "user" INTEGER true None false (Some groupsRef).
Definition grants_group : Column :=
  mkColumn 201 "group" INTEGER true None false (Some groupsRef).
Definition teams_id : Column :=
  mkColumn 202 "id" INTEGER true None false (Some teamsRef).

Definition members_user (owner : TableRef) (id : nat) : Column :=
  mkColumn id "user_id" INTEGER true None false (Some owner).
Definition members_group (owner : TableRef) (id : nat) : Column :=
  mkColumn id "group_id" INTEGER true None false (Some owner).
Definition members_team (owner : TableRef) (id : nat) : Column :=
  mkColumn id "team_id" INTEGER false None false (Some owner).
Definition members_role : Column :=
  mkColumn 223 "role" TEXT false (Some "'member'") false (Some membersRef2).

Definition members (owner : TableRef) (id : nat) (more : JsMap Column)
  : Table :=
  mkTable (ref_id owner) "members"
    ([("user_id", members_user owner id);
      ("group_id", members_group owner (id + 1));
      ("team_id", members_team owner (id + 2))] ++ more)
    [Some (members_user owner id); Some (members_group owner (id + 1))]
    [mkForeignKey groupsRef [grants_user; grants_group]
       [members_user owner id; members_group owner (id + 1)]
       NO_ACTION CASCADE (Some owner);
     mkForeignKey teamsRef [teams_id] [members_team owner (id + 2)]
       SET_NULL NO_ACTION (Some owner)]
    [mkUnique [members_team owner (id + 2); members_user owner id]
       (Some owner)]
    [] [].

Definition members1 : Table := members membersRef 210 [].
Definition members2 : Table :=
  members membersRef2 220 [("role", members_role)].





End MoreExamples.
(** * Properties *)

(** ** Exceptions and loops *)

Lemma bind_Ok {A B} (c : Result A) (k : A -> Result B) (b : B) :
  bind c k = Ok b -> exists a, c = Ok a /\ k a = Ok b.
Proof.
  destruct c as [a|m]; simpl; intros H; [|discriminate].
  exists a; split; [reflexivity|assumption].
Qed.

Lemma when_Ok (b : bool) (c : Result unit) (u : unit) :
  when b c = Ok u -> b = false \/ c = Ok u.
Proof. destruct b; simpl; intros H; [right|left]; auto. Qed.

(** Splits a hypothesis [bind c k = Ok b] into its two steps. *)
Ltac bind_inv H :=
  let a := fresh "r" in
  let H1 := fresh H "a" in
  apply bind_Ok in H; destruct H as [a [H1 H]].

Lemma forEach_Ok {A} (body : A -> Result unit) (xs : list A) (u : unit) :
  forEach body xs = Ok u -> forall x, In x xs -> body x = Ok tt.
Proof.
  induction xs as [|y r IH]; simpl; intros H x Hx; [contradiction|].
  bind_inv H. destruct r0. destruct Hx as [<-|Hx]; eauto.
Qed.

Lemma forEach_all_Ok {A} (body : A -> Result unit) (xs : list A) :
  (forall x, In x xs -> body x = Ok tt) -> forEach body xs = Ok tt.
Proof.
  induction xs as [|y r IH]; simpl; intros H; [reflexivity|].
  rewrite (H y (or_introl eq_refl)); simpl. apply IH; auto.
Qed.

Lemma mapM_Ok {A B} (f : A -> Result B) (xs : list A) (ys : list B) :
  mapM f xs = Ok ys -> Forall2 (fun x y => f x = Ok y) xs ys.
Proof.
  revert ys; induction xs as [|x r IH]; simpl; intros ys H.
  - injection H as <-. constructor.
  - bind_inv H. bind_inv H. injection H as <-. constructor; auto.
Qed.

Lemma mapM_all_Ok {A B} (f : A -> Result B) (g : A -> B) (xs : list A) :
  (forall x, In x xs -> f x = Ok (g x)) -> mapM f xs = Ok (List.map g xs).
Proof.
  induction xs as [|x r IH]; simpl; intros H; [reflexivity|].
  rewrite (H x (or_introl eq_refl)); simpl. rewrite IH by auto. reflexivity.
Qed.

Lemma flatMapM_Ok {A B} (f : A -> Result (list B)) (xs : list A)
    (ys : list B) :
  flatMapM f xs = Ok ys ->
  exists yss, Forall2 (fun x y => f x = Ok y) xs yss /\ ys = List.concat yss.
Proof.
  revert ys; induction xs as [|x r IH]; simpl; intros ys H.
  - injection H as <-. exists []. split; [constructor|reflexivity].
  - bind_inv H. bind_inv H. injection H as <-.
    destruct (IH _ Ha0) as [yss [F ->]].
    exists (r0 :: yss). split; [constructor; auto|reflexivity].
Qed.

Lemma flatMapM_all_nil {A B} (f : A -> Result (list B)) (xs : list A) :
  (forall x, In x xs -> f x = Ok []) -> flatMapM f xs = Ok [].
Proof.
  induction xs as [|x r IH]; simpl; intros H; [reflexivity|].
  rewrite (H x (or_introl eq_refl)); simpl. rewrite IH by auto. reflexivity.
Qed.

Lemma Forall2_In_l {A B} (R : A -> B -> Prop) xs ys x :
  Forall2 R xs ys -> In x xs -> exists y, In y ys /\ R x y.
Proof.
  induction 1 as [|a b l l' Hab F IH]; simpl; [contradiction|].
  intros [<-|Hx]; [exists b; auto|].
  destruct (IH Hx) as [y [Hy Hr]]. exists y; auto.
Qed.

Lemma Forall2_In_r {A B} (R : A -> B -> Prop) xs ys y :
  Forall2 R xs ys -> In y ys -> exists x, In x xs /\ R x y.
Proof.
  induction 1 as [|a b l l' Hab F IH]; simpl; [contradiction|].
  intros [<-|Hy]; [exists a; auto|].
  destruct (IH Hy) as [x [Hx Hr]]. exists x; auto.
Qed.

Arguments Forall2_In_l {A B R xs ys x} _ _.
Arguments Forall2_In_r {A B R xs ys y} _ _.

(** ** Maps and sets *)

Lemma map_get_In {V} (k : string) (m : JsMap V) (v : V) :
  map_get k m = Some v -> In (k, v) m.
Proof.
  induction m as [|[k' v'] r IH]; simpl; [discriminate|].
  destruct (String.eqb_spec k k') as [->|Hne].
  - intros [= ->]. auto.
  - auto.
Qed.

Lemma map_get_values {V} (k : string) (m : JsMap V) (v : V) :
  map_get k m = Some v -> In v (map_values m).
Proof.
  intros H. apply map_get_In in H. unfold map_values.
  change v with (snd (k, v)). apply in_map; assumption.
Qed.

Lemma map_get_None {V} (k : string) (m : JsMap V) :
  map_get k m = None <-> ~ In k (map_keys m).
Proof.
  induction m as [|[k' v'] r IH]; simpl; [tauto|].
  destruct (String.eqb_spec k k') as [->|Hne].
  - split; [discriminate|]. intros H; exfalso; apply H; auto.
  - rewrite IH. unfold map_keys. split; intros H.
    + intros [E|I]; [congruence|contradiction].
    + intros I. apply H. right. exact I.
Qed.

Lemma map_has_keys {V} (k : string) (m : JsMap V) :
  map_has k m = true <-> In k (map_keys m).
Proof.
  unfold map_has. destruct (map_get k m) eqn:E.
  - split; [|reflexivity]. intros _.
    apply map_get_In in E. change k with (fst (k, v)).
    apply in_map; assumption.
  - apply map_get_None in E. split; [discriminate|tauto].
Qed.

Lemma map_get_NoDup {V} (m : JsMap V) (k : string) (v : V) :
  NoDup (map_keys m) -> In (k, v) m -> map_get k m = Some v.
Proof.
  induction m as [|[k' v'] r IH]; simpl; [contradiction|].
  intros ND [E|I].
  - injection E as -> ->. rewrite String.eqb_refl. reflexivity.
  - inversion ND as [|? ? Hn ND']; subst.
    destruct (String.eqb_spec k k') as [->|Hne].
    + exfalso. apply Hn. change k' with (fst (k', v)). apply in_map; auto.
    + auto.
Qed.

Section SetFacts.
Variable T : Type.
Variable same : T -> T -> bool.

Lemma set_add_incl (x y : T) (s : list T) :
  In y (set_add same x s) -> y = x \/ In y s.
Proof.
  unfold set_add. destruct (set_has same x s); [auto|].
  rewrite in_app_iff. simpl. intros [H|[H|[]]]; auto.
Qed.

Lemma set_add_keeps (x y : T) (s : list T) :
  In y s -> In y (set_add same x s).
Proof.
  unfold set_add. destruct (set_has same x s); [auto|].
  rewrite in_app_iff. auto.
Qed.

Lemma set_add_has (x y : T) (s : list T) :
  set_has same y s = true -> set_has same y (set_add same x s) = true.
Proof.
  unfold set_add. destruct (set_has same x s); [auto|].
  unfold set_has. rewrite existsb_app. intros ->. reflexivity.
Qed.

Lemma set_add_all_incl (xs : list T) (s : list T) (y : T) :
  In y (set_add_all same xs s) -> In y xs \/ In y s.
Proof.
  revert s; induction xs as [|x r IH]; simpl; intros s H; [auto|].
  apply IH in H. destruct H as [H|H]; [auto|].
  apply set_add_incl in H. destruct H as [->|H]; auto.
Qed.

Lemma set_add_all_keeps (xs : list T) (s : list T) (y : T) :
  In y s -> In y (set_add_all same xs s).
Proof.
  revert s; induction xs as [|x r IH]; simpl; intros s H; [auto|].
  apply IH. apply set_add_keeps; assumption.
Qed.

Lemma set_add_all_has_keeps (xs : list T) (s : list T) (y : T) :
  set_has same y s = true -> set_has same y (set_add_all same xs s) = true.
Proof.
  revert s; induction xs as [|x r IH]; simpl; intros s H; [auto|].
  apply IH. apply set_add_has; assumption.
Qed.

Lemma Set_from_incl (xs : list T) (y : T) :
  In y (Set_from same xs) -> In y xs.
Proof.
  intros H. apply set_add_all_incl in H. destruct H as [H|[]]. exact H.
Qed.

Lemma Set_from_nil (xs : list T) : xs = [] -> Set_from same xs = [].
Proof. intros ->. reflexivity. Qed.

Lemma set_delete_incl (x y : T) (s : list T) :
  In y (set_delete same x s) -> In y s /\ same x y = false.
Proof.
  unfold set_delete. rewrite filter_In.
  intros [H1 H2]. split; [assumption|].
  destruct (same x y); [discriminate|reflexivity].
Qed.

Lemma set_delete_all_incl (xs : list T) (s : list T) (y : T) :
  In y (set_delete_all same xs s) ->
  In y s /\ forall x, In x xs -> same x y = false.
Proof.
  revert s; induction xs as [|x r IH]; simpl; intros s H.
  - split; [assumption|contradiction].
  - apply IH in H. destruct H as [H1 H2].
    apply set_delete_incl in H1. destruct H1 as [H1 H3].
    split; [assumption|]. intros z [<-|Hz]; auto.
Qed.

Lemma set_delete_all_nil (xs : list T) : set_delete_all same xs [] = [].
Proof. induction xs as [|x r IH]; simpl; auto. Qed.

Hypothesis same_refl : forall x, same x x = true.

Lemma set_add_has_new (x : T) (s : list T) :
  set_has same x (set_add same x s) = true.
Proof.
  unfold set_add. destruct (set_has same x s) eqn:E; [assumption|].
  unfold set_has. rewrite existsb_app. simpl.
  rewrite same_refl. apply orb_true_iff. right. reflexivity.
Qed.

Lemma set_add_all_has (xs : list T) (s : list T) (y : T) :
  In y xs -> set_has same y (set_add_all same xs s) = true.
Proof.
  revert s; induction xs as [|x r IH]; simpl; intros s H; [contradiction|].
  destruct H as [->|H]; [|auto].
  apply set_add_all_has_keeps. apply set_add_has_new.
Qed.
End SetFacts.

Lemma flat_map_nil {A B} (f : A -> list B) (xs : list A) :
  (forall x, In x xs -> f x = []) -> flat_map f xs = [].
Proof.
  induction xs as [|x r IH]; simpl; intros H; [reflexivity|].
  rewrite (H x (or_introl eq_refl)). simpl. apply IH; auto.
Qed.

Lemma filter_nil {A} (p : A -> bool) (xs : list A) :
  (forall x, In x xs -> p x = false) -> filter p xs = [].
Proof.
  induction xs as [|x r IH]; simpl; intros H; [reflexivity|].
  rewrite (H x (or_introl eq_refl)). apply IH; auto.
Qed.

(** ** The steps of one run of [differences] *)

Lemma differences_runs newId from to options r :
  differences newId from to options = Ok r <->
  exists t, runs newId from to options t /\ r = outcome from to t.
Proof.
  unfold differences. split.
  - destruct (inCreationMode options && (0 <? map_size (tables from))%nat)
      eqn:Hmode; [discriminate|].
    intros H.
    bind_inv H. destruct r0. bind_inv H. destruct r0.
    bind_inv H. rename r0 into plan.
    bind_inv H. rename r0 into toAdd.
    bind_inv H. rename r0 into toRemove.
    bind_inv H. rename r0 into w.
    bind_inv H. rename r0 into rfk.
    bind_inv H. rename r0 into cto.
    bind_inv H. rename r0 into aco.
    bind_inv H. rename r0 into rco.
    bind_inv H. rename r0 into rec.
    bind_inv H. rename r0 into afk.
    bind_inv H. rename r0 into aio.
    bind_inv H. rename r0 into added.
    bind_inv H. rename r0 into removed.
    injection H as <-.
    exists (mkTrace plan w rfk cto aco rco rec afk aio added removed toAdd
              toRemove).
    split; [constructor; assumption|reflexivity].
  - intros [t [R ->]]. destruct R.
    rewrite run_mode0, run_verify_from0. simpl.
    rewrite run_verify_to0. simpl.
    rewrite run_plan0. simpl. rewrite run_toAdd0. simpl.
    rewrite run_toRemove0. simpl. rewrite run_sets0. simpl.
    rewrite run_removeForeignKeyOps0. simpl.
    rewrite run_createTableOps0. simpl.
    rewrite run_addColumnOps0. simpl.
    rewrite run_removeColumnOps0. simpl.
    rewrite run_recreateOps0. simpl.
    rewrite run_addForeignKeyOps0. simpl.
    rewrite run_addIndexOps0. simpl.
    rewrite run_added0. simpl. rewrite run_removed0. simpl.
    reflexivity.
Qed.

(** [columnsToAdd] starts empty and only ever loses elements. *)
Lemma foldIntoRecreate_columnsToAdd from to names w w' :
  foldM (foldIntoRecreate from to) names w = Ok w' ->
  columnsToAdd w = [] -> columnsToAdd w' = [].
Proof.
  revert w; induction names as [|n r IH]; simpl; intros w H E.
  - injection H as <-. exact E.
  - bind_inv H. apply (IH _ H).
    unfold foldIntoRecreate in Ha.
    destruct (map_get n (tables from)); [|discriminate].
    destruct (map_get n (tables to)); [|discriminate].
    injection Ha as <-. simpl. rewrite E. apply set_delete_all_nil.
Qed.

Lemma runs_columnsToAdd newId from to options t :
  runs newId from to options t ->
  columnsToAdd (tr_sets t) = [] /\ tr_addColumnOps t = [] /\ tr_added t = [].
Proof.
  intros R.
  assert (E : columnsToAdd (tr_sets t) = []).
  { eapply foldIntoRecreate_columnsToAdd; [apply (run_sets R)|reflexivity]. }
  split; [exact E|].
  pose proof (run_addColumnOps R) as H1. pose proof (run_added R) as H2.
  rewrite E in H1, H2. simpl in H1, H2.
  split; congruence.
Qed.

(** ** Operation categories *)

(** A title that starts with the words of [k] starts with the words of no
    other kind. *)
Lemma kind_of_title (k k' : OperationKind) (rest : string) (s : list string) :
  has_kind k' {| title := kind_words k ++ rest; sql := s |}
  = OperationKind_eqb k' k.
Proof. destruct k, k'; destruct rest; reflexivity. Qed.

Lemma removeIndexOp_kind k i :
  has_kind k (removeIndexOp i) = OperationKind_eqb k RemoveIndex.
Proof. apply (kind_of_title RemoveIndex). Qed.

Lemma removeTableOp_kind k t :
  has_kind k (removeTableOp t) = OperationKind_eqb k RemoveTable.
Proof. apply (kind_of_title RemoveTable). Qed.

Lemma removeForeignKeyOp_kind k n c :
  has_kind k (removeForeignKeyOp n c) = OperationKind_eqb k RemoveForeignKey.
Proof. apply (kind_of_title RemoveForeignKey). Qed.

Lemma createTableOp_kind k t op :
  createTableOp t = Ok op -> has_kind k op = OperationKind_eqb k CreateTable.
Proof.
  unfold createTableOp. intros H. bind_inv H. injection H as <-.
  apply (kind_of_title CreateTable).
Qed.

Lemma addColumnOp_kind k c op :
  addColumnOp c = Ok op -> has_kind k op = OperationKind_eqb k AddColumn.
Proof.
  unfold addColumnOp. intros H. bind_inv H. bind_inv H. injection H as <-.
  apply (kind_of_title AddColumn).
Qed.

Lemma removeColumnOp_kind k c op :
  removeColumnOp c = Ok op -> has_kind k op = OperationKind_eqb k RemoveColumn.
Proof.
  unfold removeColumnOp. intros H. bind_inv H. bind_inv H. injection H as <-.
  apply (kind_of_title RemoveColumn).
Qed.

Lemma recreateTableOp_kind k id from to n op :
  recreateTableOp id from to n = Ok op ->
  has_kind k op = OperationKind_eqb k RecreateTable.
Proof.
  unfold recreateTableOp. intros H.
  bind_inv H. bind_inv H. bind_inv H. injection H as <-.
  apply (kind_of_title RecreateTable).
Qed.

Lemma addIndexOp_kind k i op :
  addIndexOp i = Ok op -> has_kind k op = OperationKind_eqb k AddIndex.
Proof.
  unfold addIndexOp. intros H. bind_inv H. injection H as <-.
  apply (kind_of_title AddIndex).
Qed.

Lemma addForeignKeyStep_kind k to drop adds fk ops op :
  addForeignKeyStep to drop adds fk = Ok ops -> In op ops ->
  has_kind k op = OperationKind_eqb k AddForeignKey.
Proof.
  unfold addForeignKeyStep. intros H Hin.
  bind_inv H. bind_inv H. destruct (negb r0).
  - injection H as <-. contradiction.
  - bind_inv H. bind_inv H. bind_inv H. injection H as <-.
    destruct Hin as [<-|[]]. apply (kind_of_title AddForeignKey).
Qed.

Lemma removeForeignKeyStep_kind k drop fk ops op :
  removeForeignKeyStep drop fk = Ok ops -> In op ops ->
  has_kind k op = OperationKind_eqb k RemoveForeignKey.
Proof.
  unfold removeForeignKeyStep. intros H Hin.
  bind_inv H. destruct (set_has String.eqb r drop).
  - bind_inv H. injection H as <-. destruct Hin as [<-|[]].
    apply removeForeignKeyOp_kind.
  - injection H as <-. contradiction.
Qed.

Lemma recreateTableOps_Forall2 newId k from to names ops :
  recreateTableOps newId k from to names = Ok ops ->
  Forall2 (fun n op => exists id, recreateTableOp id from to n = Ok op)
    names ops.
Proof.
  revert k ops; induction names as [|n r IH]; simpl; intros k ops H.
  - injection H as <-. constructor.
  - bind_inv H. bind_inv H. injection H as <-.
    constructor; [exists (newId k); assumption|eauto].
Qed.

(** The kind of every operation of a run, segment by segment. *)
Lemma runs_kinds newId from to options t k :
  runs newId from to options t ->
  Forall (fun op => has_kind k op = OperationKind_eqb k RemoveIndex)
    (List.map removeIndexOp (indexesToRemove (tr_sets t)))
  /\ Forall (fun op => has_kind k op = OperationKind_eqb k RemoveForeignKey)
       (tr_removeForeignKeyOps t)
  /\ Forall (fun op => has_kind k op = OperationKind_eqb k CreateTable)
       (tr_createTableOps t)
  /\ Forall (fun op => has_kind k op = OperationKind_eqb k RemoveTable)
       (List.map removeTableOp (getTablesToDelete from to))
  /\ Forall (fun op => has_kind k op = OperationKind_eqb k RemoveColumn)
       (tr_removeColumnOps t)
  /\ Forall (fun op => has_kind k op = OperationKind_eqb k RecreateTable)
       (tr_recreateOps t)
  /\ Forall (fun op => has_kind k op = OperationKind_eqb k AddForeignKey)
       (tr_addForeignKeyOps t)
  /\ Forall (fun op => has_kind k op = OperationKind_eqb k AddIndex)
       (tr_addIndexOps t).
Proof.
  intros R. repeat split; apply Forall_forall; intros op Hin.
  - apply in_map_iff in Hin. destruct Hin as [i [<- _]].
    apply removeIndexOp_kind.
  - destruct (flatMapM_Ok _ _ (run_removeForeignKeyOps R)) as [yss [F E]].
    rewrite E in Hin. apply in_concat in Hin. destruct Hin as [ys [Hys Hop]].
    destruct (Forall2_In_r F Hys) as [fk [_ Hfk]].
    eapply removeForeignKeyStep_kind; eassumption.
  - destruct (Forall2_In_r (mapM_Ok _ _ (run_createTableOps R)) Hin)
      as [x [_ Hx]].
    eapply createTableOp_kind; eassumption.
  - apply in_map_iff in Hin. destruct Hin as [i [<- _]].
    apply removeTableOp_kind.
  - destruct (Forall2_In_r (mapM_Ok _ _ (run_removeColumnOps R)) Hin)
      as [x [_ Hx]].
    eapply removeColumnOp_kind; eassumption.
  - destruct (Forall2_In_r (recreateTableOps_Forall2 _ _ _ _ _
                              (run_recreateOps R)) Hin) as [x [_ [id Hx]]].
    eapply recreateTableOp_kind; eassumption.
  - pose proof (run_addForeignKeyOps R) as H.
    destruct (inCreationMode options).
    + injection H as E. rewrite <- E in Hin. contradiction.
    + destruct (flatMapM_Ok _ _ H) as [yss [F E]].
      rewrite E in Hin. apply in_concat in Hin.
      destruct Hin as [ys [Hys Hop]].
      destruct (Forall2_In_r F Hys) as [fk [_ Hfk]].
      eapply addForeignKeyStep_kind; eassumption.
  - destruct (Forall2_In_r (mapM_Ok _ _ (run_addIndexOps R)) Hin)
      as [x [_ Hx]].
    eapply addIndexOp_kind; eassumption.
Qed.
(** ** Comparisons that may throw *)

Unset Implicit Arguments.

Lemma encodeURIComponent_Ok s e :
  encodeURIComponent s = Ok e -> e = percentEncode s.
Proof.
  unfold encodeURIComponent. destruct (isWellFormed s); [|discriminate].
  intros H. injection H as <-. reflexivity.
Qed.

Lemma encodeURIComponent_wellFormed s :
  isWellFormed s = true -> encodeURIComponent s = Ok (percentEncode s).
Proof. unfold encodeURIComponent. intros ->. reflexivity. Qed.

Lemma mapM_map {A B} (f : A -> Result B) (g : A -> B) (xs : list A)
    (ys : list B) :
  (forall x y, f x = Ok y -> y = g x) ->
  mapM f xs = Ok ys -> ys = List.map g xs.
Proof.
  intros Hf. revert ys; induction xs as [|x r IH]; simpl; intros ys H.
  - injection H as <-. reflexivity.
  - bind_inv H. bind_inv H. injection H as <-.
    rewrite (Hf _ _ Ha), (IH _ Ha0). reflexivity.
Qed.

Lemma encodeNames_Ok (columns : list Column) (names : list string) :
  mapM (fun c => encodeURIComponent (col_name c)) columns = Ok names ->
  names = List.map (fun c => percentEncode (col_name c)) columns.
Proof.
  apply mapM_map. intros c e. apply encodeURIComponent_Ok.
Qed.

Lemma encodeNames_encodable (columns : list Column) :
  Columns_encodable columns ->
  mapM (fun c => encodeURIComponent (col_name c)) columns
  = Ok (List.map (fun c => percentEncode (col_name c)) columns).
Proof.
  intros E. apply mapM_all_Ok. intros c Hc.
  unfold Columns_encodable in E. rewrite Forall_forall in E.
  apply encodeURIComponent_wellFormed. apply E. exact Hc.
Qed.

Lemma stringifyColumnsList_Ok columns text :
  stringifyColumnsList columns = Ok text -> text = columnsListText columns.
Proof.
  unfold stringifyColumnsList, columnsListText. intros H. bind_inv H.
  injection H as <-. rewrite (encodeNames_Ok _ _ Ha). reflexivity.
Qed.

Lemma stringifyColumnsList_encodable columns :
  Columns_encodable (elements columns) ->
  stringifyColumnsList columns = Ok (columnsListText columns).
Proof.
  intros E. unfold stringifyColumnsList.
  rewrite (encodeNames_encodable _ E). reflexivity.
Qed.

Lemma elements_dense {A} (l : list A) : elements (List.map Some l) = l.
Proof. induction l as [|x r IH]; simpl; [|rewrite IH]; reflexivity. Qed.

Lemma primaryKeysEqual_Ok a b v :
  primaryKeysEqual a b = Ok v -> v = primaryKeysSame a b.
Proof.
  unfold primaryKeysEqual, primaryKeysSame. intros H.
  bind_inv H. bind_inv H. injection H as <-.
  rewrite (stringifyColumnsList_Ok _ _ Ha), (stringifyColumnsList_Ok _ _ Ha0).
  reflexivity.
Qed.

Lemma stringifyUniques_Ok uniques text :
  stringifyUniques uniques = Ok text -> text = uniquesText uniques.
Proof.
  unfold stringifyUniques, uniquesText. intros H. bind_inv H.
  injection H as <-.
  rewrite (mapM_map stringifyUnique uniqueText uniques r); [reflexivity| |].
  - intros u t. apply stringifyColumnsList_Ok.
  - exact Ha.
Qed.

Lemma stringifyUniques_encodable uniques :
  Forall (fun u => Columns_encodable (uq_columns u)) uniques ->
  stringifyUniques uniques = Ok (uniquesText uniques).
Proof.
  intros E. unfold stringifyUniques.
  rewrite (@mapM_all_Ok _ _ stringifyUnique uniqueText uniques);
    [reflexivity|].
  intros u Hu. rewrite Forall_forall in E.
  apply stringifyColumnsList_encodable. rewrite elements_dense.
  apply E. exact Hu.
Qed.

Lemma uniquesEqual_Ok a b v :
  uniquesEqual a b = Ok v -> v = uniquesSame a b.
Proof.
  unfold uniquesEqual, uniquesSame. intros H.
  bind_inv H. bind_inv H. injection H as <-.
  rewrite (stringifyUniques_Ok _ _ Ha), (stringifyUniques_Ok _ _ Ha0).
  reflexivity.
Qed.

Lemma stringifyForeignKey_Ok fk text :
  stringifyForeignKey fk = Ok text -> text = foreignKeyText fk.
Proof.
  unfold stringifyForeignKey, foreignKeyText. intros H.
  bind_inv H. bind_inv H. injection H as <-.
  rewrite (stringifyColumnsList_Ok _ _ Ha), (stringifyColumnsList_Ok _ _ Ha0).
  reflexivity.
Qed.

Lemma stringifyForeignKey_encodable fk :
  Columns_encodable (fk_localColumns fk) ->
  Columns_encodable (fk_foreignColumns fk) ->
  stringifyForeignKey fk = Ok (foreignKeyText fk).
Proof.
  intros E1 E2. unfold stringifyForeignKey.
  rewrite !stringifyColumnsList_encodable
    by (rewrite elements_dense; assumption).
  reflexivity.
Qed.

Lemma stringifyForeignKeys_Ok fks text :
  stringifyForeignKeys fks = Ok text -> text = foreignKeysText fks.
Proof.
  unfold stringifyForeignKeys, foreignKeysText. intros H. bind_inv H.
  injection H as <-.
  rewrite (mapM_map stringifyForeignKey foreignKeyText fks r);
    [reflexivity| |exact Ha].
  intros fk t. apply stringifyForeignKey_Ok.
Qed.

Lemma stringifyForeignKeys_encodable fks :
  Forall (fun fk => Columns_encodable (fk_localColumns fk)
                    /\ Columns_encodable (fk_foreignColumns fk)) fks ->
  stringifyForeignKeys fks = Ok (foreignKeysText fks).
Proof.
  intros E. unfold stringifyForeignKeys.
  rewrite (@mapM_all_Ok _ _ stringifyForeignKey foreignKeyText fks);
    [reflexivity|].
  intros fk Hfk. rewrite Forall_forall in E. destruct (E fk Hfk).
  apply stringifyForeignKey_encodable; assumption.
Qed.

Lemma foreignKeysEqual_Ok a b v :
  foreignKeysEqual a b = Ok v -> v = foreignKeysSame a b.
Proof.
  unfold foreignKeysEqual, foreignKeysSame. intros H.
  bind_inv H. bind_inv H. injection H as <-.
  rewrite (stringifyForeignKeys_Ok _ _ Ha),
    (stringifyForeignKeys_Ok _ _ Ha0).
  reflexivity.
Qed.

Lemma compareTables_Ok a b changed :
  compareTables a b = Ok changed -> changed = changesOf a b.
Proof.
  unfold compareTables, changesOf. intros H.
  bind_inv H. bind_inv H. bind_inv H. injection H as <-.
  rewrite (primaryKeysEqual_Ok _ _ _ Ha), (uniquesEqual_Ok _ _ _ Ha0),
    (foreignKeysEqual_Ok _ _ _ Ha1).
  reflexivity.
Qed.

Lemma compareTables_encodable a b :
  Table_encodable a -> Table_encodable b ->
  compareTables a b = Ok (changesOf a b).
Proof.
  intros [Pa [Ua [Fa _]]] [Pb [Ub [Fb _]]].
  unfold compareTables, primaryKeysEqual, uniquesEqual, foreignKeysEqual.
  rewrite !stringifyColumnsList_encodable by assumption. simpl.
  rewrite !stringifyUniques_encodable by assumption. simpl.
  rewrite !stringifyForeignKeys_encodable by assumption. simpl.
  reflexivity.
Qed.

Lemma indexesEqual_Ok a b v : indexesEqual a b = Ok v -> v = indexesSame a b.
Proof.
  unfold indexesEqual, indexesSame.
  destruct (Bool.eqb (idx_unique a) (idx_unique b)
            && (idx_name a =? idx_name b)).
  - intros H. bind_inv H. bind_inv H. injection H as <-.
    rewrite (encodeNames_Ok _ _ Ha), (encodeNames_Ok _ _ Ha0). reflexivity.
  - intros H. injection H as <-. reflexivity.
Qed.

Lemma indexesEqual_encodable a b :
  Columns_encodable (idx_columns a) -> Columns_encodable (idx_columns b) ->
  indexesEqual a b = Ok (indexesSame a b).
Proof.
  intros Ea Eb. unfold indexesEqual, indexesSame.
  destruct (Bool.eqb (idx_unique a) (idx_unique b)
            && (idx_name a =? idx_name b)); [|reflexivity].
  rewrite (encodeNames_encodable _ Ea), (encodeNames_encodable _ Eb).
  reflexivity.
Qed.

(** *** The loops of [getIndexesToAdd] and [getIndexesToRemove] *)

Lemma collectIndexes_Ok wanted entries collected :
  collectIndexes wanted entries = Ok collected ->
  forall accepts : string * Index -> bool,
    (forall e b, In e entries -> wanted e = Ok b -> b = accepts e) ->
    collected = Set_from Index_same (List.map snd (filter accepts entries)).
Proof.
  unfold collectIndexes, Set_from. generalize (@nil Index) as acc.
  induction entries as [|e r IH]; simpl; intros acc H accepts Hacc.
  - injection H as <-. reflexivity.
  - bind_inv H. bind_inv Ha. injection Ha as <-.
    rewrite <- (Hacc e r1 (or_introl eq_refl) Haa).
    rewrite (IH _ H accepts) by (intros; eapply Hacc; eauto).
    destruct r1; reflexivity.
Qed.

Lemma collectIndexes_returns wanted entries accepts :
  (forall e, In e entries -> wanted e = Ok (accepts e)) ->
  collectIndexes wanted entries
  = Ok (Set_from Index_same (List.map snd (filter accepts entries))).
Proof.
  unfold collectIndexes, Set_from. generalize (@nil Index) as acc.
  induction entries as [|e r IH]; simpl; intros acc Ha; [reflexivity|].
  rewrite (Ha e (or_introl eq_refl)). simpl.
  rewrite IH by (intros; apply Ha; auto).
  destruct (accepts e); reflexivity.
Qed.

Lemma getIndexesToAdd_Ok from to l :
  getIndexesToAdd from to = Ok l -> l = indexesToAddOf from to.
Proof.
  unfold getIndexesToAdd, indexesToAddOf. intros H.
  apply (collectIndexes_Ok _ _ _ H). intros e b _.
  destruct (map_get (fst e) (indexesByName from)) as [i|].
  - intros E. bind_inv E. injection E as <-.
    rewrite (indexesEqual_Ok _ _ _ Ea). reflexivity.
  - intros E. injection E as <-. reflexivity.
Qed.

Lemma getIndexesToRemove_Ok from to l :
  getIndexesToRemove from to = Ok l -> l = indexesToRemoveOf from to.
Proof.
  unfold getIndexesToRemove, indexesToRemoveOf. intros H.
  apply (collectIndexes_Ok _ _ _ H). intros e b _.
  destruct (map_get (fst e) (indexesByName to)) as [i|].
  - intros E. bind_inv E. injection E as <-.
    rewrite (indexesEqual_Ok _ _ _ Ea). reflexivity.
  - intros E. injection E as <-. reflexivity.
Qed.

(** *** The loop of [getTablesToRecreate] *)

Lemma recreateStep_Ok to references added plan t plan' :
  recreateStep to references added plan t = Ok plan' ->
  plan' = planStepOf to references added plan t.
Proof.
  unfold recreateStep, planStepOf.
  destruct (map_get (tbl_name t) (tables to)) as [toTable|].
  - intros H. bind_inv H. injection H as <-.
    rewrite (compareTables_Ok _ _ _ Ha). reflexivity.
  - intros H. injection H as <-. reflexivity.
Qed.

Lemma foldM_recreateStep_Ok to references added l plan plan' :
  foldM (recreateStep to references added) l plan = Ok plan' ->
  plan' = fold_left (planStepOf to references added) l plan.
Proof.
  revert plan; induction l as [|t r IH]; simpl; intros plan H.
  - injection H as <-. reflexivity.
  - bind_inv H. rewrite (recreateStep_Ok _ _ _ _ _ _ Ha) in H.
    apply IH. exact H.
Qed.

Lemma foldM_recreateStep_encodable to references added l plan :
  Forall Table_encodable l ->
  Forall Table_encodable (map_values (tables to)) ->
  foldM (recreateStep to references added) l plan
  = Ok (fold_left (planStepOf to references added) l plan).
Proof.
  intros El Et. revert plan; induction El as [|t r Ht El IH]; intros plan;
    simpl; [reflexivity|].
  assert (S : recreateStep to references added plan t
              = Ok (planStepOf to references added plan t)).
  { unfold recreateStep, planStepOf.
    destruct (map_get (tbl_name t) (tables to)) as [toTable|] eqn:G;
      [|reflexivity].
    rewrite compareTables_encodable; [reflexivity|exact Ht|].
    rewrite Forall_forall in Et. apply Et. apply (@map_get_values _ _ _ _ G). }
  rewrite S. simpl. apply IH.
Qed.

(** The sets that the loop over the recreated tables starts from. *)
Lemma run_sets_of newId from to options t :
  runs newId from to options t ->
  tr_toAdd t = indexesToAddOf from to
  /\ tr_toRemove t = indexesToRemoveOf from to
  /\ foldM (foldIntoRecreate from to) (tablesToRecreate (tr_plan t))
       {| columnsToDelete := getColumnsToDelete from to;
          columnsToAdd := [];
          indexesToRemove := indexesToRemoveOf from to;
          indexesToAdd := indexesToAddOf from to |} = Ok (tr_sets t).
Proof.
  intros R.
  pose proof (getIndexesToAdd_Ok _ _ _ (run_toAdd R)) as Ea.
  pose proof (getIndexesToRemove_Ok _ _ _ (run_toRemove R)) as Er.
  split; [exact Ea|]. split; [exact Er|].
  rewrite <- Ea, <- Er. apply (run_sets R).
Qed.

Lemma collectIndexes_each wanted entries collected :
  collectIndexes wanted entries = Ok collected ->
  forall e, In e entries -> exists b, wanted e = Ok b.
Proof.
  unfold collectIndexes. generalize (@nil Index) as acc.
  induction entries as [|x r IH]; simpl; intros acc H e He;
    [contradiction|].
  bind_inv H. bind_inv Ha. destruct He as [<-|He]; [eauto|].
  apply (IH _ H e He).
Qed.

Set Implicit Arguments.

(** ** Linked snapshots *)

Lemma linked_get d t :
  Definitions_linked d -> In t (map_values (tables d)) ->
  map_get (tbl_name t) (tables d) = Some t.
Proof.
  intros L Hin. unfold map_values in Hin. apply in_map_iff in Hin.
  destruct Hin as [[k v] [E Hin]]. simpl in E. subst v.
  pose proof (tables_keyed L) as K. rewrite Forall_forall in K.
  pose proof (K _ Hin) as Ek. simpl in Ek. subst k.
  apply map_get_NoDup; [apply (tables_distinct L)|exact Hin].
Qed.

Lemma linked_get_name d k t :
  Definitions_linked d -> map_get k (tables d) = Some t -> tbl_name t = k.
Proof.
  intros L H. apply map_get_In in H.
  pose proof (tables_keyed L) as K. rewrite Forall_forall in K.
  symmetry. apply (K _ H).
Qed.

Lemma linked_table d t :
  Definitions_linked d -> In t (map_values (tables d)) -> Table_linked t.
Proof.
  intros L Hin. pose proof (tables_linked L) as K.
  rewrite Forall_forall in K. auto.
Qed.

Arguments linked_get {d t} _ _.
Arguments linked_get_name {d k t} _ _.
Arguments linked_table {d t} _ _.

Lemma NoDup_map_injective {A B} (f : A -> B) (l : list A) (a b : A) :
  NoDup (List.map f l) -> In a l -> In b l -> f a = f b -> a = b.
Proof.
  induction l as [|x r IH]; simpl; [contradiction|].
  intros ND Ha Hb E. inversion ND as [|? ? Hn ND']; subst.
  destruct Ha as [->|Ha], Hb as [->|Hb]; auto.
  - exfalso. apply Hn. rewrite E. apply in_map; assumption.
  - exfalso. apply Hn. rewrite <- E. apply in_map; assumption.
Qed.

Lemma String_set_has (x : string) (s : list string) :
  set_has String.eqb x s = true <-> In x s.
Proof.
  unfold set_has. rewrite existsb_exists. split.
  - intros [y [Hy E]]. apply String.eqb_eq in E. subst; assumption.
  - intros H. exists x. split; [assumption|apply String.eqb_refl].
Qed.

(** ** The recreate plan *)

Lemma structuralReasons_nonempty added fromTable changed :
  structuralChange added fromTable changed = true ->
  structuralReasons added fromTable changed <> [].
Proof.
  unfold structuralChange, structuralReasons.
  destruct (set_has String.eqb (tbl_name fromTable) added); [discriminate|].
  destruct (pkChanged changed); simpl; [discriminate|].
  destruct (uniquesChanged changed); simpl; [discriminate|].
  destruct (fksChanged changed); simpl; [discriminate|].
  destruct (hasUniqueIndexes fromTable); simpl; discriminate.
Qed.

Lemma planStepOf_keeps_recreate to references added plan t n :
  In n (tablesToRecreate plan) ->
  In n (tablesToRecreate (planStepOf to references added plan t)).
Proof.
  intros H. unfold planStepOf, planStep.
  destruct (map_get (tbl_name t) (tables to)); [|exact H].
  destruct (0 <? _)%nat; simpl; [apply set_add_keeps|]; exact H.
Qed.

Lemma planStepOf_keeps_drop to references added plan t n :
  In n (tablesToDropReferences plan) ->
  In n (tablesToDropReferences (planStepOf to references added plan t)).
Proof.
  intros H. unfold planStepOf, planStep.
  destruct (map_get (tbl_name t) (tables to)); [|exact H].
  assert (In n (if structuralChange added t (changesOf t t0)
                then set_add_all String.eqb
                       (filter (fun table => map_has table (tables to))
                          match map_get (tbl_name t) references with
                          | Some s => s
                          | None => []
                          end) (tablesToDropReferences plan)
                else tablesToDropReferences plan)) as H'.
  { destruct (structuralChange added t (changesOf t t0));
      [apply set_add_all_keeps|]; exact H. }
  destruct (0 <? _)%nat; simpl; [apply set_add_keeps|]; exact H'.
Qed.

Lemma fold_planStepOf_keeps to references added l plan n :
  (In n (tablesToRecreate plan) ->
   In n (tablesToRecreate
           (fold_left (planStepOf to references added) l plan)))
  /\ (In n (tablesToDropReferences plan) ->
      In n (tablesToDropReferences
              (fold_left (planStepOf to references added) l plan))).
Proof.
  revert plan; induction l as [|t r IH]; intros plan; simpl; [auto|].
  destruct (IH (planStepOf to references added plan t)) as [IH1 IH2].
  split; intros H.
  - apply IH1. apply planStepOf_keeps_recreate. exact H.
  - apply IH2. apply planStepOf_keeps_drop. exact H.
Qed.

Lemma planStepOf_drops_referencing to references added plan t toTable s
    referencing :
  map_get (tbl_name t) (tables to) = Some toTable ->
  structuralChange added t (changesOf t toTable) = true ->
  map_get (tbl_name t) references = Some s -> In referencing s ->
  map_has referencing (tables to) = true ->
  In referencing
    (tablesToDropReferences (planStepOf to references added plan t)).
Proof.
  intros Hget Hs Hrefs Hr Hhas. unfold planStepOf, planStep.
  rewrite Hget, Hs, Hrefs.
  assert (In referencing
            (set_add_all String.eqb
               (filter (fun table => map_has table (tables to)) s)
               (tablesToDropReferences plan))) as H.
  { apply String_set_has. apply set_add_all_has; [apply String.eqb_refl|].
    apply filter_In. split; assumption. }
  destruct (0 <? _)%nat; simpl; [apply set_add_keeps|]; exact H.
Qed.

(** A table of [from] that [to] keeps and whose comparison produces a
    structural change is recreated, and the tables of [to] that reference
    it have their references dropped. *)
Lemma fold_planStepOf_structural to references added l plan t toTable :
  In t l ->
  map_get (tbl_name t) (tables to) = Some toTable ->
  structuralChange added t (changesOf t toTable) = true ->
  let final := fold_left (planStepOf to references added) l plan in
  In (tbl_name t) (tablesToRecreate final)
  /\ forall referencing s,
       map_get (tbl_name t) references = Some s -> In referencing s ->
       map_has referencing (tables to) = true ->
       In referencing (tablesToDropReferences final).
Proof.
  revert plan; induction l as [|x r IH]; intros plan Hin Hget Hs;
    [contradiction|].
  simpl. destruct Hin as [->|Hin]; [|apply IH; assumption].
  destruct (fold_planStepOf_keeps to references added r
              (planStepOf to references added plan t) (tbl_name t))
    as [K1 _].
  split.
  - apply K1. unfold planStepOf, planStep. rewrite Hget, Hs.
    pose proof (structuralReasons_nonempty added t (changesOf t toTable) Hs) as Hne.
    destruct (columnReasons t toTable ++ structuralReasons added t (changesOf t toTable))
      as [|reason reasons] eqn:E.
    + apply app_eq_nil in E. destruct E as [_ E]. contradiction.
    + simpl. apply String_set_has. apply set_add_has_new.
      apply String.eqb_refl.
  - intros referencing s Hrefs Hr Hhas.
    destruct (fold_planStepOf_keeps to references added r
                (planStepOf to references added plan t) referencing)
      as [_ K2].
    apply K2. eapply planStepOf_drops_referencing; eassumption.
Qed.

Lemma planStepOf_recreate_inv to references added plan t n :
  In n (tablesToRecreate (planStepOf to references added plan t)) ->
  In n (tablesToRecreate plan)
  \/ (n = tbl_name t /\ map_has n (tables to) = true).
Proof.
  unfold planStepOf, planStep, map_has.
  destruct (map_get (tbl_name t) (tables to)) eqn:E; [|auto].
  destruct (0 <? _)%nat; simpl; [|auto].
  intros H. apply set_add_incl in H. destruct H as [->|H]; [right|auto].
  rewrite E. auto.
Qed.

Lemma planStepOf_drop_inv to references added plan t n :
  In n (tablesToDropReferences (planStepOf to references added plan t)) ->
  In n (tablesToDropReferences plan) \/ map_has n (tables to) = true.
Proof.
  unfold planStepOf, planStep.
  destruct (map_get (tbl_name t) (tables to)) as [toTable|] eqn:E; [|auto].
  assert (forall n,
            In n (if structuralChange added t (changesOf t toTable)
                  then set_add_all String.eqb
                         (filter (fun table => map_has table (tables to))
                            match map_get (tbl_name t) references with
                            | Some s => s
                            | None => []
                            end) (tablesToDropReferences plan)
                  else tablesToDropReferences plan) ->
            In n (tablesToDropReferences plan)
            \/ map_has n (tables to) = true) as K.
  { intros m. destruct (structuralChange added t (changesOf t toTable)); [|auto].
    intros H. apply set_add_all_incl in H. destruct H as [H|H]; [|auto].
    apply filter_In in H. right. apply H. }
  destruct (0 <? _)%nat; simpl; [|apply K].
  intros H. apply set_add_incl in H. destruct H as [->|H]; [|apply K, H].
  right. unfold map_has. rewrite E. reflexivity.
Qed.

Lemma fold_planStepOf_inv to references added l plan n :
  let final := fold_left (planStepOf to references added) l plan in
  (In n (tablesToRecreate final) ->
   In n (tablesToRecreate plan)
   \/ (exists t, In t l /\ n = tbl_name t /\ map_has n (tables to) = true))
  /\ (In n (tablesToDropReferences final) ->
      In n (tablesToDropReferences plan) \/ map_has n (tables to) = true).
Proof.
  revert plan; induction l as [|t r IH]; intros plan; simpl; [auto|].
  destruct (IH (planStepOf to references added plan t)) as [IH1 IH2].
  split; intros H.
  - destruct (IH1 H) as [H1|[x [Hx Hn]]].
    + apply planStepOf_recreate_inv in H1.
      destruct H1 as [H1|[-> Hh]]; [auto|]. right. exists t. auto.
    + right. exists x. auto.
  - destruct (IH2 H) as [H1|H1]; [|auto].
    apply planStepOf_drop_inv in H1. exact H1.
Qed.

(** What [getTablesToRecreate] returns, given the names of the tables
    that gained a column. *)
Lemma getTablesToRecreate_Ok from to plan :
  getTablesToRecreate from to = Ok plan ->
  exists owners,
    mapM (fun c => ownerName (col_table c)) (getColumnsToAdd from to)
    = Ok owners
    /\ plan
       = fold_left
           (planStepOf to (tablesReferences from)
              (Set_from String.eqb owners))
           (map_values (tables from))
           {| tablesToRecreate := []; tablesToDropReferences := [];
              planReasons := [] |}.
Proof.
  unfold getTablesToRecreate. intros H. bind_inv H.
  exists r. split; [exact Ha|]. apply foldM_recreateStep_Ok. exact H.
Qed.

(** Every recreated table is in both snapshots, and so is every table
    whose references are dropped in [to]. *)
Lemma plan_names from to plan n :
  getTablesToRecreate from to = Ok plan ->
  (In n (tablesToRecreate plan) ->
   exists t, In t (map_values (tables from)) /\ n = tbl_name t
             /\ map_has n (tables to) = true)
  /\ (In n (tablesToDropReferences plan) -> map_has n (tables to) = true).
Proof.
  intros H. apply getTablesToRecreate_Ok in H. destruct H as [owners [_ ->]].
  match goal with
  | |- context [fold_left ?f ?l ?p] =>
      destruct (fold_planStepOf_inv to (tablesReferences from)
                  (Set_from String.eqb owners) l p n) as [K1 K2]
  end.
  split; intros Hin.
  - destruct (K1 Hin) as [[]|Ht]. exact Ht.
  - destruct (K2 Hin) as [[]|Ht]. exact Ht.
Qed.

Section SetComplete.
Variable T : Type.
Variable same : T -> T -> bool.
Hypothesis same_refl : forall x, same x x = true.

(** When [same] tells the elements of [xs] apart, [new Set(xs)] holds
    every element of [xs]. *)
Lemma Set_from_complete (xs : list T) (y : T) :
  (forall a b, In a xs -> In b xs -> same a b = true -> a = b) ->
  In y xs -> In y (Set_from same xs).
Proof.
  intros Hinj Hy.
  pose proof (set_add_all_has same same_refl xs [] y Hy) as H.
  unfold set_has in H. apply existsb_exists in H.
  destruct H as [z [Hz E]].
  assert (In z xs) as Hz' by (apply (Set_from_incl same); exact Hz).
  rewrite (Hinj y z Hy Hz' E). exact Hz.
Qed.
End SetComplete.

Lemma getColumnsToAdd_incl from to c :
  In c (flat_map (fun tableTo =>
          match map_get (tbl_name tableTo) (tables from) with
          | None => []
          | Some tableFrom => getColumnsToAddFromTables tableFrom tableTo
          end) (map_values (tables to))) ->
  In c (allColumns to).
Proof.
  intros H. apply in_flat_map in H. destruct H as [t [Ht Hc]].
  unfold allColumns. apply in_flat_map. exists t. split; [exact Ht|].
  destruct (map_get (tbl_name t) (tables from)); [|contradiction].
  apply Set_from_incl in Hc. apply filter_In in Hc. apply Hc.
Qed.

(** A column that a table of [to] has and its namesake in [from] lacks is
    in [getColumnsToAdd]. *)
Lemma getColumnsToAdd_complete from to tableFrom tableTo column :
  Definitions_linked to ->
  In tableTo (map_values (tables to)) ->
  map_get (tbl_name tableTo) (tables from) = Some tableFrom ->
  In column (map_values (tbl_columns tableTo)) ->
  map_has (col_name column) (tbl_columns tableFrom) = false ->
  In column (getColumnsToAdd from to).
Proof.
  intros L Ht Hget Hc Hnew. unfold getColumnsToAdd.
  assert (Hsame : forall a b,
             In a (allColumns to) -> In b (allColumns to) ->
             Column_same a b = true -> a = b).
  { intros a b Ha Hb E. apply Nat.eqb_eq in E.
    apply (NoDup_map_injective col_id (allColumns to));
      [apply (columns_distinct L)| | |]; assumption. }
  assert (Hcol : In column (allColumns to)).
  { unfold allColumns. apply in_flat_map. exists tableTo. auto. }
  apply Set_from_complete.
  - intros x. apply Nat.eqb_refl.
  - intros a b Ha Hb. apply Hsame; apply (getColumnsToAdd_incl from); assumption.
  - apply in_flat_map. exists tableTo. split; [exact Ht|].
    rewrite Hget. unfold getColumnsToAddFromTables.
    apply Set_from_complete.
    + intros x. apply Nat.eqb_refl.
    + intros a b Ha Hb. apply filter_In in Ha, Hb.
      apply Hsame; unfold allColumns; apply in_flat_map; exists tableTo;
        tauto.
    + apply filter_In. split; [exact Hc|]. rewrite Hnew. reflexivity.
Qed.

(** ** The example snapshots are linked *)

Ltac prove_NoDup :=
  repeat (apply NoDup_cons; [simpl; intuition discriminate|]);
  apply NoDup_nil.

Ltac prove_Forall :=
  repeat (first [apply Forall_nil | apply Forall_cons]).

Ltac prove_linked :=
  constructor; simpl;
  try prove_NoDup;
  prove_Forall;
  try reflexivity;
  constructor; simpl;
  try prove_NoDup;
  prove_Forall;
  reflexivity.

Lemma empty_linked : Definitions_linked Examples.empty.
Proof. prove_linked. Qed.

Lemma blog_linked : Definitions_linked Examples.blog.
Proof. prove_linked. Qed.

Lemma blog2_linked : Definitions_linked Examples.blog2.
Proof. prove_linked. Qed.

Lemma users_only_linked : Definitions_linked Examples.users_only.
Proof. prove_linked. Qed.

Lemma posts_only_linked : Definitions_linked Examples.posts_only.
Proof. prove_linked. Qed.



Lemma catalog_linked : Definitions_linked Examples.catalog.
Proof. prove_linked. Qed.

Lemma blog4_linked : Definitions_linked Examples.blog4.
Proof. prove_linked. Qed.


Lemma blog_alike_blog4 : Definitions_alike Examples.blog Examples.blog4.
Proof.
  split; [|split].
  - intros k. unfold map_has. simpl.
    destruct (k =? "users"); [reflexivity|].
    destruct (k =? "posts"); reflexivity.
  - intros k a b Ga Gb. simpl in Ga, Gb.
    destruct (k =? "users").
    + injection Ga as <-. injection Gb as <-.
      split; [|split; [|split; [reflexivity|split; constructor]]].
      * intros c. unfold map_has. simpl.
        destruct (c =? "id"); [reflexivity|].
        destruct (c =? "name"); reflexivity.
      * intros c ca cb Ha Hb. simpl in Ha, Hb.
        destruct (c =? "id");
          [injection Ha as <-; injection Hb as <-; repeat split|].
        destruct (c =? "name");
          [injection Ha as <-; injection Hb as <-; repeat split|].
        discriminate.
    + destruct (k =? "posts"); [|discriminate].
      injection Ga as <-. injection Gb as <-.
      split; [|split; [|split; [reflexivity|split]]].
      * intros c. unfold map_has. simpl.
        destruct (c =? "user_id"); reflexivity.
      * intros c ca cb Ha Hb. simpl in Ha, Hb.
        destruct (c =? "user_id");
          [injection Ha as <-; injection Hb as <-; repeat split|].
        discriminate.
      * constructor.
      * constructor; [repeat split|constructor].
  - intros k. unfold indexesByName, Map_from, allIndexes. simpl.
    destruct (k =? "name_idx"); [repeat split|exact I].
Qed.

(** ** Creation mode *)

Lemma getColumnsToDelete_empty_from to :
  getColumnsToDelete {| tables := [] |} to = [].
Proof.
  unfold getColumnsToDelete. apply Set_from_nil. apply flat_map_nil.
  intros x _. reflexivity.
Qed.

Lemma getColumnsToAdd_empty_from to :
  getColumnsToAdd {| tables := [] |} to = [].
Proof.
  unfold getColumnsToAdd. apply Set_from_nil. apply flat_map_nil.
  intros x _. reflexivity.
Qed.

(** [C8] With [creationMode] set, [differences] throws as soon as [from] has
    a table, whatever the snapshots contain and before anything is verified
    or generated; with [creationMode] set and an empty [from], the
    operations are the table creations followed by the index creations, and
    none of them adds a foreign key. *)
Theorem creationMode_guard_and_no_foreign_key_add
    (newId : nat -> string) (from to : Definitions) (o : DifferencesOptions)
    (Hmode : creationMode o = true) :
  (tables from <> [] ->
   differences newId from to (Some o)
   = Throw "Creation mode is not supported for existing tables")
  /\ (tables from = [] ->
      forall s ops,
        differences newId from to (Some o) = Ok (s, ops) ->
        Forall (fun op => has_kind AddForeignKey op = false) ops
        /\ exists created toAdd indexed,
             mapM createTableOp (getTablesToAdd from to) = Ok created
             /\ getIndexesToAdd from to = Ok toAdd
             /\ mapM addIndexOp toAdd = Ok indexed
             /\ ops = created ++ indexed).
Proof.
  split.
  - intros Hne. unfold differences. simpl. rewrite Hmode.
    destruct (tables from); [congruence|reflexivity].
  - intros Hempty s ops H. destruct from as [tf]. simpl in Hempty. subst tf.
    apply differences_runs in H. destruct H as [t [R E]].
    destruct (runs_columnsToAdd R) as [_ [Hac _]].
    pose proof (run_plan R) as Hplan.
    unfold getTablesToRecreate in Hplan.
    rewrite getColumnsToAdd_empty_from in Hplan. simpl in Hplan.
    injection Hplan as Hplan.
    pose proof (run_sets R) as Hsets. rewrite <- Hplan in Hsets.
    simpl in Hsets. injection Hsets as Hsets.
    pose proof (run_removeForeignKeyOps R) as Hrfk. simpl in Hrfk.
    injection Hrfk as Hrfk.
    pose proof (run_removeColumnOps R) as Hrco. rewrite <- Hsets in Hrco.
    simpl in Hrco. rewrite getColumnsToDelete_empty_from in Hrco.
    simpl in Hrco. injection Hrco as Hrco.
    pose proof (run_recreateOps R) as Hrec. rewrite <- Hplan in Hrec.
    simpl in Hrec. injection Hrec as Hrec.
    pose proof (run_addForeignKeyOps R) as Hafk. simpl in Hafk.
    rewrite Hmode in Hafk. injection Hafk as Hafk.
    pose proof (run_addIndexOps R) as Haio. rewrite <- Hsets in Haio.
    simpl in Haio.
    pose proof (run_toRemove R) as Hrem. simpl in Hrem.
    injection Hrem as Hrem.
    assert (Eops : ops = tr_createTableOps t ++ tr_addIndexOps t).
    { unfold outcome in E. injection E as _ ->.
      rewrite <- Hsets, <- Hrfk, <- Hrco, <- Hrec, <- Hafk, Hac. simpl.
      rewrite <- Hrem. reflexivity. }
    split.
    + rewrite Eops. apply Forall_app.
      destruct (runs_kinds AddForeignKey R)
        as [_ [_ [Hc [_ [_ [_ [_ Hi]]]]]]].
      split; [exact Hc|exact Hi].
    + exists (tr_createTableOps t), (tr_toAdd t), (tr_addIndexOps t).
      split; [apply (run_createTableOps R)|].
      split; [apply (run_toAdd R)|].
      split; [exact Haio|exact Eops].
Qed.

Lemma creationMode_guard_and_no_foreign_key_add_witness :
  differences Examples.idsA Examples.blog Examples.blog Examples.creation
  = Throw "Creation mode is not supported for existing tables"
  /\ exists s ops,
       differences Examples.idsA Examples.empty Examples.blog
         Examples.creation = Ok (s, ops)
       /\ List.length ops = 3
       /\ Forall (fun op => has_kind AddForeignKey op = false) ops.
Proof.
  split.
  - apply (proj1 (creationMode_guard_and_no_foreign_key_add Examples.idsA
                    Examples.blog Examples.blog {| creationMode := true |}
                    eq_refl)).
    discriminate.
  - eexists. eexists. split; [vm_compute; reflexivity|].
    split; [reflexivity|].
    apply (proj2 (creationMode_guard_and_no_foreign_key_add Examples.idsA
                    Examples.empty Examples.blog {| creationMode := true |}
                    eq_refl) eq_refl _ _ eq_refl).
Defined.

(** ** Primary-key slots *)

Lemma verifyPrimaryKey_dense t :
  verifyPrimaryKey t = Ok tt ->
  Forall (fun slot => slot <> None) (tbl_primaryKey t).
Proof.
  unfold verifyPrimaryKey. intros H. apply Forall_forall. intros slot Hin E.
  subst slot. pose proof (forEach_Ok _ _ H None Hin) as Hn. discriminate.
Qed.

Lemma Table_verify_dense t :
  Table_verify t = Ok tt ->
  Forall (fun slot => slot <> None) (tbl_primaryKey t).
Proof.
  unfold Table_verify. intros H. bind_inv H. destruct r.
  apply verifyPrimaryKey_dense; assumption.
Qed.










(** ** The recreate-table protocol *)

Lemma columnRow_plain table col :
  columnRow table false col = Ok (columnSql col).
Proof.
  unfold columnRow. destruct (singleColumnForeignKeyOf table col); reflexivity.
Qed.

(** Without [references], [createTableSQL] returns one statement, in which
    every column row is the bare column definition. *)
Lemma createTableSQL_plain table name :
  createTableSQL table false name
  = Ok [tpl ["CREATE TABLE ";
             quoted (match name with Some n => n | None => tbl_name table end);
             " ("; nl;
             join (tpl [","; nl])
               (List.map columnSql (map_values (tbl_columns table))
                ++ primaryKeyRow table ++ foreignKeyRows table
                ++ uniqueRows table);
             nl; ")"]].
Proof.
  unfold createTableSQL.
  rewrite (mapM_all_Ok _ columnSql) by (intros; apply columnRow_plain).
  reflexivity.
Qed.

Lemma primaryKeyHas_dense name pk :
  Forall (fun slot => slot <> None) pk -> exists b, primaryKeyHas name pk = Ok b.
Proof.
  induction 1 as [|slot r Hs _ IH]; simpl; [eauto|].
  destruct slot as [c|]; [|congruence].
  destruct (col_name c =? name); eauto.
Qed.

Lemma flatMapM_total {A B} (f : A -> Result (list B)) (xs : list A) :
  (forall x, In x xs -> exists y, f x = Ok y) ->
  exists ys, flatMapM f xs = Ok ys.
Proof.
  induction xs as [|x r IH]; simpl; intros H; [eauto|].
  destruct (H x (or_introl eq_refl)) as [y ->]. simpl.
  destruct IH as [ys ->]; [auto|]. simpl. eauto.
Qed.

Lemma singleColumnForeignKeyOf_none t col :
  singleColumnForeignKeyOf (withoutSingleColumnForeignKeys t) col = None.
Proof.
  unfold singleColumnForeignKeyOf, withoutSingleColumnForeignKeys,
    multiColumnForeignKeys. simpl.
  induction (tbl_foreignKeys t) as [|fk r IH]; simpl; [reflexivity|].
  destruct (fk_localColumns fk) as [|c [|c' l]] eqn:E; simpl; auto.
  all: rewrite E; exact IH.
Qed.

Lemma filter_idempotent {A} (p : A -> bool) (l : list A) :
  filter p (filter p l) = filter p l.
Proof.
  induction l as [|x r IH]; simpl; [reflexivity|].
  destruct (p x) eqn:E; simpl; [rewrite E, IH|]; auto.
Qed.

(** The statement created without [references] is the statement that
    [createTableSQL] would create, references included, for the table
    deprived of its single-column foreign keys. *)
Lemma createTableSQL_ignores_single_column_foreign_keys t name :
  createTableSQL t false name
  = createTableSQL (withoutSingleColumnForeignKeys t) true name.
Proof.
  rewrite createTableSQL_plain. unfold createTableSQL.
  rewrite (mapM_all_Ok _ columnSql).
  - unfold foreignKeyRows, withoutSingleColumnForeignKeys,
      multiColumnForeignKeys. simpl.
    rewrite filter_idempotent. reflexivity.
  - intros col _. unfold columnRow.
    rewrite singleColumnForeignKeyOf_none. reflexivity.
Qed.

(** [recreateTableSql] returns when the primary key of [to] has no hole. *)
Lemma recreateTableSql_returns newId from to :
  Forall (fun slot => slot <> None) (tbl_primaryKey to) ->
  exists statements, recreateTableSql newId from to = Ok statements.
Proof.
  intros Hdense. unfold recreateTableSql.
  destruct (@flatMapM_total _ _
              (fun column =>
                 if map_has (col_name column) (tbl_columns from) then Ok []
                 else addMissingColumnSql from to column)
              (map_values (tbl_columns to))) as [added Hadded].
  - intros column _.
    destruct (map_has (col_name column) (tbl_columns from)); [eauto|].
    unfold addMissingColumnSql.
    destruct (primaryKeyHas_dense (col_name column) Hdense) as [b ->].
    simpl. eauto.
  - rewrite Hadded. simpl bind. rewrite createTableSQL_plain. simpl bind.
    eauto.
Qed.

(** The rows that [createTableSQL] pushes are the clauses of the claim. *)
Lemma columnSql_clause c : columnSql c = columnClause c.
Proof.
  unfold columnSql, columnClause, truthy, render_nullable, backquoted, quoted.
  destruct (col_defaultValue c) as [d|]; [|reflexivity].
  destruct (d =? ""); reflexivity.
Qed.

Lemma primaryKeyRow_clauses t : primaryKeyRow t = primaryKeyClauses t.
Proof.
  unfold primaryKeyRow, primaryKeyClauses.
  destruct (tbl_primaryKey t); reflexivity.
Qed.

Lemma quotedNames_nameList columns :
  quotedNames columns = nameList (List.map col_name columns).
Proof. unfold quotedNames, nameList. rewrite map_map. reflexivity. Qed.

Lemma foreignKeyRows_clauses t :
  foreignKeyRows t = List.map foreignKeyClause (multiColumnForeignKeys t).
Proof.
  unfold foreignKeyRows, multiColumnForeignKeys. apply map_ext.
  intros fk. unfold foreignKeyClause. rewrite !quotedNames_nameList.
  reflexivity.
Qed.

Lemma uniqueRows_clauses t :
  uniqueRows t = List.map uniqueClause (tbl_uniques t).
Proof.
  unfold uniqueRows. apply map_ext. intros u. unfold uniqueClause.
  rewrite quotedNames_nameList. reflexivity.
Qed.

Lemma createTableSQL_shadow t shadow :
  createTableSQL t false (Some shadow) = Ok [shadowTableStatement shadow t].
Proof.
  rewrite createTableSQL_plain. unfold shadowTableStatement.
  rewrite primaryKeyRow_clauses, foreignKeyRows_clauses, uniqueRows_clauses.
  rewrite (map_ext columnSql columnClause columnSql_clause).
  reflexivity.
Qed.

(** [C6] Whenever [recreateTableSql] returns, and it does as soon as the
    primary key of [to] has no hole, its statement list ends with these four
    statements, in this order: the creation of the shadow table
    [<to.name>__new__<id>] with a row for each column of [to], none with a
    reference clause, a row for its primary key, a row for each of its
    foreign keys over several columns and a row for each of its uniques;
    the copy that selects the column names of [to] from the current table;
    the drop of the current table; the renaming of the shadow table to the
    name of the current table. *)
Theorem recreateTableSql_ends_with_shadow_copy_drop_rename
    (newId : string) (from to : Table) :
  let shadow := tpl [tbl_name to; "__new__"; newId] in
  let create := shadowTableStatement shadow to in
  let copy :=
    tpl ["INSERT INTO "; backquoted shadow; " SELECT ";
         nameList (List.map col_name (map_values (tbl_columns to)));
         " FROM "; backquoted (tbl_name from)] in
  let drop := tpl ["DROP TABLE "; backquoted (tbl_name from)] in
  let rename :=
    tpl ["ALTER TABLE "; backquoted shadow; " RENAME TO ";
         backquoted (tbl_name from)] in
  (forall statements,
     recreateTableSql newId from to = Ok statements ->
     exists added, statements = added ++ [create; copy; drop; rename])
  /\ (Forall (fun slot => slot <> None) (tbl_primaryKey to) ->
      exists statements, recreateTableSql newId from to = Ok statements)
  /\ createTableSQL (withoutSingleColumnForeignKeys to) true (Some shadow)
     = Ok [create].
Proof.
  intros shadow create copy drop rename.
  assert (Es : tpl [tbl_name to; tpl ["__new__"; newId]] = shadow).
  { reflexivity. }
  split; [|split].
  - intros statements H. unfold recreateTableSql in H.
    bind_inv H. rewrite Es, createTableSQL_shadow in H. simpl bind in H.
    injection H as <-. exists r. reflexivity.
  - apply recreateTableSql_returns.
  - rewrite <- createTableSQL_ignores_single_column_foreign_keys.
    apply createTableSQL_shadow.
Qed.

Lemma recreateTableSql_ends_with_shadow_copy_drop_rename_witness :
  exists statements added,
    recreateTableSql "0123456789abcdef" MoreExamples.members1
      MoreExamples.members2 = Ok statements
    /\ statements
       = added
         ++ [tpl ["CREATE TABLE `members__new__0123456789abcdef` ("; nl;
                  "    `user_id` INTEGER NOT NULL,"; nl;
                  "    `group_id` INTEGER NOT NULL,"; nl;
                  "    `team_id` INTEGER,"; nl;
                  "    `role` TEXT DEFAULT 'member',"; nl;
                  "    PRIMARY KEY (`user_id`,`group_id`),"; nl;
                  "FOREIGN KEY (`user_id`,`group_id`) REFERENCES ";
                  "`grants`(`user`,`group`) ";
                  "ON DELETE CASCADE ON UPDATE NO ACTION,"; nl;
                  "    UNIQUE (`team_id`,`user_id`)"; nl; ")"];
             tpl ["INSERT INTO `members__new__0123456789abcdef` SELECT ";
                  "`user_id`,`group_id`,`team_id`,`role` FROM `members`"];
             "DROP TABLE `members`";
             tpl ["ALTER TABLE `members__new__0123456789abcdef` ";
                  "RENAME TO `members`"]].
Proof.
  destruct (recreateTableSql_ends_with_shadow_copy_drop_rename
              "0123456789abcdef" MoreExamples.members1 MoreExamples.members2)
    as [Hshape [Hreturns _]].
  destruct Hreturns as [statements Hs].
  - repeat constructor; discriminate.
  - destruct (Hshape statements Hs) as [added E].
    exists statements, added. split; [exact Hs|exact E].
Defined.
(** ** Default literals *)

Unset Implicit Arguments.

Lemma sqlLiteralBody_doubleQuotes (s : string) :
  sqlLiteralBody (doubleQuotes s ++ "'") = Some s.
Proof.
  induction s as [|c r IH]; [reflexivity|].
  cbn [doubleQuotes]. destruct (Ascii.eqb_spec c "'") as [->|Hne].
  - cbn [append sqlLiteralBody]. rewrite Ascii.eqb_refl. rewrite IH.
    reflexivity.
  - cbn [append sqlLiteralBody].
    destruct (Ascii.eqb_spec c "'") as [E|_]; [contradiction|].
    rewrite IH. reflexivity.
Qed.
















Set Implicit Arguments.

(** ** Determinism *)

Lemma same_but_identifier_refl (l : list Operation) :
  Forall2 same_but_identifier l l.
Proof. induction l; constructor; [split|]; auto. Qed.

Lemma recreateTableSql_agree id1 id2 from to :
  agree (fun _ _ => True) (recreateTableSql id1 from to)
    (recreateTableSql id2 from to).
Proof.
  unfold recreateTableSql.
  destruct (flatMapM _ (map_values (tbl_columns to))); simpl; [|reflexivity].
  rewrite !createTableSQL_plain. simpl. exact I.
Qed.

Lemma recreateTableOp_agree id1 id2 from to name :
  agree (fun a b => title a = title b /\ has_kind RecreateTable a = true)
    (recreateTableOp id1 from to name) (recreateTableOp id2 from to name).
Proof.
  unfold recreateTableOp.
  destruct (getTable from name) as [oldTable|]; simpl; [|reflexivity].
  destruct (getTable to name) as [newTable|]; simpl; [|reflexivity].
  pose proof (recreateTableSql_agree id1 id2 oldTable newTable) as H.
  destruct (recreateTableSql id1 oldTable newTable),
    (recreateTableSql id2 oldTable newTable); simpl in *; auto.
  split; [reflexivity|]. apply (kind_of_title RecreateTable).
Qed.

Lemma recreateTableOps_agree newId1 newId2 from to names k :
  agree (fun a b =>
           Forall2 same_but_identifier a b
           /\ ((forall j, j < List.length names ->
                          newId1 (k + j) = newId2 (k + j)) -> a = b))
    (recreateTableOps newId1 k from to names)
    (recreateTableOps newId2 k from to names).
Proof.
  revert k; induction names as [|n r IH]; intros k; simpl.
  - split; [constructor|reflexivity].
  - pose proof (recreateTableOp_agree (newId1 k) (newId2 k) from to n) as H1.
    destruct (recreateTableOp (newId1 k) from to n) as [op1|] eqn:E1,
      (recreateTableOp (newId2 k) from to n) as [op2|] eqn:E2;
      simpl in *; try contradiction; auto.
    specialize (IH (S k)).
    destruct (recreateTableOps newId1 (S k) from to r) as [ops1|],
      (recreateTableOps newId2 (S k) from to r) as [ops2|];
      simpl in *; try contradiction; auto.
    destruct H1 as [Ht Hk]. destruct IH as [IH1 IH2]. split.
    + constructor; [|exact IH1]. split; [exact Ht|]. congruence.
    + intros Hids.
      assert (E : newId1 k = newId2 k).
      { specialize (Hids 0). rewrite Nat.add_0_r in Hids.
        apply Hids. lia. }
      rewrite E in E1. rewrite E1 in E2. injection E2 as <-.
      f_equal. apply IH2. intros j Hj.
      specialize (Hids (S j)). rewrite Nat.add_succ_r in Hids.
      apply Hids. lia.
Qed.

(** [C2], counterexample: [users] gains a column and is recreated; the
    shadow table is named after a freshly generated identifier, so two runs
    on the same snapshots return different statements. *)
Lemma differences_depends_on_generated_identifier :
  (exists s opsA opsB,
     differences Examples.idsA Examples.blog Examples.blog2 None
     = Ok (s, opsA)
     /\ differences Examples.idsB Examples.blog Examples.blog2 None
        = Ok (s, opsB)
     /\ opsA <> opsB)
  /\ ~ is_deterministic.
Proof.
  split.
  - eexists. eexists. eexists.
    split; [vm_compute; reflexivity|].
    split; [vm_compute; reflexivity|]. discriminate.
  - intros H.
    specialize (H Examples.idsA Examples.idsB Examples.blog Examples.blog2
                  None).
    vm_compute in H. discriminate H.
Qed.

(** [C2], amended: two runs on the same snapshots and options throw the
    same exception or both return; they then return the same summary and
    operation lists that agree title by title, and statement by statement
    for every operation that does not recreate a table; the two lists are
    equal when the identifier generator returns the same strings in both
    runs, one for each recreated table. *)
Theorem differences_deterministic_up_to_identifiers
    (newId1 newId2 : nat -> string) (from to : Definitions)
    (options : option DifferencesOptions) :
  agree (fun a b =>
           fst a = fst b
           /\ Forall2 same_but_identifier (snd a) (snd b)
           /\ ((forall k, k < List.length (recreatedTables (fst a)) ->
                          newId1 k = newId2 k) -> snd a = snd b))
    (differences newId1 from to options)
    (differences newId2 from to options).
Proof.
  unfold differences.
  destruct (inCreationMode options && (0 <? map_size (tables from))%nat);
    [reflexivity|].
  destruct (forEach Table_verify (map_values (tables from)));
    simpl; [|reflexivity].
  destruct (forEach Table_verify (map_values (tables to)));
    simpl; [|reflexivity].
  destruct (getTablesToRecreate from to) as [plan|]; simpl; [|reflexivity].
  destruct (getIndexesToAdd from to) as [toAdd|]; simpl; [|reflexivity].
  destruct (getIndexesToRemove from to) as [toRemove|]; simpl;
    [|reflexivity].
  destruct (foldM (foldIntoRecreate from to) (tablesToRecreate plan) _)
    as [w|]; simpl; [|reflexivity].
  destruct (flatMapM _ (allSingleColumnForeignKeys from)) as [rfk|];
    simpl; [|reflexivity].
  destruct (mapM createTableOp _) as [cto|]; simpl; [|reflexivity].
  destruct (mapM addColumnOp _) as [aco|]; simpl; [|reflexivity].
  destruct (mapM removeColumnOp _) as [rco|]; simpl; [|reflexivity].
  pose proof (recreateTableOps_agree newId1 newId2 from to
                (tablesToRecreate plan) 0) as Hrec.
  destruct (recreateTableOps newId1 0 from to (tablesToRecreate plan))
    as [rec1|],
    (recreateTableOps newId2 0 from to (tablesToRecreate plan)) as [rec2|];
    simpl in *; try contradiction; auto.
  destruct (if inCreationMode options then Ok [] else _) as [afk|];
    simpl; [|reflexivity].
  destruct (mapM addIndexOp _) as [aio|]; simpl; [|reflexivity].
  destruct (mapM qualifiedName (columnsToAdd w)) as [added|];
    simpl; [|reflexivity].
  destruct (mapM qualifiedName (columnsToDelete w)) as [removed|];
    simpl; [|reflexivity].
  destruct Hrec as [Hrec1 Hrec2].
  split; [reflexivity|]. split.
  - repeat (apply Forall2_app; [apply same_but_identifier_refl|]).
    apply Forall2_app; [exact Hrec1|apply same_but_identifier_refl].
  - intros Hids. rewrite (Hrec2 Hids). reflexivity.
Qed.

Lemma differences_deterministic_up_to_identifiers_witness :
  exists s opsA opsC,
    differences Examples.idsA Examples.blog Examples.blog2 None = Ok (s, opsA)
    /\ differences Examples.idsC Examples.blog Examples.blog2 None
       = Ok (s, opsC)
    /\ Forall2 same_but_identifier opsA opsC
    /\ opsA = opsC.
Proof.
  pose proof (differences_deterministic_up_to_identifiers Examples.idsA
                Examples.idsC Examples.blog Examples.blog2 None) as H.
  destruct (differences Examples.idsA Examples.blog Examples.blog2 None)
    as [[sA opsA]|] eqn:EA; [|discriminate EA].
  destruct (differences Examples.idsC Examples.blog Examples.blog2 None)
    as [[sC opsC]|] eqn:EC; [|discriminate EC].
  simpl in H. destruct H as [Hs [Hops Heq]]. subst sC.
  exists sA, opsA, opsC.
  split; [reflexivity|]. split; [reflexivity|]. split; [exact Hops|].
  apply Heq. intros k Hk.
  assert (E : recreatedTables sA = ["users"]).
  { vm_compute in EA. injection EA as <- _. reflexivity. }
  rewrite E in Hk. simpl in Hk.
  destruct k as [|k]; [reflexivity|lia].
Defined.

(** ** New columns *)

Lemma recreateTableOps_In newId k from to names ops n :
  recreateTableOps newId k from to names = Ok ops -> In n names ->
  exists id op, In op ops /\ recreateTableOp id from to n = Ok op.
Proof.
  intros H Hin.
  destruct (Forall2_In_l (recreateTableOps_Forall2 _ _ _ _ _ H) Hin)
    as [op [Hop [id Hid]]].
  exists id, op. auto.
Qed.

Arguments recreateTableOps_In {newId k from to names ops n} _ _.

Lemma in_recreateOps from to t op :
  In op (tr_recreateOps t) -> In op (snd (outcome from to t)).
Proof.
  intros H. unfold outcome, snd.
  do 6 (apply in_or_app; right).
  apply in_or_app. left. exact H.
Qed.

(** No operation of a run adds a column. *)
Lemma add_column_operations_absent newId from to options s ops :
  differences newId from to options = Ok (s, ops) ->
  Forall (fun op => has_kind AddColumn op = false) ops.
Proof.
  intros H. apply differences_runs in H. destruct H as [t [R E]].
  injection E as _ ->.
  destruct (runs_columnsToAdd R) as [_ [Hops _]].
  destruct (runs_kinds AddColumn R)
    as [K1 [K2 [K3 [K4 [K5 [K6 [K7 K8]]]]]]].
  rewrite Hops.
  repeat (apply Forall_app; split); try assumption. constructor.
Qed.

(** [C5] [differences] never returns an add-column operation and the
    [addedColumns] of its summary is always empty; when the snapshots are
    linked, a table of [to] that has a column its namesake in [from] lacks
    is among the recreated tables, and the operations hold its recreate
    operation. *)
Theorem no_incremental_add_column
    (newId : nat -> string) (from to : Definitions)
    (options : option DifferencesOptions) (s : PushSummary)
    (ops : list Operation)
    (H : differences newId from to options = Ok (s, ops)) :
  addedColumns s = []
  /\ Forall (fun op => has_kind AddColumn op = false) ops
  /\ (Definitions_linked from -> Definitions_linked to ->
      forall tableFrom tableTo column,
        In tableFrom (map_values (tables from)) ->
        In tableTo (map_values (tables to)) ->
        tbl_name tableFrom = tbl_name tableTo ->
        In column (map_values (tbl_columns tableTo)) ->
        map_has (col_name column) (tbl_columns tableFrom) = false ->
        In (tbl_name tableTo) (recreatedTables s)
        /\ exists id statements,
             recreateTableSql id tableFrom tableTo = Ok statements
             /\ In {| title := tpl ["Recreate table "; tbl_name tableTo];
                      sql := statements |} ops).
Proof.
  apply differences_runs in H. destruct H as [t [R E]].
  injection E as -> ->.
  destruct (runs_columnsToAdd R) as [_ [Hops Hadded]].
  split; [exact Hadded|]. split.
  - eapply add_column_operations_absent.
    apply differences_runs. exists t. split; [exact R|reflexivity].
  - intros Lfrom Lto tableFrom tableTo column Hf Ht Hname Hc Hnew.
    pose proof (linked_get Lfrom Hf) as Gf.
    pose proof (linked_get Lto Ht) as Gt.
    assert (Hrec : In (tbl_name tableTo) (tablesToRecreate (tr_plan t))).
    { destruct (getTablesToRecreate_Ok _ _ (run_plan R)) as [owners [Ho ->]].
      assert (Hadd : In column (getColumnsToAdd from to)).
      { apply getColumnsToAdd_complete with tableFrom tableTo; auto.
        rewrite <- Hname. exact Gf. }
      destruct (Forall2_In_l (mapM_Ok _ _ Ho) Hadd) as [owner [Hin Hown]].
      pose proof (columns_mounted (linked_table Lto Ht)) as M.
      rewrite Forall_forall in M. rewrite (M _ Hc) in Hown.
      injection Hown as <-. simpl in Hin.
      rewrite <- Hname.
      apply (fold_planStepOf_structural to (tablesReferences from)
               (Set_from String.eqb owners) (map_values (tables from))
               _ tableFrom Hf (toTable := tableTo)).
      - rewrite Hname. exact Gt.
      - unfold structuralChange.
        replace (set_has String.eqb (tbl_name tableFrom)
                   (Set_from String.eqb owners)) with true.
        + apply orb_true_r.
        + symmetry. apply set_add_all_has; [apply String.eqb_refl|].
          rewrite Hname. exact Hin. }
    split; [exact Hrec|].
    destruct (recreateTableOps_In (run_recreateOps R) Hrec)
      as [id [op [Hop Hid]]].
    unfold recreateTableOp, getTable in Hid.
    rewrite <- Hname in Hid at 1. rewrite Gf, Gt in Hid. simpl in Hid.
    bind_inv Hid. injection Hid as <-.
    exists id, r. split; [exact Hida|].
    apply (in_recreateOps from to t). exact Hop.
Qed.

Lemma no_incremental_add_column_witness :
  exists s ops,
    differences Examples.idsA Examples.blog Examples.blog2 None = Ok (s, ops)
    /\ addedColumns s = []
    /\ Forall (fun op => has_kind AddColumn op = false) ops
    /\ In "users" (recreatedTables s)
    /\ exists id statements,
         recreateTableSql id Examples.users Examples.users2 = Ok statements
         /\ In {| title := "Recreate table users"; sql := statements |} ops.
Proof.
  eexists. eexists. split; [vm_compute; reflexivity|].
  destruct (no_incremental_add_column Examples.idsA Examples.blog
              Examples.blog2 None eq_refl) as [H1 [H2 H3]].
  split; [exact H1|]. split; [exact H2|].
  apply (H3 blog_linked blog2_linked Examples.users Examples.users2
           Examples.users2_email).
  - left. reflexivity.
  - left. reflexivity.
  - reflexivity.
  - right. right. left. reflexivity.
  - reflexivity.
Defined.

Unset Implicit Arguments.

(** ** Maps built from entries *)

Lemma map_set_incl {V} (k : string) (v : V) (m : JsMap V) (e : string * V) :
  In e (map_set k v m) -> e = (k, v) \/ In e m.
Proof.
  induction m as [|[k' v'] r IH]; simpl.
  - intros [<-|[]]. auto.
  - destruct (String.eqb_spec k k') as [->|Hne]; simpl.
    + intros [<-|H]; auto.
    + intros [<-|H]; [auto|]. destruct (IH H); auto.
Qed.

Lemma map_set_has_key {V} (k : string) (v : V) (m : JsMap V) :
  In k (map_keys (map_set k v m)).
Proof.
  induction m as [|[k' v'] r IH]; simpl; [auto|].
  destruct (String.eqb_spec k k') as [->|Hne]; simpl; auto.
Qed.

Lemma map_set_keeps_key {V} (k k' : string) (v : V) (m : JsMap V) :
  In k' (map_keys m) -> In k' (map_keys (map_set k v m)).
Proof.
  induction m as [|[k'' v''] r IH]; simpl; [contradiction|].
  destruct (String.eqb_spec k k'') as [->|Hne]; simpl; [auto|].
  intros [<-|H]; auto.
Qed.

Lemma map_set_keys_NoDup {V} (k : string) (v : V) (m : JsMap V) :
  NoDup (map_keys m) -> NoDup (map_keys (map_set k v m)).
Proof.
  induction m as [|[k' v'] r IH]; simpl; intros ND.
  - constructor; [intros []|constructor].
  - inversion ND as [|? ? Hn ND']; subst.
    destruct (String.eqb_spec k k') as [->|Hne]; simpl.
    + constructor; assumption.
    + constructor; [|auto]. intros Hin. apply Hn.
      clear - Hin Hne. induction r as [|[k'' v''] r IH]; simpl in *.
      * destruct Hin as [E|[]]. congruence.
      * destruct (String.eqb_spec k k'') as [->|Hne']; simpl in *;
          destruct Hin as [E|Hin]; auto.
Qed.

Lemma fold_map_set_spec {V} (entries : list (string * V)) (m : JsMap V) :
  let final := fold_left (fun m e => map_set (fst e) (snd e) m) entries m in
  (forall e, In e final -> In e entries \/ In e m)
  /\ (forall k, In k (List.map fst entries) \/ In k (map_keys m) ->
                In k (map_keys final))
  /\ (NoDup (map_keys m) -> NoDup (map_keys final)).
Proof.
  revert m; induction entries as [|[k v] r IH]; intros m; simpl.
  - split; [auto|]. split; [intros k [[]|H]; exact H|auto].
  - destruct (IH (map_set k v m)) as [I1 [I2 I3]]. split; [|split].
    + intros e He. destruct (I1 e He) as [H|H]; [auto|].
      apply map_set_incl in H. destruct H as [->|H]; auto.
    + intros k' [[<-|H]|H]; apply I2.
      * right. apply map_set_has_key.
      * left. exact H.
      * right. apply map_set_keeps_key. exact H.
    + intros ND. apply I3. apply map_set_keys_NoDup. exact ND.
Qed.

Lemma Map_from_incl {V} (entries : list (string * V)) (e : string * V) :
  In e (Map_from entries) -> In e entries.
Proof.
  intros H. destruct (fold_map_set_spec entries []) as [I1 _].
  destruct (I1 e H) as [H'|[]]. exact H'.
Qed.

Lemma Map_from_has_key {V} (entries : list (string * V)) (k : string) :
  In k (List.map fst entries) -> In k (map_keys (Map_from entries)).
Proof.
  intros H. destruct (fold_map_set_spec entries []) as [_ [I2 _]].
  apply I2. auto.
Qed.

Lemma Map_from_NoDup {V} (entries : list (string * V)) :
  NoDup (map_keys (Map_from entries)).
Proof.
  destruct (fold_map_set_spec entries []) as [_ [_ I3]].
  apply I3. constructor.
Qed.

(** ** Indexes by name *)

Lemma indexesByName_incl defs k i :
  In (k, i) (indexesByName defs) ->
  In i (allIndexes defs) /\ idx_name i = k.
Proof.
  intros H. apply Map_from_incl in H. apply in_map_iff in H.
  destruct H as [j [E Hj]]. injection E as <- <-. auto.
Qed.

Lemma indexesByName_has defs i :
  In i (allIndexes defs) ->
  exists j, In (idx_name i, j) (indexesByName defs).
Proof.
  intros H.
  assert (In (idx_name i) (map_keys (indexesByName defs))) as K.
  { apply Map_from_has_key. rewrite map_map. simpl.
    apply in_map_iff. exists i. auto. }
  unfold map_keys in K. apply in_map_iff in K.
  destruct K as [[k j] [E Hj]]. simpl in E. subst k. exists j. exact Hj.
Qed.

Lemma indexesByName_get_None defs k :
  (forall i, In i (allIndexes defs) -> idx_name i <> k) ->
  map_get k (indexesByName defs) = None.
Proof.
  intros H. apply map_get_None. intros K.
  unfold map_keys in K. apply in_map_iff in K.
  destruct K as [[k' j] [E Hj]]. simpl in E. subst k'.
  apply indexesByName_incl in Hj. destruct Hj as [Hj E].
  apply (H j Hj E).
Qed.

Lemma Index_same_distinct defs a b :
  NoDup (List.map idx_id (allIndexes defs)) ->
  In a (allIndexes defs) -> In b (allIndexes defs) ->
  Index_same a b = true -> a = b.
Proof.
  intros ND Ha Hb E. apply Nat.eqb_eq in E.
  apply (NoDup_map_injective idx_id (allIndexes defs)); assumption.
Qed.

(** An index of [from] whose name no index of [to] carries is in
    [getIndexesToRemove], up to the index that carries its name in the
    by-name map. *)
Lemma getIndexesToRemove_complete from to i :
  Definitions_linked from ->
  In i (allIndexes from) ->
  (forall j, In j (allIndexes to) -> idx_name j <> idx_name i) ->
  exists j, idx_name j = idx_name i /\ In j (indexesToRemoveOf from to).
Proof.
  intros L Hi Hnone. destruct (indexesByName_has from i Hi) as [j Hj].
  exists j. destruct (indexesByName_incl _ _ _ Hj) as [Hall Hname].
  split; [exact Hname|].
  unfold indexesToRemoveOf. apply Set_from_complete.
  - intros x. apply Nat.eqb_refl.
  - intros a b Ha Hb.
    apply (Index_same_distinct from a b (indexes_distinct L)).
    + apply in_map_iff in Ha. destruct Ha as [[k a'] [<- Ha]].
      apply filter_In in Ha. destruct Ha as [Ha _].
      apply indexesByName_incl in Ha. apply Ha.
    + apply in_map_iff in Hb. destruct Hb as [[k b'] [<- Hb]].
      apply filter_In in Hb. destruct Hb as [Hb _].
      apply indexesByName_incl in Hb. apply Hb.
  - apply in_map_iff. exists (idx_name i, j). split; [reflexivity|].
    apply filter_In. split; [exact Hj|]. simpl.
    rewrite indexesByName_get_None; [reflexivity|exact Hnone].
Qed.

(** ** The loop that folds column and index changes into recreations *)

Lemma foldIntoRecreate_inv from to w name w' :
  foldIntoRecreate from to w name = Ok w' ->
  exists tableFrom tableTo,
    map_get name (tables from) = Some tableFrom
    /\ map_get name (tables to) = Some tableTo
    /\ columnsToDelete w'
       = set_delete_all Column_same (map_values (tbl_columns tableFrom))
           (columnsToDelete w)
    /\ indexesToRemove w'
       = set_add_all Index_same (map_values (tbl_indexes tableFrom))
           (indexesToRemove w)
    /\ indexesToAdd w'
       = set_add_all Index_same (map_values (tbl_indexes tableTo))
           (indexesToAdd w).
Proof.
  unfold foldIntoRecreate. intros H.
  destruct (map_get name (tables from)) as [tableFrom|]; [|discriminate].
  destruct (map_get name (tables to)) as [tableTo|]; [|discriminate].
  injection H as <-. exists tableFrom, tableTo. simpl. auto.
Qed.

Lemma foldM_foldIntoRecreate_spec from to names w w' :
  foldM (foldIntoRecreate from to) names w = Ok w' ->
  (forall i, In i (indexesToRemove w) -> In i (indexesToRemove w'))
  /\ (forall i, In i (indexesToAdd w) -> In i (indexesToAdd w'))
  /\ (forall c, In c (columnsToDelete w') -> In c (columnsToDelete w))
  /\ (forall name tableFrom,
        In name names -> map_get name (tables from) = Some tableFrom ->
        (forall c x, In c (columnsToDelete w') ->
                     In x (map_values (tbl_columns tableFrom)) ->
                     Column_same x c = false)
        /\ (forall i, In i (map_values (tbl_indexes tableFrom)) ->
                      set_has Index_same i (indexesToRemove w') = true))
  /\ (forall name tableTo,
        In name names -> map_get name (tables to) = Some tableTo ->
        forall i, In i (map_values (tbl_indexes tableTo)) ->
                  set_has Index_same i (indexesToAdd w') = true)
  /\ (forall i, In i (indexesToRemove w') ->
                In i (indexesToRemove w)
                \/ exists name tableFrom,
                     In name names
                     /\ map_get name (tables from) = Some tableFrom
                     /\ In i (map_values (tbl_indexes tableFrom)))
  /\ (forall i, In i (indexesToAdd w') ->
                In i (indexesToAdd w)
                \/ exists name tableTo,
                     In name names
                     /\ map_get name (tables to) = Some tableTo
                     /\ In i (map_values (tbl_indexes tableTo))).
Proof.
  revert w; induction names as [|n r IH]; simpl; intros w H.
  - injection H as <-. repeat split; auto; try contradiction.
  - bind_inv H. rename r0 into w1.
    destruct (foldIntoRecreate_inv _ _ _ _ _ Ha)
      as [tf [tt [Gf [Gt [Ec [Er Ea]]]]]].
    destruct (IH _ H) as [I1 [I2 [I3 [I4 [I5 [I6 I7]]]]]].
    split; [|split; [|split; [|split; [|split; [|split]]]]].
    + intros i Hi. apply I1. rewrite Er. apply set_add_all_keeps. exact Hi.
    + intros i Hi. apply I2. rewrite Ea. apply set_add_all_keeps. exact Hi.
    + intros c Hc. apply I3 in Hc. rewrite Ec in Hc.
      apply set_delete_all_incl in Hc. apply Hc.
    + intros name tableFrom [<-|Hn] G.
      * rewrite Gf in G. injection G as <-. split.
        -- intros c x Hc Hx. apply I3 in Hc. rewrite Ec in Hc.
           apply set_delete_all_incl in Hc. destruct Hc as [_ Hc]. auto.
        -- intros i Hi.
           assert (set_has Index_same i (indexesToRemove w1) = true) as S.
           { rewrite Er. apply set_add_all_has; [|exact Hi].
             intros x. apply Nat.eqb_refl. }
           unfold set_has in *. apply existsb_exists in S.
           destruct S as [j [Hj E]]. apply existsb_exists.
           exists j. split; [apply I1; exact Hj|exact E].
      * apply (I4 name tableFrom Hn G).
    + intros name tableTo [<-|Hn] G.
      * rewrite Gt in G. injection G as <-. intros i Hi.
        assert (set_has Index_same i (indexesToAdd w1) = true) as S.
        { rewrite Ea. apply set_add_all_has; [|exact Hi].
          intros x. apply Nat.eqb_refl. }
        unfold set_has in *. apply existsb_exists in S.
        destruct S as [j [Hj E]]. apply existsb_exists.
        exists j. split; [apply I2; exact Hj|exact E].
      * apply (I5 name tableTo Hn G).
    + intros i Hi. destruct (I6 i Hi) as [Hi'|[name [t' [Hn [G Hin]]]]].
      * rewrite Er in Hi'. apply set_add_all_incl in Hi'.
        destruct Hi' as [Hi'|Hi']; [|auto].
        right. exists n, tf. auto.
      * right. exists name, t'. auto.
    + intros i Hi. destruct (I7 i Hi) as [Hi'|[name [t' [Hn [G Hin]]]]].
      * rewrite Ea in Hi'. apply set_add_all_incl in Hi'.
        destruct Hi' as [Hi'|Hi']; [|auto].
        right. exists n, tt. auto.
      * right. exists name, t'. auto.
Qed.

(** ** Removed tables *)

Lemma removeTableOp_title_eqb t name :
  (title (removeTableOp t) =? tpl ["Remove table "; name])
  = (tbl_name t =? name).
Proof. reflexivity. Qed.

Lemma other_kind_title_eqb op name :
  has_kind RemoveTable op = false ->
  (title op =? tpl ["Remove table "; name]) = false.
Proof.
  intros H. destruct (String.eqb_spec (title op) (tpl ["Remove table "; name]))
    as [E|_]; [|reflexivity].
  unfold has_kind in H. rewrite E in H.
  pose proof (kind_of_title RemoveTable RemoveTable name []) as K.
  unfold has_kind in K. simpl in K. simpl in H. congruence.
Qed.

Lemma filter_title_other_kind name k ops :
  OperationKind_eqb RemoveTable k = false ->
  Forall (fun op => has_kind RemoveTable op = OperationKind_eqb RemoveTable k)
    ops ->
  filter (fun op => title op =? tpl ["Remove table "; name]) ops = [].
Proof.
  intros Hk F. apply filter_nil. intros op Hin.
  rewrite Forall_forall in F. apply other_kind_title_eqb.
  rewrite (F op Hin). exact Hk.
Qed.

Lemma filter_unique_name (l : list Table) (t : Table) :
  NoDup (List.map tbl_name l) -> In t l ->
  filter (fun x => tbl_name x =? tbl_name t) l = [t].
Proof.
  induction l as [|x r IH]; simpl; [contradiction|].
  intros ND Hin. inversion ND as [|? ? Hn ND']; subst.
  destruct Hin as [->|Hin].
  - rewrite String.eqb_refl. f_equal. apply filter_nil. intros y Hy.
    apply String.eqb_neq. intros E. apply Hn. rewrite <- E.
    apply in_map. exact Hy.
  - destruct (String.eqb_spec (tbl_name x) (tbl_name t)) as [E|_].
    + exfalso. apply Hn. rewrite E. apply in_map. exact Hin.
    + apply IH; assumption.
Qed.

Lemma NoDup_map_filter {A B} (f : A -> B) (p : A -> bool) (l : list A) :
  NoDup (List.map f l) -> NoDup (List.map f (filter p l)).
Proof.
  induction l as [|x r IH]; simpl; intros ND; [constructor|].
  inversion ND as [|? ? Hn ND']; subst.
  destruct (p x); simpl; [|auto].
  constructor; [|auto]. intros Hin. apply Hn.
  apply in_map_iff in Hin. destruct Hin as [y [E Hy]].
  apply filter_In in Hy. rewrite <- E. apply in_map. apply Hy.
Qed.

Lemma linked_names_NoDup d :
  Definitions_linked d -> NoDup (List.map tbl_name (map_values (tables d))).
Proof.
  intros L. pose proof (tables_distinct L) as ND.
  pose proof (tables_keyed L) as K. unfold map_keys in ND.
  unfold map_values. rewrite map_map.
  replace (List.map (fun x => tbl_name (snd x)) (tables d))
    with (List.map fst (tables d)); [exact ND|].
  apply map_ext_in. intros e He. rewrite Forall_forall in K. apply K, He.
Qed.

Lemma linked_has d t :
  Definitions_linked d -> In t (map_values (tables d)) ->
  map_has (tbl_name t) (tables d) = true.
Proof.
  intros L Hin. unfold map_has. rewrite (linked_get L Hin). reflexivity.
Qed.

(** The columns that [getColumnsToDelete] collects belong to tables of
    [from] whose name [to] has too. *)
Lemma getColumnsToDelete_owner from to c :
  Definitions_linked from -> Definitions_linked to ->
  In c (getColumnsToDelete from to) ->
  exists tableFrom,
    In tableFrom (map_values (tables from))
    /\ In c (map_values (tbl_columns tableFrom))
    /\ map_has (tbl_name tableFrom) (tables to) = true.
Proof.
  intros Lf Lt H. unfold getColumnsToDelete in H.
  apply Set_from_incl in H. apply in_flat_map in H.
  destruct H as [tableTo [Ht Hc]].
  destruct (map_get (tbl_name tableTo) (tables from)) as [tableFrom|] eqn:G;
    [|contradiction].
  exists tableFrom.
  unfold getColumnsToDeleteFromTables in Hc.
  apply Set_from_incl in Hc. apply filter_In in Hc.
  split; [apply (map_get_values _ _ G)|]. split; [apply Hc|].
  rewrite (linked_get_name Lf G). apply linked_has; assumption.
Qed.

(** [C7], counterexample: [users] is removed and has an index; the index
    is dropped by an operation of its own before the table is. *)
Lemma removed_table_index_is_dropped :
  (exists s,
     differences Examples.idsA Examples.users_only Examples.empty None
     = Ok (s, [removeIndexOp Examples.users_name_idx;
               removeTableOp Examples.users]))
  /\ ~ removed_table_has_no_index_operation.
Proof.
  split; [eexists; vm_compute; reflexivity|].
  intros H.
  eapply (H Examples.idsA Examples.users_only Examples.empty None _ _
            Examples.users Examples.users_name_idx users_only_linked
            empty_linked).
  - vm_compute. reflexivity.
  - left. reflexivity.
  - reflexivity.
  - left. reflexivity.
  - left. reflexivity.
Qed.

(** [C7], amended: for linked snapshots and a table that only [from] has,
    exactly one operation is titled [Remove table <name>], and it drops the
    table; the table is neither recreated nor among the tables whose
    foreign keys are dropped or re-added, none of its columns is removed
    on its own, and it is not created.  Each of its indexes whose name no
    index of [to] carries is dropped by a remove-index operation. *)
Theorem removed_table_operations
    (newId : nat -> string) (from to : Definitions)
    (options : option DifferencesOptions) (s : PushSummary)
    (ops : list Operation) (table : Table)
    (Lfrom : Definitions_linked from) (Lto : Definitions_linked to)
    (H : differences newId from to options = Ok (s, ops))
    (Hin : In table (map_values (tables from)))
    (Honly : map_has (tbl_name table) (tables to) = false) :
  filter (fun op => title op =? tpl ["Remove table "; tbl_name table]) ops
  = [removeTableOp table]
  /\ (exists t,
        runs newId from to options t /\ (s, ops) = outcome from to t
        /\ ~ In (tbl_name table) (tablesToRecreate (tr_plan t))
        /\ ~ In (tbl_name table) (tablesToDropReferences (tr_plan t))
        /\ (forall c, In c (columnsToDelete (tr_sets t)) ->
                      col_table c <> Some (ref_of table))
        /\ columnsToAdd (tr_sets t) = []
        /\ ~ In table (getTablesToAdd from to))
  /\ (forall index,
        In index (map_values (tbl_indexes table)) ->
        (forall i, In i (allIndexes to) -> idx_name i <> idx_name index) ->
        In (removeIndexOp index) ops).
Proof.
  apply differences_runs in H. destruct H as [t [R E]].
  destruct (runs_columnsToAdd R) as [Hca [Haco _]].
  destruct (runs_kinds RemoveTable R)
    as [K1 [K2 [K3 [_ [K5 [K6 [K7 K8]]]]]]].
  destruct (foldM_foldIntoRecreate_spec _ _ _ _ _ (proj2 (proj2 (run_sets_of _ _ _ _ _ R))))
    as [I1 [_ [I3 _]]].
  split; [|split].
  - injection E as _ ->. rewrite Haco.
    rewrite !filter_app.
    rewrite (filter_title_other_kind _ RemoveIndex _ eq_refl K1).
    rewrite (filter_title_other_kind _ RemoveForeignKey _ eq_refl K2).
    rewrite (filter_title_other_kind _ CreateTable _ eq_refl K3).
    rewrite (filter_title_other_kind _ RemoveColumn _ eq_refl K5).
    rewrite (filter_title_other_kind _ RecreateTable _ eq_refl K6).
    rewrite (filter_title_other_kind _ AddForeignKey _ eq_refl K7).
    rewrite (filter_title_other_kind _ AddIndex _ eq_refl K8).
    cbn [app filter]. rewrite app_nil_r.
    assert (forall l,
               filter (fun op =>
                   title op =? tpl ["Remove table "; tbl_name table])
                 (List.map removeTableOp l)
               = List.map removeTableOp
                   (filter (fun x => tbl_name x =? tbl_name table) l)) as M.
    { induction l as [|x r IH]; [reflexivity|].
      cbn [List.map filter]. rewrite removeTableOp_title_eqb.
      destruct (tbl_name x =? tbl_name table); cbn [List.map]; rewrite IH;
        reflexivity. }
    rewrite M. rewrite filter_unique_name; [reflexivity| |].
    + unfold getTablesToDelete. apply NoDup_map_filter.
      apply linked_names_NoDup. exact Lfrom.
    + unfold getTablesToDelete. apply filter_In. split; [exact Hin|].
      rewrite Honly. reflexivity.
  - exists t. split; [exact R|]. split; [exact E|].
    destruct (@plan_names from to (tr_plan t) (tbl_name table) (run_plan R))
      as [P1 P2].
    split; [|split; [|split; [|split]]].
    + intros Hr. destruct (P1 Hr) as [x [_ [_ Hx]]]. congruence.
    + intros Hd. apply P2 in Hd. congruence.
    + intros c Hc Hown. apply I3 in Hc. simpl in Hc.
      destruct (getColumnsToDelete_owner _ _ _ Lfrom Lto Hc)
        as [tableFrom [Hf [Hcf Hhas]]].
      pose proof (columns_mounted (linked_table Lfrom Hf)) as M.
      rewrite Forall_forall in M. rewrite (M _ Hcf) in Hown.
      injection Hown as _ Hname. rewrite Hname in Hhas. congruence.
    + exact Hca.
    + intros Hadd. unfold getTablesToAdd in Hadd.
      apply Set_from_incl in Hadd. apply filter_In in Hadd.
      destruct Hadd as [Hadd _].
      pose proof (linked_has _ _ Lto Hadd). congruence.
  - intros index Hidx Hnone.
    assert (In index (allIndexes from)) as Hall.
    { unfold allIndexes. apply in_flat_map. exists table. auto. }
    destruct (getIndexesToRemove_complete from to index Lfrom Hall Hnone)
      as [j [Hname Hj]].
    assert (removeIndexOp index = removeIndexOp j) as ->.
    { unfold removeIndexOp. rewrite Hname. reflexivity. }
    injection E as _ ->. apply in_or_app. left.
    apply in_map. apply I1. exact Hj.
Qed.

Lemma removed_table_operations_witness :
  exists s ops,
    differences Examples.idsA Examples.blog Examples.posts_only None
    = Ok (s, ops)
    /\ filter (fun op => title op =? "Remove table users") ops
       = [removeTableOp Examples.users]
    /\ In (removeIndexOp Examples.users_name_idx) ops.
Proof.
  eexists. eexists. split; [vm_compute; reflexivity|].
  destruct (removed_table_operations Examples.idsA Examples.blog
              Examples.posts_only None _ _ Examples.users blog_linked
              posts_only_linked eq_refl (or_introl eq_refl) eq_refl)
    as [H1 [_ H3]].
  split; [exact H1|].
  apply H3; [left; reflexivity|].
  intros i [].
Defined.

(** ** Recreated tables *)

Lemma foldM_foldIntoRecreate_tables from to names w w' name :
  foldM (foldIntoRecreate from to) names w = Ok w' -> In name names ->
  exists tableFrom tableTo,
    map_get name (tables from) = Some tableFrom
    /\ map_get name (tables to) = Some tableTo.
Proof.
  revert w; induction names as [|n r IH]; simpl; intros w H Hin;
    [contradiction|].
  bind_inv H. destruct Hin as [<-|Hin]; [|eauto].
  destruct (foldIntoRecreate_inv _ _ _ _ _ Ha) as [tf [tt [Gf [Gt _]]]].
  eauto.
Qed.

Lemma getIndexesToRemove_incl from to i :
  In i (indexesToRemoveOf from to) -> In i (allIndexes from).
Proof.
  unfold indexesToRemoveOf. intros H. apply Set_from_incl in H.
  apply in_map_iff in H. destruct H as [[k j] [<- H]].
  apply filter_In in H. destruct H as [H _].
  apply indexesByName_incl in H. apply H.
Qed.

Lemma getIndexesToAdd_incl from to i :
  In i (indexesToAddOf from to) -> In i (allIndexes to).
Proof.
  unfold indexesToAddOf. intros H. apply Set_from_incl in H.
  apply in_map_iff in H. destruct H as [[k j] [<- H]].
  apply filter_In in H. destruct H as [H _].
  apply indexesByName_incl in H. apply H.
Qed.

Lemma table_index_in_allIndexes d k t i :
  map_get k (tables d) = Some t -> In i (map_values (tbl_indexes t)) ->
  In i (allIndexes d).
Proof.
  intros G Hi. unfold allIndexes. apply in_flat_map. exists t.
  split; [apply (map_get_values _ _ G)|exact Hi].
Qed.

(** In a run on linked snapshots, the final [indexesToRemove] holds every
    index of the [from] side of a recreated table, and the final
    [indexesToAdd] every index of its [to] side. *)
Lemma recreated_indexes_in_sets newId from to options t name tableFrom tableTo :
  Definitions_linked from -> Definitions_linked to ->
  runs newId from to options t ->
  In name (tablesToRecreate (tr_plan t)) ->
  map_get name (tables from) = Some tableFrom ->
  map_get name (tables to) = Some tableTo ->
  (forall i, In i (map_values (tbl_indexes tableFrom)) ->
             In i (indexesToRemove (tr_sets t)))
  /\ (forall i, In i (map_values (tbl_indexes tableTo)) ->
                In i (indexesToAdd (tr_sets t))).
Proof.
  intros Lf Lt R Hn Gf Gt.
  destruct (foldM_foldIntoRecreate_spec _ _ _ _ _ (proj2 (proj2 (run_sets_of _ _ _ _ _ R))))
    as [_ [_ [_ [I4 [I5 [I6 I7]]]]]].
  split; intros i Hi.
  - destruct (I4 name tableFrom Hn Gf) as [_ S]. specialize (S i Hi).
    unfold set_has in S. apply existsb_exists in S.
    destruct S as [j [Hj E]].
    assert (In j (allIndexes from)) as Hall.
    { destruct (I6 j Hj) as [H0|[n' [t' [_ [G' H']]]]].
      - apply (getIndexesToRemove_incl from to). exact H0.
      - apply (table_index_in_allIndexes from n' t'); assumption. }
    rewrite (Index_same_distinct from i j (indexes_distinct Lf)
               (table_index_in_allIndexes from name tableFrom i Gf Hi)
               Hall E).
    exact Hj.
  - specialize (I5 name tableTo Hn Gt i Hi).
    unfold set_has in I5. apply existsb_exists in I5.
    destruct I5 as [j [Hj E]].
    assert (In j (allIndexes to)) as Hall.
    { destruct (I7 j Hj) as [H0|[n' [t' [_ [G' H']]]]].
      - apply (getIndexesToAdd_incl from to). exact H0.
      - apply (table_index_in_allIndexes to n' t'); assumption. }
    rewrite (Index_same_distinct to i j (indexes_distinct Lt)
               (table_index_in_allIndexes to name tableTo i Gt Hi)
               Hall E).
    exact Hj.
Qed.

(** [C4], counterexample: [users] gains a column and is recreated; its
    index is dropped before the recreation and created again after it, by
    two operations of their own. *)
Lemma recreated_table_indexes_are_dropped_and_added :
  (exists s ops,
     differences Examples.idsA Examples.blog Examples.blog2 None
     = Ok (s, ops)
     /\ In "users" (recreatedTables s)
     /\ In (removeIndexOp Examples.users_name_idx) ops
     /\ In {| title := "Add index name_idx";
              sql := ["CREATE INDEX IF NOT EXISTS `name_idx` ON `users` (`name`)"] |}
          ops)
  /\ ~ recreated_table_has_no_index_operation.
Proof.
  split.
  - eexists. eexists. split; [vm_compute; reflexivity|].
    split; [left; reflexivity|].
    split; [left; reflexivity|].
    do 4 right. left. reflexivity.
  - intros H.
    eapply (H Examples.idsA Examples.blog Examples.blog2 None _ _ "users"
              Examples.users Examples.users_name_idx blog_linked
              blog2_linked).
    + vm_compute. reflexivity.
    + left. reflexivity.
    + reflexivity.
    + left. reflexivity.
    + left. reflexivity.
Qed.

(** [C4], amended: for linked snapshots and a recreated table, no
    add-column operation is returned at all and no column removed on its
    own belongs to a table of that name; the indexes are not folded into
    the recreation: every index of the [from] side of the table gets a
    remove-index operation and every index of its [to] side gets an
    add-index operation. *)
Theorem recreated_table_operations
    (newId : nat -> string) (from to : Definitions)
    (options : option DifferencesOptions) (s : PushSummary)
    (ops : list Operation) (name : string)
    (Lfrom : Definitions_linked from) (Lto : Definitions_linked to)
    (H : differences newId from to options = Ok (s, ops))
    (Hrec : In name (recreatedTables s)) :
  Forall (fun op => has_kind AddColumn op = false) ops
  /\ (exists t,
        runs newId from to options t /\ (s, ops) = outcome from to t
        /\ columnsToAdd (tr_sets t) = []
        /\ forall c owner,
             In c (columnsToDelete (tr_sets t)) ->
             col_table c = Some owner -> ref_name owner <> name)
  /\ (exists tableFrom tableTo,
        map_get name (tables from) = Some tableFrom
        /\ map_get name (tables to) = Some tableTo
        /\ (forall index,
              In index (map_values (tbl_indexes tableFrom)) ->
              In (removeIndexOp index) ops)
        /\ (forall index,
              In index (map_values (tbl_indexes tableTo)) ->
              exists op, addIndexOp index = Ok op /\ In op ops)).
Proof.
  pose proof (@add_column_operations_absent newId from to options s ops H)
    as Hnone.
  apply differences_runs in H. destruct H as [t [R E]].
  assert (Hn : In name (tablesToRecreate (tr_plan t))).
  { injection E as -> _. exact Hrec. }
  destruct (foldM_foldIntoRecreate_tables _ _ _ _ _ name (proj2 (proj2 (run_sets_of _ _ _ _ _ R))) Hn)
    as [tableFrom [tableTo [Gf Gt]]].
  destruct (foldM_foldIntoRecreate_spec _ _ _ _ _ (proj2 (proj2 (run_sets_of _ _ _ _ _ R))))
    as [_ [_ [I3 [I4 _]]]].
  destruct (runs_columnsToAdd R) as [Hca _].
  split; [exact Hnone|]. split.
  - exists t. split; [exact R|]. split; [exact E|]. split; [exact Hca|].
    intros c owner Hc Hown Hname.
    pose proof (I3 c Hc) as Hc0. simpl in Hc0.
    destruct (getColumnsToDelete_owner _ _ _ Lfrom Lto Hc0)
      as [tableFrom' [Hf [Hcf _]]].
    pose proof (columns_mounted (linked_table Lfrom Hf)) as M.
    rewrite Forall_forall in M. rewrite (M _ Hcf) in Hown.
    injection Hown as <-. simpl in Hname.
    pose proof (linked_get Lfrom Hf) as G'. rewrite Hname, Gf in G'.
    injection G' as <-.
    destruct (I4 name tableFrom Hn Gf) as [D _].
    specialize (D c c Hc Hcf). unfold Column_same in D.
    rewrite Nat.eqb_refl in D. discriminate.
  - exists tableFrom, tableTo. split; [exact Gf|]. split; [exact Gt|].
    destruct (recreated_indexes_in_sets newId from to options t name
                tableFrom tableTo Lfrom Lto R Hn Gf Gt) as [X1 X2].
    injection E as _ ->. split.
    + intros index Hi. apply in_or_app. left. apply in_map. apply X1, Hi.
    + intros index Hi.
      destruct (Forall2_In_l (mapM_Ok _ _ (run_addIndexOps R)) (X2 _ Hi))
        as [op [Hop Eop]].
      exists op. split; [exact Eop|].
      do 8 (apply in_or_app; right). exact Hop.
Qed.

Lemma recreated_table_operations_witness :
  exists s ops,
    differences Examples.idsA Examples.blog Examples.blog2 None = Ok (s, ops)
    /\ In "users" (recreatedTables s)
    /\ Forall (fun op => has_kind AddColumn op = false) ops
    /\ In (removeIndexOp Examples.users_name_idx) ops
    /\ exists op, addIndexOp Examples.users2_name_idx = Ok op /\ In op ops.
Proof.
  eexists. eexists. split; [vm_compute; reflexivity|].
  split; [left; reflexivity|].
  destruct (recreated_table_operations Examples.idsA Examples.blog
              Examples.blog2 None _ _ "users" blog_linked blog2_linked
              eq_refl (or_introl eq_refl))
    as [H1 [_ [tableFrom [tableTo [Gf [Gt [H3 H4]]]]]]].
  injection Gf as <-. injection Gt as <-.
  split; [exact H1|]. split.
  - apply H3. left. reflexivity.
  - apply H4. left. reflexivity.
Defined.

(** ** Foreign keys of referencing tables *)

Lemma map_get_set_same {V} (k : string) (v : V) (m : JsMap V) :
  map_get k (map_set k v m) = Some v.
Proof.
  induction m as [|[k' v'] r IH]; simpl.
  - rewrite String.eqb_refl. reflexivity.
  - destruct (String.eqb_spec k k') as [->|Hne]; simpl.
    + rewrite String.eqb_refl. reflexivity.
    + destruct (String.eqb_spec k k'); [contradiction|exact IH].
Qed.

Lemma map_get_set_other {V} (k k' : string) (v : V) (m : JsMap V) :
  k <> k' -> map_get k' (map_set k v m) = map_get k' m.
Proof.
  intros Hne. induction m as [|[k'' v''] r IH]; simpl.
  - destruct (String.eqb_spec k' k); [congruence|reflexivity].
  - destruct (String.eqb_spec k k'') as [->|Hne']; simpl.
    + destruct (String.eqb_spec k' k''); [congruence|reflexivity].
    + destruct (String.eqb_spec k' k''); [reflexivity|exact IH].
Qed.

Lemma addReference_keeps name graph fk a b :
  edge graph a b -> edge (addReference name graph fk) a b.
Proof.
  intros [s [G Hb]]. unfold addReference, edge.
  destruct (string_dec (ref_name (fk_foreignTable fk)) a) as [<-|Hne].
  - rewrite map_get_set_same. eexists. split; [reflexivity|].
    rewrite G. apply set_add_keeps. exact Hb.
  - rewrite map_get_set_other by exact Hne. eauto.
Qed.

Lemma addReference_adds name graph fk :
  edge (addReference name graph fk) (ref_name (fk_foreignTable fk)) name.
Proof.
  unfold addReference, edge. rewrite map_get_set_same.
  eexists. split; [reflexivity|].
  apply String_set_has. apply set_add_has_new. apply String.eqb_refl.
Qed.

Lemma fold_addReference name fks graph :
  (forall a b, edge graph a b ->
               edge (fold_left (addReference name) fks graph) a b)
  /\ (forall fk, In fk fks ->
                 edge (fold_left (addReference name) fks graph)
                   (ref_name (fk_foreignTable fk)) name).
Proof.
  revert graph; induction fks as [|x r IH]; intros graph; simpl.
  - split; [auto|contradiction].
  - destruct (IH (addReference name graph x)) as [I1 I2]. split.
    + intros a b Hab. apply I1. apply addReference_keeps. exact Hab.
    + intros fk [->|Hin]; [|auto]. apply I1. apply addReference_adds.
Qed.

Lemma fold_tables_addReference l graph :
  let final :=
    fold_left (fun g table =>
        fold_left (addReference (tbl_name table)) (tbl_foreignKeys table) g)
      l graph in
  (forall a b, edge graph a b -> edge final a b)
  /\ (forall table fk,
        In table l -> In fk (tbl_foreignKeys table) ->
        edge final (ref_name (fk_foreignTable fk)) (tbl_name table)).
Proof.
  revert graph; induction l as [|x r IH]; intros graph; simpl.
  - split; [auto|contradiction].
  - destruct (IH (fold_left (addReference (tbl_name x)) (tbl_foreignKeys x)
                    graph)) as [I1 I2].
    destruct (fold_addReference (tbl_name x) (tbl_foreignKeys x) graph)
      as [J1 J2].
    split.
    + intros a b Hab. apply I1, J1, Hab.
    + intros table fk [->|Hin] Hfk; [|auto]. apply I1, J2, Hfk.
Qed.

(** Every foreign key of every table of the snapshot is in the graph. *)
Lemma tablesReferences_complete defs table fk :
  In table (map_values (tables defs)) -> In fk (tbl_foreignKeys table) ->
  edge (tablesReferences defs) (ref_name (fk_foreignTable fk))
    (tbl_name table).
Proof.
  intros Ht Hfk.
  destruct (fold_tables_addReference (map_values (tables defs)) [])
    as [_ I2].
  apply (I2 table fk Ht Hfk).
Qed.


Lemma in_concat_of {A B} (R : A -> list B -> Prop) xs yss x ys y :
  Forall2 R xs yss -> In x xs -> (forall zs, R x zs -> zs = ys) ->
  In y ys -> In y (List.concat yss).
Proof.
  intros F Hx Hdet Hy.
  destruct (Forall2_In_l F Hx) as [zs [Hzs Hr]].
  apply in_concat. exists zs. split; [exact Hzs|].
  rewrite (Hdet zs Hr). exact Hy.
Qed.

(** ** Equal snapshots *)

Lemma columnsListText_names l1 l2 :
  List.map (option_map col_name) l1 = List.map (option_map col_name) l2 ->
  columnsListText l1 = columnsListText l2.
Proof.
  intros H. unfold columnsListText.
  assert (A : forall l : list (option Column),
             List.map (fun c => percentEncode (col_name c)) (elements l)
             = List.map percentEncode
                 (elements (List.map (option_map col_name) l))).
  { induction l as [|[c|] r IH]; simpl; congruence. }
  assert (B : forall l : list (option Column),
             holes l = holes (List.map (option_map col_name) l)).
  { induction l as [|[c|] r IH]; simpl; congruence. }
  rewrite !A, (B l1), (B l2), H. reflexivity.
Qed.

Lemma columnsListText_dense l1 l2 :
  List.map col_name l1 = List.map col_name l2 ->
  columnsListText (List.map Some l1) = columnsListText (List.map Some l2).
Proof.
  intros H. apply columnsListText_names. rewrite !map_map. simpl.
  rewrite <- (map_map col_name Some l1), <- (map_map col_name Some l2).
  rewrite H. reflexivity.
Qed.

Lemma Forall2_map_eq {A B C} (f : A -> C) (g : B -> C) l1 l2 :
  Forall2 (fun a b => f a = g b) l1 l2 -> List.map f l1 = List.map g l2.
Proof. induction 1; simpl; congruence. Qed.

Lemma Forall2_impl {A B} (P Q : A -> B -> Prop) l1 l2 :
  (forall a b, P a b -> Q a b) -> Forall2 P l1 l2 -> Forall2 Q l1 l2.
Proof. intros H. induction 1; constructor; auto. Qed.

Lemma Index_alike_equal a b : Index_alike a b -> indexesSame a b = true.
Proof.
  intros [Hn [Hu Hc]]. unfold indexesSame.
  rewrite Hu, Hn, Bool.eqb_reflx, String.eqb_refl. simpl.
  rewrite <- (map_map col_name percentEncode (idx_columns a)).
  rewrite <- (map_map col_name percentEncode (idx_columns b)).
  rewrite Hc. apply String.eqb_refl.
Qed.

Lemma Table_alike_primaryKey a b :
  Table_alike a b -> primaryKeysSame a b = true.
Proof.
  intros [_ [_ [H _]]]. unfold primaryKeysSame.
  rewrite (columnsListText_names _ _ H). apply String.eqb_refl.
Qed.

Lemma Table_alike_uniques a b : Table_alike a b -> uniquesSame a b = true.
Proof.
  intros [_ [_ [_ [H _]]]]. unfold uniquesSame, uniquesText.
  rewrite (Forall2_map_eq uniqueText uniqueText
             (tbl_uniques a) (tbl_uniques b)); [apply String.eqb_refl|].
  apply (Forall2_impl Unique_alike); [|exact H].
  intros u v E. apply columnsListText_dense. exact E.
Qed.

Lemma Table_alike_foreignKeys a b :
  Table_alike a b -> foreignKeysSame a b = true.
Proof.
  intros [_ [_ [_ [_ H]]]]. unfold foreignKeysSame, foreignKeysText.
  rewrite (Forall2_map_eq foreignKeyText foreignKeyText
             (tbl_foreignKeys a) (tbl_foreignKeys b));
    [apply String.eqb_refl|].
  apply (Forall2_impl ForeignKey_alike); [|exact H].
  intros x y [E1 [E2 [E3 [E4 E5]]]]. unfold foreignKeyText.
  rewrite (columnsListText_dense _ _ E1),
    (columnsListText_dense _ _ E2), E3, E4, E5.
  reflexivity.
Qed.

Lemma keyed_column_get t c :
  Table_linked t -> In c (map_values (tbl_columns t)) ->
  map_get (col_name c) (tbl_columns t) = Some c.
Proof.
  intros L Hin. unfold map_values in Hin. apply in_map_iff in Hin.
  destruct Hin as [[k v] [E Hin]]. simpl in E. subst v.
  pose proof (columns_keyed L) as K. rewrite Forall_forall in K.
  pose proof (K _ Hin) as Ek. simpl in Ek. subst k.
  apply map_get_NoDup; [apply (columns_keys_distinct L)|exact Hin].
Qed.

Lemma keyed_column_has t c :
  Table_linked t -> In c (map_values (tbl_columns t)) ->
  map_has (col_name c) (tbl_columns t) = true.
Proof.
  intros L Hin. unfold map_has. rewrite (keyed_column_get t c L Hin).
  reflexivity.
Qed.

Lemma Column_alike_no_reason a b name :
  Column_alike a b ->
  (if negb (ColumnType_eqb (col_type a) (col_type b))
   then [tpl ["type of column "; col_name a; " of table "; name]]
   else [])
  ++ (if negb (Bool.eqb (col_notNull a) (col_notNull b))
      then [tpl ["notNull of column "; col_name a; " of table "; name]]
      else [])
  ++ (if negb (nullable_eqb (col_defaultValue a) (col_defaultValue b))
      then [tpl ["default of column "; col_name a; " of table "; name;
                 " (from "; render_nullable (col_defaultValue a); " to ";
                 render_nullable (col_defaultValue b); ")"]]
      else [])
  = [].
Proof.
  intros [_ [Ht [Hn Hd]]]. rewrite Ht, Hn, Hd.
  replace (ColumnType_eqb (col_type b) (col_type b)) with true
    by (destruct (col_type b); reflexivity).
  rewrite Bool.eqb_reflx.
  replace (nullable_eqb (col_defaultValue b) (col_defaultValue b)) with true.
  - reflexivity.
  - destruct (col_defaultValue b); simpl; [|reflexivity].
    symmetry. apply String.eqb_refl.
Qed.

Lemma Table_alike_columnReasons a b :
  Table_linked a -> Table_alike a b -> columnReasons a b = [].
Proof.
  intros L [_ [H _]]. unfold columnReasons. apply flat_map_nil.
  intros c Hc.
  destruct (map_get (col_name c) (tbl_columns b)) as [cb|] eqn:G;
    [|reflexivity].
  apply Column_alike_no_reason.
  apply (H (col_name c)); [apply keyed_column_get; assumption|exact G].
Qed.

(** On like tables without a unique index and without added columns, an
    iteration of the loop of [getTablesToRecreate] changes nothing. *)
Lemma planStepOf_alike to references plan t toTable :
  Table_linked t ->
  map_get (tbl_name t) (tables to) = Some toTable ->
  Table_alike t toTable -> hasUniqueIndexes t = false ->
  planStepOf to references [] plan t = plan.
Proof.
  intros L G A U. unfold planStepOf. rewrite G.
  unfold planStep, structuralChange, changesOf.
  cbn [pkChanged uniquesChanged fksChanged].
  rewrite (Table_alike_primaryKey _ _ A), (Table_alike_uniques _ _ A),
    (Table_alike_foreignKeys _ _ A), U.
  simpl. rewrite (Table_alike_columnReasons _ _ L A). simpl.
  destruct plan; reflexivity.
Qed.

(** On snapshots whose names [encodeURIComponent] accepts, the index
    comparisons return. *)
Lemma encodable_index d i :
  Definitions_encodable d -> In i (allIndexes d) ->
  Columns_encodable (idx_columns i).
Proof.
  intros E Hi. unfold allIndexes in Hi. apply in_flat_map in Hi.
  destruct Hi as [t [Ht Hi]]. unfold Definitions_encodable in E.
  rewrite Forall_forall in E. destruct (E t Ht) as [_ [_ [_ Ei]]].
  rewrite Forall_forall in Ei. apply Ei. exact Hi.
Qed.

Lemma getIndexesToAdd_encodable from to :
  Definitions_encodable from -> Definitions_encodable to ->
  getIndexesToAdd from to = Ok (indexesToAddOf from to).
Proof.
  intros Ef Et. unfold getIndexesToAdd, indexesToAddOf.
  apply collectIndexes_returns. intros [k j] Hj. simpl.
  destruct (map_get k (indexesByName from)) as [i|] eqn:G; [|reflexivity].
  rewrite indexesEqual_encodable; [reflexivity| |].
  - apply (encodable_index from i Ef).
    apply (indexesByName_incl from k i). apply (map_get_In _ _ G).
  - apply (encodable_index to j Et).
    apply (indexesByName_incl to k j). exact Hj.
Qed.

Lemma getIndexesToRemove_encodable from to :
  Definitions_encodable from -> Definitions_encodable to ->
  getIndexesToRemove from to = Ok (indexesToRemoveOf from to).
Proof.
  intros Ef Et. unfold getIndexesToRemove, indexesToRemoveOf.
  apply collectIndexes_returns. intros [k i] Hi. simpl.
  destruct (map_get k (indexesByName to)) as [j|] eqn:G; [|reflexivity].
  rewrite indexesEqual_encodable; [reflexivity| |].
  - apply (encodable_index from i Ef).
    apply (indexesByName_incl from k i). exact Hi.
  - apply (encodable_index to j Et).
    apply (indexesByName_incl to k j). apply (map_get_In _ _ G).
Qed.

Section Alike.
Variables from to : Definitions.
Hypothesis Lfrom : Definitions_linked from.
Hypothesis Lto : Definitions_linked to.
Hypothesis Halike : Definitions_alike from to.
Hypothesis Efrom : Definitions_encodable from.
Hypothesis Eto : Definitions_encodable to.

Lemma alike_counterpart t :
  In t (map_values (tables from)) ->
  exists t', map_get (tbl_name t) (tables to) = Some t' /\ Table_alike t t'.
Proof.
  intros Hin. destruct Halike as [H1 [H2 _]].
  pose proof (linked_get Lfrom Hin) as G.
  pose proof (H1 (tbl_name t)) as E. unfold map_has in E. rewrite G in E.
  destruct (map_get (tbl_name t) (tables to)) as [t'|] eqn:G';
    [|discriminate].
  exists t'. split; [reflexivity|]. apply (H2 (tbl_name t)); assumption.
Qed.

Lemma alike_counterpart_back t' :
  In t' (map_values (tables to)) ->
  exists t, map_get (tbl_name t') (tables from) = Some t /\ Table_alike t t'.
Proof.
  intros Hin. destruct Halike as [H1 [H2 _]].
  pose proof (linked_get Lto Hin) as G.
  pose proof (H1 (tbl_name t')) as E. unfold map_has in E. rewrite G in E.
  destruct (map_get (tbl_name t') (tables from)) as [t|] eqn:G';
    [|discriminate].
  exists t. split; [reflexivity|]. apply (H2 (tbl_name t')); assumption.
Qed.

Lemma alike_getTablesToDelete : getTablesToDelete from to = [].
Proof.
  unfold getTablesToDelete. apply filter_nil. intros t Hin.
  destruct (alike_counterpart t Hin) as [t' [G _]].
  unfold map_has. rewrite G. reflexivity.
Qed.

Lemma alike_getTablesToAdd : getTablesToAdd from to = [].
Proof.
  unfold getTablesToAdd. apply Set_from_nil. apply filter_nil.
  intros t Hin. destruct (alike_counterpart_back t Hin) as [t' [G _]].
  unfold map_has. rewrite G. reflexivity.
Qed.

Lemma alike_getColumnsToAdd : getColumnsToAdd from to = [].
Proof.
  unfold getColumnsToAdd. apply Set_from_nil. apply flat_map_nil.
  intros t' Hin. destruct (alike_counterpart_back t' Hin) as [t [G A]].
  rewrite G. unfold getColumnsToAddFromTables. apply Set_from_nil.
  apply filter_nil. intros c Hc. destruct A as [A _]. rewrite A.
  rewrite keyed_column_has; [reflexivity| |exact Hc].
  apply (linked_table Lto Hin).
Qed.

Lemma alike_getColumnsToDelete : getColumnsToDelete from to = [].
Proof.
  unfold getColumnsToDelete. apply Set_from_nil. apply flat_map_nil.
  intros t' Hin. destruct (alike_counterpart_back t' Hin) as [t [G A]].
  rewrite G. unfold getColumnsToDeleteFromTables. apply Set_from_nil.
  apply filter_nil. intros c Hc. destruct A as [A _]. rewrite <- A.
  rewrite keyed_column_has; [reflexivity| |exact Hc].
  apply (linked_table Lfrom (map_get_values _ _ G)).
Qed.

Lemma alike_getIndexesToRemove : indexesToRemoveOf from to = [].
Proof.
  unfold indexesToRemoveOf. apply Set_from_nil.
  rewrite filter_nil; [reflexivity|]. intros [k i] Hin. simpl.
  destruct Halike as [_ [_ H]]. specialize (H k).
  assert (G : map_get k (indexesByName from) = Some i).
  { apply map_get_NoDup; [apply Map_from_NoDup|exact Hin]. }
  rewrite G in H.
  destruct (map_get k (indexesByName to)) as [j|]; [|contradiction].
  rewrite (Index_alike_equal _ _ H). reflexivity.
Qed.

Lemma alike_getIndexesToAdd : indexesToAddOf from to = [].
Proof.
  unfold indexesToAddOf. apply Set_from_nil.
  rewrite filter_nil; [reflexivity|]. intros [k j] Hin. simpl.
  destruct Halike as [_ [_ H]]. specialize (H k).
  assert (G : map_get k (indexesByName to) = Some j).
  { apply map_get_NoDup; [apply Map_from_NoDup|exact Hin]. }
  rewrite G in H.
  destruct (map_get k (indexesByName from)) as [i|]; [|contradiction].
  rewrite (Index_alike_equal _ _ H). reflexivity.
Qed.

Lemma alike_getTablesToRecreate :
  (forall t, In t (map_values (tables from)) -> hasUniqueIndexes t = false) ->
  getTablesToRecreate from to
  = Ok {| tablesToRecreate := []; tablesToDropReferences := [];
          planReasons := [] |}.
Proof.
  intros U. unfold getTablesToRecreate. rewrite alike_getColumnsToAdd.
  simpl. unfold Set_from. simpl.
  rewrite foldM_recreateStep_encodable by assumption. f_equal.
  assert (forall l plan,
             (forall t, In t l -> In t (map_values (tables from))) ->
             fold_left (planStepOf to (tablesReferences from) []) l plan
             = plan) as K.
  { induction l as [|t r IH]; intros plan Hl; simpl; [reflexivity|].
    destruct (alike_counterpart t (Hl t (or_introl eq_refl))) as [t' [G A]].
    rewrite (planStepOf_alike to _ plan t t'); auto.
    - apply IH. intros x Hx. apply Hl. right. exact Hx.
    - apply (linked_table Lfrom). apply Hl. left. reflexivity.
    - apply U. apply Hl. left. reflexivity. }
  apply K. auto.
Qed.

Lemma alike_removeForeignKeyOps :
  flatMapM (removeForeignKeyStep []) (allSingleColumnForeignKeys from)
  = Ok [].
Proof.
  apply flatMapM_all_nil. intros fk Hin.
  unfold allSingleColumnForeignKeys in Hin. apply in_flat_map in Hin.
  destruct Hin as [t [Ht Hfk]]. apply filter_In in Hfk.
  destruct Hfk as [Hfk _].
  pose proof (foreignKeys_mounted (linked_table Lfrom Ht)) as M.
  rewrite Forall_forall in M. unfold removeForeignKeyStep.
  rewrite (M _ Hfk). reflexivity.
Qed.

Lemma alike_addForeignKeyOps options :
  (if inCreationMode options then Ok []
   else flatMapM (addForeignKeyStep to [] [])
          (allSingleColumnForeignKeys to)) = Ok [].
Proof.
  destruct (inCreationMode options); [reflexivity|].
  apply flatMapM_all_nil. intros fk Hin.
  unfold allSingleColumnForeignKeys in Hin. apply in_flat_map in Hin.
  destruct Hin as [t [Ht Hfk]]. apply filter_In in Hfk.
  destruct Hfk as [Hfk _].
  pose proof (foreignKeys_mounted (linked_table Lto Ht)) as M.
  rewrite Forall_forall in M. unfold addForeignKeyStep.
  rewrite (M _ Hfk). simpl. unfold getTable.
  rewrite (linked_get Lto Ht). reflexivity.
Qed.

(** On like snapshots, once the mode test and the verification have
    passed and no table of [from] has a unique index, [differences] finds
    nothing to do. *)
Lemma alike_differences newId options :
  inCreationMode options && (0 <? map_size (tables from))%nat = false ->
  forEach Table_verify (map_values (tables from)) = Ok tt ->
  forEach Table_verify (map_values (tables to)) = Ok tt ->
  (forall t, In t (map_values (tables from)) -> hasUniqueIndexes t = false) ->
  differences newId from to options = Ok (noChange, []).
Proof.
  intros Hmode Vf Vt U. apply differences_runs.
  exists (mkTrace
            {| tablesToRecreate := []; tablesToDropReferences := [];
               planReasons := [] |}
            {| columnsToDelete := []; columnsToAdd := [];
               indexesToRemove := []; indexesToAdd := [] |}
            [] [] [] [] [] [] [] [] [] [] []).
  split.
  - constructor; simpl; auto.
    + apply alike_getTablesToRecreate. exact U.
    + rewrite getIndexesToAdd_encodable by assumption.
      rewrite alike_getIndexesToAdd. reflexivity.
    + rewrite getIndexesToRemove_encodable by assumption.
      rewrite alike_getIndexesToRemove. reflexivity.
    + rewrite alike_getColumnsToDelete. reflexivity.
    + apply alike_removeForeignKeyOps.
    + rewrite alike_getTablesToAdd. reflexivity.
    + rewrite alike_getTablesToAdd. apply alike_addForeignKeyOps.
  - unfold outcome. simpl.
    rewrite alike_getTablesToAdd, alike_getTablesToDelete. reflexivity.
Qed.

End Alike.

Lemma Definitions_alike_refl d : Definitions_alike d d.
Proof.
  split; [reflexivity|]. split.
  - intros k a b Ga Gb. rewrite Ga in Gb. injection Gb as <-.
    split; [reflexivity|]. split.
    + intros k' ca cb Ha Hb. rewrite Ha in Hb. injection Hb as <-.
      repeat split.
    + split; [reflexivity|]. split.
      * induction (tbl_uniques a); constructor; [reflexivity|assumption].
      * induction (tbl_foreignKeys a); constructor;
          [repeat split|assumption].
  - intros k. destruct (map_get k (indexesByName d)); [repeat split|exact I].
Qed.

(** [C1], counterexample: [items] has a unique index and passes [verify];
    compared with itself it is scheduled for recreation, to migrate the
    unique index. *)
Lemma unique_index_forces_recreation_of_unchanged_table :
  (Table_verify Examples.items = Ok tt
   /\ exists s ops,
        differences Examples.idsA Examples.catalog Examples.catalog None
        = Ok (s, ops)
        /\ recreatedTables s = ["items"]
        /\ recreateReasons s
           = [("items", "unique indexes (migrate to UNIQUE on definition)")]
        /\ List.map title ops
           = ["Remove index sku_idx"; "Recreate table items";
              "Add index sku_idx"])
  /\ ~ self_difference_is_empty.
Proof.
  split.
  - split; [reflexivity|]. eexists. eexists.
    split; [vm_compute; reflexivity|]. repeat split.
  - intros H.
    specialize (H Examples.idsA Examples.catalog catalog_linked eq_refl).
    vm_compute in H. discriminate H.
Qed.

(** *** Unique indexes *)

Lemma planStepOf_reasons_other to references added plan t n :
  tbl_name t <> n ->
  map_get n (planReasons (planStepOf to references added plan t))
  = map_get n (planReasons plan).
Proof.
  intros Hne. unfold planStepOf, planStep.
  destruct (map_get (tbl_name t) (tables to)); [|reflexivity].
  destruct (0 <? _)%nat; simpl; [|reflexivity].
  apply map_get_set_other. exact Hne.
Qed.

Lemma fold_planStepOf_reasons_other to references added l plan n :
  (forall t, In t l -> tbl_name t <> n) ->
  map_get n
    (planReasons (fold_left (planStepOf to references added) l plan))
  = map_get n (planReasons plan).
Proof.
  revert plan; induction l as [|t r IH]; intros plan Hl; simpl;
    [reflexivity|].
  rewrite IH by (intros x Hx; apply Hl; right; exact Hx).
  apply planStepOf_reasons_other. apply Hl. left. reflexivity.
Qed.

Lemma planStepOf_unique_index to references added plan t toTable :
  map_get (tbl_name t) (tables to) = Some toTable ->
  hasUniqueIndexes t = true ->
  exists front,
    map_get (tbl_name t)
      (planReasons (planStepOf to references added plan t))
    = Some (join ", "
              (front
               ++ ["unique indexes (migrate to UNIQUE on definition)"])).
Proof.
  intros G U. unfold planStepOf. rewrite G. unfold planStep.
  assert (S : structuralChange added t (changesOf t toTable) = true).
  { unfold structuralChange. rewrite U. apply orb_true_iff. left.
    apply orb_true_r. }
  rewrite S. unfold structuralReasons. rewrite U.
  rewrite !app_assoc.
  match goal with
  | |- context [join ", " (?f ++ [?u])] => exists f
  end.
  rewrite length_app. cbn [List.length].
  replace (0 <? List.length _ + 1)%nat with true
    by (symmetry; apply Nat.ltb_lt; lia).
  cbn [planReasons]. apply map_get_set_same.
Qed.

Lemma NoDup_map_split {A B} (f : A -> B) (l : list A) (x : A) :
  NoDup (List.map f l) -> In x l ->
  exists l1 l2, l = l1 ++ x :: l2 /\ forall y, In y l2 -> f y <> f x.
Proof.
  intros ND Hx. apply in_split in Hx. destruct Hx as [l1 [l2 ->]].
  exists l1, l2. split; [reflexivity|]. intros y Hy E.
  rewrite map_app in ND. apply NoDup_remove_2 in ND. apply ND.
  apply in_or_app. right. simpl. rewrite <- E. apply in_map. exact Hy.
Qed.

(** [C1], amended: let [from] and [to] be linked snapshots that pass
    verification, whose compared column names have no lone surrogate, and
    that are equal on every compared attribute (the same table names; per
    table the same column names with the same type, nullability and
    default, the same primary key, uniques and foreign keys; the same
    index names with the same uniqueness and column names), outside
    creation mode or with an empty [from].  When no table of [from] has an
    index flagged unique, [differences] returns no operation and an empty
    summary; in particular the difference between such a snapshot and
    itself is empty.  Whenever [differences] returns, a table of [from]
    that [to] has too and that has an index flagged unique is recreated,
    and its reason ends with the migration of the unique indexes. *)
Theorem equal_snapshots_yield_no_change :
  (forall newId from to options,
     Definitions_linked from -> Definitions_linked to ->
     Definitions_encodable from -> Definitions_encodable to ->
     Definitions_alike from to ->
     inCreationMode options && (0 <? map_size (tables from))%nat = false ->
     forEach Table_verify (map_values (tables from)) = Ok tt ->
     forEach Table_verify (map_values (tables to)) = Ok tt ->
     (forall t, In t (map_values (tables from)) ->
                hasUniqueIndexes t = false) ->
     differences newId from to options = Ok (noChange, []))
  /\ (forall newId to options,
        Definitions_linked to -> Definitions_encodable to ->
        inCreationMode options && (0 <? map_size (tables to))%nat = false ->
        forEach Table_verify (map_values (tables to)) = Ok tt ->
        (forall t, In t (map_values (tables to)) ->
                   hasUniqueIndexes t = false) ->
        differences newId to to options = Ok (noChange, []))
  /\ (forall newId from to options s ops t,
        Definitions_linked from ->
        differences newId from to options = Ok (s, ops) ->
        In t (map_values (tables from)) ->
        map_has (tbl_name t) (tables to) = true ->
        hasUniqueIndexes t = true ->
        In (tbl_name t) (recreatedTables s)
        /\ exists front,
             map_get (tbl_name t) (recreateReasons s)
             = Some (join ", "
                       (front
                        ++ ["unique indexes (migrate to UNIQUE on definition)"]))).
Proof.
  split; [|split].
  - intros newId from to options Lf Lt Ef Et A Hmode Vf Vt U.
    apply alike_differences; assumption.
  - intros newId to options L E Hmode V U.
    apply alike_differences; try assumption.
    apply Definitions_alike_refl.
  - intros newId from to options s ops t L H Ht Hhas U.
    apply differences_runs in H. destruct H as [tr [R E]].
    injection E as -> _. cbn [recreatedTables recreateReasons].
    destruct (getTablesToRecreate_Ok _ _ (run_plan R)) as [owners [_ ->]].
    unfold map_has in Hhas.
    destruct (map_get (tbl_name t) (tables to)) as [toTable|] eqn:G;
      [|discriminate].
    assert (S : structuralChange (Set_from String.eqb owners) t
                  (changesOf t toTable) = true).
    { unfold structuralChange. rewrite U. apply orb_true_iff. left.
      apply orb_true_r. }
    split.
    + apply (fold_planStepOf_structural to (tablesReferences from)
               (Set_from String.eqb owners) (map_values (tables from))
               _ t Ht G S).
    + destruct (NoDup_map_split tbl_name _ t (linked_names_NoDup from L) Ht)
        as [l1 [l2 [El Hl2]]].
      rewrite El, fold_left_app. cbn [fold_left].
      rewrite fold_planStepOf_reasons_other by exact Hl2.
      apply (planStepOf_unique_index _ _ _ _ t toTable G U).
Qed.

Lemma equal_snapshots_yield_no_change_witness :
  differences Examples.idsA Examples.blog Examples.blog4 None
  = Ok (noChange, [])
  /\ differences Examples.idsA Examples.blog Examples.blog None
     = Ok (noChange, [])
  /\ In "items"
       (recreatedTables
          (match differences Examples.idsA Examples.catalog Examples.catalog
                   None with
           | Ok (s, _) => s
           | Throw _ => noChange
           end)).
Proof.
  destruct equal_snapshots_yield_no_change as [Hgeneral [Hself Hunique]].
  assert (forall t, In t (map_values (tables Examples.blog)) ->
                    hasUniqueIndexes t = false) as U.
  { intros t [<-|[<-|[]]]; reflexivity. }
  assert (Eb : Definitions_encodable Examples.blog).
  { repeat constructor. }
  assert (Eb4 : Definitions_encodable Examples.blog4).
  { repeat constructor. }
  split; [|split].
  - apply Hgeneral;
      [exact blog_linked|exact blog4_linked|exact Eb|exact Eb4
      |exact blog_alike_blog4|reflexivity|reflexivity|reflexivity|exact U].
  - apply Hself; [exact blog_linked|exact Eb|reflexivity|reflexivity|exact U].
  - destruct (differences Examples.idsA Examples.catalog Examples.catalog
                None) as [[s ops]|] eqn:E; [|discriminate E].
    apply (Hunique Examples.idsA Examples.catalog Examples.catalog None s ops
             Examples.items catalog_linked E (or_introl eq_refl) eq_refl
             eq_refl).
Defined.

(** ** Linked, verified snapshots always have a difference *)

Lemma mapM_total {A B} (f : A -> Result B) (xs : list A) :
  (forall x, In x xs -> exists y, f x = Ok y) -> exists ys, mapM f xs = Ok ys.
Proof.
  induction xs as [|x r IH]; simpl; intros H; [eauto|].
  destruct (H x (or_introl eq_refl)) as [y ->]. simpl.
  destruct IH as [ys ->]; [auto|]. simpl. eauto.
Qed.

Lemma ForeignKey_verify_nonempty fk :
  ForeignKey_verify fk = Ok tt -> fk_foreignColumns fk <> [].
Proof.
  unfold ForeignKey_verify. intros H.
  bind_inv H. bind_inv H. bind_inv H.
  apply when_Ok in Ha1. destruct Ha1 as [E|E]; [|discriminate E].
  intros E'. rewrite E' in E. discriminate E.
Qed.

Lemma Table_verify_foreignKeys t fk :
  Table_verify t = Ok tt -> In fk (tbl_foreignKeys t) ->
  fk_foreignColumns fk <> [].
Proof.
  unfold Table_verify. intros H Hin.
  bind_inv H. bind_inv H. bind_inv H. bind_inv H.
  apply ForeignKey_verify_nonempty.
  apply (forEach_Ok _ _ Ha2 fk Hin).
Qed.

Lemma foldM_foldIntoRecreate_total from to names w :
  (forall n, In n names ->
             map_has n (tables from) = true /\ map_has n (tables to) = true) ->
  exists w', foldM (foldIntoRecreate from to) names w = Ok w'.
Proof.
  revert w; induction names as [|n r IH]; simpl; intros w H; [eauto|].
  destruct (H n (or_introl eq_refl)) as [Hf Ht].
  unfold foldIntoRecreate at 1. unfold map_has in Hf, Ht.
  destruct (map_get n (tables from)); [|discriminate].
  destruct (map_get n (tables to)); [|discriminate].
  simpl. apply IH. auto.
Qed.

Lemma recreateTableOps_total newId k from to names :
  (forall n, In n names ->
             exists a b, map_get n (tables from) = Some a
                         /\ map_get n (tables to) = Some b
                         /\ Forall (fun slot => slot <> None)
                              (tbl_primaryKey b)) ->
  exists ops, recreateTableOps newId k from to names = Ok ops.
Proof.
  revert k; induction names as [|n r IH]; simpl; intros k H; [eauto|].
  destruct (H n (or_introl eq_refl)) as [a [b [Ga [Gb D]]]].
  unfold recreateTableOp, getTable. rewrite Ga, Gb. simpl.
  destruct (@recreateTableSql_returns (newId k) a b D) as [statements ->].
  simpl. destruct (IH (S k)) as [ops ->]; [auto|]. simpl. eauto.
Qed.

(** What [verify] checks of the links that a linked table has: every
    column and every index of the table is mounted on the table itself, and
    every foreign key is mounted. *)
Lemma Table_verify_owners t :
  Table_verify t = Ok tt ->
  (forall c, In c (map_values (tbl_columns t)) ->
             exists o, col_table c = Some o /\ ref_id o = tbl_id t)
  /\ (forall i, In i (map_values (tbl_indexes t)) ->
                exists o, idx_table i = Some o /\ ref_id o = tbl_id t)
  /\ (forall fk, In fk (tbl_foreignKeys t) -> exists o, fk_table fk = Some o).
Proof.
  unfold Table_verify. intros H.
  bind_inv H. bind_inv H. bind_inv H. bind_inv H.
  split; [|split].
  - intros c Hc. pose proof (forEach_Ok _ _ Ha0 c Hc) as K.
    cbv beta in K.
    destruct (col_table c) as [o|]; simpl in K; [|discriminate K].
    exists o. split; [reflexivity|].
    apply when_Ok in K. destruct K as [K|K]; [|discriminate K].
    apply negb_false_iff in K. apply Nat.eqb_eq in K. exact K.
  - intros i Hi. pose proof (forEach_Ok _ _ Ha1 i Hi) as K.
    cbv beta in K.
    destruct (idx_table i) as [o|]; simpl in K; [|discriminate K].
    exists o. split; [reflexivity|].
    apply when_Ok in K. destruct K as [K|K]; [|discriminate K].
    apply negb_false_iff in K. apply Nat.eqb_eq in K. exact K.
  - intros fk Hfk. pose proof (forEach_Ok _ _ Ha2 fk Hfk) as K.
    unfold ForeignKey_verify in K.
    destruct (fk_table fk) as [o|]; simpl in K; [eauto|discriminate K].
Qed.

(** [X6] On linked snapshots that pass the mode test and the verification
    and in which the names of the columns of the primary keys, uniques,
    foreign keys and indexes have no lone surrogate, [differences] returns
    a summary and a list of operations: none of its later steps throws. *)
Theorem differences_returns
    (newId : nat -> string) (from to : Definitions)
    (options : option DifferencesOptions) :
  Definitions_linked from -> Definitions_linked to ->
  Definitions_encodable from -> Definitions_encodable to ->
  inCreationMode options && (0 <? map_size (tables from))%nat = false ->
  forEach Table_verify (map_values (tables from)) = Ok tt ->
  forEach Table_verify (map_values (tables to)) = Ok tt ->
  exists s ops, differences newId from to options = Ok (s, ops).
Proof.
  intros Lf Lt Ef Et Hmode Vf Vt.
  assert (Mto : forall c, In c (allColumns to) -> exists n,
               ownerName (col_table c) = Ok n).
  { intros c Hc. unfold allColumns in Hc. apply in_flat_map in Hc.
    destruct Hc as [t [Ht Hc]].
    pose proof (columns_mounted (linked_table Lt Ht)) as M.
    rewrite Forall_forall in M. rewrite (M _ Hc). cbv. eauto. }
  destruct (mapM_total (fun c => ownerName (col_table c))
              (getColumnsToAdd from to)) as [owners Ho].
  { intros c Hc. apply Mto. unfold getColumnsToAdd in Hc.
    apply Set_from_incl in Hc. apply (getColumnsToAdd_incl from). exact Hc. }
  assert (Hplan : exists plan, getTablesToRecreate from to = Ok plan).
  { unfold getTablesToRecreate. rewrite Ho. simpl.
    rewrite foldM_recreateStep_encodable by assumption. eauto. }
  destruct Hplan as [plan Hplan].
  assert (Hnames : forall n, In n (tablesToRecreate plan) ->
             exists a b, map_get n (tables from) = Some a
                         /\ map_get n (tables to) = Some b).
  { intros n Hn.
    destruct (@plan_names from to plan n Hplan) as [P _].
    destruct (P Hn) as [a [Ha [-> Hhas]]].
    unfold map_has in Hhas.
    destruct (map_get (tbl_name a) (tables to)) as [b|] eqn:Gb;
      [|discriminate].
    exists a, b. split; [apply (linked_get Lf Ha)|reflexivity]. }
  destruct (foldM_foldIntoRecreate_total from to (tablesToRecreate plan)
              {| columnsToDelete := getColumnsToDelete from to;
                 columnsToAdd := [];
                 indexesToRemove := indexesToRemoveOf from to;
                 indexesToAdd := indexesToAddOf from to |}) as [w Hw].
  { intros n Hn. destruct (Hnames n Hn) as [a [b [Ga Gb]]].
    unfold map_has. rewrite Ga, Gb. auto. }
  destruct (foldM_foldIntoRecreate_spec _ _ _ _ _ Hw)
    as [_ [_ [I3 [_ [_ [_ I7]]]]]].
  assert (Hca : columnsToAdd w = []).
  { apply (@foldIntoRecreate_columnsToAdd from to _ _ _ Hw). reflexivity. }
  destruct (@flatMapM_total _ _
              (removeForeignKeyStep (tablesToDropReferences plan))
              (allSingleColumnForeignKeys from)) as [rfk Hrfk].
  { intros fk Hfk. unfold allSingleColumnForeignKeys in Hfk.
    apply in_flat_map in Hfk. destruct Hfk as [t [Ht Hfk]].
    apply filter_In in Hfk. destruct Hfk as [Hfk Hlen].
    pose proof (foreignKeys_mounted (linked_table Lf Ht)) as M.
    rewrite Forall_forall in M. unfold removeForeignKeyStep, ownerName.
    rewrite (M _ Hfk). simpl.
    destruct (set_has String.eqb (tbl_name t) (tablesToDropReferences plan));
      [|eauto].
    unfold firstLocalColumn.
    destruct (fk_localColumns fk); [discriminate Hlen|]. simpl. eauto. }
  destruct (mapM_total createTableOp (getTablesToAdd from to)) as [cto Hcto].
  { intros t _. unfold createTableOp. rewrite createTableSQL_plain.
    simpl. eauto. }
  destruct (mapM_total removeColumnOp (columnsToDelete w)) as [rco Hrco].
  { intros c Hc. apply I3 in Hc. simpl in Hc.
    destruct (getColumnsToDelete_owner _ _ _ Lf Lt Hc) as [t [Ht [Hct _]]].
    pose proof (columns_mounted (linked_table Lf Ht)) as M.
    rewrite Forall_forall in M.
    unfold removeColumnOp, removeColumnSQL, ownerName.
    rewrite (M _ Hct). simpl. eauto. }
  destruct (mapM_total qualifiedName (columnsToDelete w)) as [removed Hrem].
  { intros c Hc. apply I3 in Hc. simpl in Hc.
    destruct (getColumnsToDelete_owner _ _ _ Lf Lt Hc) as [t [Ht [Hct _]]].
    pose proof (columns_mounted (linked_table Lf Ht)) as M.
    rewrite Forall_forall in M. unfold qualifiedName, ownerName.
    rewrite (M _ Hct). simpl. eauto. }
  destruct (recreateTableOps_total newId 0 from to (tablesToRecreate plan))
    as [rec Hrec].
  { intros n Hn. destruct (Hnames n Hn) as [a [b [Ga Gb]]].
    exists a, b. split; [exact Ga|]. split; [exact Gb|].
    apply Table_verify_dense.
    apply (forEach_Ok _ _ Vt b (map_get_values _ _ Gb)). }
  assert (Hafk : exists afk,
             (if inCreationMode options then Ok []
              else flatMapM
                     (addForeignKeyStep to (tablesToDropReferences plan)
                        (getTablesToAdd from to))
                     (allSingleColumnForeignKeys to)) = Ok afk).
  { destruct (inCreationMode options); [eauto|].
    apply flatMapM_total. intros fk Hfk.
    unfold allSingleColumnForeignKeys in Hfk.
    apply in_flat_map in Hfk. destruct Hfk as [t [Ht Hfk]].
    apply filter_In in Hfk. destruct Hfk as [Hfk Hlen].
    pose proof (foreignKeys_mounted (linked_table Lt Ht)) as M.
    rewrite Forall_forall in M. unfold addForeignKeyStep, ownerName.
    rewrite (M _ Hfk). simpl. unfold getTable.
    rewrite (linked_get Lt Ht).
    assert (exists wanted,
               (if set_has String.eqb (tbl_name t)
                     (tablesToDropReferences plan)
                then Ok true
                else t0 <- Ok t ;;
                     Ok (set_has Table_same t0 (getTablesToAdd from to)))
               = Ok wanted) as [wanted ->].
    { destruct (set_has String.eqb (tbl_name t)
                  (tablesToDropReferences plan)); simpl; eauto. }
    simpl. destruct (negb wanted); [eauto|].
    unfold firstLocalColumn.
    destruct (fk_localColumns fk) as [|c l]; [discriminate Hlen|]. simpl.
    unfold addForeignKeyToColumnSQL, referencesClause.
    pose proof (Table_verify_foreignKeys t fk (forEach_Ok _ _ Vt t Ht) Hfk)
      as Hne.
    destruct (fk_foreignColumns fk); [congruence|]. simpl. eauto. }
  destruct Hafk as [afk Hafk].
  destruct (mapM_total addIndexOp (indexesToAdd w)) as [aio Haio].
  { intros i Hi.
    assert (In i (allIndexes to)) as Hall.
    { destruct (I7 i Hi) as [H0|[n [t [_ [G H']]]]].
      - apply (getIndexesToAdd_incl from to). exact H0.
      - apply (table_index_in_allIndexes to n t); assumption. }
    unfold allIndexes in Hall. apply in_flat_map in Hall.
    destruct Hall as [t [Ht Hit]].
    pose proof (indexes_mounted (linked_table Lt Ht)) as M.
    rewrite Forall_forall in M. unfold addIndexOp, ownerName.
    rewrite (M _ Hit). simpl. eauto. }
  eexists. eexists. apply differences_runs.
  exists (mkTrace plan w rfk cto [] rco rec afk aio [] removed
            (indexesToAddOf from to) (indexesToRemoveOf from to)).
  split; [|reflexivity].
  constructor; simpl; try assumption;
    try (apply getIndexesToAdd_encodable; assumption);
    try (apply getIndexesToRemove_encodable; assumption);
    rewrite Hca; reflexivity.
Qed.

(** ** The order and the shape of the operations *)

Lemma emissionRank_kind op k :
  (forall k', has_kind k' op = OperationKind_eqb k' k) ->
  emissionRank (title op)
  = Some match k with
         | RemoveIndex => 1 | RemoveForeignKey => 2 | CreateTable => 3
         | RemoveTable => 4 | AddColumn => 5 | RemoveColumn => 6
         | RecreateTable => 7 | AddForeignKey => 8 | AddIndex => 9
         end.
Proof.
  intros H. unfold emissionRank.
  pose proof (H RemoveIndex) as H1. pose proof (H RemoveForeignKey) as H2.
  pose proof (H CreateTable) as H3. pose proof (H RemoveTable) as H4.
  pose proof (H AddColumn) as H5. pose proof (H RemoveColumn) as H6.
  pose proof (H RecreateTable) as H7. pose proof (H AddForeignKey) as H8.
  pose proof (H AddIndex) as H9.
  unfold has_kind in *. simpl kind_words in *.
  rewrite H1, H2, H3, H4, H5, H6, H7, H8, H9.
  destruct k; reflexivity.
Qed.

(** The kinds of the operations of a run, for every kind at once. *)
Lemma runs_segments newId from to options t :
  runs newId from to options t ->
  let of_kind k :=
    Forall (fun op => forall k', has_kind k' op = OperationKind_eqb k' k) in
  of_kind RemoveIndex (List.map removeIndexOp (indexesToRemove (tr_sets t)))
  /\ of_kind RemoveForeignKey (tr_removeForeignKeyOps t)
  /\ of_kind CreateTable (tr_createTableOps t)
  /\ of_kind RemoveTable
       (List.map removeTableOp (getTablesToDelete from to))
  /\ tr_addColumnOps t = []
  /\ of_kind RemoveColumn (tr_removeColumnOps t)
  /\ of_kind RecreateTable (tr_recreateOps t)
  /\ of_kind AddForeignKey (tr_addForeignKeyOps t)
  /\ of_kind AddIndex (tr_addIndexOps t).
Proof.
  intros R of_kind.
  assert (forall K (l : list Operation),
             (forall k, Forall (fun op =>
                            has_kind k op = OperationKind_eqb k K) l) ->
             of_kind K l) as G.
  { intros K l H. apply Forall_forall. intros op Hin k'.
    specialize (H k'). rewrite Forall_forall in H. apply H, Hin. }
  destruct (runs_columnsToAdd R) as [_ [Haco _]].
  repeat split; try exact Haco; apply G; intros k;
    destruct (runs_kinds k R) as [K1 [K2 [K3 [K4 [K5 [K6 [K7 K8]]]]]]];
    assumption.
Qed.

Lemma ForallOrdPairs_app {A} (R : A -> A -> Prop) (l1 l2 : list A) :
  ForallOrdPairs R l1 -> ForallOrdPairs R l2 ->
  (forall a b, In a l1 -> In b l2 -> R a b) ->
  ForallOrdPairs R (l1 ++ l2).
Proof.
  induction 1 as [|a l Ha Hl IH]; simpl; intros H2 H; [exact H2|].
  constructor.
  - apply Forall_app. split; [exact Ha|].
    apply Forall_forall. intros b Hb. apply H; auto.
  - apply IH; [exact H2|]. intros x y Hx Hy. apply H; auto.
Qed.

Lemma ForallOrdPairs_same_rank (l : list Operation) (n : nat) :
  Forall (fun op => emissionRank (title op) = Some n) l ->
  ForallOrdPairs (fun a b =>
      exists i j, emissionRank (title a) = Some i
                  /\ emissionRank (title b) = Some j /\ i <= j) l.
Proof.
  induction 1 as [|a l Ha Hl IH]; constructor; [|exact IH].
  apply Forall_forall. intros b Hb. rewrite Forall_forall in Hl.
  exists n, n. split; [exact Ha|]. split; [apply Hl, Hb|lia].
Qed.

Lemma ranked_segment (l : list Operation) (k : OperationKind) :
  Forall (fun op => forall k', has_kind k' op = OperationKind_eqb k' k) l ->
  Forall (fun op =>
      emissionRank (title op)
      = Some match k with
             | RemoveIndex => 1 | RemoveForeignKey => 2 | CreateTable => 3
             | RemoveTable => 4 | AddColumn => 5 | RemoveColumn => 6
             | RecreateTable => 7 | AddForeignKey => 8 | AddIndex => 9
             end) l.
Proof.
  intros H. apply Forall_forall. intros op Hin.
  rewrite Forall_forall in H. apply emissionRank_kind. apply H, Hin.
Qed.

(** Every operation of [l] has a rank, at least [lo]. *)
Lemma ranked_from_segment (l : list Operation) (n lo : nat) :
  lo <= n ->
  Forall (fun op => emissionRank (title op) = Some n) l ->
  Forall (fun op => exists j, emissionRank (title op) = Some j /\ lo <= j) l.
Proof.
  intros Hlo H. apply Forall_forall. intros op Hop.
  rewrite Forall_forall in H. exists n. split; [apply H, Hop|exact Hlo].
Qed.

Lemma ranked_from_weaken (l : list Operation) (lo lo' : nat) :
  lo' <= lo ->
  Forall (fun op => exists j, emissionRank (title op) = Some j /\ lo <= j) l ->
  Forall (fun op => exists j, emissionRank (title op) = Some j /\ lo' <= j) l.
Proof.
  intros Hlo H. eapply Forall_impl; [|exact H].
  intros op [j [Ej Hj]]. exists j. split; [exact Ej|lia].
Qed.

Lemma ordered_app (l1 l2 : list Operation) (n : nat) :
  Forall (fun op => emissionRank (title op) = Some n) l1 ->
  Forall (fun op => exists j, emissionRank (title op) = Some j /\ n <= j) l2 ->
  ForallOrdPairs (fun a b =>
      exists i j, emissionRank (title a) = Some i
                  /\ emissionRank (title b) = Some j /\ i <= j) l2 ->
  ForallOrdPairs (fun a b =>
      exists i j, emissionRank (title a) = Some i
                  /\ emissionRank (title b) = Some j /\ i <= j) (l1 ++ l2)
  /\ Forall (fun op => exists j, emissionRank (title op) = Some j /\ n <= j)
       (l1 ++ l2).
Proof.
  intros H1 H2 O2. split.
  - apply ForallOrdPairs_app.
    + apply (ForallOrdPairs_same_rank l1 n H1).
    + exact O2.
    + intros a b Ha Hb. rewrite Forall_forall in H1, H2.
      destruct (H2 b Hb) as [j [Ej Hj]].
      exists n, j. split; [apply H1, Ha|]. split; [exact Ej|exact Hj].
  - apply Forall_app. split; [|exact H2].
    apply (ranked_from_segment l1 n n (le_n n) H1).
Qed.

(** [X1] The operations that [differences] returns come in the order of
    the code: index removals, foreign-key removals, table creations, table
    removals, column removals, table recreations, foreign-key additions,
    index additions.  Every title starts with the words of one of these
    kinds, and of two operations the earlier one never has the later
    rank. *)
Theorem operations_follow_emission_order
    (newId : nat -> string) (from to : Definitions)
    (options : option DifferencesOptions) (s : PushSummary)
    (ops : list Operation)
    (H : differences newId from to options = Ok (s, ops)) :
  Forall (fun op => exists i, emissionRank (title op) = Some i /\ i <> 5) ops
  /\ ForallOrdPairs (fun a b =>
         exists i j, emissionRank (title a) = Some i
                     /\ emissionRank (title b) = Some j /\ i <= j) ops.
Proof.
  apply differences_runs in H. destruct H as [t [R E]].
  injection E as _ ->.
  destruct (runs_segments newId from to options t R)
    as [S1 [S2 [S3 [S4 [S5 [S6 [S7 [S8 S9]]]]]]]].
  apply ranked_segment in S1, S2, S3, S4, S6, S7, S8, S9.
  rewrite S5. simpl app.
  split.
  - repeat (apply Forall_app; split);
      match goal with
      | |- Forall _ ?l =>
          apply Forall_forall; intros op Hop;
          match goal with
          | S : Forall _ l |- _ =>
              rewrite Forall_forall in S; rewrite (S op Hop);
              eexists; split; [reflexivity|discriminate]
          end
      end.
  - destruct (ordered_app (tr_addForeignKeyOps t) (tr_addIndexOps t) 8 S8)
      as [O8 B8].
    { apply (ranked_from_segment _ 9 8); [lia|exact S9]. }
    { apply (ForallOrdPairs_same_rank _ 9 S9). }
    destruct (ordered_app (tr_recreateOps t) _ 7 S7
                (ranked_from_weaken _ 8 7 (le_S _ _ (le_n _)) B8) O8)
      as [O7 B7].
    destruct (ordered_app (tr_removeColumnOps t) _ 6 S6
                (ranked_from_weaken _ 7 6 (le_S _ _ (le_n _)) B7) O7)
      as [O6 B6].
    destruct (ordered_app
                (List.map removeTableOp (getTablesToDelete from to)) _ 4 S4
                (ranked_from_weaken _ 6 4 (le_S _ _ (le_S _ _ (le_n _))) B6)
                O6) as [O4 B4].
    destruct (ordered_app (tr_createTableOps t) _ 3 S3
                (ranked_from_weaken _ 4 3 (le_S _ _ (le_n _)) B4) O4)
      as [O3 B3].
    destruct (ordered_app (tr_removeForeignKeyOps t) _ 2 S2
                (ranked_from_weaken _ 3 2 (le_S _ _ (le_n _)) B3) O3)
      as [O2 B2].
    destruct (ordered_app
                (List.map removeIndexOp (indexesToRemove (tr_sets t))) _ 1 S1
                (ranked_from_weaken _ 2 1 (le_S _ _ (le_n _)) B2) O2)
      as [O1 _].
    exact O1.
Qed.

Lemma operations_follow_emission_order_witness :
  exists s ops,
    differences Examples.idsA Examples.blog Examples.blog2 None = Ok (s, ops)
    /\ List.map (fun op => emissionRank (title op)) ops
       = [Some 1; Some 2; Some 7; Some 8; Some 9]
    /\ ForallOrdPairs (fun a b =>
           exists i j, emissionRank (title a) = Some i
                       /\ emissionRank (title b) = Some j /\ i <= j) ops.
Proof.
  eexists. eexists. split; [vm_compute; reflexivity|].
  split; [reflexivity|].
  apply (proj2 (operations_follow_emission_order Examples.idsA Examples.blog
                  Examples.blog2 None _ _ eq_refl)).
Defined.
(** ** The summary and the operations *)

Lemma filter_of_kind (K K' : OperationKind) (l : list Operation) :
  Forall (fun op => forall k', has_kind k' op = OperationKind_eqb k' K) l ->
  filter (has_kind K') l = if OperationKind_eqb K' K then l else [].
Proof.
  induction 1 as [|op l Hop Hl IH]; simpl.
  - destruct (OperationKind_eqb K' K); reflexivity.
  - rewrite (Hop K'), IH. destruct (OperationKind_eqb K' K); reflexivity.
Qed.

(** The operations of one kind are one segment of the list. *)
Lemma runs_filter_kind newId from to options t K :
  runs newId from to options t ->
  filter (has_kind K) (snd (outcome from to t))
  = match K with
    | RemoveIndex => List.map removeIndexOp (indexesToRemove (tr_sets t))
    | RemoveForeignKey => tr_removeForeignKeyOps t
    | CreateTable => tr_createTableOps t
    | RemoveTable => List.map removeTableOp (getTablesToDelete from to)
    | AddColumn => []
    | RemoveColumn => tr_removeColumnOps t
    | RecreateTable => tr_recreateOps t
    | AddForeignKey => tr_addForeignKeyOps t
    | AddIndex => tr_addIndexOps t
    end.
Proof.
  intros R.
  destruct (runs_segments newId from to options t R)
    as [S1 [S2 [S3 [S4 [S5 [S6 [S7 [S8 S9]]]]]]]].
  unfold outcome. cbn [snd]. rewrite S5. cbn [app].
  rewrite !filter_app.
  rewrite (filter_of_kind _ K _ S1), (filter_of_kind _ K _ S2),
    (filter_of_kind _ K _ S3), (filter_of_kind _ K _ S4),
    (filter_of_kind _ K _ S6), (filter_of_kind _ K _ S7),
    (filter_of_kind _ K _ S8), (filter_of_kind _ K _ S9).
  destruct K; cbn [OperationKind_eqb app]; rewrite ?app_nil_r; reflexivity.
Qed.

Lemma createTableOps_titles l ops :
  mapM createTableOp l = Ok ops ->
  List.map title ops
  = List.map (fun t => tpl ["Create table "; tbl_name t]) l.
Proof.
  intros H. apply mapM_Ok in H.
  induction H as [|x y xs ys Hxy F IH]; simpl; [reflexivity|].
  f_equal; [|exact IH].
  unfold createTableOp in Hxy. bind_inv Hxy. injection Hxy as <-.
  reflexivity.
Qed.

Lemma recreateTableOps_titles newId k from to names ops :
  recreateTableOps newId k from to names = Ok ops ->
  List.map title ops = List.map (fun n => tpl ["Recreate table "; n]) names.
Proof.
  intros H. apply recreateTableOps_Forall2 in H.
  induction H as [|x y xs ys Hxy F IH]; simpl; [reflexivity|].
  f_equal; [|exact IH].
  destruct Hxy as [id Hxy]. unfold recreateTableOp in Hxy.
  bind_inv Hxy. bind_inv Hxy. bind_inv Hxy. injection Hxy as <-.
  reflexivity.
Qed.

Lemma removeColumnOps_summary cols ops qs :
  mapM removeColumnOp cols = Ok ops ->
  mapM qualifiedName cols = Ok qs ->
  Forall2 (fun op q => exists owner name, removal_of owner name op q) ops qs.
Proof.
  revert ops qs; induction cols as [|c r IH]; simpl; intros ops qs H1 H2.
  - injection H1 as <-. injection H2 as <-. constructor.
  - bind_inv H1. bind_inv H1. injection H1 as <-.
    bind_inv H2. bind_inv H2. injection H2 as <-.
    constructor; [|apply IH; assumption].
    unfold removeColumnOp, removeColumnSQL, ownerName in H1a.
    unfold qualifiedName, ownerName in H2a.
    destruct (col_table c) as [o|]; simpl in H1a, H2a; [|discriminate].
    injection H1a as <-. injection H2a as <-.
    exists (ref_name o), (col_name c). split; reflexivity.
Qed.

(** [X2] The summary names exactly the tables that the operations create,
    remove and recreate, in the order of the operations; its removed
    columns are, one by one, the columns that the remove-column operations
    drop. *)
Theorem summary_lists_the_operations
    (newId : nat -> string) (from to : Definitions)
    (options : option DifferencesOptions) (s : PushSummary)
    (ops : list Operation)
    (H : differences newId from to options = Ok (s, ops)) :
  List.map title (filter (has_kind CreateTable) ops)
  = List.map (fun n => tpl ["Create table "; n]) (addedTables s)
  /\ filter (has_kind RemoveTable) ops
     = List.map (fun n => {| title := tpl ["Remove table "; n];
                             sql := [tpl ["DROP TABLE "; quoted n]] |})
         (removedTables s)
  /\ List.map title (filter (has_kind RecreateTable) ops)
     = List.map (fun n => tpl ["Recreate table "; n]) (recreatedTables s)
  /\ Forall2 (fun op q => exists owner name, removal_of owner name op q)
       (filter (has_kind RemoveColumn) ops) (removedColumns s).
Proof.
  apply differences_runs in H. destruct H as [t [R E]].
  pose proof (fun K => runs_filter_kind newId from to options t K R) as F.
  rewrite <- E in F. cbn [snd] in F.
  unfold outcome in E. injection E as -> _.
  cbn [addedTables removedTables recreatedTables removedColumns].
  split; [|split; [|split]].
  - rewrite (F CreateTable).
    rewrite (createTableOps_titles _ _ (run_createTableOps R)).
    rewrite map_map. reflexivity.
  - rewrite (F RemoveTable). rewrite map_map. reflexivity.
  - rewrite (F RecreateTable).
    apply (recreateTableOps_titles _ _ _ _ _ _ (run_recreateOps R)).
  - rewrite (F RemoveColumn).
    apply (removeColumnOps_summary _ _ _ (run_removeColumnOps R)
             (run_removed R)).
Qed.

Lemma summary_lists_the_operations_witness :
  exists s ops,
    differences Examples.idsA Examples.blog Examples.blog2 None = Ok (s, ops)
    /\ recreatedTables s = ["users"]
    /\ List.map title (filter (has_kind RecreateTable) ops)
       = ["Recreate table users"].
Proof.
  eexists. eexists. split; [vm_compute; reflexivity|].
  split; [reflexivity|].
  apply (proj1 (proj2 (proj2
           (summary_lists_the_operations Examples.idsA Examples.blog
              Examples.blog2 None _ _ eq_refl)))).
Defined.

(** ** The reasons of the recreations *)

Lemma map_keys_set {V} (k : string) (v : V) (m : JsMap V) :
  map_keys (map_set k v m) = set_add String.eqb k (map_keys m).
Proof.
  unfold map_keys, set_add, set_has.
  induction m as [|[k' v'] r IH]; [reflexivity|].
  cbn [map_set List.map fst existsb].
  destruct (k =? k') eqn:E; cbn [List.map fst orb]; [reflexivity|].
  rewrite IH.
  destruct (existsb (String.eqb k) (List.map fst r)); reflexivity.
Qed.

Lemma set_add_NoDup (x : string) (s : list string) :
  NoDup s -> NoDup (set_add String.eqb x s).
Proof.
  intros ND. unfold set_add.
  destruct (set_has String.eqb x s) eqn:E; [exact ND|].
  apply NoDup_app; [exact ND|constructor; [intros []|constructor]|].
  intros y Hy [<-|[]].
  apply String_set_has in Hy. congruence.
Qed.

Lemma map_get_key {V} (k : string) (m : JsMap V) :
  In k (map_keys m) ->
  exists v, map_get k m = Some v /\ In v (map_values m).
Proof.
  intros H. destruct (map_get k m) as [v|] eqn:E.
  - exists v. split; [reflexivity|]. apply (map_get_values _ _ E).
  - apply map_get_None in E. contradiction.
Qed.

Lemma map_set_values {V} (P : V -> Prop) (k : string) (v : V) (m : JsMap V) :
  P v -> Forall P (map_values m) -> Forall P (map_values (map_set k v m)).
Proof.
  intros Hv. unfold map_values.
  induction m as [|[k' v'] r IH]; simpl; intros F.
  - constructor; [exact Hv|constructor].
  - inversion F as [|? ? Hv' Fr]; subst.
    destruct (k =? k'); simpl; constructor; auto.
Qed.

Lemma join_nonempty (sep : string) (l : list string) :
  l <> [] -> Forall (fun x => x <> "") l -> join sep l <> "".
Proof.
  destruct l as [|x r]; [congruence|]. intros _ F.
  inversion F as [|? ? Hx _]; subst.
  unfold join. simpl. destruct r; [exact Hx|].
  destruct x; [congruence|]. simpl. discriminate.
Qed.

Lemma columnReasons_nonempty fromTable toTable :
  Forall (fun x => x <> "") (columnReasons fromTable toTable).
Proof.
  unfold columnReasons. apply Forall_forall. intros x Hx.
  apply in_flat_map in Hx. destruct Hx as [c [_ Hx]].
  destruct (map_get (col_name c) (tbl_columns toTable)) as [c'|];
    [|contradiction].
  repeat (apply in_app_or in Hx; destruct Hx as [Hx|Hx]);
    match type of Hx with
    | In _ (if ?b then _ else _) => destruct b
    end;
    try contradiction; destruct Hx as [<-|[]]; discriminate.
Qed.

Lemma structuralReasons_texts added fromTable changed :
  Forall (fun x => x <> "") (structuralReasons added fromTable changed).
Proof.
  unfold structuralReasons. apply Forall_forall. intros x Hx.
  repeat (apply in_app_or in Hx; destruct Hx as [Hx|Hx]);
    match type of Hx with
    | In _ (if ?b then _ else _) => destruct b
    end;
    try contradiction; destruct Hx as [<-|[]]; discriminate.
Qed.

Lemma planStepOf_recorded to references added plan t :
  plan_recorded plan ->
  plan_recorded (planStepOf to references added plan t).
Proof.
  intros [K [ND [F I]]]. unfold planStepOf, planStep.
  destruct (map_get (tbl_name t) (tables to)) as [toTable|];
    [|repeat split; assumption].
  set (drop := if structuralChange added t (changesOf t toTable)
               then set_add_all String.eqb _ (tablesToDropReferences plan)
               else tablesToDropReferences plan).
  assert (Hdrop : incl (tablesToDropReferences plan) drop).
  { intros n Hn. unfold drop.
    destruct (structuralChange added t (changesOf t toTable)); [|exact Hn].
    apply set_add_all_keeps. exact Hn. }
  set (reason := columnReasons t toTable ++ _).
  destruct (0 <? List.length reason)%nat eqn:E; unfold plan_recorded; simpl.
  - split; [|split; [|split]].
    + rewrite map_keys_set, K. reflexivity.
    + apply set_add_NoDup. exact ND.
    + apply map_set_values; [|exact F].
      apply join_nonempty.
      * intros Z. rewrite Z in E. discriminate E.
      * unfold reason. apply Forall_app. split.
        -- apply columnReasons_nonempty.
        -- destruct (structuralChange added t (changesOf t toTable));
             [apply structuralReasons_texts|constructor].
    + intros n Hn. apply set_add_incl in Hn. destruct Hn as [->|Hn].
      * apply String_set_has. apply set_add_has_new. apply String.eqb_refl.
      * apply set_add_keeps. apply Hdrop. apply I. exact Hn.
  - split; [exact K|]. split; [exact ND|]. split; [exact F|].
    intros n Hn. apply Hdrop. apply I. exact Hn.
Qed.

Lemma getTablesToRecreate_recorded from to plan :
  getTablesToRecreate from to = Ok plan -> plan_recorded plan.
Proof.
  intros H. apply getTablesToRecreate_Ok in H.
  destruct H as [owners [_ ->]].
  match goal with
  | |- plan_recorded (fold_left ?f ?l ?p) =>
      assert (plan_recorded p) as P0
        by (repeat split; simpl; try constructor; intros n []);
      generalize p P0; induction l as [|x r IH]; intros q Q; simpl;
        [exact Q|apply IH, planStepOf_recorded, Q]
  end.
Qed.

(** [X3] The reasons of the summary are recorded for the recreated tables
    and for no other name: the keys of [recreateReasons] are the recreated
    tables, in the same order and without repetition, and the reason of a
    recreated table is never the empty text. *)
Theorem recreated_tables_have_reasons
    (newId : nat -> string) (from to : Definitions)
    (options : option DifferencesOptions) (s : PushSummary)
    (ops : list Operation)
    (H : differences newId from to options = Ok (s, ops)) :
  map_keys (recreateReasons s) = recreatedTables s
  /\ NoDup (recreatedTables s)
  /\ forall n, In n (recreatedTables s) ->
               exists r, map_get n (recreateReasons s) = Some r /\ r <> "".
Proof.
  apply differences_runs in H. destruct H as [t [R E]].
  unfold outcome in E. injection E as -> _.
  cbn [recreateReasons recreatedTables].
  destruct (getTablesToRecreate_recorded _ _ _ (run_plan R))
    as [K [ND [F _]]].
  split; [exact K|]. split; [exact ND|].
  intros n Hn. rewrite <- K in Hn.
  destruct (map_get_key n _ Hn) as [r [G Hr]].
  exists r. split; [exact G|].
  rewrite Forall_forall in F. apply F, Hr.
Qed.

Lemma recreated_tables_have_reasons_witness :
  exists s ops,
    differences Examples.idsA Examples.blog Examples.blog2 None = Ok (s, ops)
    /\ map_keys (recreateReasons s) = recreatedTables s
    /\ recreateReasons s = [("users", "added columns, uniques")].
Proof.
  eexists. eexists. split; [vm_compute; reflexivity|].
  split; [|reflexivity].
  apply (proj1 (recreated_tables_have_reasons Examples.idsA Examples.blog
                  Examples.blog2 None _ _ eq_refl)).
Defined.
(** ** Added, removed and recreated tables *)

Lemma set_add_all_distinct {T} (same : T -> T -> bool) (xs s : list T) :
  (forall a b, In a (s ++ xs) -> In b (s ++ xs) -> same a b = true -> a = b) ->
  NoDup (s ++ xs) -> set_add_all same xs s = s ++ xs.
Proof.
  revert s; induction xs as [|x r IH]; intros s Hinj ND.
  - rewrite app_nil_r. reflexivity.
  - assert (set_has same x s = false) as E.
    { destruct (set_has same x s) eqn:E; [|reflexivity]. exfalso.
      unfold set_has in E. apply existsb_exists in E.
      destruct E as [y [Hy E]].
      assert (x = y) as ->.
      { apply Hinj; [apply in_or_app; right; left; reflexivity
                    |apply in_or_app; left; exact Hy|exact E]. }
      apply NoDup_remove_2 in ND. apply ND. apply in_or_app. left. exact Hy. }
    change (set_add_all same (x :: r) s)
      with (set_add_all same r (set_add same x s)).
    replace (set_add same x s) with (s ++ [x])
      by (unfold set_add; rewrite E; reflexivity).
    rewrite IH; rewrite <- app_assoc; auto.
Qed.

Lemma Set_from_distinct {T} (same : T -> T -> bool) (xs : list T) :
  (forall a b, In a xs -> In b xs -> same a b = true -> a = b) ->
  NoDup xs -> Set_from same xs = xs.
Proof.
  intros Hinj ND. apply (set_add_all_distinct same xs []); assumption.
Qed.

Lemma NoDup_filter {A} (p : A -> bool) (l : list A) :
  NoDup l -> NoDup (filter p l).
Proof.
  induction 1 as [|x l Hx ND IH]; simpl; [constructor|].
  destruct (p x); [|exact IH]. constructor; [|exact IH].
  intros H. apply filter_In in H. apply Hx, H.
Qed.

(** When the tables of [to] are distinct objects, building the set of
    the tables to add drops none of them. *)
Lemma getTablesToAdd_distinct from to :
  Tables_distinct to ->
  getTablesToAdd from to
  = filter (fun table => negb (map_has (tbl_name table) (tables from)))
      (map_values (tables to)).
Proof.
  intros D. unfold getTablesToAdd. apply Set_from_distinct.
  - intros a b Ha Hb E. apply filter_In in Ha, Hb.
    apply Nat.eqb_eq in E.
    apply (NoDup_map_injective tbl_id (map_values (tables to)));
      [exact D|apply Ha|apply Hb|exact E].
  - apply NoDup_filter. apply (NoDup_map_inv tbl_id). exact D.
Qed.

Lemma linked_has_iff d n :
  Definitions_linked d ->
  map_has n (tables d) = true
  <-> exists t, In t (map_values (tables d)) /\ tbl_name t = n.
Proof.
  intros L. split.
  - unfold map_has. destruct (map_get n (tables d)) as [t|] eqn:G;
      [|discriminate].
    intros _. exists t. split; [apply (map_get_values _ _ G)|].
    apply (linked_get_name L G).
  - intros [t [Ht <-]]. apply linked_has; assumption.
Qed.

(** [X4] On linked snapshots whose new tables are distinct objects, the
    summary sorts the table names into three groups that do not overlap:
    the added tables are the tables that only [to] has, the removed tables
    the ones that only [from] has, and a recreated table is in both.  No
    name is listed twice in a group. *)
Theorem table_changes_partition
    (newId : nat -> string) (from to : Definitions)
    (options : option DifferencesOptions) (s : PushSummary)
    (ops : list Operation)
    (Lfrom : Definitions_linked from) (Lto : Definitions_linked to)
    (Dto : Tables_distinct to)
    (H : differences newId from to options = Ok (s, ops)) :
  (forall n, In n (addedTables s)
             <-> map_has n (tables to) = true
                 /\ map_has n (tables from) = false)
  /\ (forall n, In n (removedTables s)
                <-> map_has n (tables from) = true
                    /\ map_has n (tables to) = false)
  /\ (forall n, In n (recreatedTables s) ->
                map_has n (tables from) = true
                /\ map_has n (tables to) = true)
  /\ NoDup (addedTables s) /\ NoDup (removedTables s)
  /\ NoDup (recreatedTables s).
Proof.
  apply differences_runs in H. destruct H as [t [R E]].
  unfold outcome in E. injection E as -> _.
  cbn [addedTables removedTables recreatedTables].
  rewrite (getTablesToAdd_distinct from to Dto).
  unfold getTablesToDelete.
  split; [|split; [|split; [|split; [|split]]]].
  - intros n. rewrite in_map_iff. split.
    + intros [x [<- Hx]]. apply filter_In in Hx. destruct Hx as [Hx Hn].
      split; [apply linked_has; assumption|].
      apply negb_true_iff. exact Hn.
    + intros [Ht Hf]. apply (linked_has_iff to n Lto) in Ht.
      destruct Ht as [x [Hx <-]]. exists x. split; [reflexivity|].
      apply filter_In. split; [exact Hx|]. rewrite Hf. reflexivity.
  - intros n. rewrite in_map_iff. split.
    + intros [x [<- Hx]]. apply filter_In in Hx. destruct Hx as [Hx Hn].
      split; [apply linked_has; assumption|].
      apply negb_true_iff. exact Hn.
    + intros [Hf Ht]. apply (linked_has_iff from n Lfrom) in Hf.
      destruct Hf as [x [Hx <-]]. exists x. split; [reflexivity|].
      apply filter_In. split; [exact Hx|]. rewrite Ht. reflexivity.
  - intros n Hn.
    destruct (@plan_names from to (tr_plan t) n (run_plan R)) as [P _].
    destruct (P Hn) as [x [Hx [-> Hto]]].
    split; [apply linked_has; assumption|exact Hto].
  - apply NoDup_map_filter. apply linked_names_NoDup. exact Lto.
  - apply NoDup_map_filter. apply linked_names_NoDup. exact Lfrom.
  - apply (getTablesToRecreate_recorded _ _ _ (run_plan R)).
Qed.

Lemma table_changes_partition_witness :
  exists s ops,
    differences Examples.idsA Examples.users_only Examples.posts_only None
    = Ok (s, ops)
    /\ addedTables s = ["posts"] /\ removedTables s = ["users"]
    /\ (In "posts" (addedTables s)
        <-> map_has "posts" (tables Examples.posts_only) = true
            /\ map_has "posts" (tables Examples.users_only) = false).
Proof.
  eexists. eexists. split; [vm_compute; reflexivity|].
  split; [reflexivity|]. split; [reflexivity|].
  apply (proj1 (table_changes_partition Examples.idsA Examples.users_only
                  Examples.posts_only None _ _ users_only_linked
                  posts_only_linked
                  ltac:(repeat constructor; simpl; intuition discriminate)
                  eq_refl)).
Defined.

(** ** The graph of references *)

Lemma addReference_inv name graph fk a b :
  edge (addReference name graph fk) a b ->
  edge graph a b \/ (a = ref_name (fk_foreignTable fk) /\ b = name).
Proof.
  unfold addReference, edge. intros [s [G Hb]].
  destruct (string_dec (ref_name (fk_foreignTable fk)) a) as [<-|Hne].
  - rewrite map_get_set_same in G. injection G as <-.
    apply set_add_incl in Hb. destruct Hb as [->|Hb]; [auto|].
    left. destruct (map_get (ref_name (fk_foreignTable fk)) graph) as [s|];
      [|contradiction].
    exists s. auto.
  - rewrite map_get_set_other in G by exact Hne. left. eauto.
Qed.

Lemma fold_addReference_inv name fks graph a b :
  edge (fold_left (addReference name) fks graph) a b ->
  edge graph a b
  \/ exists fk, In fk fks /\ a = ref_name (fk_foreignTable fk) /\ b = name.
Proof.
  revert graph; induction fks as [|x r IH]; intros graph; simpl; [auto|].
  intros H. apply IH in H. destruct H as [H|[fk [Hfk E]]].
  - apply addReference_inv in H. destruct H as [H|E]; [auto|].
    right. exists x. auto.
  - right. exists fk. auto.
Qed.

Lemma fold_tables_addReference_inv l graph a b :
  edge (fold_left (fun g table =>
            fold_left (addReference (tbl_name table)) (tbl_foreignKeys table)
              g) l graph) a b ->
  edge graph a b
  \/ exists table fk,
       In table l /\ In fk (tbl_foreignKeys table)
       /\ a = ref_name (fk_foreignTable fk) /\ b = tbl_name table.
Proof.
  revert graph; induction l as [|x r IH]; intros graph; simpl; [auto|].
  intros H. apply IH in H. destruct H as [H|[table [fk [Ht E]]]].
  - apply fold_addReference_inv in H. destruct H as [H|[fk [Hfk E]]]; [auto|].
    right. exists x, fk. tauto.
  - right. exists table, fk. tauto.
Qed.

(** [X5] The graph that [tablesReferences] builds has an edge from a
    table name to a referencing table name exactly when a table of the
    snapshot with the second name holds a foreign key whose foreign table
    has the first name. *)
Theorem tablesReferences_edges (defs : Definitions)
    (target referencing : string) :
  edge (tablesReferences defs) target referencing
  <-> exists table fk,
        In table (map_values (tables defs))
        /\ In fk (tbl_foreignKeys table)
        /\ ref_name (fk_foreignTable fk) = target
        /\ tbl_name table = referencing.
Proof.
  split.
  - intros H. unfold tablesReferences in H.
    apply fold_tables_addReference_inv in H.
    destruct H as [[s [G _]]|[table [fk [Ht [Hfk [-> ->]]]]]];
      [discriminate G|].
    exists table, fk. auto.
  - intros [table [fk [Ht [Hfk [<- <-]]]]].
    apply tablesReferences_complete; assumption.
Qed.
(** ** [differences] returns *)

Lemma differences_returns_witness :
  exists s ops,
    differences Examples.idsA Examples.blog Examples.blog2 None = Ok (s, ops).
Proof.
  apply (differences_returns Examples.idsA Examples.blog Examples.blog2 None
           blog_linked blog2_linked);
    try reflexivity; repeat constructor.
Defined.

(** ** The statements of an operation *)

Lemma recreateTableSql_length newId from to statements :
  recreateTableSql newId from to = Ok statements ->
  4 <= List.length statements.
Proof.
  unfold recreateTableSql. intros H. bind_inv H. bind_inv H.
  injection H as <-.
  rewrite createTableSQL_plain in Ha0. injection Ha0 as <-.
  rewrite length_app. simpl. lia.
Qed.

(** [X7] Every operation carries at least one statement: a recreate-table
    operation has four or more, and every other operation has exactly
    one. *)
Theorem operations_statement_counts
    (newId : nat -> string) (from to : Definitions)
    (options : option DifferencesOptions) (s : PushSummary)
    (ops : list Operation)
    (H : differences newId from to options = Ok (s, ops)) :
  Forall (fun op =>
      if has_kind RecreateTable op then 4 <= List.length (sql op)
      else List.length (sql op) = 1) ops.
Proof.
  apply differences_runs in H. destruct H as [t [R E]].
  injection E as _ ->.
  destruct (runs_segments newId from to options t R)
    as [S1 [S2 [S3 [S4 [S5 [S6 [S7 [S8 S9]]]]]]]].
  rewrite S5. cbn [app].
  repeat (apply Forall_app; split); apply Forall_forall; intros op Hop.
  - rewrite Forall_forall in S1. rewrite (S1 op Hop RecreateTable).
    apply in_map_iff in Hop. destruct Hop as [i [<- _]]. reflexivity.
  - rewrite Forall_forall in S2. rewrite (S2 op Hop RecreateTable).
    destruct (flatMapM_Ok _ _ (run_removeForeignKeyOps R)) as [yss [F E]].
    rewrite E in Hop. apply in_concat in Hop. destruct Hop as [ys [Hys Hop]].
    destruct (Forall2_In_r F Hys) as [fk [_ Hfk]].
    unfold removeForeignKeyStep in Hfk. bind_inv Hfk.
    destruct (set_has String.eqb r (tablesToDropReferences (tr_plan t))).
    + bind_inv Hfk. injection Hfk as <-.
      destruct Hop as [<-|[]]. reflexivity.
    + injection Hfk as <-. contradiction.
  - rewrite Forall_forall in S3. rewrite (S3 op Hop RecreateTable).
    destruct (Forall2_In_r (mapM_Ok _ _ (run_createTableOps R)) Hop)
      as [x [_ Hx]].
    unfold createTableOp in Hx. rewrite createTableSQL_plain in Hx.
    injection Hx as <-. reflexivity.
  - rewrite Forall_forall in S4. rewrite (S4 op Hop RecreateTable).
    apply in_map_iff in Hop. destruct Hop as [i [<- _]]. reflexivity.
  - rewrite Forall_forall in S6. rewrite (S6 op Hop RecreateTable).
    destruct (Forall2_In_r (mapM_Ok _ _ (run_removeColumnOps R)) Hop)
      as [x [_ Hx]].
    unfold removeColumnOp, removeColumnSQL in Hx.
    bind_inv Hx. bind_inv Hx. bind_inv Hxa0. injection Hxa0 as <-.
    injection Hx as <-. reflexivity.
  - rewrite Forall_forall in S7. rewrite (S7 op Hop RecreateTable).
    destruct (Forall2_In_r (recreateTableOps_Forall2 _ _ _ _ _
                              (run_recreateOps R)) Hop) as [x [_ [id Hx]]].
    unfold recreateTableOp in Hx. bind_inv Hx. bind_inv Hx. bind_inv Hx.
    injection Hx as <-. simpl.
    apply (recreateTableSql_length _ _ _ _ Hxa1).
  - rewrite Forall_forall in S8. rewrite (S8 op Hop RecreateTable).
    pose proof (run_addForeignKeyOps R) as K.
    destruct (inCreationMode options).
    + injection K as K. rewrite <- K in Hop. contradiction.
    + destruct (flatMapM_Ok _ _ K) as [yss [F E]].
      rewrite E in Hop. apply in_concat in Hop.
      destruct Hop as [ys [Hys Hop]].
      destruct (Forall2_In_r F Hys) as [fk [_ Hfk]].
      unfold addForeignKeyStep in Hfk. bind_inv Hfk. bind_inv Hfk.
      destruct (negb r0).
      * injection Hfk as <-. contradiction.
      * bind_inv Hfk. bind_inv Hfk. bind_inv Hfk. injection Hfk as <-.
        destruct Hop as [<-|[]].
        unfold addForeignKeyToColumnSQL in Hfka3. bind_inv Hfka3.
        injection Hfka3 as <-. reflexivity.
  - rewrite Forall_forall in S9. rewrite (S9 op Hop RecreateTable).
    destruct (Forall2_In_r (mapM_Ok _ _ (run_addIndexOps R)) Hop)
      as [x [_ Hx]].
    unfold addIndexOp in Hx. bind_inv Hx. injection Hx as <-. reflexivity.
Qed.

Lemma operations_statement_counts_witness :
  exists s ops,
    differences Examples.idsA Examples.blog Examples.blog2 None = Ok (s, ops)
    /\ List.map (fun op => List.length (sql op)) ops = [1; 1; 6; 1; 1]
    /\ Forall (fun op =>
           if has_kind RecreateTable op then 4 <= List.length (sql op)
           else List.length (sql op) = 1) ops.
Proof.
  eexists. eexists. split; [vm_compute; reflexivity|].
  split; [reflexivity|].
  apply (operations_statement_counts Examples.idsA Examples.blog
           Examples.blog2 None _ _ eq_refl).
Defined.
(** ** More linked examples *)

Lemma blog5_linked : Definitions_linked MoreExamples.blog5.
Proof. prove_linked. Qed.

Lemma users_reindexed_linked : Definitions_linked MoreExamples.users_reindexed.
Proof. prove_linked. Qed.

(** ** Operations on the foreign keys of a table *)

Lemma in_outcome from to t op :
  In op (List.map removeIndexOp (indexesToRemove (tr_sets t)))
  \/ In op (tr_removeForeignKeyOps t) \/ In op (tr_createTableOps t)
  \/ In op (List.map removeTableOp (getTablesToDelete from to))
  \/ In op (tr_addColumnOps t) \/ In op (tr_removeColumnOps t)
  \/ In op (tr_recreateOps t) \/ In op (tr_addForeignKeyOps t)
  \/ In op (tr_addIndexOps t) <->
  In op (snd (outcome from to t)).
Proof. unfold outcome. cbn [snd]. rewrite !in_app_iff. tauto. Qed.

(** A single-column foreign key of a table of [from] whose references are
    dropped gets its remove-foreign-key operation. *)
Lemma removeForeignKey_emitted newId from to options t table fk c :
  runs newId from to options t -> Definitions_linked from ->
  In table (map_values (tables from)) ->
  In fk (tbl_foreignKeys table) -> fk_localColumns fk = [c] ->
  In (tbl_name table) (tablesToDropReferences (tr_plan t)) ->
  In (removeForeignKeyOp (tbl_name table) c) (tr_removeForeignKeyOps t).
Proof.
  intros R L Ht Hfk Hc Hdrop.
  destruct (flatMapM_Ok _ _ (run_removeForeignKeyOps R)) as [yss [F E]].
  rewrite E.
  apply (in_concat_of _ _ _ fk [removeForeignKeyOp (tbl_name table) c] _ F).
  - unfold allSingleColumnForeignKeys. apply in_flat_map.
    exists table. split; [exact Ht|].
    apply filter_In. split; [exact Hfk|]. rewrite Hc. reflexivity.
  - intros zs Hzs. unfold removeForeignKeyStep in Hzs.
    pose proof (foreignKeys_mounted (linked_table L Ht)) as M.
    rewrite Forall_forall in M. rewrite (M _ Hfk) in Hzs. simpl in Hzs.
    apply String_set_has in Hdrop. rewrite Hdrop in Hzs.
    unfold firstLocalColumn in Hzs. rewrite Hc in Hzs. simpl in Hzs.
    congruence.
  - left. reflexivity.
Qed.

(** Outside creation mode, a single-column foreign key of a table of [to]
    that is new, or whose references are dropped, gets its
    add-foreign-key operation. *)
Lemma addForeignKey_emitted newId from to options t table fk c :
  runs newId from to options t -> Definitions_linked to ->
  inCreationMode options = false ->
  In table (map_values (tables to)) ->
  In fk (tbl_foreignKeys table) -> fk_localColumns fk = [c] ->
  In (tbl_name table) (tablesToDropReferences (tr_plan t))
  \/ set_has Table_same table (getTablesToAdd from to) = true ->
  exists statements,
    addForeignKeyToColumnSQL (tbl_name table) c fk = Ok statements
    /\ In {| title := tpl ["Add foreign key "; col_name c; " to table ";
                           tbl_name table];
             sql := statements |} (tr_addForeignKeyOps t).
Proof.
  intros R L Hmode Ht Hfk Hc Hwanted.
  pose proof (run_addForeignKeyOps R) as K. rewrite Hmode in K.
  destruct (flatMapM_Ok _ _ K) as [yss [F E]]. rewrite E.
  assert (Hall : In fk (allSingleColumnForeignKeys to)).
  { unfold allSingleColumnForeignKeys. apply in_flat_map.
    exists table. split; [exact Ht|].
    apply filter_In. split; [exact Hfk|]. rewrite Hc. reflexivity. }
  destruct (Forall2_In_l F Hall) as [ys [Hys Hstep]].
  unfold addForeignKeyStep in Hstep.
  pose proof (foreignKeys_mounted (linked_table L Ht)) as M.
  rewrite Forall_forall in M. rewrite (M _ Hfk) in Hstep.
  cbn [ownerName ownerTable bind ref_of ref_name] in Hstep.
  unfold getTable in Hstep. rewrite (linked_get L Ht) in Hstep.
  assert ((if set_has String.eqb (tbl_name table)
                (tablesToDropReferences (tr_plan t))
           then Ok true
           else t0 <- Ok table ;;
                Ok (set_has Table_same t0 (getTablesToAdd from to)))
          = Ok true) as W.
  { destruct Hwanted as [Hd|Ha].
    - apply String_set_has in Hd. rewrite Hd. reflexivity.
    - destruct (set_has String.eqb (tbl_name table)
                  (tablesToDropReferences (tr_plan t))); [reflexivity|].
      simpl. rewrite Ha. reflexivity. }
  rewrite W in Hstep. cbn [bind negb] in Hstep.
  unfold firstLocalColumn in Hstep. rewrite Hc in Hstep.
  cbn [bind] in Hstep.
  destruct (addForeignKeyToColumnSQL (tbl_name table) c fk)
    as [statements|m]; [|discriminate Hstep].
  cbn [bind] in Hstep. injection Hstep as <-.
  exists statements. split; [reflexivity|].
  apply in_concat. eexists. split; [exact Hys|]. left. reflexivity.
Qed.

(** ** Tables that only [to] has *)

Lemma filter_filter_implied {A} (p q : A -> bool) (l : list A) :
  (forall x, p x = true -> q x = true) ->
  filter p l = filter p (filter q l).
Proof.
  intros Hpq. induction l as [|x r IH]; simpl; [reflexivity|].
  destruct (p x) eqn:P.
  - rewrite (Hpq x P). simpl. rewrite P. f_equal. exact IH.
  - destruct (q x); simpl; [rewrite P|]; exact IH.
Qed.

Lemma title_kind (K : OperationKind) (rest : string) (op : Operation) :
  (title op =? tpl [kind_words K; rest]) = true -> has_kind K op = true.
Proof.
  intros E. apply String.eqb_eq in E. destruct op as [ti st]. simpl in E.
  subst ti. destruct K; destruct rest; reflexivity.
Qed.

(** Of the results of a loop over elements with distinct keys, exactly
    one carries the key of a given element. *)
Lemma mapM_filter_unique {A B} (f : A -> Result B) (key : A -> string)
    (p : string -> B -> bool) (l : list A) (ys : list B) (x : A) :
  mapM f l = Ok ys -> NoDup (List.map key l) -> In x l ->
  (forall a b k, f a = Ok b -> p k b = (key a =? k)) ->
  exists y, f x = Ok y /\ filter (p (key x)) ys = [y].
Proof.
  intros H ND Hx Hp. revert ys H.
  induction l as [|a r IH]; intros ys H; [contradiction|].
  simpl in H. apply bind_Ok in H. destruct H as [b [Hb H]].
  apply bind_Ok in H. destruct H as [bs [Hbs H]]. injection H as <-.
  inversion ND as [|? ? Hn ND']; subst. simpl.
  rewrite (Hp a b (key x) Hb).
  destruct Hx as [->|Hx].
  - rewrite String.eqb_refl. exists b. split; [exact Hb|]. f_equal.
    apply filter_nil. intros z Hz.
    destruct (Forall2_In_r (mapM_Ok _ _ Hbs) Hz) as [a' [Ha' Hfa']].
    rewrite (Hp a' z (key x) Hfa'). apply String.eqb_neq. intros E.
    apply Hn. rewrite <- E. apply in_map. exact Ha'.
  - destruct (String.eqb_spec (key a) (key x)) as [E|_].
    + exfalso. apply Hn. rewrite E. apply in_map. exact Hx.
    + apply IH; assumption.
Qed.

(** [X8] For linked snapshots whose new tables are distinct objects and a
    table that only [to] has: exactly one operation is titled
    [Create table <name>], and its statements are those of
    [createTableSQL] without reference clauses; the table is neither
    recreated nor removed; and outside creation mode each of its
    single-column foreign keys is added by an add-foreign-key operation. *)
Theorem added_table_operations
    (newId : nat -> string) (from to : Definitions)
    (options : option DifferencesOptions) (s : PushSummary)
    (ops : list Operation) (table : Table)
    (Lfrom : Definitions_linked from) (Lto : Definitions_linked to)
    (Dto : Tables_distinct to)
    (H : differences newId from to options = Ok (s, ops))
    (Hin : In table (map_values (tables to)))
    (Honly : map_has (tbl_name table) (tables from) = false) :
  (exists statements,
     createTableSQL table false None = Ok statements
     /\ filter (fun op => title op =? tpl ["Create table "; tbl_name table])
          ops
        = [{| title := tpl ["Create table "; tbl_name table];
              sql := statements |}])
  /\ ~ In (tbl_name table) (recreatedTables s)
  /\ ~ In (tbl_name table) (removedTables s)
  /\ (inCreationMode options = false ->
      forall fk c,
        In fk (tbl_foreignKeys table) -> fk_localColumns fk = [c] ->
        exists statements,
          addForeignKeyToColumnSQL (tbl_name table) c fk = Ok statements
          /\ In {| title := tpl ["Add foreign key "; col_name c;
                                 " to table "; tbl_name table];
                   sql := statements |} ops).
Proof.
  apply differences_runs in H. destruct H as [t [R E]].
  pose proof (fun K => runs_filter_kind newId from to options t K R) as F.
  pose proof (fun op => in_outcome from to t op) as I.
  rewrite <- E in F, I. cbn [snd] in F, I.
  unfold outcome in E. injection E as -> _.
  cbn [recreatedTables removedTables].
  assert (Hadd : In table (getTablesToAdd from to)).
  { rewrite (getTablesToAdd_distinct from to Dto). apply filter_In.
    split; [exact Hin|]. rewrite Honly. reflexivity. }
  split; [|split; [|split]].
  - rewrite (filter_filter_implied _ (has_kind CreateTable));
      [|intros op; apply (title_kind CreateTable)].
    rewrite (F CreateTable).
    destruct (mapM_filter_unique createTableOp tbl_name
                (fun k op => title op =? tpl ["Create table "; k])
                (getTablesToAdd from to) (tr_createTableOps t) table
                (run_createTableOps R)) as [op [Hop Hfilter]].
    + rewrite (getTablesToAdd_distinct from to Dto).
      apply NoDup_map_filter. apply linked_names_NoDup. exact Lto.
    + exact Hadd.
    + intros a b k Hab. unfold createTableOp in Hab.
      apply bind_Ok in Hab. destruct Hab as [st [_ Hab]].
      injection Hab as <-. reflexivity.
    + unfold createTableOp in Hop. apply bind_Ok in Hop.
      destruct Hop as [st [Hst Hop]]. injection Hop as <-.
      exists st. split; [exact Hst|exact Hfilter].
  - intros Hrec.
    destruct (@plan_names from to (tr_plan t) (tbl_name table) (run_plan R))
      as [P _].
    destruct (P Hrec) as [x [Hx [Ex _]]].
    rewrite Ex in Honly. rewrite (linked_has from x Lfrom Hx) in Honly.
    discriminate Honly.
  - intros Hrem. apply in_map_iff in Hrem. destruct Hrem as [x [Ex Hx]].
    apply filter_In in Hx. destruct Hx as [Hx _].
    rewrite <- Ex in Honly. rewrite (linked_has from x Lfrom Hx) in Honly.
    discriminate Honly.
  - intros Hmode fk c Hfk Hc.
    destruct (addForeignKey_emitted newId from to options t table fk c
                R Lto Hmode Hin Hfk Hc) as [statements [Hst Hop]].
    + right. unfold set_has. apply existsb_exists. exists table.
      split; [exact Hadd|apply Nat.eqb_refl].
    + exists statements. split; [exact Hst|]. apply I. tauto.
Qed.

Lemma added_table_operations_witness :
  exists s ops,
    differences Examples.idsA Examples.users_only Examples.blog None
    = Ok (s, ops)
    /\ List.map title ops
       = ["Create table posts"; "Add foreign key user_id to table posts"]
    /\ ~ In "posts" (recreatedTables s).
Proof.
  eexists. eexists. split; [vm_compute; reflexivity|].
  split; [reflexivity|].
  apply (proj1 (proj2
           (added_table_operations Examples.idsA Examples.users_only
              Examples.blog None _ _ Examples.posts users_only_linked
              blog_linked
              ltac:(repeat constructor; simpl; intuition discriminate)
              eq_refl (or_intror (or_introl eq_refl)) eq_refl))).
Defined.

(** ** The foreign keys of a recreated table *)

(** [X9] For linked snapshots and a recreated table: each single-column
    foreign key that the table holds in [from] is removed by a
    remove-foreign-key operation, and each single-column foreign key that
    it holds in [to] is added again by an add-foreign-key operation. *)
Theorem recreated_table_foreign_keys
    (newId : nat -> string) (from to : Definitions)
    (options : option DifferencesOptions) (s : PushSummary)
    (ops : list Operation) (name : string) (tableFrom tableTo : Table)
    (Lfrom : Definitions_linked from) (Lto : Definitions_linked to)
    (H : differences newId from to options = Ok (s, ops))
    (Hrec : In name (recreatedTables s))
    (Gfrom : map_get name (tables from) = Some tableFrom)
    (Gto : map_get name (tables to) = Some tableTo) :
  (forall fk c,
     In fk (tbl_foreignKeys tableFrom) -> fk_localColumns fk = [c] ->
     In (removeForeignKeyOp name c) ops)
  /\ (forall fk c,
        In fk (tbl_foreignKeys tableTo) -> fk_localColumns fk = [c] ->
        exists statements,
          addForeignKeyToColumnSQL name c fk = Ok statements
          /\ In {| title := tpl ["Add foreign key "; col_name c;
                                 " to table "; name];
                   sql := statements |} ops).
Proof.
  apply differences_runs in H. destruct H as [t [R E]].
  pose proof (fun op => in_outcome from to t op) as I.
  rewrite <- E in I. cbn [snd] in I.
  unfold outcome in E. injection E as -> _.
  cbn [recreatedTables] in Hrec.
  destruct (getTablesToRecreate_recorded _ _ _ (run_plan R))
    as [_ [_ [_ Hincl]]].
  pose proof (Hincl name Hrec) as Hdrop.
  pose proof (linked_get_name Lfrom Gfrom) as Nf.
  pose proof (linked_get_name Lto Gto) as Nt.
  assert (Hmode : inCreationMode options = false).
  { pose proof (run_mode R) as M.
    destruct (inCreationMode options); [|reflexivity].
    destruct (tables from); [discriminate Gfrom|discriminate M]. }
  split.
  - intros fk c Hfk Hc. apply I. right. left. rewrite <- Nf.
    apply (removeForeignKey_emitted newId from to options t tableFrom fk c
             R Lfrom (map_get_values _ _ Gfrom) Hfk Hc).
    rewrite Nf. exact Hdrop.
  - intros fk c Hfk Hc.
    destruct (addForeignKey_emitted newId from to options t tableTo fk c
                R Lto Hmode (map_get_values _ _ Gto) Hfk Hc)
      as [statements [Hst Hop]].
    + left. rewrite Nt. exact Hdrop.
    + rewrite Nt in Hst, Hop. exists statements.
      split; [exact Hst|]. apply I. tauto.
Qed.

Lemma recreated_table_foreign_keys_witness :
  exists s ops,
    differences Examples.idsA Examples.blog MoreExamples.blog5 None
    = Ok (s, ops)
    /\ recreatedTables s = ["posts"]
    /\ In (removeForeignKeyOp "posts" Examples.posts_user_id) ops.
Proof.
  eexists. eexists. split; [vm_compute; reflexivity|].
  split; [reflexivity|].
  apply (proj1
           (recreated_table_foreign_keys Examples.idsA Examples.blog
              MoreExamples.blog5 None _ _ "posts" Examples.posts
              MoreExamples.posts5 blog_linked blog5_linked eq_refl
              (or_introl eq_refl) eq_refl eq_refl)
           Examples.posts_user_fk Examples.posts_user_id
           (or_introl eq_refl) eq_refl).
Defined.
(** ** Removed columns *)

Lemma linked_column_same d a b :
  Definitions_linked d -> In a (allColumns d) -> In b (allColumns d) ->
  Column_same a b = true -> a = b.
Proof.
  intros L Ha Hb E. apply Nat.eqb_eq in E.
  apply (NoDup_map_injective col_id (allColumns d));
    [apply (columns_distinct L)| | |]; assumption.
Qed.

Lemma in_allColumns d table c :
  In table (map_values (tables d)) -> In c (map_values (tbl_columns table)) ->
  In c (allColumns d).
Proof.
  intros Ht Hc. unfold allColumns. apply in_flat_map. exists table. auto.
Qed.

(** What [getColumnsToDelete] collects on linked snapshots. *)
Lemma getColumnsToDelete_spec from to c :
  Definitions_linked from -> Definitions_linked to ->
  In c (getColumnsToDelete from to)
  <-> exists tableFrom tableTo,
        In tableFrom (map_values (tables from))
        /\ map_get (tbl_name tableFrom) (tables to) = Some tableTo
        /\ In c (map_values (tbl_columns tableFrom))
        /\ map_has (col_name c) (tbl_columns tableTo) = false.
Proof.
  intros Lf Lt.
  assert (Hflat : forall x,
             In x (flat_map (fun tableTo =>
                     match map_get (tbl_name tableTo) (tables from) with
                     | None => []
                     | Some tableFrom =>
                         getColumnsToDeleteFromTables tableFrom tableTo
                     end) (map_values (tables to))) ->
             exists tableFrom tableTo,
               In tableFrom (map_values (tables from))
               /\ map_get (tbl_name tableFrom) (tables to) = Some tableTo
               /\ In x (map_values (tbl_columns tableFrom))
               /\ map_has (col_name x) (tbl_columns tableTo) = false).
  { intros x Hx. apply in_flat_map in Hx. destruct Hx as [tableTo [Ht Hx]].
    destruct (map_get (tbl_name tableTo) (tables from)) as [tableFrom|] eqn:G;
      [|contradiction].
    unfold getColumnsToDeleteFromTables in Hx.
    apply Set_from_incl in Hx. apply filter_In in Hx.
    destruct Hx as [Hx Hn]. apply negb_true_iff in Hn.
    exists tableFrom, tableTo.
    split; [apply (map_get_values _ _ G)|].
    split; [|split; assumption].
    rewrite (linked_get_name Lf G). apply (linked_get Lt Ht). }
  split.
  - intros H. unfold getColumnsToDelete in H. apply Set_from_incl in H.
    apply Hflat. exact H.
  - intros [tableFrom [tableTo [Hf [G [Hc Hn]]]]].
    unfold getColumnsToDelete.
    assert (Hin : forall x,
               In x (flat_map (fun tableTo =>
                       match map_get (tbl_name tableTo) (tables from) with
                       | None => []
                       | Some tableFrom =>
                           getColumnsToDeleteFromTables tableFrom tableTo
                       end) (map_values (tables to))) ->
               In x (allColumns from)).
    { intros x Hx. destruct (Hflat x Hx) as [a [b [Ha [_ [Hxa _]]]]].
      apply (in_allColumns from a x Ha Hxa). }
    apply Set_from_complete.
    + intros x. apply Nat.eqb_refl.
    + intros a b Ha Hb. apply (linked_column_same from a b Lf); auto.
    + apply in_flat_map. exists tableTo.
      split; [apply (map_get_values _ _ G)|].
      rewrite (linked_get_name Lt G). rewrite (linked_get Lf Hf).
      unfold getColumnsToDeleteFromTables. apply Set_from_complete.
      * intros x. apply Nat.eqb_refl.
      * intros a b Ha Hb. apply filter_In in Ha, Hb.
        apply (linked_column_same from a b Lf);
          apply (in_allColumns from tableFrom); tauto.
      * apply filter_In. split; [exact Hc|]. rewrite Hn. reflexivity.
Qed.

Lemma set_delete_all_keeps {T} (same : T -> T -> bool) (xs s : list T)
    (y : T) :
  In y s -> (forall x, In x xs -> same x y = false) ->
  In y (set_delete_all same xs s).
Proof.
  revert s; induction xs as [|x r IH]; simpl; intros s Hy Hx; [exact Hy|].
  apply IH; [|auto].
  unfold set_delete. apply filter_In. split; [exact Hy|].
  rewrite (Hx x (or_introl eq_refl)). reflexivity.
Qed.

Lemma foldM_foldIntoRecreate_keeps_column from to names w w' c :
  foldM (foldIntoRecreate from to) names w = Ok w' ->
  In c (columnsToDelete w) ->
  (forall name tableFrom x,
     In name names -> map_get name (tables from) = Some tableFrom ->
     In x (map_values (tbl_columns tableFrom)) -> Column_same x c = false) ->
  In c (columnsToDelete w').
Proof.
  revert w; induction names as [|n r IH]; simpl; intros w H Hc Hother.
  - injection H as <-. exact Hc.
  - apply bind_Ok in H. destruct H as [w1 [H1 H]].
    destruct (foldIntoRecreate_inv _ _ _ _ _ H1)
      as [tf [tt [Gf [_ [Ec _]]]]].
    apply (IH w1 H).
    + rewrite Ec. apply set_delete_all_keeps; [exact Hc|].
      intros x Hx. apply (Hother n tf x (or_introl eq_refl) Gf Hx).
    + intros name tableFrom x Hn. apply Hother. right. exact Hn.
Qed.

(** The columns that are dropped one by one. *)
Lemma runs_columnsToDelete newId from to options t c :
  Definitions_linked from -> Definitions_linked to ->
  runs newId from to options t ->
  In c (columnsToDelete (tr_sets t))
  <-> exists tableFrom,
        column_dropped from to (tablesToRecreate (tr_plan t)) tableFrom c.
Proof.
  intros Lf Lt R.
  destruct (foldM_foldIntoRecreate_spec _ _ _ _ _ (proj2 (proj2 (run_sets_of _ _ _ _ _ R))))
    as [_ [_ [I3 [I4 _]]]].
  split.
  - intros Hc. pose proof (I3 c Hc) as H0. cbn [columnsToDelete] in H0.
    apply (getColumnsToDelete_spec from to c Lf Lt) in H0.
    destruct H0 as [tableFrom [tableTo [Hf [G [Hcf Hn]]]]].
    exists tableFrom. split; [exact Hf|]. split; [exact Hcf|].
    split; [|exists tableTo; auto].
    intros Hrec.
    destruct (I4 (tbl_name tableFrom) tableFrom Hrec (linked_get Lf Hf))
      as [K _].
    pose proof (K c c Hc Hcf) as E. unfold Column_same in E.
    rewrite Nat.eqb_refl in E. discriminate E.
  - intros [tableFrom [Hf [Hcf [Hrec [tableTo [G Hn]]]]]].
    apply (foldM_foldIntoRecreate_keeps_column _ _ _ _ _ c (proj2 (proj2 (run_sets_of _ _ _ _ _ R)))).
    + cbn [columnsToDelete].
      apply (getColumnsToDelete_spec from to c Lf Lt).
      exists tableFrom, tableTo. auto.
    + intros name other x Hname Gother Hx.
      destruct (Column_same x c) eqn:E; [|reflexivity]. exfalso.
      pose proof (map_get_values _ _ Gother) as Hother.
      assert (x = c) as ->.
      { apply (linked_column_same from x c Lf);
          [apply (in_allColumns from other x Hother Hx)
          |apply (in_allColumns from tableFrom c Hf Hcf)|exact E]. }
      pose proof (columns_mounted (linked_table Lf Hother)) as M1.
      pose proof (columns_mounted (linked_table Lf Hf)) as M2.
      rewrite Forall_forall in M1, M2.
      pose proof (M1 c Hx) as E1. rewrite (M2 c Hcf) in E1.
      injection E1 as _ E1. apply Hrec. rewrite E1.
      rewrite (linked_get_name Lf Gother). exact Hname.
Qed.

Lemma mapM_In {A B} (f : A -> Result B) (xs : list A) (ys : list B) (y : B) :
  mapM f xs = Ok ys -> (In y ys <-> exists x, In x xs /\ f x = Ok y).
Proof.
  intros H. apply mapM_Ok in H. split.
  - intros Hy. apply (Forall2_In_r H Hy).
  - intros [x [Hx Hf]]. destruct (Forall2_In_l H Hx) as [z [Hz Hfz]].
    rewrite Hf in Hfz. injection Hfz as <-. exact Hz.
Qed.

(** [X10] For linked snapshots, the removed columns of the summary, and the
    remove-column operations, are exactly those of the columns of [from]
    whose table [to] keeps without recreating it and without a column of
    the same name. *)
Theorem removed_columns_characterised
    (newId : nat -> string) (from to : Definitions)
    (options : option DifferencesOptions) (s : PushSummary)
    (ops : list Operation)
    (Lfrom : Definitions_linked from) (Lto : Definitions_linked to)
    (H : differences newId from to options = Ok (s, ops)) :
  (forall q,
     In q (removedColumns s)
     <-> exists tableFrom c,
           column_dropped from to (recreatedTables s) tableFrom c
           /\ q = tpl [tbl_name tableFrom; "."; col_name c])
  /\ (forall op,
        In op (filter (has_kind RemoveColumn) ops)
        <-> exists tableFrom c,
              column_dropped from to (recreatedTables s) tableFrom c
              /\ op = {| title := tpl ["Remove column "; col_name c;
                                       " from table "; tbl_name tableFrom];
                         sql := [tpl ["ALTER TABLE ";
                                      quoted (tbl_name tableFrom);
                                      " DROP COLUMN ";
                                      quoted (col_name c)]] |}).
Proof.
  apply differences_runs in H. destruct H as [t [R E]].
  pose proof (runs_filter_kind newId from to options t RemoveColumn R) as F.
  rewrite <- E in F. cbn [snd] in F. rewrite F.
  unfold outcome in E. injection E as -> _.
  cbn [removedColumns recreatedTables].
  pose proof (fun c => runs_columnsToDelete newId from to options t c
                         Lfrom Lto R) as S.
  assert (Hmounted : forall tableFrom c,
             column_dropped from to (tablesToRecreate (tr_plan t))
               tableFrom c ->
             col_table c = Some (ref_of tableFrom)).
  { intros tableFrom c [Hf [Hc _]].
    pose proof (columns_mounted (linked_table Lfrom Hf)) as M.
    rewrite Forall_forall in M. apply M, Hc. }
  split.
  - intros q. rewrite (mapM_In _ _ _ q (run_removed R)). split.
    + intros [c [Hc Hq]]. apply S in Hc. destruct Hc as [tableFrom D].
      exists tableFrom, c. split; [exact D|].
      unfold qualifiedName, ownerName in Hq.
      rewrite (Hmounted tableFrom c D) in Hq. simpl in Hq. congruence.
    + intros [tableFrom [c [D ->]]]. exists c.
      split; [apply S; exists tableFrom; exact D|].
      unfold qualifiedName, ownerName.
      rewrite (Hmounted tableFrom c D). reflexivity.
  - intros op. rewrite (mapM_In _ _ _ op (run_removeColumnOps R)). split.
    + intros [c [Hc Hq]]. apply S in Hc. destruct Hc as [tableFrom D].
      exists tableFrom, c. split; [exact D|].
      unfold removeColumnOp, removeColumnSQL, ownerName in Hq.
      rewrite (Hmounted tableFrom c D) in Hq. simpl in Hq. congruence.
    + intros [tableFrom [c [D ->]]]. exists c.
      split; [apply S; exists tableFrom; exact D|].
      unfold removeColumnOp, removeColumnSQL, ownerName.
      rewrite (Hmounted tableFrom c D). reflexivity.
Qed.

Lemma removed_columns_characterised_witness :
  exists s ops,
    differences Examples.idsA MoreExamples.blog5 Examples.blog None
    = Ok (s, ops)
    /\ removedColumns s = ["posts.title"]
    /\ (In "posts.title" (removedColumns s)
        <-> exists tableFrom c,
              column_dropped MoreExamples.blog5 Examples.blog
                (recreatedTables s) tableFrom c
              /\ "posts.title" = tpl [tbl_name tableFrom; "."; col_name c]).
Proof.
  eexists. eexists. split; [vm_compute; reflexivity|].
  split; [reflexivity|].
  apply (proj1 (removed_columns_characterised Examples.idsA
                  MoreExamples.blog5 Examples.blog None _ _ blog5_linked
                  blog_linked eq_refl)).
Defined.
(** ** Index operations *)

Lemma indexesByName_get d i :
  Index_names_distinct d -> In i (allIndexes d) ->
  map_get (idx_name i) (indexesByName d) = Some i.
Proof.
  intros N Hi. destruct (indexesByName_has d i Hi) as [j Hj].
  destruct (indexesByName_incl _ _ _ Hj) as [Hall Hname].
  assert (j = i) as E.
  { apply (NoDup_map_injective idx_name (allIndexes d)); assumption. }
  rewrite E in Hj. apply map_get_NoDup; [|exact Hj].
  unfold indexesByName. apply Map_from_NoDup.
Qed.

Lemma indexesByName_get_inv d k i :
  map_get k (indexesByName d) = Some i ->
  In i (allIndexes d) /\ idx_name i = k.
Proof. intros G. apply indexesByName_incl. apply (map_get_In _ _ G). Qed.

(** On snapshots whose index names are distinct, [getIndexesToRemove],
    when it returns, collects the indexes of [from] that [to] lacks or has
    changed. *)
Lemma getIndexesToRemove_spec from to l i :
  Definitions_linked from ->
  Index_names_distinct from -> Index_names_distinct to ->
  getIndexesToRemove from to = Ok l ->
  In i (indexesToRemoveOf from to)
  <-> In i (allIndexes from) /\ index_absent_or_changed to i.
Proof.
  intros L Nf Nt Hl. split.
  - intros H. split; [apply (getIndexesToRemove_incl from to i H)|].
    unfold indexesToRemoveOf in H. apply Set_from_incl in H.
    apply in_map_iff in H. destruct H as [[k i'] [E H]]. simpl in E. subst i'.
    apply filter_In in H. destruct H as [H C]. simpl in C.
    destruct (collectIndexes_each _ _ _ Hl (k, i) H) as [b Hb].
    simpl in Hb.
    apply indexesByName_incl in H. destruct H as [_ Hk].
    intros j Hj Hname.
    rewrite <- Hk, <- Hname in C, Hb.
    rewrite (indexesByName_get to j Nt Hj) in C, Hb.
    apply bind_Ok in Hb. destruct Hb as [equal [Hb _]].
    rewrite Hb. f_equal. rewrite (indexesEqual_Ok _ _ _ Hb).
    apply negb_true_iff. exact C.
  - intros [Hi C]. unfold indexesToRemoveOf. apply Set_from_complete.
    + intros x. apply Nat.eqb_refl.
    + intros a b Ha Hb.
      apply (Index_same_distinct from a b (indexes_distinct L)).
      * apply in_map_iff in Ha. destruct Ha as [[k a'] [<- Ha]].
        apply filter_In in Ha. destruct Ha as [Ha _].
        apply indexesByName_incl in Ha. apply Ha.
      * apply in_map_iff in Hb. destruct Hb as [[k b'] [<- Hb]].
        apply filter_In in Hb. destruct Hb as [Hb _].
        apply indexesByName_incl in Hb. apply Hb.
    + apply in_map_iff. exists (idx_name i, i). split; [reflexivity|].
      apply filter_In.
      split; [apply map_get_In, (indexesByName_get from i Nf Hi)|].
      simpl. destruct (map_get (idx_name i) (indexesByName to)) as [j|] eqn:G;
        [|reflexivity].
      apply indexesByName_get_inv in G. destruct G as [Hj Hname].
      rewrite <- (indexesEqual_Ok _ _ _ (C j Hj Hname)). reflexivity.
Qed.

Lemma getIndexesToAdd_spec from to l j :
  Definitions_linked to ->
  Index_names_distinct from -> Index_names_distinct to ->
  getIndexesToAdd from to = Ok l ->
  In j (indexesToAddOf from to)
  <-> In j (allIndexes to) /\ index_new_or_changed from j.
Proof.
  intros L Nf Nt Hl. split.
  - intros H. split; [apply (getIndexesToAdd_incl from to j H)|].
    unfold indexesToAddOf in H. apply Set_from_incl in H.
    apply in_map_iff in H. destruct H as [[k j'] [E H]]. simpl in E. subst j'.
    apply filter_In in H. destruct H as [H C]. simpl in C.
    destruct (collectIndexes_each _ _ _ Hl (k, j) H) as [b Hb].
    simpl in Hb.
    apply indexesByName_incl in H. destruct H as [_ Hk].
    intros i Hi Hname.
    rewrite <- Hk, <- Hname in C, Hb.
    rewrite (indexesByName_get from i Nf Hi) in C, Hb.
    apply bind_Ok in Hb. destruct Hb as [equal [Hb _]].
    rewrite Hb. f_equal. rewrite (indexesEqual_Ok _ _ _ Hb).
    apply negb_true_iff. exact C.
  - intros [Hj C]. unfold indexesToAddOf. apply Set_from_complete.
    + intros x. apply Nat.eqb_refl.
    + intros a b Ha Hb.
      apply (Index_same_distinct to a b (indexes_distinct L)).
      * apply in_map_iff in Ha. destruct Ha as [[k a'] [<- Ha]].
        apply filter_In in Ha. destruct Ha as [Ha _].
        apply indexesByName_incl in Ha. apply Ha.
      * apply in_map_iff in Hb. destruct Hb as [[k b'] [<- Hb]].
        apply filter_In in Hb. destruct Hb as [Hb _].
        apply indexesByName_incl in Hb. apply Hb.
    + apply in_map_iff. exists (idx_name j, j). split; [reflexivity|].
      apply filter_In.
      split; [apply map_get_In, (indexesByName_get to j Nt Hj)|].
      simpl.
      destruct (map_get (idx_name j) (indexesByName from)) as [i|] eqn:G;
        [|reflexivity].
      apply indexesByName_get_inv in G. destruct G as [Hi Hname].
      rewrite <- (indexesEqual_Ok _ _ _ (C i Hi Hname)). reflexivity.
Qed.

(** The final sets of a run hold indexes of the snapshots only. *)
Lemma runs_index_sets_incl newId from to options t :
  runs newId from to options t ->
  (forall i, In i (indexesToRemove (tr_sets t)) -> In i (allIndexes from))
  /\ (forall j, In j (indexesToAdd (tr_sets t)) -> In j (allIndexes to)).
Proof.
  intros R.
  destruct (foldM_foldIntoRecreate_spec _ _ _ _ _ (proj2 (proj2 (run_sets_of _ _ _ _ _ R))))
    as [_ [_ [_ [_ [_ [I6 I7]]]]]].
  split.
  - intros i Hi. destruct (I6 i Hi) as [H0|[n [tf [_ [G H']]]]].
    + apply (getIndexesToRemove_incl from to). exact H0.
    + apply (table_index_in_allIndexes from n tf); assumption.
  - intros j Hj. destruct (I7 j Hj) as [H0|[n [tf [_ [G H']]]]].
    + apply (getIndexesToAdd_incl from to). exact H0.
    + apply (table_index_in_allIndexes to n tf); assumption.
Qed.

Lemma runs_indexesToRemove newId from to options t i :
  Definitions_linked from -> Definitions_linked to ->
  Index_names_distinct from -> Index_names_distinct to ->
  runs newId from to options t ->
  In i (indexesToRemove (tr_sets t))
  <-> In i (allIndexes from)
      /\ (index_absent_or_changed to i
          \/ index_of_recreated from (tablesToRecreate (tr_plan t)) i).
Proof.
  intros Lf Lt Nf Nt R.
  destruct (foldM_foldIntoRecreate_spec _ _ _ _ _ (proj2 (proj2 (run_sets_of _ _ _ _ _ R))))
    as [I1 [_ [_ [_ [_ [I6 _]]]]]].
  split.
  - intros Hi.
    split; [apply (runs_index_sets_incl newId from to options t R), Hi|].
    destruct (I6 i Hi) as [H0|[n [tf [Hn [G H']]]]].
    + left. cbn [indexesToRemove] in H0.
      apply (getIndexesToRemove_spec from to _ i Lf Nf Nt (run_toRemove R))
        in H0. apply H0.
    + right. exists tf. split; [apply (map_get_values _ _ G)|].
      split; [exact H'|]. rewrite (linked_get_name Lf G). exact Hn.
  - intros [Hall [C|[table [Ht [Hi Hrec]]]]].
    + apply I1. cbn [indexesToRemove].
      apply (getIndexesToRemove_spec from to _ i Lf Nf Nt (run_toRemove R)).
      auto.
    + destruct (foldM_foldIntoRecreate_tables _ _ _ _ _ _ (proj2 (proj2 (run_sets_of _ _ _ _ _ R))) Hrec)
        as [tf [tt [Gf Gt]]].
      rewrite (linked_get Lf Ht) in Gf. injection Gf as <-.
      apply (recreated_indexes_in_sets newId from to options t
               (tbl_name table) table tt Lf Lt R Hrec (linked_get Lf Ht) Gt).
      exact Hi.
Qed.

Lemma runs_indexesToAdd newId from to options t j :
  Definitions_linked from -> Definitions_linked to ->
  Index_names_distinct from -> Index_names_distinct to ->
  runs newId from to options t ->
  In j (indexesToAdd (tr_sets t))
  <-> In j (allIndexes to)
      /\ (index_new_or_changed from j
          \/ index_of_recreated to (tablesToRecreate (tr_plan t)) j).
Proof.
  intros Lf Lt Nf Nt R.
  destruct (foldM_foldIntoRecreate_spec _ _ _ _ _ (proj2 (proj2 (run_sets_of _ _ _ _ _ R))))
    as [_ [I2 [_ [_ [_ [_ I7]]]]]].
  split.
  - intros Hj.
    split; [apply (runs_index_sets_incl newId from to options t R), Hj|].
    destruct (I7 j Hj) as [H0|[n [tf [Hn [G H']]]]].
    + left. cbn [indexesToAdd] in H0.
      apply (getIndexesToAdd_spec from to _ j Lt Nf Nt (run_toAdd R)) in H0.
      apply H0.
    + right. exists tf. split; [apply (map_get_values _ _ G)|].
      split; [exact H'|]. rewrite (linked_get_name Lt G). exact Hn.
  - intros [Hall [C|[table [Ht [Hj Hrec]]]]].
    + apply I2. cbn [indexesToAdd].
      apply (getIndexesToAdd_spec from to _ j Lt Nf Nt (run_toAdd R)). auto.
    + destruct (foldM_foldIntoRecreate_tables _ _ _ _ _ _ (proj2 (proj2 (run_sets_of _ _ _ _ _ R))) Hrec)
        as [tf [tt [Gf Gt]]].
      rewrite (linked_get Lt Ht) in Gt. injection Gt as <-.
      apply (recreated_indexes_in_sets newId from to options t
               (tbl_name table) tf table Lf Lt R Hrec Gf (linked_get Lt Ht)).
      exact Hj.
Qed.

Lemma in_allIndexes_owner d j :
  Definitions_linked d -> In j (allIndexes d) ->
  exists table,
    In table (map_values (tables d)) /\ In j (map_values (tbl_indexes table))
    /\ idx_table j = Some (ref_of table).
Proof.
  intros L Hj. unfold allIndexes in Hj. apply in_flat_map in Hj.
  destruct Hj as [table [Ht Hj]]. exists table.
  split; [exact Ht|]. split; [exact Hj|].
  pose proof (indexes_mounted (linked_table L Ht)) as M.
  rewrite Forall_forall in M. apply M, Hj.
Qed.

(** [X11] For linked snapshots whose index names are distinct, an index of
    [from] is dropped by a remove-index operation exactly when [to] has no
    equal index of the same name or the table of the index is recreated;
    an index of [to] is created by an add-index operation exactly when
    [from] has no equal index of the same name or the table of the index
    is recreated.  An index that both snapshots have unchanged, on a table
    that is not recreated, is left alone. *)
Theorem index_operations_characterised
    (newId : nat -> string) (from to : Definitions)
    (options : option DifferencesOptions) (s : PushSummary)
    (ops : list Operation)
    (Lfrom : Definitions_linked from) (Lto : Definitions_linked to)
    (Nfrom : Index_names_distinct from) (Nto : Index_names_distinct to)
    (H : differences newId from to options = Ok (s, ops)) :
  (forall i,
     In i (allIndexes from) ->
     (In (removeIndexOp i) ops
      <-> index_absent_or_changed to i
          \/ index_of_recreated from (recreatedTables s) i))
  /\ (forall j,
        In j (allIndexes to) ->
        exists op,
          addIndexOp j = Ok op
          /\ (In op ops
              <-> index_new_or_changed from j
                  \/ index_of_recreated to (recreatedTables s) j)).
Proof.
  apply differences_runs in H. destruct H as [t [R E]].
  pose proof (fun K => runs_filter_kind newId from to options t K R) as F.
  pose proof (fun op => in_outcome from to t op) as I.
  rewrite <- E in F, I. cbn [snd] in F, I.
  unfold outcome in E. injection E as -> _.
  cbn [recreatedTables].
  destruct (runs_index_sets_incl newId from to options t R) as [Af At].
  split.
  - intros i Hi.
    pose proof (runs_indexesToRemove newId from to options t i
                  Lfrom Lto Nfrom Nto R) as S.
    split.
    + intros Hop. apply S.
      assert (In (removeIndexOp i) (filter (has_kind RemoveIndex) ops)) as K.
      { apply filter_In. split; [exact Hop|].
        rewrite removeIndexOp_kind. reflexivity. }
      rewrite (F RemoveIndex) in K. apply in_map_iff in K.
      destruct K as [i' [Ei Hi']].
      assert (i' = i) as <-; [|exact Hi'].
      apply (NoDup_map_injective idx_name (allIndexes from));
        [exact Nfrom|apply Af, Hi'|exact Hi|].
      unfold removeIndexOp in Ei. injection Ei as Ei _.
      exact Ei.
    + intros Hset. apply I. left. apply in_map. apply S. auto.
  - intros j Hj.
    destruct (in_allIndexes_owner to j Lto Hj) as [table [Ht [Hjt M]]].
    eexists. split.
    { unfold addIndexOp, ownerName. rewrite M. reflexivity. }
    pose proof (runs_indexesToAdd newId from to options t j
                  Lfrom Lto Nfrom Nto R) as S.
    split.
    + intros Hop. apply S.
      match type of Hop with
      | In ?op _ =>
          assert (In op (filter (has_kind AddIndex) ops)) as K
            by (apply filter_In; split;
                [exact Hop|apply (kind_of_title AddIndex AddIndex)])
      end.
      rewrite (F AddIndex) in K.
      apply (mapM_In _ _ _ _ (run_addIndexOps R)) in K.
      destruct K as [j' [Hj' Ej]].
      assert (j' = j) as <-; [|exact Hj'].
      apply (NoDup_map_injective idx_name (allIndexes to));
        [exact Nto|apply At, Hj'|exact Hj|].
      unfold addIndexOp in Ej. apply bind_Ok in Ej.
      destruct Ej as [o [_ Ej]]. injection Ej as Ej _.
      exact Ej.
    + intros Hset. apply I. do 8 right.
      apply (mapM_In _ _ _ _ (run_addIndexOps R)). exists j.
      split; [apply S; auto|].
      unfold addIndexOp, ownerName. rewrite M. reflexivity.
Qed.

Lemma index_operations_characterised_witness :
  exists s ops,
    differences Examples.idsA Examples.users_only MoreExamples.users_reindexed
      None = Ok (s, ops)
    /\ List.map title ops = ["Remove index name_idx"; "Add index name_idx"]
    /\ (In (removeIndexOp Examples.users_name_idx) ops
        <-> index_absent_or_changed MoreExamples.users_reindexed
              Examples.users_name_idx
            \/ index_of_recreated Examples.users_only (recreatedTables s)
                 Examples.users_name_idx).
Proof.
  eexists. eexists. split; [vm_compute; reflexivity|].
  split; [reflexivity|].
  apply (proj1 (index_operations_characterised Examples.idsA
                  Examples.users_only MoreExamples.users_reindexed None _ _
                  users_only_linked users_reindexed_linked
                  ltac:(repeat constructor; simpl; intuition discriminate)
                  ltac:(repeat constructor; simpl; intuition discriminate)
                  eq_refl)
           Examples.users_name_idx (or_introl eq_refl)).
Defined.
(** ** Pushing an empty snapshot *)

Lemma filter_all {A} (p : A -> bool) (l : list A) :
  (forall x, p x = true) -> filter p l = l.
Proof.
  intros H. induction l as [|x r IH]; simpl; [reflexivity|].
  rewrite (H x), IH. reflexivity.
Qed.

Lemma fold_left_fixed {A B} (f : A -> B -> A) (l : list B) (a : A) :
  (forall x, f a x = a) -> fold_left f l a = a.
Proof.
  intros H. induction l as [|x r IH]; simpl; [reflexivity|].
  rewrite (H x). exact IH.
Qed.

Lemma removeForeignKeyStep_nothing_dropped fks ops :
  flatMapM (removeForeignKeyStep []) fks = Ok ops -> ops = [].
Proof.
  revert ops; induction fks as [|fk r IH]; simpl; intros ops H.
  - injection H as <-. reflexivity.
  - apply bind_Ok in H. destruct H as [ys [Hys H]].
    apply bind_Ok in H. destruct H as [zs [Hzs H]]. injection H as <-.
    rewrite (IH zs Hzs). unfold removeForeignKeyStep in Hys.
    apply bind_Ok in Hys. destruct Hys as [owner [_ Hys]].
    simpl in Hys. injection Hys as <-. reflexivity.
Qed.

(** [X12] When [to] has no table, the operations drop one index for every
    index name of [from] and then every table of [from], in the order of
    the snapshot; the summary lists every table as removed and nothing
    else. *)
Theorem emptying_removes_every_table
    (newId : nat -> string) (from : Definitions)
    (options : option DifferencesOptions) (s : PushSummary)
    (ops : list Operation)
    (H : differences newId from {| tables := [] |} options = Ok (s, ops)) :
  ops = List.map removeIndexOp
          (Set_from Index_same (map_values (indexesByName from)))
        ++ List.map removeTableOp (map_values (tables from))
  /\ s = {| addedColumns := []; removedColumns := []; addedTables := [];
            removedTables := List.map tbl_name (map_values (tables from));
            recreatedTables := []; recreateReasons := [] |}.
Proof.
  apply differences_runs in H. destruct H as [t [R E]].
  assert (Hplan : tr_plan t
                  = {| tablesToRecreate := []; tablesToDropReferences := [];
                       planReasons := [] |}).
  { destruct (getTablesToRecreate_Ok _ _ (run_plan R)) as [owners [_ ->]].
    apply fold_left_fixed. intros x. reflexivity. }
  assert (Hsets : tr_sets t
                  = {| columnsToDelete := []; columnsToAdd := [];
                       indexesToRemove :=
                         Set_from Index_same
                           (map_values (indexesByName from));
                       indexesToAdd := [] |}).
  { pose proof (proj2 (proj2 (run_sets_of _ _ _ _ _ R))) as P.
    rewrite Hplan in P. cbn in P.
    injection P as <-. f_equal.
    unfold indexesToRemoveOf. f_equal. unfold map_values. f_equal.
    apply filter_all. intros x. reflexivity. }
  assert (Hdelete : getTablesToDelete from {| tables := [] |}
                    = map_values (tables from)).
  { unfold getTablesToDelete. apply filter_all. intros x. reflexivity. }
  pose proof (run_removeForeignKeyOps R) as P1. rewrite Hplan in P1.
  cbn [tablesToDropReferences] in P1.
  apply removeForeignKeyStep_nothing_dropped in P1.
  pose proof (run_createTableOps R) as P2. cbn in P2. injection P2 as P2.
  pose proof (run_addColumnOps R) as P3. rewrite Hsets in P3.
  cbn in P3. injection P3 as P3.
  pose proof (run_removeColumnOps R) as P4. rewrite Hsets in P4.
  cbn in P4. injection P4 as P4.
  pose proof (run_recreateOps R) as P5. rewrite Hplan in P5.
  cbn in P5. injection P5 as P5.
  assert (P6 : tr_addForeignKeyOps t = []).
  { pose proof (run_addForeignKeyOps R) as P.
    destruct (inCreationMode options); cbn in P; injection P as <-;
      reflexivity. }
  pose proof (run_addIndexOps R) as P7. rewrite Hsets in P7.
  cbn in P7. injection P7 as P7.
  pose proof (run_removed R) as P8. rewrite Hsets in P8.
  cbn in P8. injection P8 as P8.
  pose proof (run_added R) as P9. rewrite Hsets in P9.
  cbn in P9. injection P9 as P9.
  unfold outcome in E. injection E as -> ->.
  rewrite Hplan, Hsets, Hdelete, P1, <- P2, <- P3, <- P4, <- P5, P6, <- P7,
    <- P8, <- P9.
  cbn [tablesToRecreate planReasons indexesToRemove app].
  rewrite app_nil_r. split; reflexivity.
Qed.

Lemma emptying_removes_every_table_witness :
  exists s ops,
    differences Examples.idsA Examples.blog Examples.empty None = Ok (s, ops)
    /\ List.map title ops
       = ["Remove index name_idx"; "Remove table users";
          "Remove table posts"]
    /\ removedTables s = ["users"; "posts"].
Proof.
  eexists. eexists. split; [vm_compute; reflexivity|].
  split; [reflexivity|].
  apply (f_equal removedTables
           (proj2 (emptying_removes_every_table Examples.idsA Examples.blog
                     None _ _ eq_refl))).
Defined.
(** ** Statements that add a column *)

Lemma addColumnToTableSQL_default tableName column :
  exists d rest,
    d <> "" /\ (col_defaultValue column <> Some "NULL" -> d <> "NULL")
    /\ (col_notNull column = true
        \/ truthy (col_defaultValue column) = true
        \/ col_defaultValue column = Some "" ->
        addColumnToTableSQL tableName column
        = addColumnWithDefault tableName column d :: rest).
Proof.
  unfold addColumnToTableSQL, addColumnWithDefault, defineColumnSql.
  destruct (col_defaultValue column) as [s|] eqn:D.
  - destruct (String.eqb_spec s "NULL") as [->|Hne];
      [|destruct s as [|ch s']]; destruct (col_notNull column) eqn:N.
    all: try (exists "NULL"; eexists; split; [discriminate|];
              split; [congruence|]; intros _; simpl; reflexivity).
    all: try (exists (String ch s'); eexists; split; [discriminate|];
              split; [intros _; exact Hne|]; intros _; simpl; reflexivity).
    all: exists (tpl [dquote; dquote]); eexists; split; [discriminate|];
      split; [discriminate|]; intros _; simpl; reflexivity.
  - destruct (col_notNull column) eqn:N.
    + destruct (col_type column) eqn:T.
      1, 3: exists "0"; eexists; split; [discriminate|];
        split; [discriminate|]; intros _; simpl; reflexivity.
      all: exists (tpl [dquote; dquote]); eexists; split; [discriminate|];
        split; [discriminate|]; intros _; simpl; reflexivity.
    + exists "0", []. split; [discriminate|]. split; [discriminate|].
      intros [F|[F|F]]; discriminate F.
Qed.

(** [X13] [addColumnToTableSQL] never adds a NOT NULL column without a
    default: its first statement is an ADD COLUMN with a DEFAULT clause whose
    text is not empty, and is not NULL unless the default of the column
    itself is the text NULL. *)
Theorem not_null_column_added_with_default
    (tableName : string) (column : Column)
    (Hnn : col_notNull column = true) :
  exists d rest,
    d <> "" /\ (col_defaultValue column <> Some "NULL" -> d <> "NULL")
    /\ addColumnToTableSQL tableName column
       = addColumnWithDefault tableName column d :: rest.
Proof.
  destruct (addColumnToTableSQL_default tableName column)
    as [d [rest [H1 [H2 H3]]]].
  exists d, rest. split; [exact H1|]. split; [exact H2|].
  apply H3. left. exact Hnn.
Qed.

Lemma not_null_column_added_with_default_witness :
  exists d rest,
    d <> "" /\ d <> "NULL"
    /\ addColumnToTableSQL "users" Examples.users_id
       = addColumnWithDefault "users" Examples.users_id d :: rest.
Proof.
  destruct (not_null_column_added_with_default "users" Examples.users_id
              eq_refl) as [d [rest [H1 [H2 H3]]]].
  exists d, rest. split; [exact H1|]. split; [|exact H3].
  apply H2. discriminate.
Defined.

(** ** The statements of a recreation before the shadow table *)

Lemma addColumnToTableSQL_temporary tableName column tmp :
  (tmp =? "NULL") = false ->
  exists d,
    d <> "" /\ d <> "NULL"
    /\ addColumnToTableSQL tableName
         (Column_new 0 (col_name column) (col_type column)
            (col_notNull column) (Some tmp) (col_autoIncrement column))
       = [addColumnWithDefault tableName column d].
Proof.
  intros H.
  unfold addColumnToTableSQL, Column_new, defineColumnSql,
    addColumnWithDefault.
  cbn [col_name col_type col_notNull col_defaultValue col_autoIncrement].
  rewrite H. cbv iota beta. rewrite H. rewrite andb_false_r.
  destruct tmp as [|ch r].
  - exists (tpl [dquote; dquote]). split; [discriminate|].
    split; [discriminate|]. reflexivity.
  - exists (String ch r). split; [discriminate|].
    split; [apply String.eqb_neq; exact H|]. reflexivity.
Qed.

Lemma addMissingColumnSql_default from to column statements :
  addMissingColumnSql from to column = Ok statements ->
  exists d rest,
    d <> "" /\ d <> "NULL"
    /\ statements = addColumnWithDefault (tbl_name from) column d :: rest
    /\ (rest = [] \/ rest = [randomiseColumn (tbl_name from) column]).
Proof.
  unfold addMissingColumnSql. intros H.
  apply bind_Ok in H. destruct H as [isPk [_ H]].
  cbv zeta beta in H. injection H as <-.
  match goal with
  | |- context [Column_new 0 _ _ _ (Some ?x) _] =>
      assert (Htmp : (x =? "NULL") = false);
        [|destruct (addColumnToTableSQL_temporary (tbl_name from) column x
                      Htmp) as [d [H1 [H2 H3]]]]
  end.
  { destruct (col_defaultValue column) as [d0|].
    - destruct (String.eqb_spec d0 "NULL") as [E|Hne]; simpl.
      + destruct (col_type column); reflexivity.
      + destruct (negb (isPk
                        || hasSingleColumnUnique (col_name column)
                             (tbl_uniques to))).
        * apply String.eqb_neq. exact Hne.
        * destruct (col_type column); reflexivity.
    - destruct (col_type column); reflexivity. }
  rewrite H3. exists d. eexists.
  split; [exact H1|]. split; [exact H2|]. split; [reflexivity|].
  destruct (isPk || hasSingleColumnUnique (col_name column) (tbl_uniques to));
    [right|left]; reflexivity.
Qed.

Lemma flatMapM_In {A B} (f : A -> Result (list B)) (xs : list A)
    (ys : list B) (y : B) :
  flatMapM f xs = Ok ys ->
  (In y ys <-> exists x zs, In x xs /\ f x = Ok zs /\ In y zs).
Proof.
  intros H. destruct (flatMapM_Ok _ _ H) as [yss [F ->]]. split.
  - intros Hy. apply in_concat in Hy. destruct Hy as [zs [Hzs Hy]].
    destruct (Forall2_In_r F Hzs) as [x [Hx Hf]]. exists x, zs. auto.
  - intros [x [zs [Hx [Hf Hy]]]].
    destruct (Forall2_In_l F Hx) as [zs' [Hzs' Hf']].
    rewrite Hf in Hf'. injection Hf' as <-.
    apply in_concat. exists zs. auto.
Qed.

(** [X14] Before the shadow table is created, [recreateTableSql] only
    prepares the columns that the old table lacks: each statement ahead of
    the last four adds such a column to the old table, with a default that
    is neither empty nor NULL, or fills such a column with random numbers;
    every missing column gets its ADD COLUMN statement; and when no column
    is missing the four closing statements are all there is. *)
Theorem recreateTableSql_prepares_missing_columns
    (newId : string) (from to : Table) (statements : list string)
    (H : recreateTableSql newId from to = Ok statements) :
  exists added closing,
    statements = added ++ closing /\ List.length closing = 4
    /\ Forall (fun st =>
           exists column,
             missing_column from to column
             /\ ((exists d, d <> "" /\ d <> "NULL"
                            /\ st = addColumnWithDefault (tbl_name from)
                                      column d)
                 \/ st = randomiseColumn (tbl_name from) column)) added
    /\ (forall column,
          missing_column from to column ->
          exists d, In (addColumnWithDefault (tbl_name from) column d) added)
    /\ ((forall column, ~ missing_column from to column) -> added = []).
Proof.
  unfold recreateTableSql in H.
  apply bind_Ok in H. destruct H as [added [Hadded H]].
  apply bind_Ok in H. destruct H as [created [Hcreated H]].
  injection H as <-. rewrite createTableSQL_plain in Hcreated.
  injection Hcreated as <-.
  exists added. eexists. split; [reflexivity|]. split; [reflexivity|].
  pose proof (fun st => flatMapM_In _ _ _ st Hadded) as I.
  split; [|split].
  - apply Forall_forall. intros st Hst. apply I in Hst.
    destruct Hst as [column [zs [Hc [Hf Hst]]]].
    destruct (map_has (col_name column) (tbl_columns from)) eqn:M.
    + injection Hf as <-. contradiction.
    + exists column. split; [split; assumption|].
      destruct (addMissingColumnSql_default _ _ _ _ Hf)
        as [d [rest [H1 [H2 [-> Hrest]]]]].
      destruct Hst as [<-|Hst]; [left; exists d; auto|].
      destruct Hrest as [-> | ->]; [contradiction|].
      destruct Hst as [<-|[]]. right. reflexivity.
  - intros column [Hc M].
    destruct (flatMapM_Ok _ _ Hadded) as [yss [F _]].
    destruct (Forall2_In_l F Hc) as [zs [Hzs Hf]].
    rewrite M in Hf.
    destruct (addMissingColumnSql_default _ _ _ _ Hf)
      as [d [rest [_ [_ [-> _]]]]].
    exists d. apply I. exists column. eexists.
    split; [exact Hc|]. split; [rewrite M; exact Hf|]. left. reflexivity.
  - intros Hnone. destruct added as [|st r]; [reflexivity|]. exfalso.
    destruct (proj1 (I st) (or_introl eq_refl))
      as [column [zs [Hc [Hf Hst]]]].
    destruct (map_has (col_name column) (tbl_columns from)) eqn:M.
    + injection Hf as <-. contradiction.
    + apply (Hnone column). split; assumption.
Qed.

Lemma recreateTableSql_prepares_missing_columns_witness :
  exists statements added closing,
    recreateTableSql "0123456789abcdef" Examples.users Examples.users2
    = Ok statements
    /\ statements = added ++ closing /\ List.length closing = 4
    /\ List.length added = 2.
Proof.
  eexists.
  destruct (recreateTableSql_prepares_missing_columns "0123456789abcdef"
              Examples.users Examples.users2 _ eq_refl)
    as [added [closing [E [L _]]]].
  exists added, closing. split; [vm_compute; reflexivity|].
  split; [exact E|]. split; [exact L|].
  apply (f_equal (@List.length string)) in E.
  rewrite (length_app added closing), L in E.
  change (6 = List.length added + 4) in E. lia.
Defined.

(** ** Creating a verified table *)

(** [X15] [createTableSQL] returns on every table that passes [verify],
    with or without reference clauses, and what it returns is one
    statement. *)
Theorem createTableSQL_returns_on_verified_table
    (table : Table) (references : bool) (name : option string)
    (V : Table_verify table = Ok tt) :
  exists statement, createTableSQL table references name = Ok [statement].
Proof.
  unfold createTableSQL.
  destruct (mapM_total (columnRow table references)
              (map_values (tbl_columns table))) as [rows Hrows].
  - intros col _. unfold columnRow.
    destruct (singleColumnForeignKeyOf table col) as [fk|] eqn:F; [|eauto].
    destruct references; [|eauto].
    unfold singleColumnForeignKeyOf in F. apply find_some in F.
    destruct F as [Hfk _].
    pose proof (Table_verify_foreignKeys table fk V Hfk) as Hne.
    unfold referencesClause.
    destruct (fk_foreignColumns fk); [congruence|]. simpl. eauto.
  - rewrite Hrows. simpl. eauto.
Qed.

Lemma createTableSQL_returns_on_verified_table_witness :
  exists statement, createTableSQL Examples.posts true None = Ok [statement].
Proof.
  apply (createTableSQL_returns_on_verified_table Examples.posts true None
           eq_refl).
Defined.

(** ** Column definitions in CREATE TABLE and in ALTER TABLE *)

Lemma append_inj_l (a x y : string) : (a ++ x = a ++ y)%string -> x = y.
Proof.
  induction a as [|ch a IH]; simpl; intros H; [exact H|].
  injection H as H. auto.
Qed.

(** [X16] The row of a column in the CREATE TABLE statement is its
    definition in the ALTER TABLE statements, indented, unless the default
    of the column is the empty text: CREATE TABLE then leaves the default
    out, while ALTER TABLE writes it as two double quotes. *)
Theorem create_and_alter_define_columns_alike (col : Column) :
  columnSql col = tpl ["    "; defineColumnSql col false]
  <-> col_defaultValue col <> Some "".
Proof.
  unfold columnSql, defineColumnSql. split.
  - intros E D. rewrite D in E. cbn [truthy negb String.eqb andb] in E.
    cbv iota beta in E. cbn [truthy negb String.eqb] in E.
    unfold tpl in E. cbn [String.concat] in E.
    apply (append_inj_l "    ") in E. cbn [append] in E.
    apply append_inj_l in E. injection E as E.
    apply append_inj_l in E. apply append_inj_l in E.
    apply append_inj_l in E. discriminate E.
  - intros D. destruct (col_defaultValue col) as [[|ch s]|];
      [congruence| |]; reflexivity.
Qed.
(** ** String literals *)

(** [X17] The literal that [escapeString] builds denotes the string it
    was given: reading it back as a single-quoted SQL literal, with each
    doubled quote as one quote, returns the string.  Distinct strings
    therefore get distinct literals. *)
Theorem escapeString_round_trip :
  (forall s, sqlLiteralValue (escapeString s) = Some s)
  /\ (forall a b, escapeString a = escapeString b -> a = b).
Proof.
  assert (R : forall s, sqlLiteralValue (escapeString s) = Some s).
  { intros s. unfold escapeString, tpl. cbn [String.concat append].
    cbn [sqlLiteralValue]. rewrite Ascii.eqb_refl.
    apply sqlLiteralBody_doubleQuotes. }
  split; [exact R|].
  intros a b E. pose proof (R a) as Ra. rewrite E, (R b) in Ra.
  injection Ra as Ra. symmetry. exact Ra.
Qed.

(** ** The default of a model column *)

(** [X18] When [getDefaultValue] returns, the column that the constructor
    builds from its result has no default exactly when the drizzle column
    declares none or its default is encoded as the text NULL, which is the
    encoding of an absent value and never the encoding of a string or a
    boolean. *)
Theorem model_column_default
    (column : DrizzleDefault) (d : option string)
    (id : nat) (name : string) (type : ColumnType)
    (notNull autoIncrement : bool)
    (H : getDefaultValue column = Ok d) :
  (col_defaultValue (Column_new id name type notNull d autoIncrement) = None
   <-> dz_hasDefault column = false
       \/ transformDefault (dz_default column) = Ok "NULL")
  /\ transformDefault VNull = Ok "NULL"
  /\ transformDefault VUndefined = Ok "NULL"
  /\ (forall s, transformDefault (VString s) <> Ok "NULL")
  /\ (forall b, transformDefault (VBoolean b) <> Ok "NULL").
Proof.
  split; [|split; [reflexivity|split; [reflexivity|split]]].
  - unfold getDefaultValue in H. cbn [Column_new col_defaultValue].
    destruct (dz_hasDefault column).
    + apply bind_Ok in H. destruct H as [text [Ht H]]. injection H as <-.
      rewrite Ht. destruct (String.eqb_spec text "NULL") as [->|Hne].
      * split; auto.
      * split; [discriminate|]. intros [F|F]; [discriminate F|].
        injection F as F. contradiction.
    + injection H as <-. split; auto.
  - intros s. cbn. discriminate.
  - intros [|]; discriminate.
Qed.

Lemma model_column_default_witness :
  col_defaultValue
    (Column_new 1 "title" TEXT false (Some (escapeString "NULL")) false)
  <> None.
Proof.
  intros E.
  destruct (proj1 (proj1 (model_column_default
                     {| dz_hasDefault := true; dz_default := VString "NULL" |}
                     (Some (escapeString "NULL")) 1 "title" TEXT false false
                     eq_refl)) E) as [F|F]; discriminate F.
Defined.
(** ** What [verify] accepts *)

Lemma seq_Ok (c k : Result unit) :
  (c ;;; k) = Ok tt <-> c = Ok tt /\ k = Ok tt.
Proof.
  destruct c as [[]|m]; simpl; split.
  - auto.
  - intros [_ H]. exact H.
  - discriminate.
  - intros [H _]. discriminate H.
Qed.

Lemma when_Throw (b : bool) (m : string) :
  when b (Throw m) = Ok tt <-> b = false.
Proof. destruct b; simpl; split; congruence. Qed.

Lemma forEach_iff {A} (body : A -> Result unit) (xs : list A) :
  forEach body xs = Ok tt <-> Forall (fun x => body x = Ok tt) xs.
Proof.
  rewrite Forall_forall. split.
  - intros H. apply (forEach_Ok _ _ H).
  - apply forEach_all_Ok.
Qed.

Lemma owner_check (table : option TableRef) (id : nat) (m : string)
    (k : Result unit) :
  (o <- ownerTable table ;;
   when (negb (ref_id o =? id)%nat) (Throw m) ;;; k) = Ok tt
  <-> mounted_on id table /\ k = Ok tt.
Proof.
  unfold mounted_on. destruct table as [o|]; simpl.
  - rewrite seq_Ok, when_Throw, negb_false_iff, Nat.eqb_eq. split.
    + intros [E K]. split; [exists o; auto|exact K].
    + intros [[o' [E E']] K]. injection E as <-. auto.
  - split; [discriminate|]. intros [[o [E _]] _]. discriminate E.
Qed.

Lemma set_has_app (c : Column) (l1 l2 : list Column) :
  set_has Column_same c (l1 ++ l2)
  = set_has Column_same c l1 || set_has Column_same c l2.
Proof. unfold set_has. apply existsb_app. Qed.

(** The loop that looks for a column seen twice finds none exactly when
    the identities of the columns are distinct. *)
Lemma has_duplicate_spec (seen l : list Column) :
  has_duplicate seen l = false
  <-> (forall c, In c l -> set_has Column_same c seen = false)
      /\ NoDup (List.map col_id l).
Proof.
  revert seen; induction l as [|c r IH]; intros seen; simpl.
  - split; [intros _; split; [contradiction|constructor]|reflexivity].
  - destruct (set_has Column_same c seen) eqn:E.
    + split; [discriminate|]. intros [H _].
      rewrite (H c (or_introl eq_refl)) in E. discriminate E.
    + unfold set_add. rewrite E. rewrite IH. split.
      * intros [H ND]. split.
        -- intros x [<-|Hx]; [exact E|].
           pose proof (H x Hx) as K. rewrite set_has_app in K.
           apply orb_false_iff in K. apply K.
        -- constructor; [|exact ND]. intros Hin.
           apply in_map_iff in Hin. destruct Hin as [x [Ex Hx]].
           pose proof (H x Hx) as K. rewrite set_has_app in K.
           apply orb_false_iff in K. destruct K as [_ K].
           unfold set_has, Column_same in K. simpl in K.
           rewrite Ex, Nat.eqb_refl in K. discriminate K.
      * intros [H ND]. inversion ND as [|? ? Hn ND']; subst. split; [|exact ND'].
        intros x Hx. rewrite set_has_app. apply orb_false_iff.
        split; [apply H; right; exact Hx|].
        unfold set_has, Column_same. simpl. rewrite orb_false_r.
        apply Nat.eqb_neq. intros Ex. apply Hn. rewrite <- Ex.
        apply in_map. exact Hx.
Qed.

Lemma no_duplicate_iff (l : list Column) :
  has_duplicate [] l = false <-> NoDup (List.map col_id l).
Proof.
  rewrite has_duplicate_spec. split; [intros [_ H]; exact H|].
  intros H. split; [reflexivity|exact H].
Qed.

Lemma ForeignKey_verify_pairs_spec foreignTable owner fcs lcs :
  List.length fcs = List.length lcs ->
  ForeignKey_verify_pairs foreignTable owner fcs lcs = Ok tt
  <-> Forall (fun c => mounted_on (ref_id foreignTable) (col_table c)) fcs
      /\ Forall (fun c => mounted_on (ref_id owner) (col_table c)) lcs.
Proof.
  revert lcs; induction fcs as [|f fr IH]; intros [|l lr] Hlen;
    try discriminate Hlen.
  - simpl. split; [intros _; split; constructor|reflexivity].
  - injection Hlen as Hlen. cbn [ForeignKey_verify_pairs].
    unfold TableRef_same. rewrite owner_check, owner_check, (IH lr Hlen).
    rewrite !Forall_cons_iff. tauto.
Qed.

Lemma ForeignKey_verify_iff (fk : ForeignKey) :
  ForeignKey_verify fk = Ok tt <-> ForeignKey_valid fk.
Proof.
  unfold ForeignKey_verify, ForeignKey_valid.
  destruct (fk_table fk) as [owner|]; simpl.
  - rewrite !seq_Ok, !when_Throw. unfold TableRef_same.
    rewrite !negb_false_iff, !Nat.eqb_neq, Nat.eqb_eq.
    rewrite !no_duplicate_iff. split.
    + intros [H1 [H2 [H3 [H4 [H5 [H6 H7]]]]]].
      exists owner. split; [reflexivity|]. split; [exact H1|].
      split; [intros E; rewrite E in H2; apply H2; reflexivity|].
      split; [exact H4|].
      apply (ForeignKey_verify_pairs_spec _ _ _ _ H4) in H5. tauto.
    + intros [o [E [H1 [H2 [H4 [H5 [H5' [H6 H7]]]]]]]]. injection E as <-.
      split; [exact H1|].
      split; [destruct (fk_foreignColumns fk); [congruence|discriminate]|].
      split; [rewrite <- H4;
              destruct (fk_foreignColumns fk); [congruence|discriminate]|].
      split; [exact H4|].
      split; [apply (ForeignKey_verify_pairs_spec _ _ _ _ H4); tauto|].
      tauto.
  - split; [discriminate|]. intros [o [E _]]. discriminate E.
Qed.

Lemma Unique_verify_iff (u : Unique) :
  Unique_verify u = Ok tt <-> Unique_valid u.
Proof.
  unfold Unique_verify, Unique_valid.
  rewrite seq_Ok, when_Throw, no_duplicate_iff, forEach_iff.
  apply and_iff_compat_r.
  destruct (uq_table u) as [owner|]; split.
  - intros H. right. exists owner. split; [reflexivity|].
    eapply Forall_impl; [|exact H]. intros c Hc. cbv beta in Hc.
    unfold mounted_on. destruct (col_table c) as [o|]; simpl in Hc;
      [|discriminate Hc].
    apply when_Throw in Hc. apply negb_false_iff in Hc.
    apply Nat.eqb_eq in Hc. exists o. auto.
  - intros [E|[o [E H]]]; [rewrite E; constructor|]. injection E as <-.
    eapply Forall_impl; [|exact H].
    intros c [o [Eo Hid]]. cbv beta. rewrite Eo. simpl.
    apply when_Throw. apply negb_false_iff. apply Nat.eqb_eq. exact Hid.
  - intros H. destruct (uq_columns u) as [|c r]; [left; reflexivity|].
    exfalso. inversion H as [|? ? Hc _]; subst. cbv beta in Hc.
    destruct (col_table c); simpl in Hc; discriminate Hc.
  - intros [E|[o [E _]]]; [rewrite E; constructor|discriminate E].
Qed.

Lemma verifyPrimaryKey_iff (t : Table) :
  verifyPrimaryKey t = Ok tt
  <-> Forall (fun slot =>
          exists c, slot = Some c
                    /\ map_has (col_name c) (tbl_columns t) = true)
        (tbl_primaryKey t).
Proof.
  unfold verifyPrimaryKey. rewrite forEach_iff.
  split; intros H; (eapply Forall_impl; [|exact H]); intros [c|]; cbv beta.
  - intros K. apply when_Throw in K. apply negb_false_iff in K.
    exists c. auto.
  - discriminate.
  - intros [c' [E K]]. injection E as <-. apply when_Throw.
    apply negb_false_iff. exact K.
  - intros [c' [E _]]. discriminate E.
Qed.

Lemma mounted_check (t : Table) (table : option TableRef) (m : string) :
  (o <- ownerTable table ;; when (negb (is_this t o)) (Throw m)) = Ok tt
  <-> mounted_on (tbl_id t) table.
Proof.
  unfold mounted_on, is_this. destruct table as [o|]; simpl.
  - rewrite when_Throw, negb_false_iff, Nat.eqb_eq. split.
    + intros E. exists o. auto.
    + intros [o' [E E']]. injection E as <-. exact E'.
  - split; [discriminate|]. intros [o [E _]]. discriminate E.
Qed.

Lemma Table_verify_iff (t : Table) :
  Table_verify t = Ok tt <-> Table_valid t.
Proof.
  unfold Table_verify, Table_valid.
  rewrite !seq_Ok, verifyPrimaryKey_iff, !forEach_iff.
  assert (F1 : forall l : list Column,
             Forall (fun column =>
                 (o <- ownerTable (col_table column) ;;
                  when (negb (is_this t o))
                    (Throw "Column must belong to the table")) = Ok tt) l
             <-> Forall (fun c => mounted_on (tbl_id t) (col_table c)) l).
  { intros l. rewrite !Forall_forall. split; intros H c Hc.
    - apply (proj1 (mounted_check t (col_table c)
                      "Column must belong to the table")), H, Hc.
    - apply (proj2 (mounted_check t (col_table c)
                      "Column must belong to the table")), H, Hc. }
  assert (F2 : forall l : list Index,
             Forall (fun index =>
                 (o <- ownerTable (idx_table index) ;;
                  when (negb (is_this t o))
                    (Throw "Index must belong to the table")) = Ok tt) l
             <-> Forall (fun i => mounted_on (tbl_id t) (idx_table i)) l).
  { intros l. rewrite !Forall_forall. split; intros H c Hc.
    - apply (proj1 (mounted_check t (idx_table c)
                      "Index must belong to the table")), H, Hc.
    - apply (proj2 (mounted_check t (idx_table c)
                      "Index must belong to the table")), H, Hc. }
  assert (F3 : forall l : list ForeignKey,
             Forall (fun fk => ForeignKey_verify fk = Ok tt) l
             <-> Forall ForeignKey_valid l).
  { intros l. rewrite !Forall_forall. split; intros H c Hc;
      apply ForeignKey_verify_iff, H, Hc. }
  assert (F4 : forall l : list Unique,
             Forall (fun u => Unique_verify u = Ok tt) l
             <-> Forall Unique_valid l).
  { intros l. rewrite !Forall_forall. split; intros H c Hc;
      apply Unique_verify_iff, H, Hc. }
  rewrite F1, F2, F3, F4. tauto.
Qed.

(** [X19] [Table.verify] returns normally exactly on the valid tables: the
    primary key has no hole and names columns of the table; every column
    and every index is mounted on the table; every foreign key is mounted
    on a table other than its foreign table, pairs one or more foreign
    columns of the foreign table with as many local columns of its own
    table and repeats none; every unique repeats no column and, unless it
    is empty, is mounted on the table of its columns.  Nothing else is
    checked: not the columns of the indexes, and of a primary-key column
    only the name. *)
Theorem Table_verify_characterised (t : Table) :
  Table_verify t = Ok tt <-> Table_valid t.
Proof. apply Table_verify_iff. Qed.
(** ** Building tables *)

Lemma map_set_entries {V} (P : string * V -> Prop) (k : string) (v : V)
    (m : JsMap V) :
  Forall P m -> P (k, v) -> Forall P (map_set k v m).
Proof.
  intros F Hv. apply Forall_forall. intros e He.
  apply map_set_incl in He. destruct He as [->|He]; [exact Hv|].
  rewrite Forall_forall in F. apply F, He.
Qed.

Lemma map_set_values_absent {V} (k : string) (v : V) (m : JsMap V) :
  map_has k m = false -> map_values (map_set k v m) = map_values m ++ [v].
Proof.
  unfold map_has, map_values.
  induction m as [|[k' v'] r IH]; simpl; [reflexivity|].
  destruct (k =? k') eqn:E; [discriminate|].
  intros H. simpl. rewrite (IH H). reflexivity.
Qed.

Lemma map_has_set {V} (k k' : string) (v : V) (m : JsMap V) :
  map_has k' m = true -> map_has k' (map_set k v m) = true.
Proof.
  rewrite !map_has_keys. apply map_set_keeps_key.
Qed.

(** [X20] [addColumn] and [getColumn]: adding a column under a name that
    the table already has throws and names both; otherwise the column is
    mounted on the table and stored after the columns that were there,
    [getColumn] finds it under its name, finds every other name as before,
    and throws on a name that no column has. *)
Theorem addColumn_then_getColumn (t : Table) (column : Column) :
  (map_has (col_name column) (tbl_columns t) = true ->
   addColumn t column
   = Throw (tpl ["Duplicate column: "; col_name column; " on table ";
                 tbl_name t]))
  /\ (map_has (col_name column) (tbl_columns t) = false ->
      exists t',
        addColumn t column = Ok t'
        /\ getColumn t' (col_name column) = Ok (Column_mount t column)
        /\ (forall name, name <> col_name column ->
                         getColumn t' name = getColumn t name)
        /\ map_values (tbl_columns t')
           = map_values (tbl_columns t) ++ [Column_mount t column])
  /\ (forall name, map_has name (tbl_columns t) = false ->
                   getColumn t name = Throw (tpl ["Column not found: "; name])).
Proof.
  unfold addColumn, getColumn. split; [|split].
  - intros ->. reflexivity.
  - intros H. rewrite H. eexists. split; [reflexivity|]. simpl.
    split; [rewrite map_get_set_same; reflexivity|].
    split; [|apply map_set_values_absent; exact H].
    intros name Hne. rewrite map_get_set_other by congruence. reflexivity.
  - intros name H. unfold map_has in H.
    destruct (map_get name (tbl_columns t)); [discriminate H|reflexivity].
Qed.

Lemma addColumn_then_getColumn_witness :
  addColumn Examples.users Examples.users_id
  = Throw "Duplicate column: id on table users"
  /\ exists t',
       addColumn Examples.users Examples.users2_email = Ok t'
       /\ getColumn t' "email"
          = Ok (Column_mount Examples.users Examples.users2_email).
Proof.
  destruct (addColumn_then_getColumn Examples.users Examples.users_id)
    as [H1 _].
  destruct (addColumn_then_getColumn Examples.users Examples.users2_email)
    as [_ [H2 _]].
  split; [apply H1; reflexivity|].
  destruct (H2 eq_refl) as [t' [E1 [E2 _]]]. exists t'. auto.
Defined.

(** *** The create operations keep a table linked and verified *)

Lemma addColumn_linked t column t' :
  Table_linked t -> addColumn t column = Ok t' -> Table_linked t'.
Proof.
  intros L H. unfold addColumn in H.
  destruct (map_has (col_name column) (tbl_columns t)); [discriminate|].
  injection H as <-. constructor; simpl.
  - apply map_set_entries; [apply (columns_keyed L)|reflexivity].
  - apply map_set_keys_NoDup. apply (columns_keys_distinct L).
  - apply (indexes_keyed L).
  - apply (indexes_keys_distinct L).
  - apply (map_set_values (fun c => col_table c = Some (ref_of t)));
      [reflexivity|apply (columns_mounted L)].
  - apply (indexes_mounted L).
  - apply (foreignKeys_mounted L).
Qed.

Lemma addColumn_valid t column t' :
  Table_valid t -> addColumn t column = Ok t' -> Table_valid t'.
Proof.
  intros [V1 [V2 [V3 [V4 V5]]]] H. unfold addColumn in H.
  destruct (map_has (col_name column) (tbl_columns t)); [discriminate|].
  injection H as <-. split; [|split; [|split; [|split]]]; simpl.
  - eapply Forall_impl; [|exact V1]. intros slot [c [E K]].
    exists c. split; [exact E|]. apply map_has_set. exact K.
  - apply (map_set_values (fun c => mounted_on (tbl_id t) (col_table c)));
      [|exact V2].
    exists (ref_of t). split; reflexivity.
  - exact V3.
  - exact V4.
  - exact V5.
Qed.

Lemma addUnique_linked t unique t' :
  Table_linked t -> addUnique t unique = Ok t' -> Table_linked t'.
Proof.
  intros L H. unfold addUnique in H. apply bind_Ok in H.
  destruct H as [_ [_ H]]. injection H as <-.
  constructor; simpl; apply L.
Qed.

Lemma addUnique_valid t unique t' :
  Table_valid t -> addUnique t unique = Ok t' -> Table_valid t'.
Proof.
  intros [V1 [V2 [V3 [V4 V5]]]] H. unfold addUnique in H.
  apply bind_Ok in H. destruct H as [[] [Hv H]]. injection H as <-.
  split; [|split; [|split; [|split]]]; simpl; try assumption.
  apply Forall_app. split; [exact V5|].
  constructor; [|constructor]. apply Unique_verify_iff. exact Hv.
Qed.

Lemma createUnique_inv t columns t' u :
  createUnique t columns = Ok (t', u) ->
  exists cols,
    mapM (getColumn t) columns = Ok cols
    /\ existsb (Unique_equals {| uq_columns := cols; uq_table := None |})
         (tbl_uniques t) = false
    /\ addUnique t {| uq_columns := cols; uq_table := None |} = Ok t'
    /\ u = Unique_mount t {| uq_columns := cols; uq_table := None |}.
Proof.
  unfold createUnique. intros H.
  apply bind_Ok in H. destruct H as [cols [Hc H]].
  apply bind_Ok in H. destruct H as [[] [Hd H]].
  apply bind_Ok in H. destruct H as [t1 [Ha H]].
  injection H as <- <-. exists cols.
  split; [exact Hc|]. split; [|split; [exact Ha|reflexivity]].
  apply when_Ok in Hd. destruct Hd as [Hd|Hd]; [exact Hd|discriminate Hd].
Qed.

Lemma addForeignKey_linked t fk t' :
  Table_linked t -> addForeignKey t fk = Ok t' -> Table_linked t'.
Proof.
  intros L H. unfold addForeignKey in H. apply bind_Ok in H.
  destruct H as [_ [_ H]]. injection H as <-.
  constructor; simpl; try apply L.
  apply Forall_app. split; [apply (foreignKeys_mounted L)|].
  constructor; [reflexivity|constructor].
Qed.

Lemma addForeignKey_valid t fk t' :
  Table_valid t -> addForeignKey t fk = Ok t' -> Table_valid t'.
Proof.
  intros [V1 [V2 [V3 [V4 V5]]]] H. unfold addForeignKey in H.
  apply bind_Ok in H. destruct H as [[] [Hv H]]. injection H as <-.
  split; [|split; [|split; [|split]]]; simpl; try assumption.
  apply Forall_app. split; [exact V4|].
  constructor; [|constructor]. apply ForeignKey_verify_iff. exact Hv.
Qed.

Lemma addIndex_linked t index :
  Table_linked t -> Table_linked (addIndex t index).
Proof.
  intros L. constructor; simpl.
  - apply (columns_keyed L).
  - apply (columns_keys_distinct L).
  - apply map_set_entries; [apply (indexes_keyed L)|reflexivity].
  - apply map_set_keys_NoDup. apply (indexes_keys_distinct L).
  - apply (columns_mounted L).
  - apply (map_set_values (fun i => idx_table i = Some (ref_of t)));
      [reflexivity|apply (indexes_mounted L)].
  - apply (foreignKeys_mounted L).
Qed.

Lemma addIndex_valid t index :
  Table_valid t -> Table_valid (addIndex t index).
Proof.
  intros [V1 [V2 [V3 [V4 V5]]]].
  split; [|split; [|split; [|split]]]; simpl; try assumption.
  apply (map_set_values (fun i => mounted_on (tbl_id t) (idx_table i)));
    [|exact V3].
  exists (ref_of t). split; reflexivity.
Qed.

(** [X21] The create operations of [Table] keep a table as the claims
    assume it: when the table is linked (elements stored under their names
    and mounted on it) and passes [verify], then after [createColumn],
    [createIndex], [createUnique] or [createForeignKey] returns, the
    updated table is linked and passes [verify] again. *)
Theorem create_operations_keep_tables_verified
    (t : Table) (L : Table_linked t) (V : Table_verify t = Ok tt) :
  (forall id opts t' c,
     createColumn id t opts = Ok (t', c) ->
     Table_linked t' /\ Table_verify t' = Ok tt)
  /\ (forall id name columns unique t' i,
        createIndex id t name columns unique = Ok (t', i) ->
        Table_linked t' /\ Table_verify t' = Ok tt)
  /\ (forall columns t' u,
        createUnique t columns = Ok (t', u) ->
        Table_linked t' /\ Table_verify t' = Ok tt)
  /\ (forall foreignTable foreignColumns localColumns onUpdate onDelete t' fk,
        createForeignKey t foreignTable foreignColumns localColumns
          onUpdate onDelete = Ok (t', fk) ->
        Table_linked t' /\ Table_verify t' = Ok tt).
Proof.
  apply Table_verify_iff in V.
  assert (U : forall t0 columns t' u,
             Table_linked t0 -> Table_valid t0 ->
             createUnique t0 columns = Ok (t', u) ->
             Table_linked t' /\ Table_valid t').
  { intros t0 columns t' u L0 V0 H.
    destruct (createUnique_inv _ _ _ _ H) as [cols [_ [_ [Ha _]]]].
    split; [apply (addUnique_linked _ _ _ L0 Ha)
           |apply (addUnique_valid _ _ _ V0 Ha)]. }
  split; [|split; [|split]].
  - intros id opts t' c H. unfold createColumn in H.
    apply bind_Ok in H. destruct H as [t1 [H1 H]].
    apply bind_Ok in H. destruct H as [t2 [H2 H]].
    injection H as <- _.
    pose proof (addColumn_linked _ _ _ L H1) as L1.
    pose proof (addColumn_valid _ _ _ V H1) as V1.
    rewrite Table_verify_iff.
    destruct (co_unique opts).
    + apply bind_Ok in H2. destruct H2 as [[t3 u] [H2 H3]].
      injection H3 as <-. apply (U t1 _ t3 u L1 V1 H2).
    + injection H2 as <-. auto.
  - intros id name columns unique t' i H. unfold createIndex in H.
    apply bind_Ok in H. destruct H as [cols [_ H]]. injection H as <- _.
    rewrite Table_verify_iff.
    split; [apply addIndex_linked|apply addIndex_valid]; assumption.
  - intros columns t' u H. rewrite Table_verify_iff.
    apply (U t columns t' u L V H).
  - intros foreignTable fcs lcs a b t' fk H. unfold createForeignKey in H.
    apply bind_Ok in H. destruct H as [fc [_ H]].
    apply bind_Ok in H. destruct H as [lc [_ H]].
    apply bind_Ok in H. destruct H as [t1 [H1 H]]. injection H as <- _.
    rewrite Table_verify_iff.
    split; [apply (addForeignKey_linked _ _ _ L H1)
           |apply (addForeignKey_valid _ _ _ V H1)].
Qed.

Lemma create_operations_keep_tables_verified_witness :
  exists t' fk,
    createForeignKey Examples.posts Examples.users ["id"] ["user_id"]
      None (Some CASCADE) = Ok (t', fk)
    /\ Table_verify t' = Ok tt.
Proof.
  eexists. eexists. split; [reflexivity|].
  assert (L : Table_linked Examples.posts).
  { apply (linked_table blog_linked). right. left. reflexivity. }
  destruct (create_operations_keep_tables_verified Examples.posts L eq_refl)
    as [_ [_ [_ H]]].
  apply (H Examples.users ["id"] ["user_id"] None (Some CASCADE) _ _ eq_refl).
Defined.

(** *** Uniques and indexes created twice *)

Lemma Columns_same_refl (l : list Column) : Columns_same l l = true.
Proof.
  induction l as [|c r IH]; simpl; [reflexivity|].
  unfold Column_same. rewrite Nat.eqb_refl. exact IH.
Qed.

(** [X22] [createUnique] refuses the same columns twice: once it has
    returned for a list of column names, the unique it returns is mounted
    on the table, is the last unique of the table and holds the columns of
    these names, which are distinct; and a second call with the same list
    throws [Duplicate unique]. *)
Theorem createUnique_twice_throws
    (t t' : Table) (columns : list string) (u : Unique)
    (H : createUnique t columns = Ok (t', u)) :
  tbl_uniques t' = tbl_uniques t ++ [u]
  /\ uq_table u = Some (ref_of t)
  /\ mapM (getColumn t) columns = Ok (uq_columns u)
  /\ NoDup (List.map col_id (uq_columns u))
  /\ createUnique t' columns = Throw "Duplicate unique".
Proof.
  destruct (createUnique_inv _ _ _ _ H) as [cols [Hc [_ [Ha ->]]]].
  unfold addUnique in Ha. apply bind_Ok in Ha.
  destruct Ha as [[] [Hv Ha]]. injection Ha as <-.
  split; [reflexivity|]. split; [reflexivity|]. split; [exact Hc|].
  split.
  - apply Unique_verify_iff in Hv. apply Hv.
  - unfold createUnique.
    change (mapM (getColumn (with_uniques t _)) columns)
      with (mapM (getColumn t) columns).
    rewrite Hc. cbn [bind with_uniques tbl_uniques].
    rewrite existsb_app. cbn [existsb Unique_mount].
    unfold Unique_equals at 2. cbn [uq_columns].
    rewrite Columns_same_refl, orb_true_r. reflexivity.
Qed.

Lemma createUnique_twice_throws_witness :
  exists t' u,
    createUnique Examples.users ["name"] = Ok (t', u)
    /\ createUnique t' ["name"] = Throw "Duplicate unique".
Proof.
  eexists. eexists. split; [reflexivity|].
  apply (createUnique_twice_throws Examples.users _ ["name"] _ eq_refl).
Defined.

Lemma getColumns_return (t : Table) (names : list string) :
  (exists cols, mapM (getColumn t) names = Ok cols)
  <-> Forall (fun n => map_has n (tbl_columns t) = true) names.
Proof.
  induction names as [|n r IH]; simpl.
  - split; [constructor|eauto].
  - unfold getColumn at 1, map_has. rewrite Forall_cons_iff, <- IH.
    destruct (map_get n (tbl_columns t)) as [c|]; simpl.
    + split.
      * intros [cols H]. split; [reflexivity|].
        apply bind_Ok in H. destruct H as [ys [Hys _]]. eauto.
      * intros [_ [ys ->]]. simpl. eauto.
    + split; [intros [cols H]; discriminate H|intros [H _]; discriminate H].
Qed.

(** [X23] [createIndex] returns exactly when every column name it is
    given is a column of the table, and it never rejects a name: the new
    index is mounted on the table and stored under its name, where it
    replaces the index that had this name, if any; the other indexes stay
    as they are. *)
Theorem createIndex_replaces
    (id : nat) (t : Table) (name : string) (columns : list string)
    (unique : bool) :
  ((exists r, createIndex id t name columns unique = Ok r)
   <-> Forall (fun n => map_has n (tbl_columns t) = true) columns)
  /\ (forall t' i,
        createIndex id t name columns unique = Ok (t', i) ->
        map_get name (tbl_indexes t') = Some i
        /\ (forall n, n <> name ->
                      map_get n (tbl_indexes t') = map_get n (tbl_indexes t))
        /\ map_keys (tbl_indexes t')
           = set_add String.eqb name (map_keys (tbl_indexes t))
        /\ idx_table i = Some (ref_of t)
        /\ mapM (getColumn t) columns = Ok (idx_columns i)
        /\ tbl_columns t' = tbl_columns t).
Proof.
  split.
  - rewrite <- getColumns_return. unfold createIndex. split.
    + intros [r H]. apply bind_Ok in H. destruct H as [cols [Hc _]]. eauto.
    + intros [cols ->]. simpl. eauto.
  - intros t' i H. unfold createIndex in H.
    apply bind_Ok in H. destruct H as [cols [Hc H]]. injection H as <- <-.
    unfold addIndex. cbn [with_indexes tbl_indexes tbl_columns Index_mount
                            idx_name idx_table idx_columns].
    split; [apply map_get_set_same|].
    split; [intros n Hn; apply map_get_set_other; congruence|].
    split; [apply map_keys_set|]. auto.
Qed.

(** *** Primary-key slots *)

Lemma array_get_set_same {A} (l : list (option A)) (n : nat) (x : A) :
  array_get (array_set l n x) n = Some x.
Proof.
  unfold array_get. revert l; induction n as [|n IH]; intros [|y r]; simpl;
    auto.
Qed.

Lemma array_get_set_other {A} (l : list (option A)) (n k : nat) (x : A) :
  k <> n -> array_get (array_set l n x) k = array_get l k.
Proof.
  unfold array_get. revert l k; induction n as [|n IH]; intros [|y r] [|k] H;
    simpl; try congruence; try reflexivity.
  - destruct k; reflexivity.
  - rewrite IH by congruence. destruct k; reflexivity.
  - apply IH. congruence.
Qed.

Lemma indexOf_array_set (c : Column) (l : list (option Column)) (n : nat)
    (k : Z) :
  ~ in_primaryKey c l ->
  indexOf c (array_set l n c) k = (k + Z.of_nat n)%Z.
Proof.
  revert l k; induction n as [|n IH]; intros l k Hnot.
  - assert (E : indexOf c (Some c :: tl l) k = k).
    { simpl. unfold Column_same. rewrite Nat.eqb_refl. reflexivity. }
    destruct l; simpl array_set; simpl tl in E; rewrite E; lia.
  - destruct l as [|y r]; cbn [array_set indexOf].
    + rewrite IH; [lia|]. intros [x [[] _]].
    + assert (Hr : ~ in_primaryKey c r).
      { intros [x [Hx E]]. apply Hnot. exists x. split; [right|]; assumption. }
      destruct y as [x|].
      * destruct (Column_same x c) eqn:E.
        -- exfalso. apply Hnot. exists x. split; [left; reflexivity|exact E].
        -- rewrite IH by exact Hr. lia.
      * rewrite IH by exact Hr. lia.
Qed.

Lemma indexOf_absent (c : Column) (l : list (option Column)) (k : Z) :
  ~ in_primaryKey c l -> indexOf c l k = (-1)%Z.
Proof.
  revert k; induction l as [|y r IH]; intros k Hnot; [reflexivity|].
  assert (Hr : ~ in_primaryKey c r).
  { intros [x [Hx E]]. apply Hnot. exists x. split; [right|]; assumption. }
  destruct y as [x|]; cbn [indexOf]; [|apply IH, Hr].
  destruct (Column_same x c) eqn:E; [|apply IH, Hr].
  exfalso. apply Hnot. exists x. split; [left; reflexivity|exact E].
Qed.

(** [X24] When [setColumnNameAsPrimaryKey] returns, for a slot number of
    at most 2^53, the name is a column of the table and the slot number is
    at least 1.  Up to slot 2^32 - 1 the slot was free, the column now
    fills it, every other slot is as before, and if the column is mounted
    and was not in the primary key, [primaryKeyIndex] gives the slot
    number back.  From slot 2^32 on, the slot is no element of the array:
    the primary key is as before, and [primaryKeyIndex] gives 0 for a
    mounted column that was not in the primary key. *)
Theorem primaryKey_slot_round_trip
    (t t' : Table) (name : string) (i : Z)
    (Hsafe : (i <= 9007199254740992)%Z)
    (H : setColumnNameAsPrimaryKey t name i = Ok t') :
  exists column,
    getColumn t name = Ok column /\ (1 <= i)%Z
    /\ ((i <= 4294967295)%Z ->
        array_get (tbl_primaryKey t) (Z.to_nat (i - 1)) = None
        /\ array_get (tbl_primaryKey t') (Z.to_nat (i - 1)) = Some column
        /\ (forall k, k <> Z.to_nat (i - 1) ->
                      array_get (tbl_primaryKey t') k
                      = array_get (tbl_primaryKey t) k)
        /\ (col_table column <> None ->
            ~ in_primaryKey column (tbl_primaryKey t) ->
            primaryKeyIndex t' column = Ok i))
    /\ ((4294967296 <= i)%Z ->
        tbl_primaryKey t' = tbl_primaryKey t
        /\ (col_table column <> None ->
            ~ in_primaryKey column (tbl_primaryKey t) ->
            primaryKeyIndex t' column = Ok 0%Z)).
Proof.
  unfold setColumnNameAsPrimaryKey in H.
  apply bind_Ok in H. destruct H as [column [Hc H]].
  exists column. split; [exact Hc|].
  unfold setColumnAsPrimaryKey, maxArrayIndex in H.
  destruct (Z.ltb_spec (i - 1) 0) as [Hlt|Hge]; [discriminate H|].
  split; [lia|].
  destruct (Z.leb_spec (i - 1) 4294967294) as [Hle|Hgt].
  - split; [intros _|intros Hbig; lia].
    destruct (array_get (tbl_primaryKey t) (Z.to_nat (i - 1))) eqn:G;
      [discriminate H|].
    injection H as <-. cbn [with_primaryKey tbl_primaryKey].
    split; [reflexivity|].
    split; [apply array_get_set_same|].
    split; [intros k Hk; apply array_get_set_other; exact Hk|].
    intros Hm Hnot. unfold primaryKeyIndex.
    destruct (col_table column); [|congruence].
    cbn [ownerTable bind with_primaryKey tbl_primaryKey].
    rewrite (indexOf_array_set column _ _ 0 Hnot). f_equal. lia.
  - split; [intros Hsmall; lia|intros _].
    destruct (property_get (i - 1) (tbl_primaryKeyProperties t));
      [discriminate H|].
    injection H as <-. cbn [with_primaryKeyProperties tbl_primaryKey].
    split; [reflexivity|].
    intros Hm Hnot. unfold primaryKeyIndex.
    destruct (col_table column); [|congruence].
    cbn [ownerTable bind with_primaryKeyProperties tbl_primaryKey].
    rewrite (indexOf_absent column _ 0 Hnot). reflexivity.
Qed.

Lemma primaryKey_slot_round_trip_witness :
  (exists t',
     setColumnNameAsPrimaryKey Examples.users "name" 2 = Ok t'
     /\ primaryKeyIndex t' Examples.users_name = Ok 2%Z)
  /\ exists t',
       setColumnNameAsPrimaryKey Examples.users "name" 4294967296 = Ok t'
       /\ primaryKeyIndex t' Examples.users_name = Ok 0%Z.
Proof.
  assert (Hnot : ~ in_primaryKey Examples.users_name
                     (tbl_primaryKey Examples.users)).
  { intros [x [[E|[]] S]]. injection E as <-. discriminate S. }
  split.
  - eexists. split; [reflexivity|].
    destruct (primaryKey_slot_round_trip Examples.users _ "name" 2
                ltac:(lia) eq_refl)
      as [column [Hc [_ [K _]]]].
    injection Hc as <-. apply K; [lia|discriminate|exact Hnot].
  - eexists. split; [reflexivity|].
    destruct (primaryKey_slot_round_trip Examples.users _ "name" 4294967296
                ltac:(lia) eq_refl)
      as [column [Hc [_ [_ K]]]].
    injection Hc as <-. apply K; [lia|discriminate|exact Hnot].
Defined.

(** *** Tables of a snapshot *)

Lemma Table_new_linked (id : nat) (name : string) :
  Table_linked (Table_new id name).
Proof. constructor; simpl; constructor. Qed.

(** [X25] [createTable] and [getTable]: creating a table under a name that
    the snapshot already has throws and names it; otherwise the new, empty
    table is stored after the tables that were there, [getTable] finds it
    under its name and every other name as before, and a linked snapshot
    stays linked.  [getTable] throws on a name that no table has. *)
Theorem createTable_then_getTable
    (id : nat) (d : Definitions) (name : string) :
  (map_has name (tables d) = true ->
   createTable id d name = Throw (tpl ["Duplicate table: "; name]))
  /\ (map_has name (tables d) = false ->
      exists d',
        createTable id d name = Ok (d', Table_new id name)
        /\ getTable d' name = Ok (Table_new id name)
        /\ (forall n, n <> name -> getTable d' n = getTable d n)
        /\ map_values (tables d')
           = map_values (tables d) ++ [Table_new id name]
        /\ (Definitions_linked d -> Definitions_linked d'))
  /\ (forall n, map_has n (tables d) = false ->
                getTable d n = Throw (tpl ["Table not found: "; n])).
Proof.
  unfold createTable, addTable, getTable. cbn [Table_new tbl_name].
  split; [|split].
  - intros ->. reflexivity.
  - intros H. rewrite H. eexists. split; [reflexivity|].
    cbn [tables].
    pose proof (map_set_values_absent name (Table_new id name) (tables d) H)
      as Ev.
    split; [rewrite map_get_set_same; reflexivity|].
    split; [intros n Hn; rewrite map_get_set_other by congruence;
            reflexivity|].
    split; [exact Ev|].
    intros L. constructor; cbn [tables].
    + apply map_set_entries; [apply (tables_keyed L)|reflexivity].
    + apply map_set_keys_NoDup. apply (tables_distinct L).
    + apply map_set_values; [apply Table_new_linked|apply (tables_linked L)].
    + unfold allColumns. cbn [tables]. rewrite Ev, flat_map_app. simpl.
      rewrite app_nil_r. apply (columns_distinct L).
    + unfold allIndexes. cbn [tables]. rewrite Ev, flat_map_app. simpl.
      rewrite app_nil_r. apply (indexes_distinct L).
  - intros n H. unfold map_has in H.
    destruct (map_get n (tables d)); [discriminate H|reflexivity].
Qed.

Lemma createTable_then_getTable_witness :
  createTable 20 Examples.blog "users" = Throw "Duplicate table: users"
  /\ exists d',
       createTable 20 Examples.blog "tags" = Ok (d', Table_new 20 "tags")
       /\ getTable d' "tags" = Ok (Table_new 20 "tags")
       /\ Definitions_linked d'.
Proof.
  destruct (createTable_then_getTable 20 Examples.blog "users") as [H1 _].
  destruct (createTable_then_getTable 20 Examples.blog "tags")
    as [_ [H2 _]].
  split; [apply H1; reflexivity|].
  destruct (H2 eq_refl) as [d' [E1 [E2 [_ [_ L]]]]].
  exists d'. split; [exact E1|]. split; [exact E2|]. apply L, blog_linked.
Defined.

(** *** Equal columns *)

Lemma flat_map_nil_iff {A B} (f : A -> list B) (xs : list A) :
  flat_map f xs = [] <-> forall x, In x xs -> f x = [].
Proof.
  split; [|apply flat_map_nil].
  induction xs as [|x r IH]; simpl; [contradiction|].
  intros H y [<-|Hy]; apply app_eq_nil in H; [apply H|apply IH; tauto].
Qed.

(** [X26] For a [to] table whose columns are stored under their names,
    [getTablesToRecreate] finds no changed column between two tables
    exactly when every column of the [from] table that the [to] table has
    by name [equals] its namesake: the column loop of the diff and
    [Column.equals] compare the same attributes. *)
Theorem no_column_reason_iff_columns_equal
    (fromTable toTable : Table)
    (K : Forall (fun e => fst e = col_name (snd e)) (tbl_columns toTable)) :
  columnReasons fromTable toTable = []
  <-> forall column toColumn,
        In column (map_values (tbl_columns fromTable)) ->
        map_get (col_name column) (tbl_columns toTable) = Some toColumn ->
        Column_equals column toColumn = true.
Proof.
  unfold columnReasons. rewrite flat_map_nil_iff.
  assert (E : forall column toColumn,
             map_get (col_name column) (tbl_columns toTable) = Some toColumn ->
             (col_name column =? col_name toColumn) = true).
  { intros column toColumn G. apply map_get_In in G.
    rewrite Forall_forall in K. pose proof (K _ G) as Ek. simpl in Ek.
    rewrite <- Ek. apply String.eqb_refl. }
  split.
  - intros H column toColumn Hc G. specialize (H column Hc).
    rewrite G in H. unfold Column_equals. rewrite (E _ _ G).
    destruct (ColumnType_eqb (col_type column) (col_type toColumn));
      [|discriminate H].
    destruct (Bool.eqb (col_notNull column) (col_notNull toColumn));
      [|discriminate H].
    destruct (nullable_eqb (col_defaultValue column)
                (col_defaultValue toColumn)); [reflexivity|discriminate H].
  - intros H column Hc.
    destruct (map_get (col_name column) (tbl_columns toTable))
      as [toColumn|] eqn:G; [|reflexivity].
    specialize (H column toColumn Hc G). unfold Column_equals in H.
    rewrite (E _ _ G) in H.
    destruct (ColumnType_eqb (col_type column) (col_type toColumn));
      [|discriminate H].
    destruct (Bool.eqb (col_notNull column) (col_notNull toColumn));
      [|discriminate H].
    destruct (nullable_eqb (col_defaultValue column)
                (col_defaultValue toColumn)); [reflexivity|discriminate H].
Qed.

Lemma no_column_reason_iff_columns_equal_witness :
  columnReasons Examples.users Examples.users4 = []
  /\ Column_equals Examples.users_id Examples.users4_id = true.
Proof.
  split; [reflexivity|].
  apply (proj1 (no_column_reason_iff_columns_equal Examples.users
                  Examples.users4
                  ltac:(repeat constructor))
           eq_refl Examples.users_id Examples.users4_id
           (or_introl eq_refl) eq_refl).
Defined.
(** ** What one direction adds, the other removes *)

(** [X27] The two directions of a diff mirror each other on tables: when
    the tables of each snapshot are distinct objects, the tables added
    from [a] to [b] are the tables removed from [b] to [a], in the same
    order, and the other way round. *)
Theorem added_and_removed_tables_mirror
    (newId1 newId2 : nat -> string) (a b : Definitions)
    (options1 options2 : option DifferencesOptions)
    (s1 s2 : PushSummary) (ops1 ops2 : list Operation)
    (Da : Tables_distinct a) (Db : Tables_distinct b)
    (H1 : differences newId1 a b options1 = Ok (s1, ops1))
    (H2 : differences newId2 b a options2 = Ok (s2, ops2)) :
  addedTables s1 = removedTables s2 /\ removedTables s1 = addedTables s2.
Proof.
  apply differences_runs in H1, H2.
  destruct H1 as [t1 [_ E1]]. destruct H2 as [t2 [_ E2]].
  unfold outcome in E1, E2. injection E1 as -> _. injection E2 as -> _.
  cbn [addedTables removedTables].
  rewrite (getTablesToAdd_distinct a b Db), (getTablesToAdd_distinct b a Da).
  split; reflexivity.
Qed.

Lemma added_and_removed_tables_mirror_witness :
  exists s1 ops1 s2 ops2,
    differences Examples.idsA Examples.users_only Examples.blog None
    = Ok (s1, ops1)
    /\ differences Examples.idsA Examples.blog Examples.users_only None
       = Ok (s2, ops2)
    /\ addedTables s1 = ["posts"] /\ addedTables s1 = removedTables s2.
Proof.
  eexists. eexists. eexists. eexists.
  split; [vm_compute; reflexivity|]. split; [vm_compute; reflexivity|].
  split; [reflexivity|].
  apply (proj1 (added_and_removed_tables_mirror Examples.idsA Examples.idsA
                  Examples.users_only Examples.blog None None _ _ _ _
                  ltac:(repeat constructor; simpl; intuition discriminate)
                  ltac:(repeat constructor; simpl; intuition discriminate)
                  eq_refl eq_refl)).
Defined.

(** ** Comparisons that ignore the order of columns *)

Lemma Ascii_compare_refl (a : ascii) : Ascii.compare a a = Eq.
Proof. unfold Ascii.compare. apply N.compare_refl. Qed.

Lemma String_compare_le_trans (a b c : string) :
  String.compare a b <> Gt -> String.compare b c <> Gt ->
  String.compare a c <> Gt.
Proof.
  revert b c; induction a as [|x a IH]; intros [|y b] [|z c]; simpl;
    try congruence.
  destruct (Ascii.compare x y) eqn:Exy; destruct (Ascii.compare y z) eqn:Eyz;
    try congruence.
  - apply Ascii.compare_eq_iff in Exy, Eyz. subst.
    rewrite Ascii_compare_refl. apply IH.
  - apply Ascii.compare_eq_iff in Exy. subst. rewrite Eyz. congruence.
  - apply Ascii.compare_eq_iff in Eyz. subst. rewrite Exy. congruence.
  - unfold Ascii.compare in *. rewrite N.compare_lt_iff in *.
    assert (N_of_ascii x < N_of_ascii z)%N as L by lia.
    apply N.compare_lt_iff in L. rewrite L. congruence.
Qed.

Lemma String_leb_trans (a b c : string) :
  String.leb a b = true -> String.leb b c = true -> String.leb a c = true.
Proof.
  unfold String.leb. intros H1 H2.
  pose proof (String_compare_le_trans a b c) as T.
  destruct (String.compare a b); destruct (String.compare b c);
    destruct (String.compare a c); try reflexivity; try discriminate;
    exfalso; apply T; congruence.
Qed.

Lemma sort_insert_permutation (x : string) (l : list string) :
  Permutation (x :: l) (sort_insert x l).
Proof.
  induction l as [|y r IH]; simpl; [reflexivity|].
  destruct (String.leb x y); [reflexivity|].
  rewrite perm_swap. apply perm_skip. exact IH.
Qed.

Lemma sort_permutation (l : list string) : Permutation l (sort l).
Proof.
  induction l as [|x r IH]; simpl; [constructor|].
  rewrite <- sort_insert_permutation. apply perm_skip. exact IH.
Qed.

Lemma sort_insert_sorted (x : string) (l : list string) :
  StronglySorted (fun a b => String.leb a b = true) l ->
  StronglySorted (fun a b => String.leb a b = true) (sort_insert x l).
Proof.
  induction 1 as [|y r S IH F]; simpl.
  - constructor; constructor.
  - destruct (String.leb x y) eqn:E.
    + constructor; [constructor; assumption|].
      constructor; [exact E|].
      eapply Forall_impl; [|exact F]. intros z Hz.
      apply (String_leb_trans x y z E Hz).
    + constructor; [exact IH|].
      assert (Hyx : String.leb y x = true).
      { destruct (String.leb_total x y) as [K|K]; [congruence|exact K]. }
      apply Forall_forall. intros z Hz.
      apply (Permutation_in _ (Permutation_sym (sort_insert_permutation x r)))
        in Hz.
      destruct Hz as [<-|Hz]; [exact Hyx|].
      rewrite Forall_forall in F. apply F, Hz.
Qed.

Lemma sort_sorted (l : list string) :
  StronglySorted (fun a b => String.leb a b = true) (sort l).
Proof.
  induction l as [|x r IH]; simpl; [constructor|].
  apply sort_insert_sorted. exact IH.
Qed.

Lemma sorted_permutation_eq (l1 l2 : list string) :
  StronglySorted (fun a b => String.leb a b = true) l1 ->
  StronglySorted (fun a b => String.leb a b = true) l2 ->
  Permutation l1 l2 -> l1 = l2.
Proof.
  intros S1; revert l2; induction S1 as [|x r1 S1 IH F1]; intros l2 S2 P.
  - apply Permutation_nil in P. symmetry. exact P.
  - destruct S2 as [|y r2 S2 F2].
    + apply Permutation_sym, Permutation_nil in P. discriminate P.
    + assert (x = y) as <-.
      { assert (Hx : In x (y :: r2))
          by (apply (Permutation_in _ P); left; reflexivity).
        assert (Hy : In y (x :: r1))
          by (apply (Permutation_in _ (Permutation_sym P)); left;
              reflexivity).
        destruct Hx as [E|Hx]; [congruence|].
        destruct Hy as [E|Hy]; [congruence|].
        rewrite Forall_forall in F1, F2.
        apply String.leb_antisym; [apply F1, Hy|apply F2, Hx]. }
      f_equal. apply IH; [exact S2|].
      apply (Permutation_cons_inv P).
Qed.

Lemma sort_of_permutation (l1 l2 : list string) :
  Permutation l1 l2 -> sort l1 = sort l2.
Proof.
  intros P. apply sorted_permutation_eq; try apply sort_sorted.
  rewrite <- (sort_permutation l1), <- (sort_permutation l2). exact P.
Qed.

Lemma constant_permutation_eq (a : string) (l1 l2 : list string) :
  Forall (eq a) l1 -> Permutation l1 l2 -> l1 = l2.
Proof.
  intros F P.
  assert (F2 : Forall (eq a) l2).
  { apply Forall_forall. intros x Hx. rewrite Forall_forall in F.
    apply F. apply (Permutation_in _ (Permutation_sym P) Hx). }
  apply Permutation_length in P. revert l2 F2 P.
  induction F as [|x r <- F IH]; intros [|y r2] F2 P; try discriminate P;
    [reflexivity|].
  inversion F2 as [|? ? <- F2']; subst. f_equal. apply IH; [exact F2'|].
  simpl in P. lia.
Qed.

Lemma elements_names (l : list (option Column)) :
  List.map col_name (elements l)
  = elements (List.map (option_map col_name) l).
Proof.
  unfold elements. induction l as [|[c|] r IH]; simpl; rewrite ?IH;
    reflexivity.
Qed.

Lemma holes_names (l : list (option Column)) :
  holes l = holes (List.map (option_map col_name) l).
Proof.
  unfold holes. induction l as [|[c|] r IH]; simpl; rewrite ?IH;
    reflexivity.
Qed.

Lemma elements_permutation (l1 l2 : list (option Column)) :
  Permutation (List.map (option_map col_name) l1)
    (List.map (option_map col_name) l2) ->
  Permutation (List.map col_name (elements l1))
    (List.map col_name (elements l2)).
Proof.
  intros P. rewrite !elements_names. unfold elements.
  apply Permutation_flat_map. exact P.
Qed.

(** The text of a list of columns depends on the names only, and not on
    their order. *)
Lemma columnsListText_permutation (l1 l2 : list (option Column)) :
  Permutation (List.map (option_map col_name) l1)
    (List.map (option_map col_name) l2) ->
  columnsListText l1 = columnsListText l2.
Proof.
  intros P. unfold columnsListText.
  rewrite <- !(map_map col_name percentEncode).
  rewrite (sort_of_permutation _ _
             (Permutation_map percentEncode (elements_permutation _ _ P))).
  rewrite !holes_names.
  assert (Fg : Forall (eq "")
                 (holes (List.map (option_map col_name) l1))).
  { apply Forall_forall. intros x Hx. unfold holes in Hx.
    apply in_flat_map in Hx.
    destruct Hx as [[n|] [_ Hx]]; [contradiction|].
    destruct Hx as [<-|[]]. reflexivity. }
  rewrite (constant_permutation_eq "" _ _ Fg
             (Permutation_flat_map _ P)).
  reflexivity.
Qed.

(** Lists of columns with the same names are encodable together. *)
Lemma Columns_encodable_permutation (l1 l2 : list Column) :
  Permutation (List.map col_name l1) (List.map col_name l2) ->
  Columns_encodable l1 -> Columns_encodable l2.
Proof.
  unfold Columns_encodable. intros P E.
  rewrite Forall_forall in *. intros c Hc.
  assert (Hn : In (col_name c) (List.map col_name l1)).
  { apply (Permutation_in _ (Permutation_sym P)). apply in_map. exact Hc. }
  apply in_map_iff in Hn. destruct Hn as [c' [<- Hc']]. apply E, Hc'.
Qed.

Lemma primaryKeysSame_permutation (from to : Table) :
  Permutation (List.map (option_map col_name) (tbl_primaryKey from))
    (List.map (option_map col_name) (tbl_primaryKey to)) ->
  primaryKeysSame from to = true.
Proof.
  intros P. unfold primaryKeysSame.
  rewrite (columnsListText_permutation _ _ P). apply String.eqb_refl.
Qed.

Lemma uniquesSame_permutation (from to : Table) :
  Forall2 (fun u1 u2 =>
      Permutation (List.map col_name (uq_columns u1))
        (List.map col_name (uq_columns u2)))
    (tbl_uniques from) (tbl_uniques to) ->
  uniquesSame from to = true.
Proof.
  intros F. unfold uniquesSame, uniquesText.
  replace (List.map uniqueText (tbl_uniques to))
    with (List.map uniqueText (tbl_uniques from));
    [apply String.eqb_refl|].
  induction F as [|u1 u2 r1 r2 P F IH]; simpl; [reflexivity|].
  f_equal; [|exact IH]. unfold uniqueText.
  apply columnsListText_permutation.
  rewrite !map_map. simpl.
  rewrite <- !(map_map col_name (@Some string)).
  apply Permutation_map. exact P.
Qed.

(** A table enters the plan in the iteration of a table of its name that
    [to] has, and that has a column reason or a structural change. *)
Lemma planStepOf_recreate_cause to references added plan t n :
  In n (tablesToRecreate (planStepOf to references added plan t)) ->
  In n (tablesToRecreate plan)
  \/ (n = tbl_name t
      /\ exists toTable,
           map_get (tbl_name t) (tables to) = Some toTable
           /\ (columnReasons t toTable <> []
               \/ structuralChange added t (changesOf t toTable) = true)).
Proof.
  unfold planStepOf, planStep.
  destruct (map_get (tbl_name t) (tables to)) as [toTable|] eqn:E; [|auto].
  destruct (columnReasons t toTable) as [|r0 rs] eqn:C;
    destruct (structuralChange added t (changesOf t toTable)) eqn:S.
  - destruct (0 <? _)%nat; simpl; [|auto].
    intros H. apply set_add_incl in H. destruct H as [->|H]; [right|auto].
    split; [reflexivity|]. exists toTable. auto.
  - simpl. auto.
  - destruct (0 <? _)%nat; simpl; [|auto].
    intros H. apply set_add_incl in H. destruct H as [->|H]; [right|auto].
    split; [reflexivity|]. exists toTable. auto.
  - destruct (0 <? _)%nat; simpl; [|auto].
    intros H. apply set_add_incl in H. destruct H as [->|H]; [right|auto].
    split; [reflexivity|]. exists toTable. split; [reflexivity|].
    left. rewrite C. discriminate.
Qed.

Lemma fold_planStepOf_recreate_cause to references added l plan n :
  In n (tablesToRecreate
          (fold_left (planStepOf to references added) l plan)) ->
  In n (tablesToRecreate plan)
  \/ exists t toTable,
       In t l /\ n = tbl_name t
       /\ map_get (tbl_name t) (tables to) = Some toTable
       /\ (columnReasons t toTable <> []
           \/ structuralChange added t (changesOf t toTable) = true).
Proof.
  revert plan; induction l as [|t r IH]; intros plan; simpl; [auto|].
  intros H. destruct (IH _ H) as [H1|[x [toTable [Hx K]]]].
  - apply planStepOf_recreate_cause in H1.
    destruct H1 as [H1|[-> [toTable K]]]; [auto|].
    right. exists t, toTable. split; [left; reflexivity|].
    split; [reflexivity|exact K].
  - right. exists x, toTable. split; [right; exact Hx|exact K].
Qed.

(** [X28] The diff does not see the order of the columns of a primary key
    or of a unique.  For two tables whose primary keys hold the same
    column names in any order, [primaryKeysEqual] returns true when the
    names can be encoded; for two tables whose uniques hold, one by one,
    the same column names in any order, so does [uniquesEqual].  Such a
    reordering alone never triggers a recreation: in a diff that returns,
    a table of [from] that is the only one of its name is not recreated
    when its namesake in [to] has the same primary key and uniques up to
    the order of their columns and foreign keys that compare equal, no
    column of the table gives a reason, no column is added to it and it
    has no unique index. *)
Theorem column_order_is_not_compared :
  (forall from to,
     Columns_encodable (elements (tbl_primaryKey from)) ->
     Permutation (List.map (option_map col_name) (tbl_primaryKey from))
       (List.map (option_map col_name) (tbl_primaryKey to)) ->
     primaryKeysEqual from to = Ok true)
  /\ (forall from to,
        Forall (fun u => Columns_encodable (uq_columns u))
          (tbl_uniques from) ->
        Forall2 (fun u1 u2 =>
            Permutation (List.map col_name (uq_columns u1))
              (List.map col_name (uq_columns u2)))
          (tbl_uniques from) (tbl_uniques to) ->
        uniquesEqual from to = Ok true)
  /\ (forall newId from to options s ops fromTable toTable,
        differences newId from to options = Ok (s, ops) ->
        NoDup (List.map tbl_name (map_values (tables from))) ->
        In fromTable (map_values (tables from)) ->
        map_get (tbl_name fromTable) (tables to) = Some toTable ->
        Permutation
          (List.map (option_map col_name) (tbl_primaryKey fromTable))
          (List.map (option_map col_name) (tbl_primaryKey toTable)) ->
        Forall2 (fun u1 u2 =>
            Permutation (List.map col_name (uq_columns u1))
              (List.map col_name (uq_columns u2)))
          (tbl_uniques fromTable) (tbl_uniques toTable) ->
        foreignKeysEqual fromTable toTable = Ok true ->
        columnReasons fromTable toTable = [] ->
        (forall c, In c (getColumnsToAdd from to) ->
                   ownerName (col_table c) <> Ok (tbl_name fromTable)) ->
        hasUniqueIndexes fromTable = false ->
        ~ In (tbl_name fromTable) (recreatedTables s)).
Proof.
  split; [|split].
  - intros from to E P. unfold primaryKeysEqual.
    rewrite (stringifyColumnsList_encodable _ E).
    rewrite (stringifyColumnsList_encodable (tbl_primaryKey to)
               (Columns_encodable_permutation _ _
                  (elements_permutation _ _ P) E)).
    cbn [bind]. f_equal. apply (primaryKeysSame_permutation from to P).
  - intros from to E F. unfold uniquesEqual.
    rewrite (stringifyUniques_encodable _ E).
    assert (E' : Forall (fun u => Columns_encodable (uq_columns u))
                   (tbl_uniques to)).
    { clear - E F. induction F as [|u1 u2 r1 r2 P F IH]; [constructor|].
      inversion E as [|? ? E1 E2]; subst. constructor; [|apply IH, E2].
      apply (Columns_encodable_permutation _ _ P E1). }
    rewrite (stringifyUniques_encodable _ E').
    cbn [bind]. f_equal. apply (uniquesSame_permutation from to F).
  - intros newId from to options s ops fromTable toTable H ND Hin Hget
           Ppk Puq Hfk Hcol Hadd Huix Hrec.
    apply differences_runs in H. destruct H as [t [R E]].
    unfold outcome in E. injection E as -> _.
    cbn [recreatedTables] in Hrec.
    destruct (@getTablesToRecreate_Ok _ _ _ (run_plan R))
      as [owners [Hown Eplan]].
    rewrite Eplan in Hrec.
    apply fold_planStepOf_recreate_cause in Hrec.
    destruct Hrec as [[]|[x [toTable' [Hx [En [Hget' Hcause]]]]]].
    assert (x = fromTable) as ->.
    { apply (@NoDup_map_injective _ _ tbl_name (map_values (tables from)));
        [exact ND|exact Hx|exact Hin|symmetry; exact En]. }
    rewrite Hget in Hget'. injection Hget' as <-.
    destruct Hcause as [Hc|Hs]; [apply Hc, Hcol|].
    unfold structuralChange, changesOf in Hs.
    cbn [pkChanged uniquesChanged fksChanged] in Hs.
    rewrite (primaryKeysSame_permutation _ _ Ppk) in Hs.
    rewrite (uniquesSame_permutation _ _ Puq) in Hs.
    rewrite <- (foreignKeysEqual_Ok _ _ _ Hfk) in Hs.
    rewrite Huix in Hs. cbn [negb orb] in Hs.
    apply String_set_has in Hs. apply Set_from_incl in Hs.
    destruct (Forall2_In_r (@mapM_Ok _ _ _ _ _ Hown) Hs) as [c [Hc Ho]].
    apply (Hadd c Hc Ho).
Qed.

Lemma column_order_is_not_compared_witness :
  primaryKeysEqual
    (with_primaryKey Examples.users
       [Some Examples.users_id; Some Examples.users_name])
    (with_primaryKey Examples.users
       [Some Examples.users_name; Some Examples.users_id]) = Ok true
  /\ uniquesEqual
       (with_uniques Examples.users
          [mkUnique [Examples.users_id; Examples.users_name] None])
       (with_uniques Examples.users
          [mkUnique [Examples.users_name; Examples.users_id] None])
     = Ok true
  /\ exists s ops,
       differences Examples.idsA
         {| tables :=
              [("users",
                with_primaryKey Examples.users
                  [Some Examples.users_id; Some Examples.users_name])] |}
         {| tables :=
              [("users",
                with_primaryKey Examples.users
                  [Some Examples.users_name; Some Examples.users_id])] |}
         None = Ok (s, ops)
       /\ ~ In "users" (recreatedTables s).
Proof.
  split; [|split].
  - apply (proj1 column_order_is_not_compared).
    + repeat constructor.
    + simpl. apply perm_swap.
  - apply (proj1 (proj2 column_order_is_not_compared)).
    + repeat constructor.
    + constructor; [|constructor]. simpl. apply perm_swap.
  - eexists. eexists. split; [vm_compute; reflexivity|].
    eapply (proj2 (proj2 column_order_is_not_compared) Examples.idsA
             {| tables :=
                  [("users",
                    with_primaryKey Examples.users
                      [Some Examples.users_id; Some Examples.users_name])] |}
             {| tables :=
                  [("users",
                    with_primaryKey Examples.users
                      [Some Examples.users_name; Some Examples.users_id])] |}
             None _ _
             (with_primaryKey Examples.users
                [Some Examples.users_id; Some Examples.users_name])
             (with_primaryKey Examples.users
                [Some Examples.users_name; Some Examples.users_id])).
    + vm_compute; reflexivity.
    + repeat constructor. intros [].
    + left. reflexivity.
    + reflexivity.
    + simpl. apply perm_swap.
    + constructor.
    + reflexivity.
    + reflexivity.
    + intros c [].
    + reflexivity.
Defined.
(** ** Snapshots built from a drizzle schema *)

Lemma NoDup_app_iff {A} (l1 l2 : list A) :
  NoDup (l1 ++ l2)
  <-> NoDup l1 /\ NoDup l2 /\ (forall a, In a l1 -> ~ In a l2).
Proof.
  split.
  - intros H. split; [apply (NoDup_app_remove_r _ _ H)|].
    split; [apply (NoDup_app_remove_l _ _ H)|].
    induction l1 as [|x r IH]; [intros a []|].
    simpl in H. inversion H as [|? ? Hn ND]; subst.
    intros a [<-|Ha] Ha2.
    + apply Hn. apply in_or_app. right. exact Ha2.
    + apply (IH ND a Ha Ha2).
  - intros [H1 [H2 H3]]. apply NoDup_app; assumption.
Qed.

(** Replacing a segment of a list of objects with distinct identities by
    objects of the segment and new objects keeps the identities
    distinct. *)
Lemma NoDup_replace {A} (f : A -> nat) (P X X' Q : list A) (n0 : nat) :
  NoDup (List.map f (P ++ X ++ Q)) ->
  Forall (fun y => f y < n0) (P ++ X ++ Q) ->
  NoDup (List.map f X') ->
  Forall (fun x => In x X \/ n0 <= f x) X' ->
  NoDup (List.map f (P ++ X' ++ Q)).
Proof.
  rewrite !map_app, !NoDup_app_iff. intros [NP [[NX [NQ DXQ]] DP]] B NX' F.
  rewrite !Forall_app in B. destruct B as [BP [BX BQ]].
  rewrite Forall_forall in BP, BQ, F.
  assert (K : forall a, In a (List.map f X') ->
                        In a (List.map f X) \/ n0 <= a).
  { intros a Ha. apply in_map_iff in Ha. destruct Ha as [x [<- Hx]].
    destruct (F x Hx) as [H|H]; [left; apply in_map; exact H|right; exact H]. }
  assert (BQ' : forall a, In a (List.map f Q) -> a < n0).
  { intros a Ha. apply in_map_iff in Ha. destruct Ha as [x [<- Hx]]. auto. }
  assert (BP' : forall a, In a (List.map f P) -> a < n0).
  { intros a Ha. apply in_map_iff in Ha. destruct Ha as [x [<- Hx]]. auto. }
  split; [exact NP|]. split; [split; [exact NX'|split; [exact NQ|]]|].
  - intros a Ha HQ. destruct (K a Ha) as [H|H]; [apply (DXQ a H HQ)|].
    specialize (BQ' a HQ). lia.
  - intros a Ha Hin. apply in_app_or in Hin. destruct Hin as [Hin|Hin].
    + destruct (K a Hin) as [H|H].
      * apply (DP a Ha). apply in_or_app. left. exact H.
      * specialize (BP' a Ha). lia.
    + apply (DP a Ha). apply in_or_app. right. exact Hin.
Qed.

Lemma map_set_split {V} (k : string) (v v' : V) (m : JsMap V) :
  map_get k m = Some v ->
  exists m1 m2, m = m1 ++ (k, v) :: m2 /\ map_set k v' m = m1 ++ (k, v') :: m2.
Proof.
  induction m as [|[k' v0] r IH]; simpl; [discriminate|].
  destruct (String.eqb_spec k k') as [<-|Hne].
  - intros [= <-]. exists [], r. split; reflexivity.
  - intros G. destruct (IH G) as [m1 [m2 [E1 E2]]].
    exists ((k', v0) :: m1), m2. simpl. rewrite <- E1, <- E2.
    split; reflexivity.
Qed.

Lemma foldM_invariant {A S} (f : S -> A -> Result S) (Inv : S -> Prop)
    (xs : list A) (s s' : S) :
  (forall a b x, f a x = Ok b -> Inv a -> Inv b) ->
  foldM f xs s = Ok s' -> Inv s -> Inv s'.
Proof.
  intros Hf. revert s; induction xs as [|x r IH]; simpl; intros s H I.
  - injection H as <-. exact I.
  - apply bind_Ok in H. destruct H as [s1 [H1 H]].
    apply (IH s1 H). apply (Hf s s1 x H1 I).
Qed.

(** *** One table *)

Section Growth.
Variable n0 : nat.
Variable t0 : Table.
Hypothesis columns_before :
  Forall (fun c => col_id c < n0) (map_values (tbl_columns t0)).
Hypothesis indexes_before :
  Forall (fun i => idx_id i < n0) (map_values (tbl_indexes t0)).

Lemma Table_grown_weaken next next' t :
  next <= next' -> Table_grown n0 next t0 t -> Table_grown n0 next' t0 t.
Proof.
  intros Hle [H1 [H2 [H3 [H4 [H5 [H6 [H7 H8]]]]]]].
  repeat (split; [assumption|]). split.
  - eapply Forall_impl; [|exact H7]. intros c [H|H]; [auto|right; lia].
  - eapply Forall_impl; [|exact H8]. intros c [H|H]; [auto|right; lia].
Qed.

Lemma Table_grown_column_ids next t c :
  n0 <= next -> Table_grown n0 next t0 t ->
  In c (map_values (tbl_columns t)) -> col_id c < next.
Proof.
  intros Hle [_ [_ [_ [_ [_ [_ [H7 _]]]]]]] Hc.
  rewrite Forall_forall in H7, columns_before.
  destruct (H7 c Hc) as [H|H]; [|lia].
  specialize (columns_before c H). lia.
Qed.

Lemma Table_grown_index_ids next t i :
  n0 <= next -> Table_grown n0 next t0 t ->
  In i (map_values (tbl_indexes t)) -> idx_id i < next.
Proof.
  intros Hle [_ [_ [_ [_ [_ [_ [_ H8]]]]]]] Hc.
  rewrite Forall_forall in H8, indexes_before.
  destruct (H8 i Hc) as [H|H]; [|lia].
  specialize (indexes_before i H). lia.
Qed.

Lemma grown_addColumn next t column t' :
  n0 <= next -> col_id column = next ->
  Table_grown n0 next t0 t -> addColumn t column = Ok t' ->
  Table_grown n0 (S next) t0 t'.
Proof.
  intros Hle Hid G H.
  pose proof (fun c => Table_grown_column_ids next t c Hle G) as Below.
  destruct G as [H1 [H2 [H3 [H4 [H5 [H6 [H7 H8]]]]]]].
  pose proof (addColumn_linked _ _ _ H3 H) as L'.
  pose proof (addColumn_valid _ _ _ H4 H) as V'.
  unfold addColumn in H.
  destruct (map_has (col_name column) (tbl_columns t)) eqn:M; [discriminate|].
  injection H as <-.
  split; [exact H1|]. split; [exact H2|]. split; [exact L'|].
  split; [exact V'|].
  cbn [with_columns tbl_columns tbl_indexes].
  rewrite (map_set_values_absent _ _ _ M).
  split; [|split; [exact H6|split]].
  - rewrite map_app. apply NoDup_app; [exact H5| |].
    + constructor; [intros []|constructor].
    + intros a Ha [<-|[]]. apply in_map_iff in Ha.
      destruct Ha as [c [E Hc]]. specialize (Below c Hc).
      simpl in E. lia.
  - apply Forall_app. split.
    + eapply Forall_impl; [|exact H7]. intros c [K|K]; [auto|right; lia].
    + constructor; [|constructor]. right. simpl. lia.
  - eapply Forall_impl; [|exact H8]. intros c [K|K]; [auto|right; lia].
Qed.

Lemma grown_addUnique next t unique t' :
  Table_grown n0 next t0 t -> addUnique t unique = Ok t' ->
  Table_grown n0 next t0 t'.
Proof.
  intros [H1 [H2 [H3 [H4 [H5 [H6 [H7 H8]]]]]]] H.
  pose proof (addUnique_linked _ _ _ H3 H) as L'.
  pose proof (addUnique_valid _ _ _ H4 H) as V'.
  unfold addUnique in H. apply bind_Ok in H. destruct H as [_ [_ H]].
  injection H as <-. repeat (split; [assumption|]). assumption.
Qed.

Lemma grown_createUnique next t columns t' u :
  Table_grown n0 next t0 t -> createUnique t columns = Ok (t', u) ->
  Table_grown n0 next t0 t'.
Proof.
  intros G H. destruct (createUnique_inv _ _ _ _ H) as [cols [_ [_ [Ha _]]]].
  apply (grown_addUnique next t _ t' G Ha).
Qed.

Lemma grown_addForeignKey next t fk t' :
  Table_grown n0 next t0 t -> addForeignKey t fk = Ok t' ->
  Table_grown n0 next t0 t'.
Proof.
  intros [H1 [H2 [H3 [H4 [H5 [H6 [H7 H8]]]]]]] H.
  pose proof (addForeignKey_linked _ _ _ H3 H) as L'.
  pose proof (addForeignKey_valid _ _ _ H4 H) as V'.
  unfold addForeignKey in H. apply bind_Ok in H. destruct H as [_ [_ H]].
  injection H as <-. repeat (split; [assumption|]). assumption.
Qed.

Lemma grown_primaryKey next t pk :
  Table_grown n0 next t0 t ->
  Forall (fun slot =>
      exists c, slot = Some c /\ map_has (col_name c) (tbl_columns t) = true)
    pk ->
  Table_grown n0 next t0 (with_primaryKey t pk).
Proof.
  intros [H1 [H2 [H3 [H4 [H5 [H6 [H7 H8]]]]]]] Hpk.
  split; [exact H1|]. split; [exact H2|]. split.
  { constructor; apply H3. }
  split; [|repeat (split; [assumption|]); assumption].
  destruct H4 as [_ V]. split; [exact Hpk|exact V].
Qed.

Lemma getColumn_slot t name c :
  Table_linked t -> getColumn t name = Ok c ->
  map_has (col_name c) (tbl_columns t) = true.
Proof.
  intros L H. unfold getColumn in H.
  destruct (map_get name (tbl_columns t)) as [c'|] eqn:G; [|discriminate].
  injection H as <-. pose proof (columns_keyed L) as K.
  rewrite Forall_forall in K. pose proof (K _ (map_get_In _ _ G)) as E.
  simpl in E. rewrite <- E. unfold map_has. rewrite G. reflexivity.
Qed.

Lemma getColumns_slots t names cols :
  Table_linked t -> mapM (getColumn t) names = Ok cols ->
  Forall (fun slot =>
      exists c, slot = Some c /\ map_has (col_name c) (tbl_columns t) = true)
    (List.map Some cols).
Proof.
  intros L H. apply mapM_Ok in H.
  induction H as [|n c ns cs Hc F IH]; simpl; constructor; [|exact IH].
  exists c. split; [reflexivity|apply (getColumn_slot t n c L Hc)].
Qed.

Lemma map_set_values_incl {V} (k : string) (v x : V) (m : JsMap V) :
  In x (map_values (map_set k v m)) -> x = v \/ In x (map_values m).
Proof.
  unfold map_values. intros H. apply in_map_iff in H.
  destruct H as [[k' x'] [E H]]. simpl in E. subst x'.
  apply map_set_incl in H. destruct H as [[= _ ->]|H]; [auto|].
  right. apply in_map_iff. exists (k', x). auto.
Qed.

Lemma map_set_values_NoDup {V} (f : V -> nat) (k : string) (v : V)
    (m : JsMap V) :
  NoDup (List.map f (map_values m)) ->
  (forall x, In x (map_values m) -> f x <> f v) ->
  NoDup (List.map f (map_values (map_set k v m))).
Proof.
  unfold map_values. induction m as [|[k' v'] r IH]; simpl; intros ND Hne.
  - constructor; [intros []|constructor].
  - inversion ND as [|? ? Hn ND']; subst.
    destruct (k =? k'); simpl.
    + constructor; [|exact ND']. intros Hin. apply in_map_iff in Hin.
      destruct Hin as [x [E Hx]]. apply (Hne x); [right; exact Hx|exact E].
    + constructor.
      * intros Hin. apply in_map_iff in Hin. destruct Hin as [x [E Hx]].
        apply (map_set_values_incl k v x r) in Hx.
        destruct Hx as [->|Hx].
        -- apply (Hne v'); [left; reflexivity|symmetry; exact E].
        -- apply Hn. rewrite <- E. apply in_map. exact Hx.
      * apply IH; [exact ND'|]. intros x Hx. apply Hne. right. exact Hx.
Qed.

Lemma grown_addIndex next t index :
  n0 <= next -> idx_id index = next ->
  Table_grown n0 next t0 t -> Table_grown n0 (S next) t0 (addIndex t index).
Proof.
  intros Hle Hid G.
  pose proof (fun i => Table_grown_index_ids next t i Hle G) as Below.
  destruct G as [H1 [H2 [H3 [H4 [H5 [H6 [H7 H8]]]]]]].
  split; [exact H1|]. split; [exact H2|].
  split; [apply addIndex_linked; exact H3|].
  split; [apply addIndex_valid; exact H4|].
  unfold addIndex. cbn [with_indexes tbl_columns tbl_indexes].
  split; [exact H5|]. split; [|split].
  - apply map_set_values_NoDup; [exact H6|].
    intros x Hx. specialize (Below x Hx). simpl. lia.
  - eapply Forall_impl; [|exact H7]. intros c [K|K]; [auto|right; lia].
  - apply Forall_forall. intros x Hx. apply map_set_values_incl in Hx.
    destruct Hx as [->|Hx]; [right; simpl; lia|].
    rewrite Forall_forall in H8. destruct (H8 x Hx) as [K|K];
      [auto|right; lia].
Qed.

(** The loops over the columns, primary keys, indexes, uniques and
    foreign keys of one table. *)
Lemma grown_declareColumn a b column :
  declareColumn a column = Ok b ->
  n0 <= snd a /\ Table_grown n0 (snd a) t0 (fst a) ->
  n0 <= snd b /\ Table_grown n0 (snd b) t0 (fst b).
Proof.
  destruct a as [t next]. unfold declareColumn. cbn [fst snd].
  intros H [Hle G].
  apply bind_Ok in H. destruct H as [dv [_ H]].
  apply bind_Ok in H. destruct H as [ty [_ H]].
  apply bind_Ok in H. destruct H as [[t1 c1] [H1 H]].
  apply bind_Ok in H. destruct H as [t2 [H2 H]]. injection H as <-.
  cbn [fst snd]. split; [lia|].
  assert (G1 : Table_grown n0 (S next) t0 t1).
  { unfold createColumn in H1.
    apply bind_Ok in H1. destruct H1 as [ta [Ha H1]].
    apply bind_Ok in H1. destruct H1 as [tb [Hb H1]]. injection H1 as <- _.
    pose proof (fun E => grown_addColumn next t _ ta Hle E G Ha) as Ga.
    specialize (Ga eq_refl).
    cbn [co_unique co_name] in Hb. destruct (dc_isUnique column).
    - apply bind_Ok in Hb. destruct Hb as [[tc u] [Hc Hb]].
      injection Hb as <-. apply (grown_createUnique _ ta _ tc u Ga Hc).
    - injection Hb as <-. exact Ga. }
  cbn [fst] in H2. destruct (dc_primary column).
  - apply bind_Ok in H2. destruct H2 as [c [Hc H2]]. injection H2 as <-.
    apply grown_primaryKey; [exact G1|].
    destruct G1 as [_ [_ [L1 [[Vpk _] _]]]].
    apply Forall_app. split; [exact Vpk|].
    constructor; [|constructor]. exists c. split; [reflexivity|].
    apply (getColumn_slot t1 _ c L1 Hc).
  - injection H2 as <-. exact G1.
Qed.

Lemma grown_declarePrimaryKey next t pk t' :
  declarePrimaryKey t pk = Ok t' ->
  Table_grown n0 next t0 t -> Table_grown n0 next t0 t'.
Proof.
  unfold declarePrimaryKey. intros H G.
  destruct (negb (List.length (tbl_primaryKey t) =? 0)%nat).
  - injection H as <-. exact G.
  - apply bind_Ok in H. destruct H as [cols [Hc H]]. injection H as <-.
    assert (K : Table_grown n0 next t0
                  (with_primaryKey t (List.map Some cols))).
    2: { destruct K as [K1 [K2 [[L1 L2 L3 L4 L5 L6 L7] K4]]].
         split; [exact K1|]. split; [exact K2|].
         split; [constructor; assumption|exact K4]. }
    apply grown_primaryKey; [exact G|].
    destruct G as [_ [_ [L _]]]. apply (getColumns_slots t pk cols L Hc).
Qed.

Lemma grown_declareIndex a b idx :
  declareIndex a idx = Ok b ->
  n0 <= snd a /\ Table_grown n0 (snd a) t0 (fst a) ->
  n0 <= snd b /\ Table_grown n0 (snd b) t0 (fst b).
Proof.
  destruct a as [t next]. unfold declareIndex. cbn [fst snd].
  intros H [Hle G]. destruct (di_unique idx).
  - apply bind_Ok in H. destruct H as [[t1 u] [H1 H]]. injection H as <-.
    cbn [fst snd]. split; [exact Hle|].
    apply (grown_createUnique _ t _ t1 u G H1).
  - apply bind_Ok in H. destruct H as [[t1 i] [H1 H]]. injection H as <-.
    cbn [fst snd]. split; [lia|].
    unfold createIndex in H1. apply bind_Ok in H1.
    destruct H1 as [cols [_ H1]]. injection H1 as <- _.
    apply grown_addIndex; [exact Hle|reflexivity|exact G].
Qed.

Lemma grown_declareUnique next t unique t' :
  declareUnique t unique = Ok t' ->
  Table_grown n0 next t0 t -> Table_grown n0 next t0 t'.
Proof.
  unfold declareUnique. intros H G.
  apply bind_Ok in H. destruct H as [[t1 u] [H1 H]]. injection H as <-.
  apply (grown_createUnique _ t _ t1 u G H1).
Qed.

Lemma grown_declareForeignKey d next t fk t' :
  declareForeignKey d t fk = Ok t' ->
  Table_grown n0 next t0 t -> Table_grown n0 next t0 t'.
Proof.
  unfold declareForeignKey. intros H G.
  apply bind_Ok in H. destruct H as [ft [_ H]].
  apply bind_Ok in H. destruct H as [[t1 k] [H1 H]]. injection H as <-.
  unfold createForeignKey in H1.
  apply bind_Ok in H1. destruct H1 as [fc [_ H1]].
  apply bind_Ok in H1. destruct H1 as [lc [_ H1]].
  apply bind_Ok in H1. destruct H1 as [t2 [H2 H1]]. injection H1 as <- _.
  apply (grown_addForeignKey _ t _ t2 G H2).
Qed.
End Growth.

(** *** The snapshot *)

Lemma flat_map_middle {A B} (f : A -> list B) (l1 : list A) (x : A)
    (l2 : list A) :
  flat_map f (l1 ++ x :: l2) = flat_map f l1 ++ f x ++ flat_map f l2.
Proof. rewrite flat_map_app. reflexivity. Qed.

Lemma map_values_middle {V} (m1 : JsMap V) (k : string) (v : V)
    (m2 : JsMap V) :
  map_values (m1 ++ (k, v) :: m2) = map_values m1 ++ v :: map_values m2.
Proof. unfold map_values. rewrite map_app. reflexivity. Qed.

Lemma map_keys_middle {V} (m1 : JsMap V) (k : string) (v : V)
    (m2 : JsMap V) :
  map_keys (m1 ++ (k, v) :: m2) = map_keys m1 ++ k :: map_keys m2.
Proof. unfold map_keys. rewrite map_app. reflexivity. Qed.

Lemma map_set_absent {V} (k : string) (v : V) (m : JsMap V) :
  map_has k m = false -> map_set k v m = m ++ [(k, v)].
Proof.
  unfold map_has.
  induction m as [|[k' v'] r IH]; simpl; [reflexivity|].
  destruct (k =? k') eqn:E; [discriminate|].
  intros H. rewrite (IH H). reflexivity.
Qed.

Lemma NoDup_flat_map_part {A B} (f : B -> nat) (g : A -> list B)
    (l : list A) (x : A) :
  NoDup (List.map f (flat_map g l)) -> In x l -> NoDup (List.map f (g x)).
Proof.
  intros ND Hx. apply in_split in Hx. destruct Hx as [l1 [l2 ->]].
  rewrite flat_map_middle, !map_app, !NoDup_app_iff in ND. tauto.
Qed.

(** A table written back after create operations keeps the snapshot
    sound. *)
Lemma storeTable_grown (d : Definitions) (next next' : nat) (t0 t : Table) :
  Snapshot_sound d -> ids_below next d ->
  map_get (tbl_name t0) (tables d) = Some t0 ->
  next <= next' -> Table_grown next next' t0 t ->
  Snapshot_sound (storeTable d t) /\ ids_below next' (storeTable d t)
  /\ map_keys (tables (storeTable d t)) = map_keys (tables d).
Proof.
  intros [L [TD TV]] [BT [BC BI]] G Hle [H1 [H2 [H3 [H4 [H5 [H6 [H7 H8]]]]]]].
  destruct L as [LK LD LL LC LI].
  destruct (map_set_split _ _ t _ G) as [m1 [m2 [E1 E2]]].
  unfold Snapshot_sound, ids_below, Tables_distinct, allColumns, allIndexes,
    storeTable in *.
  cbn [tables]. rewrite H2, E2.
  rewrite E1 in LK, LD, LL, LC, LI, TD, TV, BT, BC, BI.
  rewrite map_values_middle in LL, LC, LI, TD, TV, BT, BC, BI.
  rewrite flat_map_middle in LC. rewrite flat_map_middle in LI.
  rewrite flat_map_middle in BC. rewrite flat_map_middle in BI.
  rewrite map_keys_middle in LD.
  rewrite !map_values_middle, !flat_map_middle, !map_keys_middle.
  rewrite Forall_app in LK, LL, TV, BT. rewrite Forall_cons_iff in LK, LL, TV, BT.
  rewrite !Forall_app in BC, BI.
  destruct LK as [LK1 [_ LK2]]. destruct LL as [LL1 [_ LL2]].
  destruct TV as [TV1 [_ TV2]]. destruct BT as [BT1 [BT0 BT2]].
  destruct BC as [BC1 [BC0 BC2]]. destruct BI as [BI1 [BI0 BI2]].
  assert (W : forall {A} (f : A -> nat) (l : list A),
             Forall (fun x => f x < next) l ->
             Forall (fun x => f x < next') l).
  { intros A f l F. eapply Forall_impl; [|exact F].
    intros x Hx. simpl in Hx. lia. }
  split; [split; [|split]|split].
  - constructor; cbn [tables]; unfold allColumns, allIndexes; cbn [tables].
    + apply Forall_app. split; [exact LK1|].
      constructor; [simpl; symmetry; exact H2|exact LK2].
    + rewrite map_keys_middle. exact LD.
    + rewrite map_values_middle. apply Forall_app. split; [exact LL1|].
      constructor; [exact H3|exact LL2].
    + rewrite map_values_middle, flat_map_middle.
      apply (NoDup_replace col_id _ (map_values (tbl_columns t0)) _ _ next).
      * exact LC.
      * rewrite !Forall_app. auto.
      * exact H5.
      * eapply Forall_impl; [|exact H7]. intros c [K|K]; [auto|right; lia].
    + rewrite map_values_middle, flat_map_middle.
      apply (NoDup_replace idx_id _ (map_values (tbl_indexes t0)) _ _ next).
      * exact LI.
      * rewrite !Forall_app. auto.
      * exact H6.
      * eapply Forall_impl; [|exact H8]. intros c [K|K]; [auto|right; lia].
  - rewrite map_app in TD |- *. simpl in TD |- *. rewrite H1. exact TD.
  - apply Forall_app. split; [exact TV1|]. constructor; [exact H4|exact TV2].
  - split; [|split].
    + apply Forall_app. split; [apply (W _ tbl_id), BT1|].
      constructor; [rewrite H1; lia|apply (W _ tbl_id), BT2].
    + rewrite !Forall_app. split; [apply (W _ col_id), BC1|].
      split; [|apply (W _ col_id), BC2].
      rewrite Forall_forall in H7, BC0. apply Forall_forall. intros c Hc.
      destruct (H7 c Hc) as [K|K]; [specialize (BC0 c K)|]; lia.
    + rewrite !Forall_app. split; [apply (W _ idx_id), BI1|].
      split; [|apply (W _ idx_id), BI2].
      rewrite Forall_forall in H8, BI0. apply Forall_forall. intros c Hc.
      destruct (H8 c Hc) as [K|K]; [specialize (BI0 c K)|]; lia.
  - rewrite E1, map_keys_middle. reflexivity.
Qed.

(** A stored table is the start of its own growth. *)
Lemma Table_grown_start (d : Definitions) (next : nat) (name : string)
    (t0 : Table) :
  Snapshot_sound d -> ids_below next d -> getTable d name = Ok t0 ->
  map_get (tbl_name t0) (tables d) = Some t0
  /\ Table_grown next next t0 t0
  /\ Forall (fun c => col_id c < next) (map_values (tbl_columns t0))
  /\ Forall (fun i => idx_id i < next) (map_values (tbl_indexes t0)).
Proof.
  intros [L [TD TV]] [BT [BC BI]] H. unfold getTable in H.
  destruct (map_get name (tables d)) as [t|] eqn:G; [|discriminate].
  injection H as ->. pose proof (map_get_values _ _ G) as Hin.
  pose proof (tables_keyed L) as K. rewrite Forall_forall in K.
  pose proof (K _ (map_get_In _ _ G)) as E. simpl in E.
  pose proof (tables_linked L) as LL. rewrite Forall_forall in LL, TV.
  rewrite <- E. split; [exact G|].
  unfold allColumns, allIndexes in BC, BI. rewrite Forall_forall in BC, BI.
  split; [|split].
  - split; [reflexivity|]. split; [reflexivity|].
    split; [apply LL, Hin|]. split; [apply TV, Hin|]. split; [|split; [|split]].
    + apply (NoDup_flat_map_part col_id _ _ t0 (columns_distinct L) Hin).
    + apply (NoDup_flat_map_part idx_id _ _ t0 (indexes_distinct L) Hin).
    + apply Forall_forall. auto.
    + apply Forall_forall. auto.
  - apply Forall_forall. intros c Hc. apply BC, in_flat_map.
    exists t0. auto.
  - apply Forall_forall. intros c Hc. apply BI, in_flat_map.
    exists t0. auto.
Qed.

(** The first loop. *)
Lemma declareTable_sound (a b : Definitions * nat) (table : DrizzleTable) :
  declareTable a table = Ok b ->
  Snapshot_sound (fst a) /\ ids_below (snd a) (fst a) ->
  Snapshot_sound (fst b) /\ ids_below (snd b) (fst b).
Proof.
  destruct a as [d next]. unfold declareTable, createTable, addTable.
  cbn [fst snd]. intros H [[L [TD TV]] [BT [BC BI]]].
  destruct (map_has (tbl_name (Table_new next (dt_name table))) (tables d))
    eqn:M; [discriminate|].
  simpl in H. injection H as <-. cbn [fst snd].
  simpl in M. destruct L as [LK LD LL LC LI].
  unfold Snapshot_sound, ids_below, Tables_distinct, allColumns, allIndexes
    in *.
  cbn [tables tbl_name Table_new].
  rewrite (map_set_absent _ (Table_new next (dt_name table)) _ M).
  assert (EV : map_values (tables d ++ [(dt_name table,
                                          Table_new next (dt_name table))])
               = map_values (tables d) ++ [Table_new next (dt_name table)]).
  { unfold map_values. rewrite map_app. reflexivity. }
  assert (W : forall {A} (f : A -> nat) (l : list A),
             Forall (fun x => f x < next) l ->
             Forall (fun x => f x < S next) l).
  { intros A f l F. eapply Forall_impl; [|exact F].
    intros x Hx. simpl in Hx. lia. }
  split; [split; [|split]|split; [|split]].
  - constructor; cbn [tables]; unfold allColumns, allIndexes; cbn [tables];
      rewrite ?EV.
    + apply Forall_app. split; [exact LK|]. constructor; [reflexivity|].
      constructor.
    + unfold map_keys. rewrite map_app. apply NoDup_app_iff.
      split; [exact LD|]. split; [constructor; [intros []|constructor]|].
      intros k Hk [<-|[]]. apply map_has_keys in Hk. simpl in Hk. congruence.
    + apply Forall_app. split; [exact LL|].
      constructor; [apply Table_new_linked|constructor].
    + rewrite flat_map_app. simpl. rewrite app_nil_r. exact LC.
    + rewrite flat_map_app. simpl. rewrite app_nil_r. exact LI.
  - rewrite EV, map_app. apply NoDup_app_iff. split; [exact TD|].
    split; [constructor; [intros []|constructor]|].
    intros k Hk [<-|[]]. apply in_map_iff in Hk. destruct Hk as [t [E Ht]].
    rewrite Forall_forall in BT. specialize (BT t Ht). simpl in E. lia.
  - rewrite EV. apply Forall_app. split; [exact TV|].
    constructor; [|constructor]. unfold Table_valid. simpl.
    repeat split; constructor.
  - rewrite EV. apply Forall_app. split; [apply (W _ tbl_id), BT|].
    constructor; [simpl; lia|constructor].
  - rewrite EV, flat_map_app. simpl. rewrite app_nil_r.
    apply (W _ col_id), BC.
  - rewrite EV, flat_map_app. simpl. rewrite app_nil_r.
    apply (W _ idx_id), BI.
Qed.

Lemma declareTable_names (ts : list DrizzleTable) (a b : Definitions * nat) :
  foldM declareTable ts a = Ok b ->
  map_keys (tables (fst b))
  = map_keys (tables (fst a)) ++ List.map dt_name ts.
Proof.
  revert a; induction ts as [|table r IH]; simpl; intros a H.
  - injection H as <-. rewrite app_nil_r. reflexivity.
  - apply bind_Ok in H. destruct H as [a1 [H1 H]].
    rewrite (IH a1 H). destruct a as [d next].
    unfold declareTable, createTable, addTable in H1. cbn [fst snd] in H1.
    destruct (map_has (tbl_name (Table_new next (dt_name table))) (tables d))
      eqn:M; [discriminate|].
    simpl in H1. injection H1 as <-. cbn [fst tables]. simpl in M.
    rewrite (map_set_absent _ _ _ M). unfold map_keys.
    rewrite map_app, <- app_assoc. reflexivity.
Qed.

(** The second loop. *)
Lemma declareElements_sound (names : list string) (a b : Definitions * nat)
    (table : DrizzleTable) :
  declareElements a table = Ok b ->
  Snapshot_sound (fst a) /\ ids_below (snd a) (fst a)
  /\ map_keys (tables (fst a)) = names ->
  Snapshot_sound (fst b) /\ ids_below (snd b) (fst b)
  /\ map_keys (tables (fst b)) = names.
Proof.
  destruct a as [d next]. unfold declareElements. cbn [fst snd].
  intros H [S [B K]].
  apply bind_Ok in H. destruct H as [t0 [H0 H]].
  apply bind_Ok in H. destruct H as [s1 [H1 H]].
  apply bind_Ok in H. destruct H as [t2 [H2 H]].
  apply bind_Ok in H. destruct H as [s3 [H3 H]].
  apply bind_Ok in H. destruct H as [t4 [H4 H]]. injection H as <-.
  cbn [fst snd].
  destruct (Table_grown_start d next _ t0 S B H0) as [G [G0 [Bc Bi]]].
  pose (Inv := fun s : Table * nat =>
                 next <= snd s /\ Table_grown next (snd s) t0 (fst s)).
  assert (I1 : Inv s1).
  { apply (foldM_invariant declareColumn Inv _ _ _
             (fun a b x => grown_declareColumn next t0 Bc a b x) H1).
    split; [apply Nat.le_refl|exact G0]. }
  destruct I1 as [Le1 G1].
  assert (G2 : Table_grown next (snd s1) t0 t2).
  { apply (foldM_invariant declarePrimaryKey
             (Table_grown next (snd s1) t0) _ _ _
             (fun a b x => grown_declarePrimaryKey next t0 (snd s1) a x b)
             H2 G1). }
  assert (I3 : Inv s3).
  { apply (foldM_invariant declareIndex Inv _ _ _
             (fun a b x => grown_declareIndex next t0 Bi a b x) H3).
    split; [exact Le1|exact G2]. }
  destruct I3 as [Le3 G3].
  assert (G4 : Table_grown next (snd s3) t0 t4).
  { apply (foldM_invariant declareUnique
             (Table_grown next (snd s3) t0) _ _ _
             (fun a b x => grown_declareUnique next t0 (snd s3) a x b)
             H4 G3). }
  destruct (storeTable_grown d next (snd s3) t0 t4 S B G Le3 G4)
    as [S' [B' K']].
  split; [exact S'|]. split; [exact B'|]. rewrite K'. exact K.
Qed.

(** The third loop. *)
Lemma declareForeignKeys_sound (next : nat) (names : list string)
    (d d' : Definitions) (table : DrizzleTable) :
  declareForeignKeys d table = Ok d' ->
  Snapshot_sound d /\ ids_below next d /\ map_keys (tables d) = names ->
  Snapshot_sound d' /\ ids_below next d' /\ map_keys (tables d') = names.
Proof.
  unfold declareForeignKeys. intros H [S [B K]].
  apply bind_Ok in H. destruct H as [t0 [H0 H]].
  apply bind_Ok in H. destruct H as [t1 [H1 H]]. injection H as <-.
  destruct (Table_grown_start d next _ t0 S B H0) as [G [G0 [Bc Bi]]].
  assert (G1 : Table_grown next next t0 t1).
  { apply (foldM_invariant (declareForeignKey d)
             (Table_grown next next t0) _ _ _
             (fun a b x => grown_declareForeignKey next t0 d next a x b)
             H1 G0). }
  destruct (storeTable_grown d next next t0 t1 S B G (Nat.le_refl _) G1)
    as [S' [B' K']].
  split; [exact S'|]. split; [exact B'|]. rewrite K'. exact K.
Qed.

(** [X29] [definitionsFromDrizzleSchema]: a snapshot that it returns has
    one table for each table of the schema, under the name of that table
    and in the order of the schema; its tables, columns and indexes are
    stored under their names, mounted on their tables and distinct
    objects, and every table passes [verify]. *)
Theorem definitionsFromDrizzleSchema_sound (next : nat)
    (schema : list (option DrizzleTable)) (d : Definitions) :
  definitionsFromDrizzleSchema next schema = Ok d ->
  map_keys (tables d) = List.map dt_name (schemaTables schema)
  /\ Definitions_linked d /\ Tables_distinct d
  /\ Forall (fun t => Table_verify t = Ok tt) (map_values (tables d)).
Proof.
  unfold definitionsFromDrizzleSchema. cbv zeta. intros H.
  apply bind_Ok in H. destruct H as [s1 [H1 H]].
  apply bind_Ok in H. destruct H as [s2 [H2 H3]].
  set (names := List.map dt_name (schemaTables schema)).
  pose proof (declareTable_names _ _ _ H1) as K1. simpl in K1.
  fold names in K1.
  assert (I1 : Snapshot_sound (fst s1) /\ ids_below (snd s1) (fst s1)).
  { apply (foldM_invariant declareTable
             (fun a => Snapshot_sound (fst a) /\ ids_below (snd a) (fst a))
             _ _ _ declareTable_sound H1).
    cbn [fst snd]. split; [split; [|split]|split; [|split]];
      try (constructor; simpl; constructor); simpl; constructor. }
  assert (I2 : Snapshot_sound (fst s2) /\ ids_below (snd s2) (fst s2)
               /\ map_keys (tables (fst s2)) = names).
  { apply (foldM_invariant declareElements
             (fun a => Snapshot_sound (fst a) /\ ids_below (snd a) (fst a)
                       /\ map_keys (tables (fst a)) = names)
             _ _ _ (declareElements_sound names) H2).
    destruct I1 as [S1 B1]. auto. }
  assert (I3 : Snapshot_sound d /\ ids_below (snd s2) d
               /\ map_keys (tables d) = names).
  { apply (foldM_invariant declareForeignKeys
             (fun a => Snapshot_sound a /\ ids_below (snd s2) a
                       /\ map_keys (tables a) = names)
             _ _ _
             (fun a b x => declareForeignKeys_sound (snd s2) names a b x)
             H3 I2). }
  destruct I3 as [[L [TD TV]] [_ K]].
  split; [exact K|]. split; [exact L|]. split; [exact TD|].
  eapply Forall_impl; [|exact TV]. intros t Ht. apply Table_verify_iff, Ht.
Qed.

Lemma definitionsFromDrizzleSchema_sound_witness :
  exists d,
    definitionsFromDrizzleSchema 0 MoreExamples.blogSchema = Ok d
    /\ map_keys (tables d) = ["posts"; "users"]
    /\ Definitions_linked d /\ Tables_distinct d
    /\ Forall (fun t => Table_verify t = Ok tt) (map_values (tables d)).
Proof.
  destruct (definitionsFromDrizzleSchema 0 MoreExamples.blogSchema)
    as [d|m] eqn:E; [|vm_compute in E; discriminate].
  exists d. split; [reflexivity|].
  apply (definitionsFromDrizzleSchema_sound 0 MoreExamples.blogSchema d E).
Defined.
(** ** References to a table that is removed or rebuilt *)




Lemma skipTo_prefix (d : ascii) (w rest : string) :
  occurs d w = false -> skipTo d (w ++ rest) = skipTo d rest.
Proof.
  induction w as [|x w IH]; simpl; [reflexivity|].
  intros H. apply orb_false_iff in H. destruct H as [H1 H2].
  rewrite H1. apply IH, H2.
Qed.



(** *** The pieces of the text of a foreign key *)
















